(** * menu_explore.c: the explore index of RetroArch

    A shallow embedding of [menu/menu_explore.c]: the FNV hashes, the
    open-addressing [ex_hashmap32], the string splitter
    [explore_add_unique_string], the index builder [explore_build_list] and
    the filter loop of [menu_displaylist_explore], followed by the
    properties of the index that the specification states.

    Conventions.
    - A byte is a [Z] in [0, 256); a C string is the [list Z] of its bytes
      before the terminating NUL.  A [uint32_t] is a [Z] reduced with [u32].
    - A pointer to an arena object is a handle: the n-th [explore_string_t]
      allocated by [ex_arena_alloc] has handle [n] (counting from 1) and 0 is
      NULL.  A [uintptr_t] payload of the hash map is a [Z].
    - Reads outside an object, a NULL dereference and a loop that never
      exits are results of their own ([Err]), never a made-up value. *)

From Stdlib Require Import ZArith List Lia Bool String Ascii.
From stdpp Require Import base option list sorting gmap.
Import ListNotations.
Local Open Scope Z_scope.

Set Default Proof Using "Type*".

(** ** Results of fallible code *)

Inductive fault : Type :=
| OutOfBounds      (* a read outside the object *)
| NullDeref        (* a dereference of NULL *)
| BadUnionRead     (* a read of a union member other than the one stored *)
| NoTermination.   (* a loop whose exit condition can never hold *)

Inductive result (A : Type) : Type :=
| Ok (a : A)
| Err (f : fault).
Arguments Ok {A} a.
Arguments Err {A} f.

Definition bind {A B : Type} (r : result A) (k : A -> result B) : result B :=
  match r with
  | Ok a => k a
  | Err f => Err f
  end.

Notation "'do' x <- e ; k" := (bind e (fun x => k))
  (at level 10, x name, e at level 100, k at level 200).
Notation "'do' ' p <- e ; k" := (bind e (fun x => let 'p := x in k))
  (at level 10, p pattern, e at level 100, k at level 200).

(** ** Machine integers and bytes *)

Definition u32 (x : Z) : Z := x mod 2 ^ 32.

(** [arr[i]] on an array of integers; the callers mask or bound the index. *)
Definition rd (arr : list Z) (i : Z) : Z := nth (Z.to_nat i) arr 0.

(** [arr[i] = x] *)
Definition wr (arr : list Z) (i x : Z) : list Z := <[Z.to_nat i := x]> arr.

Definition bytes_of_string (s : string) : list Z :=
  map (fun a => Z.of_N (N_of_ascii a)) (list_ascii_of_string s).

(** [tolower] of the C locale, on an [unsigned char]. *)
Definition tolower (c : Z) : Z :=
  if (65 <=? c) && (c <=? 90) then c + 32 else c.

(** ** Hash functions (32-bit FNV, never 0) *)

Definition FNV_OFFSET : Z := 0x811c9dc5.
Definition FNV_PRIME : Z := 0x01000193.

Definition ex_hash32 (str : list Z) : Z :=
  let hash :=
    fold_left (fun hash c => Z.lxor (u32 (hash * FNV_PRIME)) c) str FNV_OFFSET in
  if hash =? 0 then 1 else hash.

Definition hash_step (f_first f_last : Z) (hash c : Z) : Z :=
  if (f_first <=? c) && (c <=? f_last)
  then Z.lxor (u32 (hash * FNV_PRIME))
              (if (65 <=? c) && (c <=? 90) then Z.lor c 0x20 else c)
  else hash.

(** [str] holds the [len] bytes that the C function walks. *)
Definition ex_hash32_nocase_filtered (str : list Z) (f_first f_last : Z) : Z :=
  let hash := fold_left (hash_step f_first f_last) str FNV_OFFSET in
  if hash =? 0 then 1 else hash.

(** ** The open-addressing map *)

Record ex_hashmap32 : Type := mk_hashmap {
  hm_len : Z;
  hm_cap : Z;
  hm_keys : list Z;
  hm_vals : list Z
}.

(** [ex_hashmap32 map = {0}] *)
Definition hm_zero : ex_hashmap32 :=
  {| hm_len := 0; hm_cap := 0; hm_keys := []; hm_vals := [] |}.

(** The inner loop of [ex_hashmap32__grow]: from [j], the first slot whose
    key is 0.  The probe sequence has period [cap], so [cap] iterations
    without an exit mean that the loop has none. *)
Fixpoint grow_probe (fuel : nat) (cap : Z) (keys : list Z) (j : Z) : result Z :=
  match fuel with
  | O => Err NoTermination
  | S fuel' =>
      let j := Z.land j (u32 (cap - 1)) in
      if rd keys j =? 0 then Ok j else grow_probe fuel' cap keys (j + 1)
  end.

(** One iteration of the outer loop of [ex_hashmap32__grow], on the new
    arrays. *)
Definition grow_move (cap : Z) (kv : list Z * list Z) (old : Z * Z)
  : result (list Z * list Z) :=
  let '(keys, vals) := kv in
  let '(key, val) := old in
  if key =? 0 then Ok kv
  else
    do j <- grow_probe (Z.to_nat cap) cap keys key;
    Ok (wr keys j key, wr vals j val).

(** The outer loop of [ex_hashmap32__grow]: [n] iterations from index [i]
    over the old arrays. *)
Fixpoint grow_loop (n : nat) (i : Z) (old_keys old_vals : list Z) (cap : Z)
    (kv : list Z * list Z) : result (list Z * list Z) :=
  match n with
  | O => Ok kv
  | S n' =>
      do kv' <- grow_move cap kv (rd old_keys i, rd old_vals i);
      grow_loop n' (i + 1) old_keys old_vals cap kv'
  end.

(** [calloc] gives zeros; the [malloc]ed values are never read before they
    are written and are modelled as zeros too. *)
Definition ex_hashmap32__grow (map : ex_hashmap32) (new_cap : Z)
  : result ex_hashmap32 :=
  let cap := if new_cap <? 16 then 16 else new_cap in
  let keys := replicate (Z.to_nat cap) 0 in
  let vals := replicate (Z.to_nat cap) 0 in
  do '(keys', vals') <-
     grow_loop (Z.to_nat (hm_cap map)) 0 (hm_keys map) (hm_vals map) cap
               (keys, vals);
  Ok {| hm_len := hm_len map; hm_cap := cap; hm_keys := keys'; hm_vals := vals' |}.

Fixpoint getnum_loop (fuel : nat) (map : ex_hashmap32) (key i : Z) : result Z :=
  match fuel with
  | O => Err NoTermination
  | S fuel' =>
      let i := Z.land i (u32 (hm_cap map - 1)) in
      if rd (hm_keys map) i =? key then Ok (rd (hm_vals map) i)
      else if rd (hm_keys map) i =? 0 then Ok 0
      else getnum_loop fuel' map key (u32 (i + 1))
  end.

(** The map is always passed by address here, so [!map] is false. *)
Definition ex_hashmap32_getnum (map : ex_hashmap32) (key : Z) : result Z :=
  if (hm_len map =? 0) || (key =? 0) then Ok 0
  else getnum_loop (Z.to_nat (hm_cap map)) map key key.

Fixpoint setnum_loop (fuel : nat) (map : ex_hashmap32) (key val i : Z)
  : result ex_hashmap32 :=
  match fuel with
  | O => Err NoTermination
  | S fuel' =>
      let i := Z.land i (u32 (hm_cap map - 1)) in
      if rd (hm_keys map) i =? 0 then
        Ok {| hm_len := u32 (hm_len map + 1);
              hm_cap := hm_cap map;
              hm_keys := wr (hm_keys map) i key;
              hm_vals := wr (hm_vals map) i val |}
      else if rd (hm_keys map) i =? key then
        Ok {| hm_len := hm_len map;
              hm_cap := hm_cap map;
              hm_keys := hm_keys map;
              hm_vals := wr (hm_vals map) i val |}
      else setnum_loop fuel' map key val (u32 (i + 1))
  end.

Definition ex_hashmap32_setnum (map : ex_hashmap32) (key val : Z)
  : result ex_hashmap32 :=
  if key =? 0 then Ok map
  else
    do map <- (if u32 (2 * hm_len map) >=? hm_cap map
               then ex_hashmap32__grow map (u32 (2 * hm_cap map))
               else Ok map);
    setnum_loop (Z.to_nat (hm_cap map)) map key val key.

Definition ex_hashmap32_getptr := ex_hashmap32_getnum.
Definition ex_hashmap32_setptr := ex_hashmap32_setnum.

Definition ex_hashmap32_strgetnum (map : ex_hashmap32) (str : list Z) : result Z :=
  ex_hashmap32_getnum map (ex_hash32 str).
Definition ex_hashmap32_strsetnum (map : ex_hashmap32) (str : list Z) (num : Z)
  : result ex_hashmap32 :=
  ex_hashmap32_setnum map (ex_hash32 str) num.
Definition ex_hashmap32_strgetptr := ex_hashmap32_strgetnum.
Definition ex_hashmap32_strsetptr := ex_hashmap32_strsetnum.

(** A sequence of [ex_hashmap32_setnum] calls on one map, in order. *)
Fixpoint hm_set_all (ops : list (Z * Z)) (map : ex_hashmap32)
  : result ex_hashmap32 :=
  match ops with
  | [] => Ok map
  | (key, val) :: ops' =>
      do map' <- ex_hashmap32_setnum map key val; hm_set_all ops' map'
  end.



(** ** C strings *)

(** The C string held by a buffer: its bytes before the first NUL. *)
Fixpoint cstr (buf : list Z) : list Z :=
  match buf with
  | [] => []
  | c :: buf' => if c =? 0 then [] else c :: cstr buf'
  end.

(** [s[i]] for a string [s]: index [length s] holds the NUL, anything else
    outside the string is outside the object. *)
Definition cstr_at (s : list Z) (i : Z) : result Z :=
  if (0 <=? i) && (i <=? Z.of_nat (length s))
  then Ok (nth (Z.to_nat i) s 0)
  else Err OutOfBounds.

(** The [len = q - p] bytes from [s + p]; a negative difference is a huge
    [size_t] and walks out of the string. *)
Definition cstr_sub (s : list Z) (p q : Z) : result (list Z) :=
  if (0 <=? p) && (p <=? q) && (q <=? Z.of_nat (length s))
  then Ok (take (Z.to_nat (q - p)) (drop (Z.to_nat p) s))
  else Err OutOfBounds.

(** [strcasecmp] of libc (C locale): the difference of the first pair of
    bytes that differ after [tolower]. *)
Fixpoint strcasecmp (a b : list Z) : Z :=
  match a, b with
  | [], [] => 0
  | [], y :: _ => 0 - tolower y
  | x :: _, [] => tolower x
  | x :: a', y :: b' =>
      if tolower x =? tolower y then strcasecmp a' b' else tolower x - tolower y
  end.

Fixpoint casefold_prefix (needle hay : list Z) : bool :=
  match needle, hay with
  | [], _ => true
  | _ :: _, [] => false
  | x :: needle', y :: hay' => (tolower x =? tolower y) && casefold_prefix needle' hay'
  end.

(** Modelled from the spec: [strcasestr] of [compat/strcasestr.h], which is
    not part of the file, as the case-insensitive substring test of section
    4.7; [true] stands for a non-NULL result. *)
Fixpoint strcasestr (hay needle : list Z) : bool :=
  casefold_prefix needle hay ||
  match hay with
  | [] => false
  | _ :: hay' => strcasestr hay' needle
  end.

(** [strrchr(s, c) != NULL], with the suffix from the last [c]. *)
Fixpoint strrchr (s : list Z) (c : Z) : option (list Z) :=
  match s with
  | [] => None
  | x :: s' =>
      match strrchr s' c with
      | Some r => Some r
      | None => if x =? c then Some s else None
      end
  end.

Definition isspace (c : Z) : bool := (c =? 32) || ((9 <=? c) && (c <=? 13)).

Definition hex_digit (c : Z) : option Z :=
  if (48 <=? c) && (c <=? 57) then Some (c - 48)
  else if (97 <=? c) && (c <=? 102) then Some (c - 87)
  else if (65 <=? c) && (c <=? 70) then Some (c - 55)
  else None.

Fixpoint skip_isspace (s : list Z) : list Z :=
  match s with
  | c :: s' => if isspace c then skip_isspace s' else s
  | [] => []
  end.

Fixpoint hex_value (s : list Z) (acc : Z) : Z :=
  match s with
  | c :: s' =>
      match hex_digit c with
      | Some d => hex_value s' (acc * 16 + d)
      | None => acc
      end
  | [] => acc
  end.

Definition ULONG_MAX : Z := 2 ^ 64 - 1.

(** [strtoul(s, NULL, 16)] of libc with a 64-bit [unsigned long]: white
    space, a sign, an optional [0x] and the run of hexadecimal digits. *)
Definition strtoul16 (s : list Z) : Z :=
  let s := skip_isspace s in
  let '(neg, s) :=
    match s with
    | 45 :: s' => (true, s')
    | 43 :: s' => (false, s')
    | _ => (false, s)
    end in
  let s :=
    match s with
    | 48 :: x :: d :: s' =>
        if ((x =? 120) || (x =? 88)) && bool_decide (hex_digit d <> None)
        then d :: s' else s
    | _ => s
    end in
  let v := hex_value s 0 in
  if v >? ULONG_MAX then ULONG_MAX
  else if neg then (2 ^ 64 - v) mod 2 ^ 64 else v.

Fixpoint decimal_digits (fuel : nat) (n : Z) (acc : list Z) : list Z :=
  match fuel with
  | O => acc
  | S fuel' =>
      let acc' := (48 + n mod 10) :: acc in
      if n <? 10 then acc' else decimal_digits fuel' (n / 10) acc'
  end.

(** [snprintf(buf, 16, "%d", (int)v)]: at most 11 characters. *)
Definition snprintf_d (v : Z) : list Z :=
  let i := (v + 2 ^ 31) mod 2 ^ 32 - 2 ^ 31 in
  if i <? 0 then 45 :: decimal_digits 10 (- i) [] else decimal_digits 10 i [].

(** ** The explore state *)

Definition EXPLORE_CAT_COUNT : nat := 10.
Definition EXPLORE_BY_SYSTEM : nat := 9.

Record explore_by_info_t : Type := mk_info {
  info_name : string;
  info_rdbkey : string;
  info_use_split : bool;
  info_is_company : bool;
  info_is_numeric : bool
}.

Definition explore_by_info : list explore_by_info_t :=
  [ mk_info "Developer"    "developer"   true  true  false;
    mk_info "Publisher"    "publisher"   true  true  false;
    mk_info "Release Year" "releaseyear" false false true;
    mk_info "Player Count" "users"       false false true;
    mk_info "Genre"        "genre"       true  false false;
    mk_info "Origin"       "origin"      false false false;
    mk_info "Region"       "region"      false false false;
    mk_info "Franchise"    "franchise"   false false false;
    mk_info "Tags"         "tags"        true  false false;
    mk_info "System"       "system"      false false false ].

Definition by_info (cat : nat) : explore_by_info_t :=
  nth cat explore_by_info (mk_info "" "" false false false).

(** [explore_string_t]; [s_idx] is 0 until the facet array is sorted. *)
Record explore_string_t : Type := mk_string {
  s_idx : Z;
  s_str : list Z
}.

Record playlist_entry : Type := mk_playlist_entry {
  pe_crc32 : option (list Z);
  pe_db_name : option (list Z);
  pe_label : option (list Z);
  pe_core_name : option (list Z)
}.

(** [explore_entry_t].  [e_by] has one handle per category, 0 for NULL;
    [e_split] is NULL or the NULL-terminated array, terminator included;
    the playlist entry is referenced by its value. *)
Record explore_entry_t : Type := mk_entry {
  e_playlist_entry : playlist_entry;
  e_by : list Z;
  e_split : option (list Z);
  e_original_title : option (list Z)
}.

(** [explore_state_t], without the menu title and the cached playlist. *)
Record explore_state_t : Type := mk_state {
  es_arena : list explore_string_t;
  es_by : list (list Z);
  es_has_unknown : list bool;
  es_entries : list explore_entry_t;
  es_playlists : list (list playlist_entry);
  es_find_string : list Z
}.

(** [calloc(1, sizeof(explore_state_t))] *)
Definition explore_state_zero : explore_state_t :=
  {| es_arena := [];
     es_by := replicate EXPLORE_CAT_COUNT [];
     es_has_unknown := replicate EXPLORE_CAT_COUNT false;
     es_entries := [];
     es_playlists := [];
     es_find_string := [] |}.

(** The object behind a handle; handle [n] is the n-th allocation. *)
Definition arena_get (arena : list explore_string_t) (p : Z) : explore_string_t :=
  nth (Z.to_nat (p - 1)) arena (mk_string 0 []).

Definition by_cat (st : explore_state_t) (cat : nat) : list Z := nth cat (es_by st) [].
Definition entry_by (e : explore_entry_t) (cat : nat) : Z := nth cat (e_by e) 0.
Definition map_cat (maps : list ex_hashmap32) (cat : nat) : ex_hashmap32 :=
  nth cat maps hm_zero.

(** ** Sorting *)

(** The three comparators of the file share one body, on the two strings. *)
Definition explore_qsort_func (a b : list Z) : Z :=
  if negb (nth 0 a 0 =? nth 0 b 0) then nth 0 a 0 - nth 0 b 0
  else strcasecmp a b.

Definition explore_qsort_func_strings (arena : list explore_string_t) (a b : Z) : Z :=
  explore_qsort_func (s_str (arena_get arena a)) (s_str (arena_get arena b)).

Definition label_str (pe : playlist_entry) : list Z := cstr (default [] (pe_label pe)).

Definition explore_qsort_func_entries (a b : explore_entry_t) : Z :=
  explore_qsort_func (label_str (e_playlist_entry a)) (label_str (e_playlist_entry b)).

Definition explore_qsort_func_menulist (a b : list Z * Z) : Z :=
  explore_qsort_func (fst a) (fst b).

(** [qsort] of libc: some sort by the comparator; the order of elements
    that compare equal is not specified by C, here it is that of the merge
    sort. *)
Definition qsort {A : Type} (compar : A -> A -> Z) (l : list A) : list A :=
  @merge_sort A (fun a b => compar a b <= 0)
              (fun a b => decide (compar a b <= 0)) l.

(** ** The string splitter *)

Definition match3 (s : list Z) (p a b c : Z) : result bool :=
  do c0 <- cstr_at s p;
  if negb (tolower c0 =? a) then Ok false
  else
    do c1 <- cstr_at s (p + 1);
    if negb (tolower c1 =? b) then Ok false
    else do c2 <- cstr_at s (p + 2); Ok (tolower c2 =? c).

Definition suffix_len (s : list Z) (p : Z) : result Z :=
  do c3 <- cstr_at s (p + 3); Ok (if c3 =? 46 then 4 else 3).

(** [p] is an offset into the string [s]. *)
Definition explore_check_company_suffix (s : list Z) (p : Z) (search_reverse : bool)
  : result Z :=
  do start <-
     (if search_reverse then
        do c <- cstr_at s (p - 1);
        let p' := p - (if c =? 46 then 4 else 3) in
        do c' <- cstr_at s (p' - 1);
        Ok (if c' =? 32 then Some p' else None)
      else Ok (Some p));
  match start with
  | None => Ok 0
  | Some p =>
      do inc <- match3 s p 105 110 99;
      if inc then suffix_len s p
      else
        do ltd <- match3 s p 108 116 100;
        if ltd then suffix_len s p
        else
          do the <- match3 s p 116 104 101;
          if the then suffix_len s p else Ok 0
  end.

(** What [explore_add_unique_string] works on: the global state, the
    per-category intern maps, the entry being filled and the caller's
    scratch buffer of secondary values. *)
Record add_ctx : Type := mk_ctx {
  cx_state : explore_state_t;
  cx_maps : list ex_hashmap32;
  cx_e : explore_entry_t;
  cx_split_buf : list Z
}.

Definition set_has_unknown (st : explore_state_t) (cat : nat) : explore_state_t :=
  {| es_arena := es_arena st;
     es_by := es_by st;
     es_has_unknown := <[cat := true]> (es_has_unknown st);
     es_entries := es_entries st;
     es_playlists := es_playlists st;
     es_find_string := es_find_string st |}.

(** Lines 429-444: look the segment up by its hash; on a miss copy it into
    the arena, push it on the facet array and register it in the map. *)
Definition explore_intern (st : explore_state_t) (maps : list ex_hashmap32)
    (cat : nat) (seg : list Z) : result (explore_state_t * list ex_hashmap32 * Z) :=
  let hash := ex_hash32_nocase_filtered seg 48 255 in
  do entry <- ex_hashmap32_getptr (map_cat maps cat) hash;
  if entry =? 0 then
    let entry := Z.of_nat (length (es_arena st)) + 1 in
    let st' :=
      {| es_arena := es_arena st ++ [mk_string 0 seg];
         es_by := <[cat := by_cat st cat ++ [entry]]> (es_by st);
         es_has_unknown := es_has_unknown st;
         es_entries := es_entries st;
         es_playlists := es_playlists st;
         es_find_string := es_find_string st |} in
    do map' <- ex_hashmap32_setptr (map_cat maps cat) hash entry;
    Ok (st', <[cat := map']> maps, entry)
  else Ok (st, maps, entry).

(** The intern step of lines 429-444 on the segments of a build, in the
    order in which the loop of line 397 and the calls of lines 707 and 713
    reach it: each is a category and a trimmed segment; the values
    returned are kept in the same order. *)
Fixpoint explore_intern_all (st : explore_state_t) (maps : list ex_hashmap32)
    (ops : list (nat * list Z))
  : result (explore_state_t * list ex_hashmap32 * list Z) :=
  match ops with
  | [] => Ok (st, maps, [])
  | (cat, seg) :: ops' =>
      do '(st1, maps1, p) <- explore_intern st maps cat seg;
      do '(st2, maps2, ps) <- explore_intern_all st1 maps1 ops';
      Ok (st2, maps2, p :: ps)
  end.

(** Lines 446-449: the first value of a field is the primary facet, the
    others go to the scratch buffer, which is NULL for a category without
    split. *)
Definition explore_attach (e : explore_entry_t) (cat : nat) (entry : Z)
    (has_split : bool) (split_buf : list Z) : result (explore_entry_t * list Z) :=
  if entry_by e cat =? 0 then
    Ok ({| e_playlist_entry := e_playlist_entry e;
           e_by := <[cat := entry]> (e_by e);
           e_split := e_split e;
           e_original_title := e_original_title e |}, split_buf)
  else if has_split then Ok (e, split_buf ++ [entry])
  else Err NullDeref.

Definition is_delim (c : Z) : bool := (c =? 47) || (c =? 44) || (c =? 124).

Definition sfuel (s : list Z) : nat := S (S (length s)).

(** [while ( *p == ' ') p++;] *)
Fixpoint skip_spaces (fuel : nat) (s : list Z) (p : Z) : result Z :=
  match fuel with
  | O => Err NoTermination
  | S fuel' =>
      do c <- cstr_at s p;
      if c =? 32 then skip_spaces fuel' s (p + 1) else Ok p
  end.

(** [while (p[-1] == ' ') p--;] *)
Fixpoint back_spaces (fuel : nat) (s : list Z) (p : Z) : result Z :=
  match fuel with
  | O => Err NoTermination
  | S fuel' =>
      do c <- cstr_at s (p - 1);
      if c =? 32 then back_spaces fuel' s (p - 1) else Ok p
  end.

(** Lines 451-465, after a value was added: [None] is [return], [Some q]
    the delimiter from which the next segment starts. *)
Definition after_value (s : list Z) (is_company : bool) (p_next : Z)
  : result (option Z) :=
  do c <- cstr_at s p_next;
  if c =? 0 then Ok None
  else if is_company && (c =? 44) then
    do p <- skip_spaces (sfuel s) s (p_next + 1);
    do n <- explore_check_company_suffix s p false;
    do p <- skip_spaces (sfuel s) s (p + n);
    do c' <- cstr_at s p;
    if c' =? 0 then Ok None
    else if is_delim c' then Ok (Some p)
    else Ok (Some p_next)
  else Ok (Some p_next).

(** The [for (p = str + 1;; p++)] loop, one iteration per unfolding; [str]
    and [p] are offsets into [s].  [p] grows from one iteration to the next,
    so [length s] iterations reach the NUL. *)
Fixpoint add_unique_loop (fuel : nat) (s : list Z) (cat : nat) (has_split : bool)
    (cx : add_ctx) (str p : Z) : result add_ctx :=
  match fuel with
  | O => Err NoTermination
  | S fuel' =>
      do c <- cstr_at s p;
      if negb (is_delim c) && negb (c =? 0) then
        add_unique_loop fuel' s cat has_split cx str (p + 1)
      else if negb has_split && negb (c =? 0) then
        add_unique_loop fuel' s cat has_split cx str (p + 1)
      else
        let p_next := p in
        do str <- skip_spaces (sfuel s) s str;
        do p <- back_spaces (sfuel s) s p;
        if p =? str then
          do c <- cstr_at s p;
          if c =? 0 then Ok cx
          else add_unique_loop fuel' s cat has_split cx str (p + 1)
        else
          let is_company := info_is_company (by_info cat) in
          do p <- (if is_company && (p - str >? 5) then
                     do n <- explore_check_company_suffix s p true;
                     back_spaces (sfuel s) s (p - n)
                   else Ok p);
          do seg <- cstr_sub s str p;
          do '(st, maps, entry) <- explore_intern (cx_state cx) (cx_maps cx) cat seg;
          do '(e, buf) <- explore_attach (cx_e cx) cat entry has_split (cx_split_buf cx);
          let cx := mk_ctx st maps e buf in
          do next <- after_value s is_company p_next;
          match next with
          | None => Ok cx
          | Some p_next =>
              add_unique_loop fuel' s cat has_split cx (p_next + 1) (p_next + 1)
          end
  end.

(** [str] is NULL or a buffer; [split_buf] tells whether the caller passed
    the address of its scratch buffer or NULL. *)
Definition explore_add_unique_string (cx : add_ctx) (cat : nat)
    (str : option (list Z)) (split_buf : bool) : result add_ctx :=
  match option_map cstr str with
  | None | Some [] =>
      Ok (mk_ctx (set_has_unknown (cx_state cx) cat) (cx_maps cx) (cx_e cx)
                 (cx_split_buf cx))
  | Some s =>
      let has_split := split_buf && info_use_split (by_info cat) in
      add_unique_loop (S (length s)) s cat has_split cx 0 1
  end.

(** ** The index builder *)

(** [struct rmsgpack_dom_value], a tagged union. *)
#[local] Unset Elimination Schemes.
Inductive rmsgpack_dom_value : Type :=
| RDT_NULL
| RDT_BOOL (b : bool)
| RDT_INT (i : Z)
| RDT_UINT (u : Z)
| RDT_STRING (buff : list Z)
| RDT_BINARY (buff : list Z)
| RDT_MAP (items : list (rmsgpack_dom_value * rmsgpack_dom_value))
| RDT_ARRAY (items : list rmsgpack_dom_value).
#[local] Set Elimination Schemes.

(** [val->val.string.buff] and [val->val.binary.buff], which share their
    layout; the file reads them without a look at [val->type]. *)
Definition val_buff (v : rmsgpack_dom_value) : result (list Z) :=
  match v with
  | RDT_STRING buff | RDT_BINARY buff => Ok buff
  | _ => Err BadUnionRead
  end.

(** [val->val.int_] *)
Definition val_int (v : rmsgpack_dom_value) : result Z :=
  match v with
  | RDT_INT i | RDT_UINT i => Ok i
  | RDT_BOOL b => Ok (if b then 1 else 0)
  | _ => Err BadUnionRead
  end.

(** [swap_if_little32( *(uint32_t* )buff)]: the first four bytes, big-endian. *)
Definition read_be32 (buff : list Z) : result Z :=
  match buff with
  | b0 :: b1 :: b2 :: b3 :: _ =>
      Ok (Z.lor (Z.shiftl b0 24) (Z.lor (Z.shiftl b1 16) (Z.lor (Z.shiftl b2 8) b3)))
  | _ => Err OutOfBounds
  end.

Record core_info_t : Type := mk_core_info {
  ci_display_name : option (list Z);
  ci_systemname : option (list Z)
}.

(** The collaborators of section 6: the files of the playlist directory
    with their entries, the databases by name ([None] when
    [libretrodb_open] fails, else the items that the cursor yields) and the
    core list. *)
Record explore_env : Type := mk_env {
  env_playlists : list (list Z * list playlist_entry);
  env_database : list Z -> option (list rmsgpack_dom_value);
  env_cores : option (list core_info_t)
}.

Record explore_rdb : Type := mk_rdb {
  rdb_handle : list rmsgpack_dom_value;
  rdb_playlist_entries : ex_hashmap32
}.

Definition UINTPTR_MAX : Z := 2 ^ 64 - 1.

Definition nonempty (s : option (list Z)) : bool :=
  match option_map cstr s with
  | None | Some [] => false
  | Some _ => true
  end.

(** What the playlist loop carries: the opened databases, the name index,
    the entries seen so far (entry [n] has handle [n], from 1). *)
Record index_state : Type := mk_index {
  ix_rdbs : list explore_rdb;
  ix_rdb_indices : ex_hashmap32;
  ix_heap : list playlist_entry
}.

(** Lines 549-602, one playlist entry; the boolean is [used_entries++]. *)
Definition explore_index_entry (env : explore_env) (ix : index_state)
    (handle : Z) (entry : playlist_entry) : result (index_state * bool) :=
  if negb (nonempty (pe_crc32 entry) && nonempty (pe_db_name entry)
           && nonempty (pe_label entry))
  then Ok (ix, false)
  else
    let db_name := cstr (default [] (pe_db_name entry)) in
    do rdb_num <- ex_hashmap32_strgetnum (ix_rdb_indices ix) db_name;
    do '(ix, rdb_num) <-
       (if rdb_num =? 0 then
          match env_database env db_name with
          | None =>
              do idx <- ex_hashmap32_strsetnum (ix_rdb_indices ix) db_name UINTPTR_MAX;
              Ok (mk_index (ix_rdbs ix) idx (ix_heap ix), UINTPTR_MAX)
          | Some items =>
              let rdbs := ix_rdbs ix ++ [mk_rdb items hm_zero] in
              let rdb_num := Z.of_nat (length rdbs) in
              do idx <- ex_hashmap32_strsetnum (ix_rdb_indices ix) db_name rdb_num;
              Ok (mk_index rdbs idx (ix_heap ix), rdb_num)
          end
        else Ok (ix, rdb_num));
    if rdb_num =? UINTPTR_MAX then Ok (ix, false)
    else
      match ix_rdbs ix !! Z.to_nat (rdb_num - 1) with
      | None => Err OutOfBounds
      | Some rdb =>
          let entry_crc32 := u32 (strtoul16 (cstr (default [] (pe_crc32 entry)))) in
          do m <- ex_hashmap32_setptr (rdb_playlist_entries rdb) entry_crc32 handle;
          Ok (mk_index (<[Z.to_nat (rdb_num - 1) := mk_rdb (rdb_handle rdb) m]> (ix_rdbs ix))
                       (ix_rdb_indices ix) (ix_heap ix), true)
      end.

Fixpoint explore_index_entries (env : explore_env) (ix : index_state)
    (handle : Z) (entries : list playlist_entry) (used : bool)
  : result (index_state * bool) :=
  match entries with
  | [] => Ok (ix, used)
  | entry :: entries' =>
      do '(ix', u) <- explore_index_entry env ix handle entry;
      explore_index_entries env ix' (handle + 1) entries' (used || u)
  end.

(** Lines 513-609, one file of the playlist directory. *)
Definition explore_index_playlist (env : explore_env)
    (acc : index_state * list (list playlist_entry))
    (file : list Z * list playlist_entry)
  : result (index_state * list (list playlist_entry)) :=
  let '(ix, playlists) := acc in
  let '(fname, entries) := file in
  match strrchr (cstr fname) 46 with
  | None => Ok acc
  | Some fext =>
      if negb (strcasecmp fext (bytes_of_string ".lpl") =? 0) then Ok acc
      else
        do '(ix', used) <-
           explore_index_entries env ix (Z.of_nat (length (ix_heap ix)) + 1) entries false;
        let ix'' := mk_index (ix_rdbs ix') (ix_rdb_indices ix') (ix_heap ix' ++ entries) in
        Ok (ix'', if used then playlists ++ [entries] else playlists)
  end.

Fixpoint explore_index_playlists (env : explore_env)
    (acc : index_state * list (list playlist_entry))
    (files : list (list Z * list playlist_entry))
  : result (index_state * list (list playlist_entry)) :=
  match files with
  | [] => Ok acc
  | file :: files' =>
      do acc' <- explore_index_playlist env acc file;
      explore_index_playlists env acc' files'
  end.

(** Lines 611-615: the core registry by display name. *)
Fixpoint explore_map_cores (map_cores : ex_hashmap32) (i : Z)
    (cores : list core_info_t) : result ex_hashmap32 :=
  match cores with
  | [] => Ok map_cores
  | core :: cores' =>
      match ci_display_name core with
      | None => Err NullDeref
      | Some name =>
          do m <- ex_hashmap32_strsetptr map_cores (cstr name) (i + 1);
          explore_map_cores m (i + 1) cores'
      end
  end.

(** What lines 645-690 collect from one record. *)
Record record_fields : Type := mk_fields {
  rf_crc32 : option Z;
  rf_original_title : option (list Z);
  rf_fields : list (option (list Z))
}.

Definition find_rdbkey (key_str : list Z) : option nat :=
  fst <$> list_find (fun info => bytes_of_string (info_rdbkey info) = key_str)
                    explore_by_info.

Definition explore_read_pair (acc : record_fields)
    (kv : rmsgpack_dom_value * rmsgpack_dom_value) : result record_fields :=
  let '(key, val) := kv in
  match key with
  | RDT_STRING key_buff =>
      let key_str := cstr key_buff in
      if bool_decide (key_str = bytes_of_string "crc") then
        do buff <- val_buff val;
        do crc32 <- read_be32 buff;
        Ok (mk_fields (Some crc32) (rf_original_title acc) (rf_fields acc))
      else if bool_decide (key_str = bytes_of_string "original_title") then
        do buff <- val_buff val;
        Ok (mk_fields (rf_crc32 acc) (Some buff) (rf_fields acc))
      else
        match find_rdbkey key_str with
        | None => Ok acc
        | Some cat =>
            if info_is_numeric (by_info cat) then
              do i <- val_int val;
              if i =? 0 then Ok acc
              else Ok (mk_fields (rf_crc32 acc) (rf_original_title acc)
                                 (<[cat := Some (snprintf_d i)]> (rf_fields acc)))
            else
              match val with
              | RDT_STRING buff =>
                  Ok (mk_fields (rf_crc32 acc) (rf_original_title acc)
                                (<[cat := Some buff]> (rf_fields acc)))
              | _ => Ok acc
              end
        end
  | _ => Ok acc
  end.

Fixpoint explore_read_pairs (acc : record_fields)
    (items : list (rmsgpack_dom_value * rmsgpack_dom_value)) : result record_fields :=
  match items with
  | [] => Ok acc
  | kv :: items' => do acc' <- explore_read_pair acc kv; explore_read_pairs acc' items'
  end.

(** Lines 706-708: the ten categories of one record, in order. *)
Fixpoint explore_add_fields (cx : add_ctx) (cat : nat)
    (fields : list (option (list Z))) : result add_ctx :=
  match fields with
  | [] => Ok cx
  | field :: fields' =>
      do cx' <- explore_add_unique_string cx cat field true;
      explore_add_fields cx' (S cat) fields'
  end.

(** What the record loop carries. *)
Record builder : Type := mk_builder {
  b_state : explore_state_t;
  b_cat_maps : list ex_hashmap32;
  b_split_buf : list Z
}.

Definition push_entry (st : explore_state_t) (e : explore_entry_t) : explore_state_t :=
  {| es_arena := es_arena st;
     es_by := es_by st;
     es_has_unknown := es_has_unknown st;
     es_entries := es_entries st ++ [e];
     es_playlists := es_playlists st;
     es_find_string := es_find_string st |}.

(** Lines 717-735: the alternate title and the secondary values of the
    entry, copied into the arena with their NULL terminator; the scratch
    buffer is cleared. *)
Definition explore_finish_entry (e : explore_entry_t)
    (original_title : option (list Z)) (split_buf : list Z)
  : explore_entry_t * list Z :=
  let e :=
    if nonempty original_title
    then mk_entry (e_playlist_entry e) (e_by e) (e_split e)
                  (option_map cstr original_title)
    else e in
  match split_buf with
  | [] => (e, [])
  | _ =>
      (mk_entry (e_playlist_entry e) (e_by e) (Some (split_buf ++ [0]))
                (e_original_title e), [])
  end.

(** Lines 632-737, one item of a database. *)
Definition explore_build_record (heap : list playlist_entry)
    (cores : list core_info_t) (map_cores : ex_hashmap32)
    (playlist_entries : ex_hashmap32) (b : builder) (item : rmsgpack_dom_value)
  : result builder :=
  match item with
  | RDT_MAP items =>
      do rf <- explore_read_pairs
                 (mk_fields None None (replicate EXPLORE_CAT_COUNT None)) items;
      match rf_crc32 rf with
      | None => Ok b
      | Some crc32 =>
          do handle <- ex_hashmap32_getptr playlist_entries crc32;
          if handle =? 0 then Ok b
          else
            match heap !! Z.to_nat (handle - 1) with
            | None => Err OutOfBounds
            | Some entry =>
                let e := mk_entry entry (replicate EXPLORE_CAT_COUNT 0) None None in
                do cx <- explore_add_fields
                           (mk_ctx (b_state b) (b_cat_maps b) e (b_split_buf b))
                           0 (rf_fields rf);
                do core_info <-
                   (if nonempty (pe_core_name entry)
                    then ex_hashmap32_strgetptr map_cores
                           (cstr (default [] (pe_core_name entry)))
                    else Ok 0);
                let systemname :=
                  if core_info =? 0 then None
                  else ci_systemname (nth (Z.to_nat (core_info - 1)) cores
                                          (mk_core_info None None)) in
                do cx <- explore_add_unique_string cx EXPLORE_BY_SYSTEM systemname false;
                let '(e, buf) :=
                  explore_finish_entry (cx_e cx) (rf_original_title rf)
                                       (cx_split_buf cx) in
                Ok (mk_builder (push_entry (cx_state cx) e) (cx_maps cx) buf)
            end
      end
  | _ => Ok b
  end.

Fixpoint explore_build_records (heap : list playlist_entry)
    (cores : list core_info_t) (map_cores : ex_hashmap32)
    (playlist_entries : ex_hashmap32) (b : builder)
    (items : list rmsgpack_dom_value) : result builder :=
  match items with
  | [] => Ok b
  | item :: items' =>
      do b' <- explore_build_record heap cores map_cores playlist_entries b item;
      explore_build_records heap cores map_cores playlist_entries b' items'
  end.

(** Lines 619-745, the databases in the order they were opened. *)
Fixpoint explore_build_rdbs (heap : list playlist_entry)
    (cores : list core_info_t) (map_cores : ex_hashmap32) (b : builder)
    (rdbs : list explore_rdb) : result builder :=
  match rdbs with
  | [] => Ok b
  | rdb :: rdbs' =>
      do b' <- explore_build_records heap cores map_cores
                 (rdb_playlist_entries rdb) b (rdb_handle rdb);
      explore_build_rdbs heap cores map_cores b' rdbs'
  end.

(** Lines 759-760: [by[i][idx]->idx = idx]. *)
Fixpoint assign_idx (arena : list explore_string_t) (facets : list Z) (idx : Z)
  : list explore_string_t :=
  match facets with
  | [] => arena
  | p :: facets' =>
      assign_idx (alter (fun s => mk_string idx (s_str s)) (Z.to_nat (p - 1)) arena)
                 facets' (u32 (idx + 1))
  end.

(** Lines 751-763, one category. *)
Definition explore_sort_category (arena : list explore_string_t) (facets : list Z)
  : list explore_string_t * list Z :=
  let sorted := qsort (explore_qsort_func_strings arena) facets in
  (assign_idx arena sorted 0, sorted).

Fixpoint explore_sort_categories (arena : list explore_string_t)
    (by_ : list (list Z)) : list explore_string_t * list (list Z) :=
  match by_ with
  | [] => (arena, [])
  | facets :: by' =>
      let '(arena1, sorted) := explore_sort_category arena facets in
      let '(arena2, rest) := explore_sort_categories arena1 by' in
      (arena2, sorted :: rest)
  end.

(** [explore_build_list], on a state that was freed before. *)
Definition explore_build_list (env : explore_env) : result explore_state_t :=
  do '(ix, playlists) <-
     explore_index_playlists env (mk_index [] hm_zero [], []) (env_playlists env);
  do map_cores <-
     match env_cores env with
     | Some cores => explore_map_cores hm_zero 0 cores
     | None => Ok hm_zero
     end;
  do b <- explore_build_rdbs (ix_heap ix) (default [] (env_cores env)) map_cores
            (mk_builder explore_state_zero (replicate EXPLORE_CAT_COUNT hm_zero) [])
            (ix_rdbs ix);
  let st := b_state b in
  let '(arena, by_) := explore_sort_categories (es_arena st) (es_by st) in
  Ok {| es_arena := arena;
        es_by := by_;
        es_has_unknown := es_has_unknown st;
        es_entries := qsort explore_qsort_func_entries (es_entries st);
        es_playlists := playlists;
        es_find_string := [] |}.

(** ** The filter of [menu_displaylist_explore] *)

Section Query.

(** The two enumerators of [menu_driver.h] and [msg_hash.h] that the item
    types are counted from; their values are not in the file. *)
Variable MENU_SETTINGS_LAST : Z.
Variable FILE_TYPE_RDB : Z.

Definition EXPLORE_TYPE_ADDITIONALFILTER : Z := FILE_TYPE_RDB.
Definition EXPLORE_TYPE_FILTERNULL : Z := MENU_SETTINGS_LAST.
Definition EXPLORE_TYPE_SEARCH : Z := MENU_SETTINGS_LAST + 1.
Definition EXPLORE_TYPE_SHOWALL : Z := MENU_SETTINGS_LAST + 2.
Definition EXPLORE_TYPE_FIRSTCATEGORY : Z := MENU_SETTINGS_LAST + 3.
Definition EXPLORE_TYPE_FIRSTITEM : Z :=
  EXPLORE_TYPE_FIRSTCATEGORY + Z.of_nat EXPLORE_CAT_COUNT.

(** One constraint of the navigation path: [cats[lvl]], [use_split[lvl]],
    [filter[lvl]] (0 for "unknown"). *)
Record level : Type := mk_level {
  lv_cat : nat;
  lv_use_split : bool;
  lv_filter : Z
}.

(** Lines 1047-1066, for the stack positions [pos], with [levels]
    constraints stored so far.  The constraints go to [use_split[10]],
    [cats[10]] and [filter[10]] of lines 1007-1009 at the index [levels],
    which the code does not check: the store of an eleventh constraint is
    outside the arrays. *)
Fixpoint explore_levels_loop (st : explore_state_t) (stack_top : list Z)
    (pos : list nat) (levels : nat) : result (list level) :=
  match pos with
  | [] => Ok []
  | i :: pos' =>
      let by_category := u32 (nth i stack_top 0 - EXPLORE_TYPE_FIRSTCATEGORY) in
      if by_category >=? Z.of_nat EXPLORE_CAT_COUNT
      then explore_levels_loop st stack_top pos' levels
      else if (10 <=? levels)%nat then Err OutOfBounds
      else
        let cat := Z.to_nat by_category in
        let by_selected_type := nth (S i) stack_top 0 in
        do filter <-
           (if by_selected_type =? EXPLORE_TYPE_FILTERNULL then Ok 0
            else
              match by_cat st cat
                      !! Z.to_nat (u32 (by_selected_type - EXPLORE_TYPE_FIRSTITEM)) with
              | Some p => Ok p
              | None => Err OutOfBounds
              end);
        do rest <- explore_levels_loop st stack_top pos' (S levels);
        Ok (mk_level cat (info_use_split (by_info cat)) filter :: rest)
  end.

(** The loop from [levels = 0] of line 1013. *)
Definition explore_levels (st : explore_state_t) (stack_top : list Z) (pos : list nat)
  : result (list level) :=
  explore_levels_loop st stack_top pos 0.

(** Lines 1080-1086 on the array that [e->split] points to:
    [do { if ( *split == filter) break; } while ( *(++split));] and then
    the value of [*split != NULL]. *)
Fixpoint split_scan (split : list Z) (filter : Z) : result bool :=
  match split with
  | [] => Err OutOfBounds
  | x :: rest =>
      if x =? filter then Ok (negb (x =? 0))
      else
        match rest with
        | [] => Err OutOfBounds
        | y :: _ => if y =? 0 then Ok false else split_scan rest filter
        end
  end.

(** Lines 1074-1090: [false] is [goto SKIP_ENTRY]. *)
Fixpoint explore_entry_levels (levels : list level) (e : explore_entry_t)
  : result bool :=
  match levels with
  | [] => Ok true
  | lv :: levels' =>
      if lv_filter lv =? entry_by e (lv_cat lv) then explore_entry_levels levels' e
      else
        match (if lv_use_split lv then e_split e else None) with
        | Some split =>
            do found <- split_scan split (lv_filter lv);
            if found then explore_entry_levels levels' e else Ok false
        | None => Ok false
        end
  end.

(** Lines 1074-1095: the constraints and the free-text search. *)
Definition explore_entry_passes (levels : list level) (find_string : list Z)
    (e : explore_entry_t) : result bool :=
  do ok <- explore_entry_levels levels e;
  if negb ok then Ok false
  else
    let use_find := negb (bool_decide (find_string = [])) in
    Ok (negb (use_find &&
              negb (strcasestr (label_str (e_playlist_entry e)) find_string))).

(** The menu list is a list of paths with their types. *)
Definition item : Type := list Z * Z.

Record filter_acc : Type := mk_acc {
  fa_list : list item;
  fa_map : ex_hashmap32;
  fa_have_unknown : bool
}.

(** Lines 1097-1111: the distinct-value view, one passing entry. *)
Definition explore_collect_value (st : explore_state_t) (current_cat : nat)
    (acc : filter_acc) (e : explore_entry_t) : result filter_acc :=
  let str := entry_by e current_cat in
  if str =? 0 then Ok (mk_acc (fa_list acc) (fa_map acc) true)
  else
    let s := arena_get (es_arena st) str in
    do seen <- ex_hashmap32_getnum (fa_map acc) (u32 (s_idx s + 1));
    if negb (seen =? 0) then Ok acc
    else
      do m <- ex_hashmap32_setnum (fa_map acc) (u32 (s_idx s + 1)) 1;
      Ok (mk_acc (fa_list acc ++ [(s_str s, u32 (EXPLORE_TYPE_FIRSTITEM + s_idx s))])
                 m (fa_have_unknown acc)).

(** Lines 1112-1120: the entry-listing view, one passing entry at index [i]. *)
Definition explore_list_entry (acc : filter_acc) (i : Z) (e : explore_entry_t)
  : filter_acc :=
  let title :=
    match e_original_title e with
    | Some t => t
    | None => label_str (e_playlist_entry e)
    end in
  mk_acc (fa_list acc ++ [(title, u32 (EXPLORE_TYPE_FIRSTITEM + i))])
         (fa_map acc) (fa_have_unknown acc).

(** Lines 1071-1123 from the entry at index [i]. *)
Fixpoint explore_filter_loop (st : explore_state_t) (levels : list level)
    (find_string : list Z) (filtered_category : option nat)
    (acc : filter_acc) (i : Z) (entries : list explore_entry_t) : result filter_acc :=
  match entries with
  | [] => Ok acc
  | e :: entries' =>
      do pass <- explore_entry_passes levels find_string e;
      do acc' <-
         (if negb pass then Ok acc
          else
            match filtered_category with
            | Some current_cat => explore_collect_value st current_cat acc e
            | None => Ok (explore_list_entry acc i e)
            end);
      explore_filter_loop st levels find_string filtered_category acc' (i + 1) entries'
  end.

(** Lines 1068-1133: the list that the third branch appends to [list0]. *)
Definition explore_list_filtered (st : explore_state_t) (levels : list level)
    (find_string : list Z) (filtered_category : option nat) (list0 : list item)
  : result (list item) :=
  do acc <- explore_filter_loop st levels find_string filtered_category
              (mk_acc list0 hm_zero false) 0 (es_entries st);
  match filtered_category with
  | Some _ =>
      let sorted := qsort explore_qsort_func_menulist (fa_list acc) in
      Ok (if fa_have_unknown acc
          then sorted ++ [(bytes_of_string "Unknown", EXPLORE_TYPE_FILTERNULL)]
          else sorted)
  | None => Ok (fa_list acc)
  end.

(** Lines 880-916: the search text is dropped unless a search is on the
    path. *)
Definition explore_find_string (st : explore_state_t) (stack_top : list Z) : list Z :=
  let depth := (length stack_top - 1)%nat in
  let current_type := nth depth stack_top 0 in
  let on_path :=
    existsb (fun i => nth i stack_top 0 =? EXPLORE_TYPE_SEARCH) (seq 1 (depth - 1)) in
  if negb (current_type =? EXPLORE_TYPE_SEARCH) && negb on_path
  then [] else cstr (es_find_string st).

(** The third branch of [menu_displaylist_explore] (lines 1003-1139) for
    the menu stack [stack_top], on an empty [list]; the title is left out. *)
Definition menu_displaylist_explore_filtered (st : explore_state_t)
    (stack_top : list Z) : result (list item) :=
  let depth := (length stack_top - 1)%nat in
  let current_type := nth depth stack_top 0 in
  let current_cat := u32 (current_type - EXPLORE_TYPE_FIRSTCATEGORY) in
  let find_string := explore_find_string st stack_top in
  let use_find := negb (bool_decide (find_string = [])) in
  let is_show_all := (depth =? 1)%nat && negb use_find in
  let is_filtered_category := current_cat <? Z.of_nat EXPLORE_CAT_COUNT in
  let list0 :=
    if is_filtered_category then []
    else if is_show_all
         then [(bytes_of_string "Search Name ...", EXPLORE_TYPE_SEARCH)]
         else [(bytes_of_string "Add Additional Filter", EXPLORE_TYPE_ADDITIONALFILTER)] in
  do levels <- explore_levels st stack_top (seq 1 (depth - 1));
  explore_list_filtered st levels find_string
    (if is_filtered_category then Some (Z.to_nat current_cat) else None) list0.

End Query.

(** ** Scenarios *)

(** An entry as line 700-704 initialises it. *)
Definition entry_init (entry : playlist_entry) : explore_entry_t :=
  mk_entry entry (replicate EXPLORE_CAT_COUNT 0) None None.

Definition playlist_entry_null : playlist_entry :=
  mk_playlist_entry None None None None.

(** The splitter as the record loop starts it on the first record of a
    build: empty state, zeroed maps, empty scratch buffer. *)
Definition cx_first : add_ctx :=
  mk_ctx explore_state_zero (replicate EXPLORE_CAT_COUNT hm_zero)
         (entry_init playlist_entry_null) [].

(** Four segments of a build: three of category 4, of which the first and
    the third differ in case, in a space and in a punctuation mark, and one
    of category 0. *)
Definition segments_first : list (nat * list Z) :=
  [(4%nat, bytes_of_string "Mega Man"); (0%nat, bytes_of_string "Sega");
   (4%nat, bytes_of_string "MEGAMAN!"); (4%nat, bytes_of_string "Zelda")].

(** The field [f1] of one record and then the field [f2] of the next record
    in category [cat] of the same build: the two primary facets and the
    state after both. *)
Definition explore_normalize2 (cat : nat) (f1 f2 : list Z)
  : result (Z * Z * explore_state_t) :=
  do cx1 <- explore_add_unique_string cx_first cat (Some f1) true;
  let '(_, buf) := explore_finish_entry (cx_e cx1) None (cx_split_buf cx1) in
  do cx2 <- explore_add_unique_string
              (mk_ctx (cx_state cx1) (cx_maps cx1) (entry_init playlist_entry_null) buf)
              cat (Some f2) true;
  Ok (entry_by (cx_e cx1) cat, entry_by (cx_e cx2) cat, cx_state cx2).

(** The string of the facet value behind a handle. *)
Definition facet_str (st : explore_state_t) (p : Z) : list Z :=
  s_str (arena_get (es_arena st) p).

(** The order that the specification states for two adjacent values ... *)
Definition spec_order (a b : list Z) : Prop :=
  strcasecmp a b < 0 \/ (strcasecmp a b = 0 /\ nth 0 a 0 <= nth 0 b 0).

(** ... and the order of the comparators: the first byte decides, the
    case-insensitive comparison breaks ties. *)
Definition code_order (a b : list Z) : Prop :=
  nth 0 a 0 < nth 0 b 0 \/ (nth 0 a 0 = nth 0 b 0 /\ strcasecmp a b <= 0).

(** The secondary values of an entry: its split array without the
    terminator. *)
Definition secondary (e : explore_entry_t) : list Z :=
  match e_split e with
  | None => []
  | Some split => removelast split
  end.

(** What line 725-735 guarantees of [e->split]: NULL, or at least one
    non-NULL value and then the terminator. *)
Definition split_ok (e : explore_entry_t) : bool :=
  match e_split e with
  | None => true
  | Some split =>
      negb (bool_decide (removelast split = [])) &&
      forallb (fun p => negb (p =? 0)) (removelast split) &&
      bool_decide (last split = Some 0)
  end.

(** A constraint of the navigation path: a category and the selected facet
    value, 0 for "unknown". *)
Definition level_of (c : nat * Z) : level :=
  mk_level (fst c) (info_use_split (by_info (fst c))) (snd c).

(** Section 4.7: the primary facet is the selected value, or the category
    allows multiple values and the selected value is a secondary one. *)
Definition satisfies (e : explore_entry_t) (c : nat * Z) : Prop :=
  entry_by e (fst c) = snd c \/
  (info_use_split (by_info (fst c)) = true /\ In (snd c) (secondary e)).

Definition set_original_title (e : explore_entry_t) (t : option (list Z))
  : explore_entry_t :=
  mk_entry (e_playlist_entry e) (e_by e) (e_split e) t.

(** The same index with other alternate titles. *)
Definition retitle (f : explore_entry_t -> option (list Z)) (st : explore_state_t)
  : explore_state_t :=
  {| es_arena := es_arena st;
     es_by := es_by st;
     es_has_unknown := es_has_unknown st;
     es_entries := map (fun e => set_original_title e (f e)) (es_entries st);
     es_playlists := es_playlists st;
     es_find_string := es_find_string st |}.

Definition result_map {A B : Type} (f : A -> B) (r : result A) : result B :=
  match r with
  | Ok a => Ok (f a)
  | Err e => Err e
  end.

(** A playlist entry with the checksum ["00000000"], the one database it
    names, and the index state after the entry was indexed first. *)
Definition entry_zero_crc : playlist_entry :=
  mk_playlist_entry (Some (bytes_of_string "00000000"))
                    (Some (bytes_of_string "db")) (Some (bytes_of_string "x")) None.

Definition env_zero_crc : explore_env :=
  mk_env [(bytes_of_string "a.lpl", [entry_zero_crc])]
         (fun name => if bool_decide (name = bytes_of_string "db") then Some [] else None)
         None.

Definition ix_zero_crc : index_state :=
  match explore_index_entry env_zero_crc (mk_index [] hm_zero []) 1 entry_zero_crc with
  | Ok (ix, _) => ix
  | Err _ => mk_index [] hm_zero []
  end.

(** One playlist entry and one record with the genre ["apple/Zebra"]. *)
Definition env_sort : explore_env :=
  mk_env
    [(bytes_of_string "a.lpl",
      [mk_playlist_entry (Some (bytes_of_string "0000002A"))
                         (Some (bytes_of_string "db")) (Some (bytes_of_string "x")) None])]
    (fun name =>
       if bool_decide (name = bytes_of_string "db")
       then Some [RDT_MAP [(RDT_STRING (bytes_of_string "crc"), RDT_BINARY [0; 0; 0; 42]);
                           (RDT_STRING (bytes_of_string "genre"),
                            RDT_STRING (bytes_of_string "apple/Zebra"))]]
       else None)
    None.

Definition st_sort : explore_state_t :=
  match explore_build_list env_sort with
  | Ok st => st
  | Err _ => explore_state_zero
  end.

(** ** The built index *)

Definition facet_idx (st : explore_state_t) (p : Z) : Z :=
  s_idx (arena_get (es_arena st) p).

(** The menu item of a facet value in the distinct-value view. *)
Definition item_of (M : Z) (st : explore_state_t) (p : Z) : item :=
  (facet_str st p, u32 (EXPLORE_TYPE_FIRSTITEM M + facet_idx st p)).

(** Whether the entry passes the constraints and the search. *)
Definition passes (levels : list level) (find_string : list Z)
    (e : explore_entry_t) : bool :=
  match explore_entry_passes levels find_string e with
  | Ok b => b
  | Err _ => false
  end.

(** Whether one of the entries has [p] as its primary facet of [cat]. *)
Definition held (cat : nat) (es : list explore_entry_t) (p : Z) : bool :=
  existsb (fun e => entry_by e cat =? p) es.

Definition playlist_entry_of (crc db label : string) : playlist_entry :=
  mk_playlist_entry (Some (bytes_of_string crc)) (Some (bytes_of_string db))
                    (Some (bytes_of_string label)) None.

Definition string_field (key val : string) : rmsgpack_dom_value * rmsgpack_dom_value :=
  (RDT_STRING (bytes_of_string key), RDT_STRING (bytes_of_string val)).

Definition crc_field (crc : Z) : rmsgpack_dom_value * rmsgpack_dom_value :=
  (RDT_STRING (bytes_of_string "crc"), RDT_BINARY [0; 0; 0; crc]).

(** Three playlist entries and their three records. *)
Definition env_view : explore_env :=
  mk_env
    [(bytes_of_string "a.lpl",
      [playlist_entry_of "00000001" "db" "Sonic";
       playlist_entry_of "00000002" "db" "Mario";
       playlist_entry_of "00000003" "db" "Tetris"])]
    (fun name =>
       if bool_decide (name = bytes_of_string "db")
       then Some [RDT_MAP [crc_field 1; string_field "developer" "Sega";
                           string_field "genre" "Action/Adventure"];
                  RDT_MAP [crc_field 2; string_field "developer" "nintendo";
                           string_field "genre" "Action"];
                  RDT_MAP [crc_field 3; string_field "genre" "Puzzle"]]
       else None)
    None.

Definition st_view : explore_state_t :=
  match explore_build_list env_view with
  | Ok st => st
  | Err _ => explore_state_zero
  end.

(** The entry of "Sonic" in that index: developer "Sega", genre "Action"
    with the secondary value "Adventure". *)
Definition entry_sonic : explore_entry_t :=
  mk_entry (playlist_entry_of "00000001" "db" "Sonic")
           [1; 0; 0; 0; 2; 0; 0; 0; 0; 0] (Some [3; 0]) None.

(** * Invariants *)

(** ** Strings *)

(** The bytes of a C string: none is the terminator. *)
Definition nz (s : list Z) : Prop := Forall (fun c => c <> 0) s.

(** One step of the hash, on the folded byte. *)
Definition hash_step_folded (h c : Z) : Z :=
  if (48 <=? c) && (c <=? 255) then Z.lxor (u32 (h * FNV_PRIME)) c else h.

(** ** The open-addressing map *)

(** The number of occupied slots of a key array. *)
Definition count_nz (l : list Z) : Z :=
  Z.of_nat (length (filter (fun k => k <> 0) l)).

(** The capacities that the map takes: powers of two from 16 to 2^31. *)
Definition pow2cap (c : Z) : Prop := exists e, 4 <= e <= 31 /\ c = 2 ^ e.

(** The slot probed [d] steps after the start [i]. *)
Definition slot (c i d : Z) : Z := (i + d) mod c.

(** Every key sits on the probe path that starts at its own hash slot, and
    the path up to it has no empty slot and no second copy of the key. *)
Definition probe_inv (ks : list Z) (c : Z) : Prop :=
  forall i, 0 <= i < c -> rd ks i <> 0 ->
    exists d, 0 <= d < c /\ slot c (rd ks i) d = i /\
      forall d', 0 <= d' < d ->
        rd ks (slot c (rd ks i) d') <> 0 /\
        rd ks (slot c (rd ks i) d') <> rd ks i.

(** The two arrays of a table of capacity [c]. *)
Record table_inv (ks vs : list Z) (c : Z) : Prop := mk_table_inv {
  ti_cap : pow2cap c;
  ti_keys : Z.of_nat (length ks) = c;
  ti_vals : Z.of_nat (length vs) = c;
  ti_probe : probe_inv ks c
}.

(** The table binds [k] to [v]. *)
Definition entry (ks vs : list Z) (c k v : Z) : Prop :=
  exists i, 0 <= i < c /\ rd ks i = k /\ rd vs i = v.

(** The table has no binding of [k]. *)
Definition absent (ks : list Z) (c k : Z) : Prop :=
  forall i, 0 <= i < c -> rd ks i <> k.

(** A map in use: its table, its count and the load bound that the
    doubling keeps. *)
Record hm_inv (m : ex_hashmap32) : Prop := mk_hm_inv {
  hi_table : table_inv (hm_keys m) (hm_vals m) (hm_cap m);
  hi_len : count_nz (hm_keys m) = hm_len m;
  hi_load : 2 * hm_len m <= hm_cap m
}.

(** A map is either still zero-initialised or a table in use. *)
Definition hm_wf (m : ex_hashmap32) : Prop := m = hm_zero \/ hm_inv m.

(** The table holds the bindings of the finite map [g], and no other. *)
Definition tbl_models (ks vs : list Z) (c : Z) (g : gmap Z Z) : Prop :=
  forall k, k <> 0 ->
    match g !! k with
    | Some v => entry ks vs c k v
    | None => absent ks c k
    end.

Definition hm_models (m : ex_hashmap32) (g : gmap Z Z) : Prop :=
  tbl_models (hm_keys m) (hm_vals m) (hm_cap m) g.

(** The finite map after a run of [set] operations. *)
Definition gm_set_all (ops : list (Z * Z)) (g : gmap Z Z) : gmap Z Z :=
  fold_left (fun g kv => <[fst kv := snd kv]> g) ops g.

(** A key that fits [uint32_t] and is not the reserved 0. *)
Definition u32_key (k : Z) : Prop := 0 < k < 2 ^ 32.

(** ** The intern maps and the index *)

(** The key under which a segment is interned. *)
Definition facet_hash (seg : list Z) : Z := ex_hash32_nocase_filtered seg 48 255.

(** The intern map of a category during a build: a well-formed table whose
    bindings are facet values of the arena, each under the hash of its own
    string. *)
Record intern_inv (st : explore_state_t) (maps : list ex_hashmap32) (cat : nat)
    (g : gmap Z Z) : Prop := mk_intern_inv {
  ii_cat : (cat < length maps)%nat;
  ii_wf : hm_wf (map_cat maps cat);
  ii_models : hm_models (map_cat maps cat) g;
  ii_zero : map_cat maps cat = hm_zero -> g = ∅;
  ii_key0 : g !! 0 = None;
  ii_vals : forall h p, g !! h = Some p ->
              1 <= p <= Z.of_nat (length (es_arena st)) /\
              facet_hash (facet_str st p) = h
}.

(** One category of a built index: the split arrays are well formed, every
    primary facet is NULL or in the facet array, the facet array has no
    NULL, the index of a value is its position, the array ascends strictly
    by the comparator, and it is within the capacity of the map. *)
Record index_inv (st : explore_state_t) (cat : nat) : Prop := mk_index_inv {
  ix_split : forall e, In e (es_entries st) -> split_ok e = true;
  ix_by : forall e, In e (es_entries st) ->
            entry_by e cat = 0 \/ In (entry_by e cat) (by_cat st cat);
  ix_nonnull : forall p, In p (by_cat st cat) -> p <> 0;
  ix_idx : forall (i : nat) p, by_cat st cat !! i = Some p ->
             facet_idx st p = Z.of_nat i;
  ix_sorted : forall (i j : nat) p q,
      (i < j)%nat -> by_cat st cat !! i = Some p -> by_cat st cat !! j = Some q ->
      explore_qsort_func (facet_str st p) (facet_str st q) < 0;
  ix_len : Z.of_nat (length (by_cat st cat)) <= 2 ^ 30
}.

(** What the loop has collected: the item list and the membership set
    stand for the list [seen] of distinct values. *)
Record view_inv (M : Z) (st : explore_state_t) (cat : nat) (acc : filter_acc)
    (seen : list Z) (g : gmap Z Z) : Prop := mk_view_inv {
  vi_list : fa_list acc = map (item_of M st) seen;
  vi_nodup : NoDup seen;
  vi_incl : forall p, In p seen -> In p (by_cat st cat);
  vi_wf : hm_wf (fa_map acc);
  vi_models : hm_models (fa_map acc) g;
  vi_zero : fa_map acc = hm_zero -> g = ∅;
  vi_key0 : g !! 0 = None;
  vi_seen : forall p, In p (by_cat st cat) ->
              g !! (facet_idx st p + 1) = if existsb (Z.eqb p) seen then Some 1 else None;
  vi_len : hm_len (fa_map acc) <= Z.of_nat (length seen)
}.

(** The values that a run of entries adds to [seen]. *)
Fixpoint collect (cat : nat) (seen : list Z) (es : list explore_entry_t) : list Z :=
  match es with
  | [] => seen
  | e :: es' =>
      let p := entry_by e cat in
      if (p =? 0) || existsb (Z.eqb p) seen then collect cat seen es'
      else collect cat (seen ++ [p]) es'
  end.

(** ** The build *)

(** One category while the records are read: the intern map binds the hash
    of every value of the facet array to it, and nothing else. *)
Record cat_inv (st : explore_state_t) (maps : list ex_hashmap32) (cat : nat)
    (g : gmap Z Z) : Prop := mk_cat_inv {
  cv_intern : intern_inv st maps cat g;
  cv_by : forall p, In p (by_cat st cat) <-> exists h, g !! h = Some p;
  cv_nodup : NoDup (by_cat st cat);
  cv_len : hm_len (map_cat maps cat) = Z.of_nat (length (by_cat st cat))
}.

(** The primary facets of an entry are values of the facet arrays. *)
Definition by_ok (st : explore_state_t) (e : explore_entry_t) : Prop :=
  forall cat, (cat < EXPLORE_CAT_COUNT)%nat ->
    entry_by e cat = 0 \/ In (entry_by e cat) (by_cat st cat).

(** The state and the intern maps between two calls of the builder. *)
Record build_inv (st : explore_state_t) (maps : list ex_hashmap32) : Prop :=
  mk_build_inv {
  bi_by : length (es_by st) = EXPLORE_CAT_COUNT;
  bi_cats : forall cat, (cat < EXPLORE_CAT_COUNT)%nat -> exists g, cat_inv st maps cat g;
  bi_nz : forall s, In s (es_arena st) -> nz (s_str s);
  bi_disj : forall c1 c2 p, In p (by_cat st c1) -> In p (by_cat st c2) -> c1 = c2;
  bi_entries : forall e, In e (es_entries st) -> split_ok e = true /\ by_ok st e
}.

(** The entry under construction and the scratch buffer. *)
Record ctx_inv (cx : add_ctx) : Prop := mk_ctx_inv {
  cxi_build : build_inv (cx_state cx) (cx_maps cx);
  cxi_by : by_ok (cx_state cx) (cx_e cx);
  cxi_split : e_split (cx_e cx) = None;
  cxi_buf : Forall (fun p => p <> 0) (cx_split_buf cx)
}.

(** Between two records: the invariant, and an empty scratch buffer. *)
Definition builder_inv (b : builder) : Prop :=
  build_inv (b_state b) (b_cat_maps b) /\ b_split_buf b = [].

(** * The rest of the file *)

(** ** Bytes *)

(** The values of an [unsigned char]. *)
Definition is_bytes (s : list Z) : Prop := Forall (fun c => 0 <= c < 256) s.

(** [c >= f_first && c <= f_last] *)
Definition in_range (f_first f_last c : Z) : bool := (f_first <=? c) && (c <=? f_last).

(** ** Maps built by insertions *)

(** The map that a run of insertions into a zeroed map leaves. *)
Definition hm_of (ops : list (Z * Z)) : ex_hashmap32 :=
  match hm_set_all ops hm_zero with
  | Ok m => m
  | Err _ => hm_zero
  end.

(** Three insertions, two of them with one key. *)
Definition ops_small : list (Z * Z) := [(5, 1); (7, 2); (5, 3)].

(** ** Fields *)

(** A value as the splitter cuts it: not empty, without NUL, and with no
    space at either end. *)
Definition trimmed (body : list Z) : Prop :=
  body <> [] /\ nz body /\ nth 0 body 0 <> 32 /\
  nth (length body - 1) body 0 <> 32.

(** A value with [a] spaces before it and [b] spaces after it. *)
Definition padded (a b : nat) (body : list Z) : list Z :=
  replicate a 32 ++ body ++ replicate b 32.

(** [e->by[cat] = entry] *)
Definition set_by (e : explore_entry_t) (cat : nat) (entry : Z) : explore_entry_t :=
  mk_entry (e_playlist_entry e) (<[cat := entry]> (e_by e)) (e_split e)
           (e_original_title e).

(** The splitter after the [system] field ["Mega Drive"] of the first
    record of a build. *)
Definition cx_system : add_ctx :=
  match explore_add_unique_string cx_first EXPLORE_BY_SYSTEM
          (Some (bytes_of_string "Mega Drive")) true with
  | Ok cx => cx
  | Err _ => cx_first
  end.

(** ** The arena of a build *)

(** Every string of the arena is a trimmed value, and every handle of the
    arena is in the facet array of a category. *)
Record arena_inv (st : explore_state_t) : Prop := mk_arena_inv {
  ai_trimmed : forall x, In x (es_arena st) -> trimmed (s_str x);
  ai_covered : forall p, 1 <= p <= Z.of_nat (length (es_arena st)) ->
                 exists cat, (cat < EXPLORE_CAT_COUNT)%nat /\ In p (by_cat st cat)
}.

(** ** The values that the entries hold *)

(** The entry under construction holds the value [snd c] in the category
    [fst c]: as its primary value, or in the scratch buffer of secondary
    values. *)
Definition has_value (e : explore_entry_t) (buf : list Z) (c : nat * Z) : Prop :=
  entry_by e (fst c) = snd c \/
  (info_use_split (by_info (fst c)) = true /\ In (snd c) buf).

(** Every value of the facet arrays is held by an entry of the state. *)
Definition values_held (st : explore_state_t) : Prop :=
  forall cat p, In p (by_cat st cat) ->
    exists e, In e (es_entries st) /\ satisfies e (cat, p).

(** While a record is read: every value is held by an entry of the state
    or by the entry under construction. *)
Record held_inv (st : explore_state_t) (e : explore_entry_t) (buf : list Z)
  : Prop := mk_held_inv {
  hi_by : length (e_by e) = EXPLORE_CAT_COUNT;
  hi_held : forall cat p, In p (by_cat st cat) ->
              (exists e', In e' (es_entries st) /\ satisfies e' (cat, p)) \/
              has_value e buf (cat, p)
}.

(** ** The "Unknown" flags *)

(** Every flag of a category other than System stands for an entry
    without a value in the category. *)
Definition unknown_held (st : explore_state_t) : Prop :=
  forall cat, cat <> EXPLORE_BY_SYSTEM -> nth cat (es_has_unknown st) false = true ->
    exists e, In e (es_entries st) /\ entry_by e cat = 0.

(** While a record is read, with the categories below [k] done: the entry
    under construction has no value in the categories from [k] on, and a
    flag stands for an entry of the state or for the entry under
    construction. *)
Record unknown_inv (st : explore_state_t) (e : explore_entry_t) (k : nat)
  : Prop := mk_unknown_inv {
  ui_rest : forall c, (k <= c)%nat -> entry_by e c = 0;
  ui_flag : forall cat, cat <> EXPLORE_BY_SYSTEM ->
              nth cat (es_has_unknown st) false = true ->
              (exists e', In e' (es_entries st) /\ entry_by e' cat = 0) \/
              (entry_by e cat = 0 /\ (cat < k)%nat)
}.

(** ** The playlist entries of a build *)

(** Lines 556-563: the playlist entries that are indexed have a checksum,
    a database name and a label, none of them empty. *)
Definition usable (pe : playlist_entry) : bool :=
  nonempty (pe_crc32 pe) && nonempty (pe_db_name pe) && nonempty (pe_label pe).

(** The handle [h] stands for an entry of the playlists [heap] that
    has the property [Q]. *)
Definition handle_ok (Q : playlist_entry -> Prop) (heap : list playlist_entry)
    (h : Z) : Prop :=
  1 <= h /\ exists pe, heap !! Z.to_nat (h - 1) = Some pe /\ Q pe.

(** The checksum map of a database binds checksums to such handles only. *)
Definition rdb_ok (Q : playlist_entry -> Prop) (heap : list playlist_entry)
    (rdb : explore_rdb) : Prop :=
  exists g : gmap Z Z,
    hm_wf (rdb_playlist_entries rdb) /\ hm_models (rdb_playlist_entries rdb) g /\
    (rdb_playlist_entries rdb = hm_zero -> g = ∅) /\ g !! 0 = None /\
    forall k h, g !! k = Some h -> handle_ok Q heap h.

(** The name of a playlist file: its extension is [.lpl] in any case. *)
Definition is_lpl (fname : list Z) : bool :=
  match strrchr (cstr fname) 46 with
  | None => false
  | Some fext => strcasecmp fext (bytes_of_string ".lpl") =? 0
  end.

(** The playlist entry is one that the index uses, from a file of
    [files] whose playlist is among [playlists]. *)
Definition kept (files : list (list Z * list playlist_entry))
    (playlists : list (list playlist_entry)) (pe : playlist_entry) : Prop :=
  usable pe = true /\
  exists fname entries,
    In (fname, entries) files /\ is_lpl fname = true /\
    In pe entries /\ In entries playlists.

(** ** The other branches of [menu_displaylist_explore] *)

Section Menu.

(** The enumerators of [menu_driver.h] and [msg_hash.h] that the file
    compares the item types with; their values are not in the file. *)
Variable MENU_SETTINGS_LAST : Z.
Variable FILE_TYPE_RDB : Z.
Variable MENU_EXPLORE_TAB : Z.

(** Lines 872-876.  [stack_top] holds the types of the menu stack from
    [top_depth] on, so [depth] is its last index. *)
Definition explore_depth (stack_top : list Z) : nat := (length stack_top - 1)%nat.

Definition explore_current_type (stack_top : list Z) : Z :=
  nth (explore_depth stack_top) stack_top 0.

(** [previous_cat] of line 876, an [unsigned]. *)
Definition explore_previous_cat (stack_top : list Z) : Z :=
  let depth := explore_depth stack_top in
  u32 (nth (match depth with O => O | S d => d end) stack_top 0
       - EXPLORE_TYPE_FIRSTCATEGORY MENU_SETTINGS_LAST).

(** The four branches of lines 926-1179. *)
Inductive explore_branch : Type :=
| BranchMenu (is_top : bool)   (* line 926: the top, or an additional filter *)
| BranchCategory               (* line 982: the values of a category *)
| BranchFiltered               (* line 1003: filtered games or values *)
| BranchContent.               (* line 1140: the content page of a game *)

Definition explore_dispatch (stack_top : list Z) : explore_branch :=
  let depth := explore_depth stack_top in
  let current_type := explore_current_type stack_top in
  if (current_type =? MENU_EXPLORE_TAB)
     || (current_type =? EXPLORE_TYPE_ADDITIONALFILTER FILE_TYPE_RDB)
  then BranchMenu (current_type =? MENU_EXPLORE_TAB)
  else if (depth =? 1)%nat
          && negb (current_type =? EXPLORE_TYPE_SEARCH MENU_SETTINGS_LAST)
          && negb (current_type =? EXPLORE_TYPE_SHOWALL MENU_SETTINGS_LAST)
  then BranchCategory
  else if (explore_previous_cat stack_top <? Z.of_nat EXPLORE_CAT_COUNT)
          || (current_type <? EXPLORE_TYPE_FIRSTITEM MENU_SETTINGS_LAST)
  then BranchFiltered
  else BranchContent.

(** [stack_top[i].type == cat + EXPLORE_TYPE_FIRSTCATEGORY] for an [i] in
    [1, depth), lines 959-961. *)
Definition explore_on_path (stack_top : list Z) (cat : nat) : bool :=
  existsb (fun i => nth i stack_top 0
                    =? u32 (Z.of_nat cat + EXPLORE_TYPE_FIRSTCATEGORY MENU_SETTINGS_LAST))
          (seq 1 (explore_depth stack_top - 1)).

(** [snprintf] with ["%u"]. *)
Definition snprintf_u (n : Z) : list Z := decimal_digits 10 (u32 n) [].

(** Lines 963-969: the label of a category in [tmp[512]]. *)
Definition explore_menu_label (st : explore_state_t) (is_top : bool) (cat : nat)
  : list Z :=
  let name := bytes_of_string (info_name (by_info cat)) in
  let entries := by_cat st cat in
  let str := fun p => s_str (arena_get (es_arena st) p) in
  take 511
    (if negb is_top then bytes_of_string "By " ++ name
     else if info_is_numeric (by_info cat) then
       bytes_of_string "By " ++ name ++ bytes_of_string " (" ++
       str (nth 0 entries 0) ++ bytes_of_string " - " ++
       str (List.last entries 0) ++ bytes_of_string ")"
     else
       bytes_of_string "By " ++ name ++ bytes_of_string " (" ++
       snprintf_u (Z.of_nat (length entries)) ++ bytes_of_string " entries)").

(** Lines 926-981, the first branch, on an empty [list]: the search item,
    the categories that have values and are not on the path, and at the
    top "Show All".  At depth 0 lines 880-916 are skipped and the search
    text is as the state has it. *)
Definition explore_list_menu (st : explore_state_t) (stack_top : list Z) : list item :=
  let is_top := explore_current_type stack_top =? MENU_EXPLORE_TAB in
  let find_string :=
    match explore_depth stack_top with
    | O => cstr (es_find_string st)
    | S _ => explore_find_string MENU_SETTINGS_LAST st stack_top
    end in
  (if is_top || bool_decide (find_string = [])
   then [(bytes_of_string "Search Name ...", EXPLORE_TYPE_SEARCH MENU_SETTINGS_LAST)]
   else []) ++
  flat_map
    (fun cat =>
       if bool_decide (by_cat st cat = []) || explore_on_path stack_top cat then []
       else [(explore_menu_label st is_top cat,
              u32 (Z.of_nat cat + EXPLORE_TYPE_FIRSTCATEGORY MENU_SETTINGS_LAST))])
    (seq 0 EXPLORE_CAT_COUNT) ++
  (if is_top
   then [(bytes_of_string "Show All", EXPLORE_TYPE_SHOWALL MENU_SETTINGS_LAST)]
   else []).

(** Lines 982-1002, the second branch, on an empty [list].  [current_cat]
    is the [unsigned] of line 875; [i_last] is [len - 1] in [unsigned], so
    an empty array makes the loop read [entries[0]] of a NULL array, and a
    length that is a multiple of 2^32 makes [i <= i_last] always true. *)
Definition explore_list_category (st : explore_state_t) (current_cat : Z)
  : result (list item) :=
  if Z.of_nat EXPLORE_CAT_COUNT <=? current_cat then Err OutOfBounds
  else
    let cat := Z.to_nat current_cat in
    let entries := by_cat st cat in
    let i_last := u32 (Z.of_nat (length entries) - 1) in
    if i_last =? 2 ^ 32 - 1 then
      Err (match entries with [] => NullDeref | _ :: _ => NoTermination end)
    else
      Ok (imap (fun i p =>
                  (s_str (arena_get (es_arena st) p),
                   u32 (EXPLORE_TYPE_FIRSTITEM MENU_SETTINGS_LAST + Z.of_nat i)))
               (take (Z.to_nat (i_last + 1)) entries) ++
          (if nth cat (es_has_unknown st) false
           then [(bytes_of_string "Unknown", EXPLORE_TYPE_FILTERNULL MENU_SETTINGS_LAST)]
           else [])).

(** Lines 1143-1149, the fourth branch: the entry that the item type
    selects and the title, [strlcpy]ed into [title[1024]]. *)
Definition explore_content_entry (st : explore_state_t) (current_type : Z)
  : result explore_entry_t :=
  match es_entries st
          !! Z.to_nat (u32 (current_type - EXPLORE_TYPE_FIRSTITEM MENU_SETTINGS_LAST)) with
  | Some e => Ok e
  | None => Err OutOfBounds
  end.

Definition explore_content_title (st : explore_state_t) (current_type : Z)
  : result (list Z) :=
  do e <- explore_content_entry st current_type;
  match pe_label (e_playlist_entry e) with
  | Some label => Ok (take 1023 (cstr label))
  | None => Err NullDeref
  end.

End Menu.

(** The title that the entry-listing view shows for an entry, lines
    1116-1118. *)
Definition entry_title (e : explore_entry_t) : list Z :=
  match e_original_title e with
  | Some t => t
  | None => label_str (e_playlist_entry e)
  end.

(** The item of the entry at index [k] of the entries. *)
Definition entry_item (M : Z) (st : explore_state_t) (k : nat) : item :=
  (entry_title (nth k (es_entries st) (entry_init playlist_entry_null)),
   u32 (EXPLORE_TYPE_FIRSTITEM M + Z.of_nat k)).

(** The indices of the entries that pass, ascending. *)
Definition passing_indices (levels : list level) (find_string : list Z)
    (st : explore_state_t) : list nat :=
  List.filter
    (fun k => passes levels find_string
                     (nth k (es_entries st) (entry_init playlist_entry_null)))
    (seq 0 (length (es_entries st))).

(** ** The menu stack of a chain of filters *)

(** The type of the item that selects the value [p] of a category, lines
    990-991 and 1108-1110, or of "Unknown" (lines 996-997 and 1131-1132)
    for [p = 0]. *)
Definition explore_select_type (M : Z) (st : explore_state_t) (p : Z) : Z :=
  if p =? 0 then EXPLORE_TYPE_FILTERNULL M else snd (item_of M st p).

(** The types that the filters [cs] leave on the menu stack, each with the
    "Add Additional Filter" selected after it: the item of the category
    (lines 968-969), the item of the value, and the item of lines
    1041-1043. *)
Definition explore_path (M F : Z) (st : explore_state_t) (cs : list (nat * Z))
  : list Z :=
  flat_map
    (fun c => [u32 (Z.of_nat (fst c) + EXPLORE_TYPE_FIRSTCATEGORY M);
               explore_select_type M st (snd c);
               EXPLORE_TYPE_ADDITIONALFILTER F])
    cs.

(** A filter that the menus offer: a category with one of its values, or
    with 0 for "Unknown". *)
Definition selectable (st : explore_state_t) (c : nat * Z) : Prop :=
  (fst c < EXPLORE_CAT_COUNT)%nat /\ (snd c = 0 \/ In (snd c) (by_cat st (fst c))).

(** ** Stretchy buffers *)

(** A [size_t] of 64 bits. *)
Definition usize (x : Z) : Z := x mod 2 ^ 64.

(** A buffer with its header: [len], [cap], the bytes that [malloc] or
    [realloc] gave it, and the elements below [len].  NULL is [None].
    Allocation is taken to succeed, as the file takes it. *)
Record ex_buf (A : Type) : Type := mk_buf {
  eb_len : Z;
  eb_cap : Z;
  eb_size : Z;
  eb_data : list A
}.
Arguments mk_buf {A} _ _ _ _.
Arguments eb_len {A} _.
Arguments eb_cap {A} _.
Arguments eb_size {A} _.
Arguments eb_data {A} _.

Definition EX_BUF_LEN {A : Type} (b : option (ex_buf A)) : Z :=
  match b with Some h => eb_len h | None => 0 end.

Definition EX_BUF_CAP {A : Type} (b : option (ex_buf A)) : Z :=
  match b with Some h => eb_cap h | None => 0 end.

(** [sizeof(struct ex_buf_hdr)] *)
Definition EX_BUF_HDR_SIZE : Z := 16.

(** Lines 138-153.  [realloc] keeps the elements. *)
Definition ex_buf__grow {A : Type} (buf : option (ex_buf A)) (new_len elem_size : Z)
  : ex_buf A :=
  let new_cap := Z.max (usize (2 * EX_BUF_CAP buf)) (Z.max new_len 16) in
  let new_size := usize (EX_BUF_HDR_SIZE + usize (new_cap * elem_size)) in
  mk_buf (EX_BUF_LEN buf) new_cap new_size
         (match buf with Some h => eb_data h | None => [] end).

(** [EX_BUF_FIT(b, n)] *)
Definition EX_BUF_FIT {A : Type} (b : option (ex_buf A)) (n elem_size : Z)
  : option (ex_buf A) :=
  if n <=? EX_BUF_CAP b then b else Some (ex_buf__grow b n elem_size).

(** [EX_BUF_PUSH(b, val)]: the store at index [len] is inside the
    allocation when the bytes up to its end were allocated. *)
Definition EX_BUF_PUSH {A : Type} (elem_size : Z) (b : option (ex_buf A)) (val : A)
  : result (option (ex_buf A)) :=
  match EX_BUF_FIT b (usize (1 + EX_BUF_LEN b)) elem_size with
  | None => Err NullDeref
  | Some h =>
      if EX_BUF_HDR_SIZE + (eb_len h + 1) * elem_size <=? eb_size h
      then Ok (Some (mk_buf (usize (eb_len h + 1)) (eb_cap h) (eb_size h)
                            (take (Z.to_nat (eb_len h)) (eb_data h) ++ [val])))
      else Err OutOfBounds
  end.

(** [EX_BUF_CLEAR(b)] *)
Definition EX_BUF_CLEAR {A : Type} (b : option (ex_buf A)) : option (ex_buf A) :=
  match b with
  | Some h => Some (mk_buf 0 (eb_cap h) (eb_size h) [])
  | None => None
  end.

(** A run of [EX_BUF_PUSH] on one buffer. *)
Fixpoint ex_buf_push_all {A : Type} (elem_size : Z) (b : option (ex_buf A))
    (vals : list A) : result (option (ex_buf A)) :=
  match vals with
  | [] => Ok b
  | val :: vals' =>
      do b' <- EX_BUF_PUSH elem_size b val; ex_buf_push_all elem_size b' vals'
  end.

(** A buffer that [n] pushes of elements of [elem_size] bytes have
    filled: its capacity is 16 doubled [k] times. *)
Definition buf_filled {A : Type} (elem_size n : Z) (h : ex_buf A) (k : Z) : Prop :=
  eb_len h = n /\ Z.of_nat (length (eb_data h)) = n /\
  0 <= k /\ eb_cap h = 16 * 2 ^ k /\ n <= eb_cap h /\
  (k = 0 \/ eb_cap h < 2 * n) /\
  eb_size h = EX_BUF_HDR_SIZE + eb_cap h * elem_size.

(** ** The arena allocator *)

Definition EX_ARENA_ALIGNMENT : Z := 8.
Definition EX_ARENA_BLOCK_SIZE : Z := 64 * 1024.

(** [(n + a - 1) & ~(a - 1)] in [size_t]. *)
Definition EX_ARENA_ALIGN_UP (n a : Z) : Z :=
  Z.land (usize (n + a - 1)) (usize (Z.lnot (a - 1))).

(** [ex_arena].  The blocks are known by their sizes, in the order of
    [arena->blocks]; [ar_ptr] and [ar_end] are offsets into the last block,
    both 0 while there is none.  [malloc] returns addresses that are
    multiples of 8, so aligning an address of a block up is aligning its
    offset up. *)
Record ex_arena : Type := mk_arena {
  ar_ptr : Z;
  ar_end : Z;
  ar_blocks : list Z
}.

Definition ex_arena_zero : ex_arena := mk_arena 0 0 [].

(** Lines 155-162. *)
Definition ex_arena_grow (arena : ex_arena) (min_size : Z) : ex_arena :=
  let size :=
    EX_ARENA_ALIGN_UP (Z.max min_size EX_ARENA_BLOCK_SIZE) EX_ARENA_ALIGNMENT in
  mk_arena 0 size (ar_blocks arena ++ [size]).

(** Lines 164-175: the pointer returned, as the index of its block and the
    offset in it ([None] is NULL), and the arena after the call. *)
Definition ex_arena_alloc (arena : ex_arena) (size : Z)
  : option (nat * Z) * ex_arena :=
  let arena :=
    if size >? usize (ar_end arena - ar_ptr arena) then ex_arena_grow arena size
    else arena in
  let ptr :=
    match ar_blocks arena with
    | [] => None
    | _ :: _ => Some ((length (ar_blocks arena) - 1)%nat, ar_ptr arena)
    end in
  (ptr,
   mk_arena (EX_ARENA_ALIGN_UP (usize (ar_ptr arena + size)) EX_ARENA_ALIGNMENT)
            (ar_end arena) (ar_blocks arena)).

(** A run of allocations: the pointers with their sizes, and the arena. *)
Fixpoint ex_arena_alloc_all (arena : ex_arena) (sizes : list Z)
  : list (option (nat * Z) * Z) * ex_arena :=
  match sizes with
  | [] => ([], arena)
  | size :: sizes' =>
      let '(ptr, arena1) := ex_arena_alloc arena size in
      let '(ptrs, arena2) := ex_arena_alloc_all arena1 sizes' in
      ((ptr, size) :: ptrs, arena2)
  end.

(** The arena between two allocations: the free part of the last block is
    [ar_ptr, ar_end), both multiples of 8. *)
Definition arena_ok (arena : ex_arena) : Prop :=
  0 <= ar_ptr arena <= ar_end arena /\
  ar_ptr arena mod 8 = 0 /\ ar_end arena mod 8 = 0 /\ ar_end arena <= 2 ^ 63 /\
  match ar_blocks arena with
  | [] => ar_end arena = 0
  | _ :: _ => List.last (ar_blocks arena) 0 = ar_end arena
  end.

(** ** The title *)

(** [explore_append_title], lines 777-786: [vsnprintf] of the formatted
    text [s] into what [title[1024]] has left after its [strlen]. *)
Definition explore_append_title (title s : list Z) : list Z :=
  title ++ take (1023 - length title) s.

(** Lines 887-906 for the stack positions [pos]: the filters of the path,
    ["%s%s: %s"] each; [levels] counts them. *)
Fixpoint explore_title_levels (M : Z) (st : explore_state_t) (stack_top : list Z)
    (pos : list nat) (levels : nat) (title : list Z) : result (list Z) :=
  match pos with
  | [] => Ok title
  | i :: pos' =>
      let by_category := u32 (nth i stack_top 0 - EXPLORE_TYPE_FIRSTCATEGORY M) in
      if by_category >=? Z.of_nat EXPLORE_CAT_COUNT
      then explore_title_levels M st stack_top pos' levels title
      else
        let cat := Z.to_nat by_category in
        let by_selected_type := nth (S i) stack_top 0 in
        do value <-
           (if by_selected_type =? EXPLORE_TYPE_FILTERNULL M
            then Ok (bytes_of_string "Unknown")
            else
              match by_cat st cat
                      !! Z.to_nat (u32 (by_selected_type - EXPLORE_TYPE_FIRSTITEM M)) with
              | Some p => Ok (s_str (arena_get (es_arena st) p))
              | None => Err OutOfBounds
              end);
        explore_title_levels M st stack_top pos' (S levels)
          (explore_append_title title
             ((match levels with O => [] | S _ => bytes_of_string " / " end) ++
              bytes_of_string (info_name (by_info cat)) ++
              bytes_of_string ": " ++ value))
  end.

(** Lines 880-916: below the top of the menu the title is rebuilt from the
    path, and the search text that is kept is appended; at the top the
    title and the search text stay as they are. *)
Definition explore_title_path (M : Z) (st : explore_state_t) (stack_top : list Z)
    (title : list Z) : result (list Z * list Z) :=
  match (length stack_top - 1)%nat with
  | O => Ok (title, cstr (es_find_string st))
  | S d =>
      do t <- explore_title_levels M st stack_top (seq 1 d) 0 [];
      let find_string := explore_find_string M st stack_top in
      Ok (if bool_decide (find_string = []) then t
          else explore_append_title t
                 (bytes_of_string " '" ++ find_string ++ bytes_of_string "'"),
          find_string)
  end.

(** The title after the third branch, lines 1020-1032 and 1135-1136, when
    the list holds [size] items at the end: [" (%u)"] prints
    [(unsigned)(list->size - 1)]. *)
Definition explore_title_filtered (M : Z) (st : explore_state_t) (stack_top : list Z)
    (title : list Z) (size : Z) : result (list Z) :=
  let depth := (length stack_top - 1)%nat in
  let current_type := nth depth stack_top 0 in
  let current_cat := u32 (current_type - EXPLORE_TYPE_FIRSTCATEGORY M) in
  do '(t, find_string) <- explore_title_path M st stack_top title;
  let use_find := negb (bool_decide (find_string = [])) in
  let is_show_all := (depth =? 1)%nat && negb use_find in
  let t :=
    if current_cat <? Z.of_nat EXPLORE_CAT_COUNT
    then explore_append_title t
           (bytes_of_string " - Select " ++
            bytes_of_string (info_name (by_info (Z.to_nat current_cat))))
    else if is_show_all then explore_append_title t (bytes_of_string "All")
    else t in
  Ok (explore_append_title t
        (bytes_of_string " (" ++ snprintf_u (usize (size - 1)) ++
         bytes_of_string ")")).

(** The text of one filter in the title, and of a chain of filters after
    [levels] others. *)
Definition explore_filter_text (st : explore_state_t) (c : nat * Z) : list Z :=
  bytes_of_string (info_name (by_info (fst c))) ++ bytes_of_string ": " ++
  (if snd c =? 0 then bytes_of_string "Unknown" else facet_str st (snd c)).

Fixpoint explore_chain_text (st : explore_state_t) (levels : nat)
    (cs : list (nat * Z)) : list Z :=
  match cs with
  | [] => []
  | c :: cs' =>
      (match levels with O => [] | S _ => bytes_of_string " / " end) ++
      explore_filter_text st c ++ explore_chain_text st (S levels) cs'
  end.

(** * Properties of the open-addressing map *)

(** ** Arrays *)

Lemma rd_lookup (l : list Z) (i : Z) : rd l i = default 0 (l !! Z.to_nat i).
Proof. unfold rd. apply nth_lookup. Qed.

Lemma rd_wr_eq (l : list Z) (i x : Z) :
  0 <= i < Z.of_nat (length l) -> rd (wr l i x) i = x.
Proof.
  intros Hi. rewrite rd_lookup. unfold wr.
  rewrite list_lookup_insert_eq; [reflexivity | lia].
Qed.

Lemma rd_wr_ne (l : list Z) (i j x : Z) :
  0 <= i -> 0 <= j -> i <> j -> rd (wr l i x) j = rd l j.
Proof.
  intros Hi Hj Hne. rewrite !rd_lookup. unfold wr.
  rewrite list_lookup_insert_ne; [reflexivity | lia].
Qed.

Lemma length_wr (l : list Z) (i x : Z) : length (wr l i x) = length l.
Proof. unfold wr. apply length_insert. Qed.

Lemma rd_replicate (n : nat) (i : Z) : rd (replicate n 0) i = 0.
Proof.
  rewrite rd_lookup. destruct (replicate n 0 !! Z.to_nat i) as [x|] eqn:E; [|reflexivity].
  apply lookup_replicate in E. simpl. tauto.
Qed.

Lemma count_nz_nil : count_nz [] = 0.
Proof. reflexivity. Qed.

Lemma count_nz_cons (x : Z) (l : list Z) :
  count_nz (x :: l) = (if x =? 0 then 0 else 1) + count_nz l.
Proof.
  unfold count_nz. rewrite filter_cons.
  destruct (decide (x <> 0)) as [H|H]; destruct (Z.eqb_spec x 0); simpl; lia.
Qed.

Lemma count_nz_app (l1 l2 : list Z) :
  count_nz (l1 ++ l2) = count_nz l1 + count_nz l2.
Proof. unfold count_nz. rewrite filter_app, length_app. lia. Qed.

Lemma count_nz_bounds (l : list Z) : 0 <= count_nz l <= Z.of_nat (length l).
Proof. unfold count_nz. pose proof (length_filter (fun k => k <> 0) l). lia. Qed.

Lemma count_nz_replicate (n : nat) : count_nz (replicate n 0) = 0.
Proof.
  induction n as [|n IH]; [reflexivity|].
  simpl. rewrite count_nz_cons, IH. reflexivity.
Qed.

(** Writing a key into an empty slot occupies one more slot. *)
Lemma count_nz_wr (l : list Z) (i k : Z) :
  0 <= i < Z.of_nat (length l) -> rd l i = 0 -> k <> 0 ->
  count_nz (wr l i k) = count_nz l + 1.
Proof.
  intros Hi Hz Hk. unfold wr.
  assert (Hlt : (Z.to_nat i < length l)%nat) by lia.
  rewrite rd_lookup in Hz.
  destruct (lookup_lt_is_Some_2 l _ Hlt) as [x Hx].
  rewrite Hx in Hz. simpl in Hz. subst x.
  rewrite insert_take_drop by exact Hlt.
  rewrite <- (take_drop_middle l _ _ Hx) at 3.
  rewrite !count_nz_app, !count_nz_cons.
  destruct (Z.eqb_spec k 0); [contradiction|]. simpl. lia.
Qed.

(** A table that is not full has an empty slot. *)
Lemma count_nz_free_slot (l : list Z) :
  count_nz l < Z.of_nat (length l) ->
  exists z, 0 <= z < Z.of_nat (length l) /\ rd l z = 0.
Proof.
  induction l as [|x l IH]; intros H.
  - rewrite count_nz_nil in H. simpl in H. lia.
  - rewrite count_nz_cons in H. destruct (Z.eqb_spec x 0) as [->|Hx].
    + exists 0. split; [simpl; lia | reflexivity].
    + destruct IH as (z & Hz & Hrd); [simpl in H; lia|].
      exists (z + 1). split; [simpl; lia|].
      unfold rd in *. replace (Z.to_nat (z + 1)) with (S (Z.to_nat z)) by lia.
      exact Hrd.
Qed.

(** An occupied slot counts. *)
Lemma count_nz_pos (l : list Z) (i : Z) :
  0 <= i < Z.of_nat (length l) -> rd l i <> 0 -> 0 < count_nz l.
Proof.
  revert i. induction l as [|x l IH]; intros i Hi Hrd.
  - simpl in Hi. lia.
  - rewrite count_nz_cons. pose proof (count_nz_bounds l).
    destruct (Z.eqb_spec x 0) as [->|Hx]; [|lia].
    destruct (Z.eq_dec i 0) as [->|Hi0]; [exfalso; apply Hrd; reflexivity|].
    enough (0 < count_nz l) by lia.
    apply (IH (i - 1)); [simpl in Hi; lia|].
    unfold rd in *. replace (Z.to_nat i) with (S (Z.to_nat (i - 1))) in Hrd by lia.
    exact Hrd.
Qed.

(** ** Capacities and index masking *)

Lemma pow2cap_range (c : Z) : pow2cap c -> 16 <= c <= 2 ^ 31.
Proof.
  intros (e & He & ->). split.
  - change 16 with (2 ^ 4). apply Z.pow_le_mono_r; lia.
  - apply Z.pow_le_mono_r; lia.
Qed.

Lemma pow2cap_divide (c : Z) : pow2cap c -> (c | 2 ^ 32).
Proof.
  intros (e & He & ->). exists (2 ^ (32 - e)).
  rewrite <- Z.pow_add_r by lia. f_equal. lia.
Qed.

Lemma mask_mod (c j : Z) : pow2cap c -> Z.land j (u32 (c - 1)) = j mod c.
Proof.
  intros Hc. pose proof (pow2cap_range c Hc) as Hr.
  destruct Hc as (e & He & ->).
  unfold u32. rewrite Z.mod_small by lia.
  replace (2 ^ e - 1) with (Z.ones e) by (rewrite Z.ones_equiv; lia).
  apply Z.land_ones. lia.
Qed.

Lemma u32_mod_cap (c x : Z) : pow2cap c -> u32 x mod c = x mod c.
Proof.
  intros Hc. unfold u32. apply Z.mod_mod_divide, pow2cap_divide, Hc.
Qed.

Lemma slot_range (c i d : Z) : pow2cap c -> 0 <= slot c i d < c.
Proof. intros Hc. pose proof (pow2cap_range c Hc). apply Z.mod_pos_bound. lia. Qed.

Lemma slot_0 (c i : Z) : slot c i 0 = i mod c.
Proof. unfold slot. f_equal. lia. Qed.

Lemma slot_next_u32 (c i d : Z) :
  pow2cap c -> slot c (u32 (i mod c + 1)) d = slot c i (1 + d).
Proof.
  intros Hc. pose proof (pow2cap_range c Hc). unfold slot.
  rewrite <- Z.add_mod_idemp_l by lia. rewrite u32_mod_cap by exact Hc.
  rewrite Z.add_mod_idemp_l by lia.
  rewrite <- Z.add_assoc. rewrite Z.add_mod_idemp_l by lia. reflexivity.
Qed.

Lemma slot_next (c i d : Z) :
  pow2cap c -> slot c (i mod c + 1) d = slot c i (1 + d).
Proof.
  intros Hc. pose proof (pow2cap_range c Hc). unfold slot.
  rewrite <- Z.add_assoc. rewrite Z.add_mod_idemp_l by lia. reflexivity.
Qed.

(** Every slot is reached from every start within [c] steps. *)
Lemma slot_reach (c i z : Z) :
  pow2cap c -> 0 <= z < c -> exists d, 0 <= d < c /\ slot c i d = z.
Proof.
  intros Hc Hz. pose proof (pow2cap_range c Hc).
  exists ((z - i) mod c). split; [apply Z.mod_pos_bound; lia|].
  unfold slot. rewrite Z.add_mod_idemp_r by lia.
  replace (i + (z - i)) with z by lia. apply Z.mod_small. lia.
Qed.

Lemma slot_inj (c i d1 d2 : Z) :
  pow2cap c -> 0 <= d1 < c -> 0 <= d2 < c ->
  slot c i d1 = slot c i d2 -> d1 = d2.
Proof.
  intros Hc H1 H2 He. pose proof (pow2cap_range c Hc). unfold slot in He.
  assert (Hd : (d1 - d2) mod c = 0).
  { replace (d1 - d2) with ((i + d1) - (i + d2)) by lia.
    rewrite Zminus_mod, He, Z.sub_diag. apply Z.mod_0_l. lia. }
  apply Z.mod_divide in Hd; [|lia]. destruct Hd as [q Hq].
  assert (q = 0) by nia. lia.
Qed.

(** The least index at which a decidable property holds. *)
Lemma first_index (P : Z -> Prop) (Pdec : forall x, {P x} + {~ P x}) (d : Z) :
  0 <= d -> P d ->
  exists n, 0 <= n <= d /\ P n /\ forall d', 0 <= d' < n -> ~ P d'.
Proof.
  intros Hd HP.
  assert (H : forall k : nat,
             (forall d', 0 <= d' < Z.of_nat k -> ~ P d') \/
             (exists n, 0 <= n < Z.of_nat k /\ P n /\
                        forall d', 0 <= d' < n -> ~ P d')).
  { induction k as [|k [IH|IH]].
    - left. intros d' Hd'. lia.
    - destruct (Pdec (Z.of_nat k)) as [Hk|Hk].
      + right. exists (Z.of_nat k). split; [lia|]. split; [exact Hk|exact IH].
      + left. intros d' Hd'. destruct (Z.eq_dec d' (Z.of_nat k)) as [->|Hne];
          [exact Hk | apply IH; lia].
    - right. destruct IH as (n & Hn & HPn & Hmin). exists n. repeat split; auto; lia. }
  destruct (H (Z.to_nat (d + 1))) as [Hno|(n & Hn & HPn & Hmin)].
  - exfalso. apply (Hno d); [lia | exact HP].
  - exists n. repeat split; auto; lia.
Qed.

(** ** The probe loops, step by step *)

Lemma grow_probe_steps (c : Z) (ks : list Z) :
  pow2cap c ->
  forall (n fuel : nat) (j : Z),
    (n < fuel)%nat ->
    (forall d, 0 <= d < Z.of_nat n -> rd ks (slot c j d) <> 0) ->
    rd ks (slot c j (Z.of_nat n)) = 0 ->
    grow_probe fuel c ks j = Ok (slot c j (Z.of_nat n)).
Proof.
  intros Hc. induction n as [|n IH]; intros fuel j Hf Hpath Hstop;
    (destruct fuel as [|fuel]; [lia|]); simpl; rewrite (mask_mod c j Hc).
  - change (Z.of_nat 0) with 0 in *. rewrite slot_0 in *. rewrite Hstop. reflexivity.
  - pose proof (Hpath 0 ltac:(lia)) as H0. rewrite slot_0 in H0.
    destruct (Z.eqb_spec (rd ks (j mod c)) 0) as [E|_]; [contradiction|].
    rewrite (IH fuel (j mod c + 1)).
    + rewrite slot_next by exact Hc. f_equal. f_equal. lia.
    + lia.
    + intros d Hd. rewrite slot_next by exact Hc. apply Hpath. lia.
    + rewrite slot_next by exact Hc. replace (1 + Z.of_nat n) with (Z.of_nat (S n)) by lia.
      exact Hstop.
Qed.

Lemma getnum_loop_steps (m : ex_hashmap32) (key : Z) :
  pow2cap (hm_cap m) ->
  forall (n fuel : nat) (i : Z),
    (n < fuel)%nat ->
    (forall d, 0 <= d < Z.of_nat n ->
               rd (hm_keys m) (slot (hm_cap m) i d) <> key /\
               rd (hm_keys m) (slot (hm_cap m) i d) <> 0) ->
    let s := slot (hm_cap m) i (Z.of_nat n) in
    rd (hm_keys m) s = key \/ rd (hm_keys m) s = 0 ->
    getnum_loop fuel m key i =
      Ok (if rd (hm_keys m) s =? key then rd (hm_vals m) s else 0).
Proof.
  intros Hc. induction n as [|n IH]; intros fuel i Hf Hpath s Hstop;
    (destruct fuel as [|fuel]; [lia|]); simpl; rewrite (mask_mod _ i Hc); subst s.
  - change (Z.of_nat 0) with 0 in *. rewrite slot_0 in *.
    destruct (Z.eqb_spec (rd (hm_keys m) (i mod hm_cap m)) key) as [E|E]; [reflexivity|].
    destruct Hstop as [Hs|Hs]; [contradiction|]. rewrite Hs. reflexivity.
  - pose proof (Hpath 0 ltac:(lia)) as [H0 H0']. rewrite slot_0 in H0, H0'.
    destruct (Z.eqb_spec (rd (hm_keys m) (i mod hm_cap m)) key) as [E|_]; [contradiction|].
    destruct (Z.eqb_spec (rd (hm_keys m) (i mod hm_cap m)) 0) as [E|_]; [contradiction|].
    rewrite (IH fuel (u32 (i mod hm_cap m + 1))).
    + rewrite slot_next_u32 by exact Hc.
      replace (1 + Z.of_nat n) with (Z.of_nat (S n)) by lia. reflexivity.
    + lia.
    + intros d Hd. rewrite slot_next_u32 by exact Hc. apply Hpath. lia.
    + rewrite slot_next_u32 by exact Hc.
      replace (1 + Z.of_nat n) with (Z.of_nat (S n)) by lia. exact Hstop.
Qed.

Lemma setnum_loop_steps (m : ex_hashmap32) (key val : Z) :
  pow2cap (hm_cap m) ->
  forall (n fuel : nat) (i : Z),
    (n < fuel)%nat ->
    (forall d, 0 <= d < Z.of_nat n ->
               rd (hm_keys m) (slot (hm_cap m) i d) <> key /\
               rd (hm_keys m) (slot (hm_cap m) i d) <> 0) ->
    let s := slot (hm_cap m) i (Z.of_nat n) in
    rd (hm_keys m) s = key \/ rd (hm_keys m) s = 0 ->
    setnum_loop fuel m key val i =
      Ok (if rd (hm_keys m) s =? 0
          then {| hm_len := u32 (hm_len m + 1); hm_cap := hm_cap m;
                  hm_keys := wr (hm_keys m) s key; hm_vals := wr (hm_vals m) s val |}
          else {| hm_len := hm_len m; hm_cap := hm_cap m;
                  hm_keys := hm_keys m; hm_vals := wr (hm_vals m) s val |}).
Proof.
  intros Hc. induction n as [|n IH]; intros fuel i Hf Hpath s Hstop;
    (destruct fuel as [|fuel]; [lia|]); simpl; rewrite (mask_mod _ i Hc); subst s.
  - change (Z.of_nat 0) with 0 in *. rewrite slot_0 in *.
    destruct (Z.eqb_spec (rd (hm_keys m) (i mod hm_cap m)) 0) as [E|E]; [reflexivity|].
    destruct Hstop as [Hs|Hs]; [|contradiction].
    rewrite Hs, Z.eqb_refl. reflexivity.
  - pose proof (Hpath 0 ltac:(lia)) as [H0 H0']. rewrite slot_0 in H0, H0'.
    destruct (Z.eqb_spec (rd (hm_keys m) (i mod hm_cap m)) 0) as [E|_]; [contradiction|].
    destruct (Z.eqb_spec (rd (hm_keys m) (i mod hm_cap m)) key) as [E|_]; [contradiction|].
    rewrite (IH fuel (u32 (i mod hm_cap m + 1))).
    + rewrite slot_next_u32 by exact Hc.
      replace (1 + Z.of_nat n) with (Z.of_nat (S n)) by lia. reflexivity.
    + lia.
    + intros d Hd. rewrite slot_next_u32 by exact Hc. apply Hpath. lia.
    + rewrite slot_next_u32 by exact Hc.
      replace (1 + Z.of_nat n) with (Z.of_nat (S n)) by lia. exact Hstop.
Qed.

(** ** The table invariant *)

Lemma absent_dec (ks : list Z) (c k : Z) :
  Z.of_nat (length ks) = c ->
  absent ks c k \/ exists i, 0 <= i < c /\ rd ks i = k.
Proof.
  intros Hlen. destruct (decide (k ∈ ks)) as [Hin|Hnin].
  - right. apply list_elem_of_lookup in Hin as [n Hn].
    pose proof (lookup_lt_Some _ _ _ Hn).
    exists (Z.of_nat n). split; [lia|].
    rewrite rd_lookup, Nat2Z.id, Hn. reflexivity.
  - left. intros i Hi Hrd. apply Hnin.
    rewrite rd_lookup in Hrd.
    destruct (ks !! Z.to_nat i) as [x|] eqn:E.
    + simpl in Hrd. subst x. eapply list_elem_of_lookup_2; eauto.
    + apply lookup_ge_None in E. lia.
Qed.

Lemma probe_inv_unique (ks : list Z) (c i j : Z) :
  pow2cap c -> probe_inv ks c ->
  0 <= i < c -> 0 <= j < c -> rd ks i <> 0 -> rd ks i = rd ks j -> i = j.
Proof.
  intros Hc HP Hi Hj Hnz He.
  destruct (HP i Hi Hnz) as (di & Hdi & Hsi & Hpi).
  destruct (HP j Hj ltac:(congruence)) as (dj & Hdj & Hsj & Hpj).
  rewrite <- He in Hsj, Hpj.
  destruct (Z.lt_trichotomy di dj) as [Hlt|[Heq|Hgt]].
  - destruct (Hpj di ltac:(lia)) as [_ Hne]. rewrite Hsi in Hne. contradiction.
  - subst dj. congruence.
  - destruct (Hpi dj ltac:(lia)) as [_ Hne]. rewrite Hsj in Hne. congruence.
Qed.

Lemma probe_inv_replicate (n : nat) (c : Z) : probe_inv (replicate n 0) c.
Proof. intros i Hi Hnz. rewrite rd_replicate in Hnz. contradiction. Qed.

(** The probe for a key that is in the table ends at its slot. *)
Lemma probe_found (ks : list Z) (c i : Z) :
  probe_inv ks c -> 0 <= i < c -> rd ks i <> 0 ->
  exists n : nat, (n < Z.to_nat c)%nat /\ slot c (rd ks i) (Z.of_nat n) = i /\
    forall d, 0 <= d < Z.of_nat n ->
      rd ks (slot c (rd ks i) d) <> rd ks i /\ rd ks (slot c (rd ks i) d) <> 0.
Proof.
  intros HP Hi Hnz. destruct (HP i Hi Hnz) as (d & Hd & Hs & Hp).
  exists (Z.to_nat d). rewrite Z2Nat.id by lia. split; [lia|]. split; [exact Hs|].
  intros d' Hd'. destruct (Hp d' Hd'). tauto.
Qed.

(** The probe for a key that is not in a table with a free slot ends at the
    first free slot of its path. *)
Lemma probe_free (ks : list Z) (c k : Z) :
  pow2cap c -> Z.of_nat (length ks) = c -> count_nz ks < c ->
  exists n : nat, (n < Z.to_nat c)%nat /\ rd ks (slot c k (Z.of_nat n)) = 0 /\
    forall d, 0 <= d < Z.of_nat n -> rd ks (slot c k d) <> 0.
Proof.
  intros Hc Hlen Hcnt. rewrite <- Hlen in Hcnt.
  destruct (count_nz_free_slot ks Hcnt) as (z & Hz & Hrd).
  rewrite Hlen in Hz.
  destruct (slot_reach c k z Hc Hz) as (d & Hd & Hs).
  destruct (first_index (fun d => rd ks (slot c k d) = 0)
              (fun d => Z.eq_dec _ _) d) as (n & Hn & Hn0 & Hmin);
    [lia | rewrite Hs; exact Hrd |].
  exists (Z.to_nat n). rewrite Z2Nat.id by lia. split; [lia|]. split; [exact Hn0|].
  exact Hmin.
Qed.

(** Writing an absent key at the first free slot of its path keeps the
    invariant. *)
Lemma probe_inv_insert (ks : list Z) (c k n : Z) :
  pow2cap c -> Z.of_nat (length ks) = c -> probe_inv ks c ->
  k <> 0 -> absent ks c k -> 0 <= n < c ->
  rd ks (slot c k n) = 0 ->
  (forall d, 0 <= d < n -> rd ks (slot c k d) <> 0) ->
  probe_inv (wr ks (slot c k n) k) c.
Proof.
  intros Hc Hlen HP Hk Habs Hn Hfree Hpath i Hi Hnz.
  pose proof (slot_range c k n Hc) as Hj.
  destruct (Z.eq_dec i (slot c k n)) as [->|Hne].
  - rewrite rd_wr_eq by lia. exists n. split; [lia|]. split; [reflexivity|].
    intros d' Hd'. pose proof (slot_range c k d' Hc).
    assert (slot c k d' <> slot c k n).
    { intros E. apply slot_inj in E; [lia | exact Hc | lia | lia]. }
    rewrite rd_wr_ne by lia. split; [apply Hpath; lia | apply Habs; lia].
  - rewrite rd_wr_ne in * by lia.
    destruct (HP i Hi Hnz) as (d & Hd & Hs & Hp).
    exists d. split; [lia|]. split; [exact Hs|].
    intros d' Hd'. destruct (Hp d' Hd') as [Hp0 Hpk].
    pose proof (slot_range c (rd ks i) d' Hc).
    assert (slot c (rd ks i) d' <> slot c k n) by congruence.
    rewrite rd_wr_ne by lia. tauto.
Qed.

(** ** The map invariant and its abstraction as a finite map *)

Lemma hm_models_zero : hm_models hm_zero ∅.
Proof. intros k Hk. rewrite lookup_empty. intros i Hi. simpl in Hi. lia. Qed.

Lemma pow2cap_even (c : Z) : pow2cap c -> exists q, c = 2 * q.
Proof.
  intros (e & He & ->). exists (2 ^ (e - 1)).
  rewrite <- Z.pow_succ_r by lia. f_equal. lia.
Qed.

Lemma pow2cap_double (c : Z) : pow2cap c -> c < 2 ^ 31 -> pow2cap (2 * c).
Proof.
  intros (e & He & ->) Hlt. exists (e + 1).
  assert (e < 31). { apply (Z.pow_lt_mono_r_iff 2); lia. }
  split; [lia|]. rewrite Z.pow_add_r by lia. lia.
Qed.

Theorem ex_hashmap32_getnum_spec (m : ex_hashmap32) (g : gmap Z Z) (key : Z) :
  hm_wf m -> hm_models m g -> g !! 0 = None ->
  ex_hashmap32_getnum m key = Ok (default 0 (g !! key)).
Proof.
  intros Hwf Hmod Hg0. unfold ex_hashmap32_getnum.
  destruct (Z.eqb_spec key 0) as [->|Hk].
  { rewrite orb_true_r, Hg0. reflexivity. }
  rewrite orb_false_r. specialize (Hmod key Hk).
  destruct (Z.eqb_spec (hm_len m) 0) as [Hl0|Hl0].
  - destruct (g !! key) as [v|]; [|reflexivity]. exfalso.
    destruct Hmod as (i & Hi & Hrk & _).
    destruct Hwf as [->|[[_ Hlen _ _] Hcnt _]]; [simpl in Hi; lia|].
    pose proof (count_nz_pos (hm_keys m) i ltac:(lia) ltac:(lia)). lia.
  - destruct Hwf as [->|[[Hc Hlen Hlenv HP] Hcnt Hload]]; [contradiction|].
    pose proof (pow2cap_range _ Hc) as Hr.
    destruct (g !! key) as [v|]; simpl.
    + destruct Hmod as (i & Hi & Hrk & Hrv).
      destruct (probe_found _ _ i HP Hi ltac:(lia)) as (n & Hn & Hs & Hpath).
      rewrite Hrk in Hs, Hpath.
      rewrite (getnum_loop_steps m key Hc n _ key Hn Hpath); rewrite Hs.
      * rewrite Hrk, Z.eqb_refl, Hrv. reflexivity.
      * left. exact Hrk.
    + pose proof (count_nz_bounds (hm_keys m)).
      destruct (probe_free (hm_keys m) (hm_cap m) key Hc Hlen ltac:(lia))
        as (n & Hn & Hfree & Hpath).
      rewrite (getnum_loop_steps m key Hc n _ key Hn).
      * rewrite Hfree. destruct (Z.eqb_spec 0 key); [lia | reflexivity].
      * intros d Hd. split; [apply Hmod, slot_range, Hc | apply Hpath, Hd].
      * right. exact Hfree.
Qed.

(** The insertion loop on a table in use that is less than half full. *)
Lemma setnum_loop_spec (m : ex_hashmap32) (g : gmap Z Z) (key val : Z) :
  hm_inv m -> hm_models m g -> 2 * hm_len m < hm_cap m -> key <> 0 ->
  exists m',
    setnum_loop (Z.to_nat (hm_cap m)) m key val key = Ok m' /\
    hm_inv m' /\ hm_models m' (<[key := val]> g) /\
    hm_len m' = match g !! key with
                | Some _ => hm_len m
                | None => hm_len m + 1
                end.
Proof.
  intros [[Hc Hlen Hlenv HP] Hcnt Hload] Hmod Hroom Hk.
  pose proof (pow2cap_range _ Hc) as Hr.
  pose proof (Hmod key Hk) as Hkey.
  destruct (g !! key) as [v0|] eqn:Eg.
  - (* the key is in the table: its value is overwritten in place *)
    destruct Hkey as (i & Hi & Hrk & Hrv).
    destruct (probe_found _ _ i HP Hi ltac:(lia)) as (n & Hn & Hs & Hpath).
    rewrite Hrk in Hs, Hpath.
    eexists. split.
    { rewrite (setnum_loop_steps m key val Hc n _ key Hn Hpath); rewrite Hs.
      - rewrite Hrk. destruct (Z.eqb_spec key 0); [contradiction|]. reflexivity.
      - left. exact Hrk. }
    split; [|split; [|reflexivity]].
    + constructor; simpl; try assumption.
      constructor; try assumption. rewrite length_wr. exact Hlenv.
    + intros k' Hk'. unfold hm_models in Hmod. simpl.
      destruct (Z.eq_dec key k') as [<-|Hne].
      * rewrite lookup_insert_eq. exists i. repeat split; try lia; try assumption.
        apply rd_wr_eq. lia.
      * rewrite lookup_insert_ne by exact Hne. specialize (Hmod k' Hk').
        destruct (g !! k') as [v'|]; [|exact Hmod].
        destruct Hmod as (i' & Hi' & Hrk' & Hrv').
        exists i'. repeat split; try lia; try assumption.
        rewrite rd_wr_ne; [exact Hrv' | lia | lia | congruence].
  - (* the key is new: it goes to the first free slot of its path *)
    pose proof (count_nz_bounds (hm_keys m)).
    destruct (probe_free (hm_keys m) (hm_cap m) key Hc Hlen ltac:(lia))
      as (n & Hn & Hfree & Hpath).
    pose proof (slot_range (hm_cap m) key (Z.of_nat n) Hc) as Hs.
    destruct (pow2cap_even _ Hc) as [q Hq].
    eexists. split.
    { rewrite (setnum_loop_steps m key val Hc n _ key Hn).
      - rewrite Hfree. simpl. reflexivity.
      - intros d Hd. split; [apply Hkey, slot_range, Hc | apply Hpath, Hd].
      - right. exact Hfree. }
    assert (Hu : u32 (hm_len m + 1) = hm_len m + 1).
    { unfold u32. apply Z.mod_small. lia. }
    split; [|split; [|simpl; exact Hu]].
    + constructor; simpl.
      * constructor; try (rewrite length_wr; assumption); try assumption.
        apply probe_inv_insert; try assumption; try lia.
      * rewrite count_nz_wr by (try assumption; lia). lia.
      * lia.
    + intros k' Hk'. unfold hm_models in Hmod. simpl.
      destruct (Z.eq_dec key k') as [<-|Hne].
      * rewrite lookup_insert_eq. exists (slot (hm_cap m) key (Z.of_nat n)).
        split; [lia|]. split; apply rd_wr_eq; lia.
      * rewrite lookup_insert_ne by exact Hne. specialize (Hmod k' Hk').
        destruct (g !! k') as [v'|].
        -- destruct Hmod as (i' & Hi' & Hrk' & Hrv').
           assert (i' <> slot (hm_cap m) key (Z.of_nat n)) by congruence.
           exists i'. split; [lia|]. split; rewrite rd_wr_ne; try assumption; lia.
        -- intros i Hi. destruct (Z.eq_dec i (slot (hm_cap m) key (Z.of_nat n))) as [->|Hi'].
           ++ rewrite rd_wr_eq by lia. exact Hne.
           ++ rewrite rd_wr_ne by lia. apply Hmod, Hi.
Qed.

(** ** Rehashing *)

Lemma count_nz_take_le (ks : list Z) (n : nat) : count_nz (take n ks) <= count_nz ks.
Proof.
  rewrite <- (take_drop n ks) at 2. rewrite count_nz_app.
  pose proof (count_nz_bounds (drop n ks)). lia.
Qed.

Lemma count_nz_take_S (ks : list Z) (i : Z) :
  0 <= i < Z.of_nat (length ks) ->
  count_nz (take (Z.to_nat (i + 1)) ks) =
    count_nz (take (Z.to_nat i) ks) + (if rd ks i =? 0 then 0 else 1).
Proof.
  intros Hi. replace (Z.to_nat (i + 1)) with (S (Z.to_nat i)) by lia.
  destruct (lookup_lt_is_Some_2 ks (Z.to_nat i) ltac:(lia)) as [x Hx].
  rewrite (take_S_r _ _ _ Hx), count_nz_app, count_nz_cons, count_nz_nil.
  rewrite rd_lookup, Hx. simpl. lia.
Qed.

(** One key moved into the new table. *)
Lemma grow_move_spec (ks' vs' : list Z) (c' key val : Z) :
  table_inv ks' vs' c' -> count_nz ks' < c' -> key <> 0 -> absent ks' c' key ->
  exists ks'' vs'',
    grow_move c' (ks', vs') (key, val) = Ok (ks'', vs'') /\
    table_inv ks'' vs'' c' /\
    count_nz ks'' = count_nz ks' + 1 /\
    forall k v, k <> 0 ->
      (entry ks'' vs'' c' k v <-> (k = key /\ v = val) \/ entry ks' vs' c' k v).
Proof.
  intros [Hc Hlen Hlenv HP] Hroom Hk Habs.
  destruct (probe_free ks' c' key Hc Hlen Hroom) as (n & Hn & Hfree & Hpath).
  pose proof (slot_range c' key (Z.of_nat n) Hc) as Hs.
  set (s := slot c' key (Z.of_nat n)) in *.
  exists (wr ks' s key), (wr vs' s val). split.
  { unfold grow_move. destruct (Z.eqb_spec key 0); [contradiction|].
    rewrite (grow_probe_steps c' ks' Hc n _ key Hn Hpath Hfree). reflexivity. }
  split; [|split].
  - constructor; try (rewrite length_wr; assumption); try assumption.
    apply probe_inv_insert; try assumption; lia.
  - apply count_nz_wr; try assumption; lia.
  - intros k v Hk0. split.
    + intros (i & Hi & Hrk & Hrv). destruct (Z.eq_dec i s) as [->|Hne].
      * rewrite rd_wr_eq in Hrk, Hrv by lia. left. split; congruence.
      * rewrite rd_wr_ne in Hrk, Hrv by lia. right. exists i. tauto.
    + intros [[-> ->]|(i & Hi & Hrk & Hrv)].
      * exists s. split; [lia|]. split; apply rd_wr_eq; lia.
      * assert (i <> s) by congruence.
        exists i. split; [lia|]. split; rewrite rd_wr_ne; try assumption; lia.
Qed.

Lemma grow_loop_spec (ks vs : list Z) (c c' : Z) :
  table_inv ks vs c -> count_nz ks < c' ->
  forall (n : nat) (i : Z) (ks' vs' : list Z),
    0 <= i -> i + Z.of_nat n = c ->
    table_inv ks' vs' c' ->
    count_nz ks' = count_nz (take (Z.to_nat i) ks) ->
    (forall k v, k <> 0 ->
       (entry ks' vs' c' k v <-> exists j, 0 <= j < i /\ rd ks j = k /\ rd vs j = v)) ->
    exists ks'' vs'',
      grow_loop n i ks vs c' (ks', vs') = Ok (ks'', vs'') /\
      table_inv ks'' vs'' c' /\
      count_nz ks'' = count_nz ks /\
      forall k v, k <> 0 -> (entry ks'' vs'' c' k v <-> entry ks vs c k v).
Proof.
  intros [Hc Hlen Hlenv HP] Hroom.
  induction n as [|n IH]; intros i ks' vs' Hi Hin Hinv' Hcnt Hent.
  - exists ks', vs'. split; [reflexivity|]. split; [exact Hinv'|].
    assert (i = c) by lia. subst i. split.
    + rewrite Hcnt, take_ge by lia. reflexivity.
    + intros k v Hk. rewrite Hent by exact Hk. reflexivity.
  - cbn [grow_loop]. pose proof (count_nz_take_S ks i ltac:(lia)) as HS.
    pose proof (count_nz_take_le ks (Z.to_nat (i + 1))) as Hle.
    destruct (Z.eqb_spec (rd ks i) 0) as [E0|E0].
    + (* an empty old slot *)
      unfold grow_move. rewrite E0. simpl.
      apply IH; try assumption; try lia.
      intros k v Hk. rewrite Hent by exact Hk. split.
      * intros (j & Hj & Hr). exists j. split; [lia | exact Hr].
      * intros (j & Hj & Hrk & Hrv). exists j. split; [|tauto].
        destruct (Z.eq_dec j i) as [->|]; [congruence | lia].
    + (* an occupied old slot: its key is not in the new table yet *)
      assert (Habs : absent ks' c' (rd ks i)).
      { intros i' Hi' Hr.
        assert (He : entry ks' vs' c' (rd ks i) (rd vs' i')) by (exists i'; tauto).
        apply Hent in He; [|exact E0]. destruct He as (j & Hj & Hrk & _).
        assert (j = i); [|lia].
        apply (probe_inv_unique ks c j i Hc HP); try lia; congruence. }
      destruct (grow_move_spec ks' vs' c' (rd ks i) (rd vs i) Hinv' ltac:(lia) E0 Habs)
        as (ks2 & vs2 & Hmv & Hinv2 & Hcnt2 & Hent2).
      rewrite Hmv. simpl.
      apply IH; try assumption; try lia.
      intros k v Hk. rewrite Hent2, Hent by exact Hk. split.
      * intros [[-> ->]|(j & Hj & Hr)]; [exists i; split; [lia|tauto] |].
        exists j. split; [lia | exact Hr].
      * intros (j & Hj & Hrk & Hrv). destruct (Z.eq_dec j i) as [->|Hne].
        -- left. split; congruence.
        -- right. exists j. split; [lia | tauto].
Qed.

Lemma table_inv_empty (c : Z) :
  pow2cap c -> table_inv (replicate (Z.to_nat c) 0) (replicate (Z.to_nat c) 0) c.
Proof.
  intros Hc. pose proof (pow2cap_range c Hc).
  constructor; try exact Hc; try (rewrite length_replicate; lia).
  apply probe_inv_replicate.
Qed.

Lemma entry_empty (n : nat) (vs : list Z) (c k v : Z) :
  k <> 0 -> ~ entry (replicate n 0) vs c k v.
Proof. intros Hk (i & _ & Hr & _). rewrite rd_replicate in Hr. congruence. Qed.

(** Doubling a table in use keeps its bindings. *)
Lemma ex_hashmap32__grow_spec (m : ex_hashmap32) (g : gmap Z Z) :
  hm_inv m -> hm_models m g -> hm_cap m < 2 ^ 31 ->
  exists m',
    ex_hashmap32__grow m (u32 (2 * hm_cap m)) = Ok m' /\
    hm_inv m' /\ hm_models m' g /\
    hm_len m' = hm_len m /\ hm_cap m' = 2 * hm_cap m.
Proof.
  intros [Hti Hcnt Hload] Hmod Hlt.
  pose proof (ti_cap _ _ _ Hti) as Hc. pose proof (pow2cap_range _ Hc) as Hr.
  pose proof (pow2cap_double _ Hc Hlt) as Hc2.
  pose proof (pow2cap_range _ Hc2) as Hr2.
  assert (Hu : u32 (2 * hm_cap m) = 2 * hm_cap m).
  { unfold u32. apply Z.mod_small. lia. }
  unfold ex_hashmap32__grow. rewrite Hu.
  destruct (Z.ltb_spec (2 * hm_cap m) 16) as [?|_]; [lia|].
  destruct (grow_loop_spec (hm_keys m) (hm_vals m) (hm_cap m) (2 * hm_cap m)
              Hti ltac:(lia) (Z.to_nat (hm_cap m)) 0
              (replicate (Z.to_nat (2 * hm_cap m)) 0)
              (replicate (Z.to_nat (2 * hm_cap m)) 0))
    as (ks'' & vs'' & Hloop & Hinv'' & Hcnt'' & Hent'').
  - lia.
  - lia.
  - apply table_inv_empty, Hc2.
  - rewrite count_nz_replicate. reflexivity.
  - intros k v Hk. split.
    + intros He. exfalso. exact (entry_empty _ _ _ _ _ Hk He).
    + intros (j & Hj & _). lia.
  - rewrite Hloop. simpl. eexists. split; [reflexivity|].
    split; [|split; [|split; reflexivity]].
    + constructor; simpl; [exact Hinv'' | lia | lia].
    + intros k Hk. unfold hm_models in Hmod. simpl. specialize (Hmod k Hk).
      destruct (g !! k) as [v|].
      * apply Hent''; assumption.
      * intros i Hi Hr'. 
        assert (He : entry ks'' vs'' (2 * hm_cap m) k (rd vs'' i)) by (exists i; tauto).
        apply Hent'' in He; [|exact Hk]. destruct He as (j & Hj & Hrk & _).
        exact (Hmod j Hj Hrk).
Qed.

(** The first insertion allocates the table. *)
Lemma ex_hashmap32__grow_zero :
  exists m',
    ex_hashmap32__grow hm_zero (u32 (2 * hm_cap hm_zero)) = Ok m' /\
    hm_inv m' /\ hm_models m' ∅ /\ hm_len m' = 0 /\ hm_cap m' = 16.
Proof.
  eexists. split; [reflexivity|].
  assert (Hc : pow2cap 16) by (exists 4; split; [lia | reflexivity]).
  split; [|split; [|split; reflexivity]].
  - constructor; simpl; try lia.
    + apply (table_inv_empty 16 Hc).
    + reflexivity.
  - intros k Hk. rewrite lookup_empty. intros i Hi.
    cbn [hm_keys hm_cap ex_hashmap32__grow] in *.
    change (rd (replicate 16 0) i <> k). rewrite rd_replicate. congruence.
Qed.

(** ** [ex_hashmap32_setnum] refines insertion into a finite map *)

Theorem ex_hashmap32_setnum_spec (m : ex_hashmap32) (g : gmap Z Z) (key val : Z) :
  hm_wf m -> hm_models m g -> (m = hm_zero -> g = ∅) ->
  hm_len m < 2 ^ 30 -> key <> 0 ->
  exists m',
    ex_hashmap32_setnum m key val = Ok m' /\
    hm_inv m' /\ hm_models m' (<[key := val]> g) /\
    hm_len m' = match g !! key with
                | Some _ => hm_len m
                | None => hm_len m + 1
                end.
Proof.
  intros Hwf Hmod Hz Hlen Hk. unfold ex_hashmap32_setnum.
  destruct (Z.eqb_spec key 0); [contradiction|].
  destruct Hwf as [->|Hinv].
  - (* zero-initialised *)
    rewrite (Hz eq_refl) in *.
    destruct ex_hashmap32__grow_zero as (m1 & Hg & Hinv1 & Hmod1 & Hlen1 & Hcap1).
    change (u32 (2 * hm_len hm_zero) >=? hm_cap hm_zero) with true. cbv iota.
    rewrite Hg. simpl bind.
    destruct (setnum_loop_spec m1 ∅ key val Hinv1 Hmod1 ltac:(lia) Hk)
      as (m' & Hset & Hinv' & Hmod' & Hlen').
    exists m'. rewrite lookup_empty in *.
    split; [exact Hset|]. split; [exact Hinv'|]. split; [exact Hmod'|].
    change (hm_len hm_zero) with 0. lia.
  - pose proof (hi_load _ Hinv) as Hload.
    pose proof (hi_len _ Hinv) as Hcnt.
    pose proof (count_nz_bounds (hm_keys m)) as Hb.
    assert (Hu : u32 (2 * hm_len m) = 2 * hm_len m).
    { unfold u32. apply Z.mod_small. lia. }
    rewrite Hu.
    destruct (Z.geb_spec (2 * hm_len m) (hm_cap m)) as [Hge|Hlt].
    + destruct (ex_hashmap32__grow_spec m g Hinv Hmod ltac:(lia))
        as (m1 & Hg & Hinv1 & Hmod1 & Hlen1 & Hcap1).
      rewrite Hg. simpl bind.
      pose proof (pow2cap_range _ (ti_cap _ _ _ (hi_table _ Hinv))).
      destruct (setnum_loop_spec m1 g key val Hinv1 Hmod1 ltac:(lia) Hk)
        as (m' & Hset & Hinv' & Hmod' & Hlen').
      exists m'. rewrite Hlen1 in Hlen'. auto.
    + simpl bind.
      destruct (setnum_loop_spec m g key val Hinv Hmod ltac:(lia) Hk)
        as (m' & Hset & Hinv' & Hmod' & Hlen').
      exists m'. auto.
Qed.

(** ** Sequences of insertions *)





(** ** The 32-bit capacity limit *)

Lemma grow_probe_ok (c : Z) (ks : list Z) :
  pow2cap c ->
  forall (fuel : nat) (j s : Z),
    grow_probe fuel c ks j = Ok s -> 0 <= s < c /\ rd ks s = 0.
Proof.
  intros Hc. pose proof (pow2cap_range c Hc).
  induction fuel as [|fuel IH]; intros j s; simpl; [discriminate|].
  rewrite (mask_mod c j Hc).
  destruct (Z.eqb_spec (rd ks (j mod c)) 0) as [E|E].
  - intros [= <-]. split; [apply Z.mod_pos_bound; lia | exact E].
  - apply IH.
Qed.

Lemma grow_probe_err (c : Z) (ks : list Z) (fuel : nat) (j : Z) (f : fault) :
  grow_probe fuel c ks j = Err f -> f = NoTermination.
Proof.
  revert j. induction fuel as [|fuel IH]; intros j; simpl; [congruence|].
  destruct (rd ks _ =? 0); [discriminate | apply IH].
Qed.

Lemma grow_move_count (c' : Z) (ks' vs' : list Z) (k v : Z) (ks'' vs'' : list Z) :
  pow2cap c' -> Z.of_nat (length ks') = c' ->
  grow_move c' (ks', vs') (k, v) = Ok (ks'', vs'') ->
  Z.of_nat (length ks'') = c' /\
  count_nz ks'' = count_nz ks' + (if k =? 0 then 0 else 1).
Proof.
  intros Hc Hlen. unfold grow_move. destruct (Z.eqb_spec k 0) as [->|Hk].
  - intros [= <- <-]. split; [exact Hlen | lia].
  - destruct (grow_probe _ c' ks' k) as [s|f] eqn:E; simpl; [|discriminate].
    intros [= <- <-]. apply grow_probe_ok in E as [Hs Hfree]; [|exact Hc].
    split; [rewrite length_wr; exact Hlen|].
    apply count_nz_wr; [lia | exact Hfree | exact Hk].
Qed.

Lemma grow_move_err (c' : Z) (kv : list Z * list Z) (old : Z * Z) (f : fault) :
  grow_move c' kv old = Err f -> f = NoTermination.
Proof.
  destruct kv as [ks' vs'], old as [k v]. unfold grow_move.
  destruct (k =? 0); [discriminate|].
  destruct (grow_probe _ c' ks' k) as [s|f'] eqn:E; simpl; [discriminate|].
  intros [= <-]. exact (grow_probe_err _ _ _ _ _ E).
Qed.

Lemma grow_loop_count (ks vs : list Z) (c' : Z) :
  pow2cap c' ->
  forall (n : nat) (i : Z) (ks' vs' ks'' vs'' : list Z),
    Z.of_nat (length ks') = c' -> 0 <= i ->
    i + Z.of_nat n <= Z.of_nat (length ks) ->
    grow_loop n i ks vs c' (ks', vs') = Ok (ks'', vs'') ->
    Z.of_nat (length ks'') = c' /\
    count_nz ks'' = count_nz ks' + count_nz (take (Z.to_nat (i + Z.of_nat n)) ks)
                    - count_nz (take (Z.to_nat i) ks).
Proof.
  intros Hc. induction n as [|n IH]; intros i ks' vs' ks'' vs'' Hlen Hi Hin.
  - simpl. intros [= <- <-]. rewrite Z.add_0_r. split; [exact Hlen | lia].
  - cbn [grow_loop].
    destruct (grow_move c' (ks', vs') (rd ks i, rd vs i)) as [[ks1 vs1]|f] eqn:E;
      simpl; [|discriminate].
    intros Hloop. apply grow_move_count in E as [Hlen1 Hcnt1]; try assumption.
    apply IH in Hloop as [Hlen2 Hcnt2]; try assumption; try lia.
    split; [exact Hlen2|].
    pose proof (count_nz_take_S ks i ltac:(lia)) as HS.
    replace (i + Z.of_nat (S n)) with (i + 1 + Z.of_nat n) by lia. lia.
Qed.

Lemma grow_loop_err (ks vs : list Z) (c' : Z) (n : nat) :
  forall (i : Z) (kv : list Z * list Z) (f : fault),
    grow_loop n i ks vs c' kv = Err f -> f = NoTermination.
Proof.
  induction n as [|n IH]; intros i kv f; simpl; [discriminate|].
  destruct (grow_move c' kv (rd ks i, rd vs i)) as [kv1|f'] eqn:E; simpl.
  - apply IH.
  - intros [= <-]. exact (grow_move_err _ _ _ _ E).
Qed.

(** With [2^30] keys in the table the capacity is [2^31], its double wraps
    to 0, the new table gets 16 slots and the rehash loop has no exit. *)
Lemma ex_hashmap32_setnum_overflow (m : ex_hashmap32) (key val : Z) :
  hm_inv m -> hm_len m = 2 ^ 30 -> key <> 0 ->
  ex_hashmap32_setnum m key val = Err NoTermination.
Proof.
  intros [[Hc Hlen Hlenv HP] Hcnt Hload] Hl Hk.
  pose proof (pow2cap_range _ Hc) as Hr.
  assert (Hcap : hm_cap m = 2 ^ 31) by lia.
  unfold ex_hashmap32_setnum. destruct (Z.eqb_spec key 0); [contradiction|].
  assert (H1 : (u32 (2 * hm_len m) >=? hm_cap m) = true).
  { rewrite Hl, Hcap. reflexivity. }
  assert (H2 : u32 (2 * hm_cap m) = 0) by (rewrite Hcap; reflexivity).
  rewrite H1, H2. unfold ex_hashmap32__grow.
  change (if 0 <? 16 then 16 else 0) with 16.
  assert (Hc16 : pow2cap 16) by (exists 4; split; [lia | reflexivity]).
  destruct (grow_loop _ 0 (hm_keys m) (hm_vals m) 16 _) as [[ks'' vs'']|f] eqn:E.
  - exfalso. apply grow_loop_count in E as [Hlen'' Hcnt'']; try assumption; try lia.
    + rewrite count_nz_replicate in Hcnt''. change (Z.to_nat 0) with O in Hcnt''.
      rewrite take_0, count_nz_nil in Hcnt''.
      rewrite take_ge in Hcnt'' by lia.
      pose proof (count_nz_bounds ks''). lia.
    + rewrite length_replicate. reflexivity.
  - apply grow_loop_err in E. subst f. reflexivity.
Qed.











(** * The string splitter *)

(** C2 (as stated, refuted).  In the Developer category the field
    ["Nintendo Co., Ltd."] yields the value ["Nintendo Co."]: the comma ends
    the segment, "Co." is no suffix token, and the [", Ltd."] after the
    comma is skipped.  ["Nintendo"] yields ["Nintendo"], a second value. *)
Lemma nintendo_co_ltd_is_not_nintendo :
  exists p1 p2 st,
    explore_normalize2 0 (bytes_of_string "Nintendo Co., Ltd.")
                         (bytes_of_string "Nintendo") = Ok (p1, p2, st) /\
    p1 <> p2 /\
    facet_str st p1 = bytes_of_string "Nintendo Co." /\
    facet_str st p2 = bytes_of_string "Nintendo" /\
    by_cat st 0 = [p1; p2].
Proof.
  eexists _, _, _. split; [vm_compute; reflexivity|].
  repeat split; try reflexivity. discriminate.
Qed.

(** C2 (amended).  For an organization-name category, the fields
    ["Nintendo, Ltd."] and ["Nintendo"] produce one and the same FacetValue
    ["Nintendo"], and ["Nintendo Co., Ltd."] produces the FacetValue of
    ["Nintendo Co."]. *)
Theorem company_suffix_normalization (cat : nat) :
  info_is_company (by_info cat) = true ->
  (exists p st,
     explore_normalize2 cat (bytes_of_string "Nintendo, Ltd.")
                            (bytes_of_string "Nintendo") = Ok (p, p, st) /\
     p <> 0 /\ by_cat st cat = [p] /\
     facet_str st p = bytes_of_string "Nintendo") /\
  (exists p st,
     explore_normalize2 cat (bytes_of_string "Nintendo Co., Ltd.")
                            (bytes_of_string "Nintendo Co.") = Ok (p, p, st) /\
     p <> 0 /\ by_cat st cat = [p] /\
     facet_str st p = bytes_of_string "Nintendo Co.").
Proof.
  intros Hc.
  assert (Hcat : cat = 0%nat \/ cat = 1%nat).
  { do 2 (destruct cat as [|cat]; [auto|]).
    do 8 (destruct cat as [|cat]; [discriminate Hc|]).
    unfold by_info in Hc. simpl in Hc. destruct cat; discriminate Hc. }
  destruct Hcat as [-> | ->]; split;
    (eexists _, _; split; [vm_compute; reflexivity|];
     repeat split; try reflexivity; discriminate).
Qed.

Lemma company_suffix_normalization_witness :
  (exists p st,
     explore_normalize2 0 (bytes_of_string "Nintendo, Ltd.")
                          (bytes_of_string "Nintendo") = Ok (p, p, st) /\
     p <> 0 /\ by_cat st 0 = [p] /\
     facet_str st p = bytes_of_string "Nintendo") /\
  (exists p st,
     explore_normalize2 0 (bytes_of_string "Nintendo Co., Ltd.")
                          (bytes_of_string "Nintendo Co.") = Ok (p, p, st) /\
     p <> 0 /\ by_cat st 0 = [p] /\
     facet_str st p = bytes_of_string "Nintendo Co.").
Proof. apply (company_suffix_normalization 0). reflexivity. Defined.

(** C4 (code bug).  A field of one space is not empty, so line 387 does
    not take it for absent, and the test for a blank segment of lines
    415-420 does not catch it either: the loop of line 410 moves [str] to
    the NUL, and the loop of line 412, which has no bound at the start of
    the field, walks [p] back over the space to the first byte and reads
    [p[-1]] before the string.  The has-unknown flag is not set on the way;
    an absent field sets it. *)
Lemma blank_field_is_not_absent :
  explore_add_unique_string cx_first 4 (Some (bytes_of_string " ")) true
    = Err OutOfBounds /\
  explore_add_unique_string cx_first 4 None true
    = Ok (mk_ctx (set_has_unknown explore_state_zero 4) (cx_maps cx_first)
                 (cx_e cx_first) []).
Proof. split; reflexivity. Qed.

(** X27.  Normalizing a field that is absent or empty produces no facet
    value and sets the has-unknown flag of the category: the arena, the
    facet arrays, the intern maps, the entry and the scratch buffer are as
    before. *)
Theorem absent_field_sets_has_unknown
    (cx : add_ctx) (cat : nat) (str : option (list Z)) (split_buf : bool) :
  (cat < length (es_has_unknown (cx_state cx)))%nat ->
  str = None \/ (exists buf, str = Some buf /\ nth 0 buf 0 = 0) ->
  exists st',
    explore_add_unique_string cx cat str split_buf
      = Ok (mk_ctx st' (cx_maps cx) (cx_e cx) (cx_split_buf cx)) /\
    nth cat (es_has_unknown st') false = true /\
    es_arena st' = es_arena (cx_state cx) /\
    es_by st' = es_by (cx_state cx) /\
    es_entries st' = es_entries (cx_state cx).
Proof.
  intros Hcat Hstr. exists (set_has_unknown (cx_state cx) cat).
  split; [|split; [|repeat split]].
  - unfold explore_add_unique_string.
    destruct Hstr as [-> | (buf & -> & Hb)]; [reflexivity|].
    simpl. destruct buf as [|c buf]; [reflexivity|].
    simpl in Hb. subst c. reflexivity.
  - simpl. rewrite nth_lookup, list_lookup_insert_eq by exact Hcat. reflexivity.
Qed.

Lemma absent_field_sets_has_unknown_witness :
  exists st',
    explore_add_unique_string cx_first 4 (Some []) true
      = Ok (mk_ctx st' (cx_maps cx_first) (cx_e cx_first) (cx_split_buf cx_first)) /\
    nth 4 (es_has_unknown st') false = true /\
    es_arena st' = es_arena (cx_state cx_first) /\
    es_by st' = es_by (cx_state cx_first) /\
    es_entries st' = es_entries (cx_state cx_first).
Proof.
  apply (absent_field_sets_has_unknown cx_first 4 (Some []) true).
  - simpl. lia.
  - right. exists []. split; reflexivity.
Defined.

(** C5.  In a category that allows multiple values the field
    ["Action/Adventure"] yields "Action" as the primary facet of the entry
    and "Adventure" as its one secondary value, and the entry passes the
    constraint loop for a single constraint that selects either value. *)
Theorem split_integrity (cat : nat) :
  info_use_split (by_info cat) = true ->
  exists cx e p_action p_adventure,
    explore_add_unique_string cx_first cat
      (Some (bytes_of_string "Action/Adventure")) true = Ok cx /\
    e = fst (explore_finish_entry (cx_e cx) None (cx_split_buf cx)) /\
    entry_by e cat = p_action /\
    facet_str (cx_state cx) p_action = bytes_of_string "Action" /\
    secondary e = [p_adventure] /\
    facet_str (cx_state cx) p_adventure = bytes_of_string "Adventure" /\
    explore_entry_levels [level_of (cat, p_action)] e = Ok true /\
    explore_entry_levels [level_of (cat, p_adventure)] e = Ok true.
Proof.
  intros Hs.
  assert (Hcat : cat = 0%nat \/ cat = 1%nat \/ cat = 4%nat \/ cat = 8%nat).
  { do 2 (destruct cat as [|cat]; [auto|]).
    do 2 (destruct cat as [|cat]; [discriminate Hs|]).
    destruct cat as [|cat]; [auto|].
    do 3 (destruct cat as [|cat]; [discriminate Hs|]).
    destruct cat as [|cat]; [auto|].
    destruct cat as [|cat]; [discriminate Hs|].
    unfold by_info in Hs. simpl in Hs. destruct cat; discriminate Hs. }
  destruct Hcat as [-> | [-> | [-> | ->]]];
    (eexists _, _, _, _; split; [vm_compute; reflexivity|];
     split; [reflexivity|]; repeat split; reflexivity).
Qed.

Lemma split_integrity_witness :
  exists cx e p_action p_adventure,
    explore_add_unique_string cx_first 4
      (Some (bytes_of_string "Action/Adventure")) true = Ok cx /\
    e = fst (explore_finish_entry (cx_e cx) None (cx_split_buf cx)) /\
    entry_by e 4 = p_action /\
    facet_str (cx_state cx) p_action = bytes_of_string "Action" /\
    secondary e = [p_adventure] /\
    facet_str (cx_state cx) p_adventure = bytes_of_string "Adventure" /\
    explore_entry_levels [level_of (4%nat, p_action)] e = Ok true /\
    explore_entry_levels [level_of (4%nat, p_adventure)] e = Ok true.
Proof. apply (split_integrity 4). reflexivity. Defined.

(** * The constraint loop *)

Lemma split_scan_spec (vals : list Z) (filter : Z) :
  vals <> [] -> Forall (fun p => p <> 0) vals ->
  exists found, split_scan (vals ++ [0]) filter = Ok found /\
                (found = true <-> In filter vals).
Proof.
  induction vals as [|x vals IH]; intros Hne Hnz; [contradiction|].
  apply Forall_cons in Hnz as [Hx Hnz]. simpl.
  destruct (Z.eqb_spec x filter) as [->|Hxf].
  - destruct (Z.eqb_spec filter 0); [contradiction|]. exists true.
    split; [reflexivity|]. split; [left; reflexivity | reflexivity].
  - destruct vals as [|y vals].
    + simpl. exists false. split; [reflexivity|].
      split; [discriminate|]. intros [?|[]]. contradiction.
    + change ((y :: vals) ++ [0]) with (y :: (vals ++ [0])) in *.
      pose proof (Forall_inv Hnz) as Hy. simpl in Hy.
      destruct IH as (found & Hscan & Hfound); [discriminate | exact Hnz |].
      exists found. split.
      { destruct (Z.eqb_spec y 0); [contradiction | exact Hscan]. }
      rewrite Hfound.
      split; [intros; right; assumption|].
      intros [?|?]; [contradiction | assumption].
Qed.

Lemma split_ok_inv (e : explore_entry_t) (split : list Z) :
  split_ok e = true -> e_split e = Some split ->
  split = secondary e ++ [0] /\ secondary e <> [] /\
  Forall (fun p => p <> 0) (secondary e).
Proof.
  unfold split_ok, secondary. intros Hok E. rewrite E in *.
  apply andb_prop in Hok as [Hok Hlast]. apply andb_prop in Hok as [Hne Hnz].
  apply bool_decide_eq_true in Hlast. apply last_Some in Hlast as [l' ->].
  rewrite removelast_last in *. split; [reflexivity|]. split.
  - apply negb_true_iff, bool_decide_eq_false in Hne. exact Hne.
  - apply List.Forall_forall. intros p Hp.
    rewrite forallb_forall in Hnz. specialize (Hnz p Hp).
    apply negb_true_iff in Hnz. apply Z.eqb_neq in Hnz. exact Hnz.
Qed.

Lemma secondary_nonzero (e : explore_entry_t) :
  split_ok e = true -> ~ In 0 (secondary e).
Proof.
  intros Hok Hin. destruct (e_split e) as [split|] eqn:E.
  - destruct (split_ok_inv e split Hok E) as (_ & _ & Hnz).
    rewrite List.Forall_forall in Hnz. exact (Hnz 0 Hin eq_refl).
  - unfold secondary in Hin. rewrite E in Hin. exact Hin.
Qed.

(** One constraint: what lines 1076-1089 decide. *)
Lemma explore_entry_level_spec (c : nat * Z) (e : explore_entry_t) :
  split_ok e = true ->
  (snd c =? entry_by e (fst c)) = true /\ satisfies e c \/
  (snd c =? entry_by e (fst c)) = false /\
  match (if info_use_split (by_info (fst c)) then e_split e else None) with
  | Some split => exists found, split_scan split (snd c) = Ok found /\
                                (found = true <-> satisfies e c)
  | None => ~ satisfies e c
  end.
Proof.
  intros Hok. unfold satisfies. destruct (Z.eqb_spec (snd c) (entry_by e (fst c))) as [E|E].
  - left. split; [reflexivity | left; symmetry; exact E].
  - right. split; [reflexivity|].
    destruct (info_use_split (by_info (fst c))) eqn:Hs.
    + destruct (e_split e) as [split|] eqn:Hsp.
      * destruct (split_ok_inv e split Hok Hsp) as (-> & Hne & Hnz).
        destruct (split_scan_spec (secondary e) (snd c) Hne Hnz)
          as (found & Hscan & Hfound).
        exists found. split; [exact Hscan|].
        rewrite Hfound. split; [intros; right; auto|].
        intros [?|[_ ?]]; [congruence | assumption].
      * unfold secondary. rewrite Hsp. intros [?|[_ []]]. congruence.
    + intros [?|[? _]]; congruence.
Qed.

(** The constraint loop on an entry whose split array is as the builder
    leaves it: it returns, and accepts the entry if and only if every
    constraint is satisfied. *)
Lemma explore_entry_levels_split_ok (cs : list (nat * Z)) (e : explore_entry_t) :
  split_ok e = true ->
  (exists b, explore_entry_levels (map level_of cs) e = Ok b /\
             (b = true <-> Forall (satisfies e) cs)) /\
  (forall cat, satisfies e (cat, 0) <-> entry_by e cat = 0).
Proof.
  intros Hok. split.
  - induction cs as [|c cs (b & IH & Hb)].
    + exists true. split; [reflexivity|]. split; [constructor | reflexivity].
    + cbn [map explore_entry_levels level_of lv_filter lv_cat lv_use_split].
      destruct (explore_entry_level_spec c e Hok) as [[-> Hsat]|[-> Hrest]].
      * exists b. split; [exact IH|]. rewrite Forall_cons. tauto.
      * destruct (if info_use_split (by_info (fst c)) then e_split e else None)
          as [split|].
        -- destruct Hrest as (found & -> & Hfound). simpl.
           destruct found.
           ++ exists b. split; [exact IH|]. rewrite Forall_cons. tauto.
           ++ exists false. split; [reflexivity|]. rewrite Forall_cons.
              split; [discriminate|]. intros [Hs _]. apply Hfound in Hs. discriminate.
        -- exists false. split; [reflexivity|]. rewrite Forall_cons.
           split; [discriminate | tauto].
  - intros cat. unfold satisfies. simpl. split; [|auto].
    intros [?|[_ Hin]]; [assumption|].
    exfalso. exact (secondary_nonzero e Hok Hin).
Qed.

(** * The free-text search *)

Lemma explore_entry_levels_retitle (levels : list level) (e : explore_entry_t)
    (t : option (list Z)) :
  explore_entry_levels levels (set_original_title e t) = explore_entry_levels levels e.
Proof.
  induction levels as [|lv levels IH]; [reflexivity|].
  simpl. rewrite IH. reflexivity.
Qed.

Lemma explore_entry_passes_retitle (levels : list level) (find_string : list Z)
    (e : explore_entry_t) (t : option (list Z)) :
  explore_entry_passes levels find_string (set_original_title e t)
  = explore_entry_passes levels find_string e.
Proof.
  unfold explore_entry_passes. rewrite explore_entry_levels_retitle. reflexivity.
Qed.

Lemma explore_filter_loop_retitle (M : Z) (f : explore_entry_t -> option (list Z))
    (st st' : explore_state_t) (levels : list level) (find_string : list Z)
    (entries : list explore_entry_t) :
  forall (acc acc' : filter_acc) (i : Z),
    map snd (fa_list acc') = map snd (fa_list acc) ->
    result_map (fun a => map snd (fa_list a))
      (explore_filter_loop M st' levels find_string None acc' i
         (map (fun e => set_original_title e (f e)) entries))
    = result_map (fun a => map snd (fa_list a))
        (explore_filter_loop M st levels find_string None acc i entries).
Proof.
  induction entries as [|e entries IH]; intros acc acc' i Hacc.
  - simpl. f_equal. exact Hacc.
  - cbn [map explore_filter_loop]. rewrite explore_entry_passes_retitle.
    destruct (explore_entry_passes levels find_string e) as [pass|err];
      [|reflexivity].
    simpl bind. destruct pass; simpl.
    + apply IH. simpl. rewrite !List.map_app. f_equal. exact Hacc.
    + apply IH. exact Hacc.
Qed.

(** C10.  The free-text filter tests the label of the playlist entry with
    the case-insensitive substring search, whatever the alternate title of
    the entry is: an entry passes iff it passes the constraints and the
    search text is empty or occurs in its label.  The alternate title is the
    presented title of the entry-listing view, and replacing the alternate
    titles of an index changes no decision of that view: the same entries
    are listed. *)
Theorem free_text_tests_label (M : Z) (levels : list level) (find_string : list Z) :
  (forall e,
     explore_entry_passes levels find_string e =
       do ok <- explore_entry_levels levels e;
       Ok (ok && (bool_decide (find_string = []) ||
                  strcasestr (label_str (e_playlist_entry e)) find_string))) /\
  (forall e t,
     explore_entry_passes levels find_string (set_original_title e t)
     = explore_entry_passes levels find_string e) /\
  (forall acc i e t,
     fa_list (explore_list_entry M acc i (set_original_title e (Some t)))
     = fa_list acc ++ [(t, u32 (EXPLORE_TYPE_FIRSTITEM M + i))]) /\
  (forall st f list0,
     result_map (map snd)
       (explore_list_filtered M (retitle f st) levels find_string None list0)
     = result_map (map snd)
         (explore_list_filtered M st levels find_string None list0)).
Proof.
  split; [|split; [|split]].
  - intros e. unfold explore_entry_passes.
    destruct (explore_entry_levels levels e) as [ok|err]; [|reflexivity].
    simpl. destruct ok; simpl; [|reflexivity].
    destruct (bool_decide (find_string = [])); simpl; [reflexivity|].
    rewrite negb_involutive. reflexivity.
  - intros e t. apply explore_entry_passes_retitle.
  - intros acc i e t. reflexivity.
  - intros st f list0. unfold explore_list_filtered.
    pose proof (explore_filter_loop_retitle M f st (retitle f st) levels find_string
                  (es_entries st) (mk_acc list0 hm_zero false)
                  (mk_acc list0 hm_zero false) 0 eq_refl) as H.
    change (es_entries (retitle f st))
      with (map (fun e => set_original_title e (f e)) (es_entries st)).
    destruct (explore_filter_loop M (retitle f st) _ _ _ _ _ _) as [a'|e'];
      destruct (explore_filter_loop M st _ _ _ _ _ _) as [a|e0];
      simpl in *; congruence.
Qed.

(** * Checksums that parse to 0 *)

Lemma ex_hashmap32_setnum_key0 (m : ex_hashmap32) (v : Z) :
  ex_hashmap32_setnum m 0 v = Ok m.
Proof. reflexivity. Qed.

Lemma ex_hashmap32_getnum_key0 (m : ex_hashmap32) :
  ex_hashmap32_getnum m 0 = Ok 0.
Proof. unfold ex_hashmap32_getnum. rewrite orb_true_r. reflexivity. Qed.

Lemma mk_rdb_eta (rdb : explore_rdb) :
  mk_rdb (rdb_handle rdb) (rdb_playlist_entries rdb) = rdb.
Proof. destruct rdb. reflexivity. Qed.

Lemma explore_index_entry_crc0 (env : explore_env) (ix ix' : index_state)
    (handle : Z) (entry : playlist_entry) (used : bool) :
  u32 (strtoul16 (cstr (default [] (pe_crc32 entry)))) = 0 ->
  explore_index_entry env ix handle entry = Ok (ix', used) ->
  ix_rdbs ix' = ix_rdbs ix \/
  exists items, ix_rdbs ix' = ix_rdbs ix ++ [mk_rdb items hm_zero].
Proof.
  intros Hcrc. unfold explore_index_entry. rewrite Hcrc.
  destruct (negb _); [intros [= <- _]; left; reflexivity|].
  destruct (ex_hashmap32_strgetnum _ _) as [rdb_num|]; simpl; [|discriminate].
  destruct (Z.eqb_spec rdb_num 0) as [_|_].
  - destruct (env_database env _) as [items|].
    + destruct (ex_hashmap32_strsetnum _ _ _) as [idx|]; simpl; [|discriminate].
      destruct (_ =? UINTPTR_MAX); [intros [= <- _]; right; eauto|].
      destruct (_ !! _) as [rdb|] eqn:E; [|discriminate].
      unfold ex_hashmap32_setptr; rewrite ?ex_hashmap32_setnum_key0; simpl.
      intros [= <- _]. simpl. rewrite mk_rdb_eta, list_insert_id by exact E.
      right. eauto.
    + destruct (ex_hashmap32_strsetnum _ _ _) as [idx|]; simpl; [|discriminate].
      change (UINTPTR_MAX =? UINTPTR_MAX) with true. cbv iota.
      intros [= <- _]. left. reflexivity.
  - simpl. destruct (_ =? UINTPTR_MAX); [intros [= <- _]; left; reflexivity|].
    destruct (_ !! _) as [rdb|] eqn:E; [|discriminate].
    unfold ex_hashmap32_setptr; rewrite ?ex_hashmap32_setnum_key0; simpl.
    intros [= <- _]. simpl. rewrite mk_rdb_eta, list_insert_id by exact E.
    left. reflexivity.
Qed.

(** C9.  A playlist entry whose checksum string parses to the 32-bit value
    0, as ["00000000"] does, is left out of the index: the insertion with
    key 0 returns the map as it was, so after the entry was indexed every
    checksum map is as before (a database that the entry caused to be opened
    has the zeroed map), and no lookup of any record, the one with checksum
    0 included, returns the entry unless the maps returned it before. *)
Theorem zero_checksum_entry_is_dropped
    (env : explore_env) (ix ix' : index_state) (handle : Z)
    (entry : playlist_entry) (used : bool) :
  u32 (strtoul16 (cstr (default [] (pe_crc32 entry)))) = 0 ->
  handle <> 0 ->
  explore_index_entry env ix handle entry = Ok (ix', used) ->
  strtoul16 (bytes_of_string "00000000") = 0 /\
  (forall m v, ex_hashmap32_setptr m 0 v = Ok m) /\
  (forall m, ex_hashmap32_getptr m 0 = Ok 0) /\
  (ix_rdbs ix' = ix_rdbs ix \/
   exists items, ix_rdbs ix' = ix_rdbs ix ++ [mk_rdb items hm_zero]) /\
  (forall rdb' crc32,
     In rdb' (ix_rdbs ix') ->
     ex_hashmap32_getptr (rdb_playlist_entries rdb') crc32 = Ok handle ->
     exists rdb, In rdb (ix_rdbs ix) /\
                 ex_hashmap32_getptr (rdb_playlist_entries rdb) crc32 = Ok handle).
Proof.
  intros Hcrc Hh Hidx.
  split; [reflexivity|]. split; [exact ex_hashmap32_setnum_key0|].
  split; [exact ex_hashmap32_getnum_key0|].
  pose proof (explore_index_entry_crc0 env ix ix' handle entry used Hcrc Hidx) as Hr.
  split; [exact Hr|]. intros rdb' crc32 Hin Hget.
  destruct Hr as [Hr|[items Hr]]; rewrite Hr in Hin.
  - exists rdb'. auto.
  - apply in_app_or in Hin as [Hin|[<-|[]]]; [exists rdb'; auto|].
    simpl in Hget. unfold ex_hashmap32_getptr, ex_hashmap32_getnum in Hget.
    simpl in Hget. congruence.
Qed.

Lemma zero_checksum_entry_is_dropped_witness :
  strtoul16 (bytes_of_string "00000000") = 0 /\
  (forall m v, ex_hashmap32_setptr m 0 v = Ok m) /\
  (forall m, ex_hashmap32_getptr m 0 = Ok 0) /\
  (ix_rdbs ix_zero_crc = ix_rdbs (mk_index [] hm_zero []) \/
   exists items,
     ix_rdbs ix_zero_crc = ix_rdbs (mk_index [] hm_zero []) ++ [mk_rdb items hm_zero]) /\
  (forall rdb' crc32,
     In rdb' (ix_rdbs ix_zero_crc) ->
     ex_hashmap32_getptr (rdb_playlist_entries rdb') crc32 = Ok 1 ->
     exists rdb, In rdb (ix_rdbs (mk_index [] hm_zero [])) /\
                 ex_hashmap32_getptr (rdb_playlist_entries rdb) crc32 = Ok 1).
Proof.
  apply (zero_checksum_entry_is_dropped env_zero_crc (mk_index [] hm_zero [])
           ix_zero_crc 1 entry_zero_crc true).
  - reflexivity.
  - lia.
  - reflexivity.
Defined.

(** * Interning by hash *)

Lemma facet_hash_nonzero (seg : list Z) : facet_hash seg <> 0.
Proof.
  unfold facet_hash, ex_hash32_nocase_filtered.
  destruct (Z.eqb_spec (fold_left (hash_step 48 255) seg FNV_OFFSET) 0); lia.
Qed.

Lemma map_cat_insert (maps : list ex_hashmap32) (cat : nat) (m : ex_hashmap32) :
  (cat < length maps)%nat -> map_cat (<[cat := m]> maps) cat = m.
Proof.
  intros H. unfold map_cat. rewrite nth_lookup, list_lookup_insert_eq by exact H.
  reflexivity.
Qed.

Lemma intern_inv_first (cat : nat) :
  (cat < EXPLORE_CAT_COUNT)%nat ->
  intern_inv explore_state_zero (replicate EXPLORE_CAT_COUNT hm_zero) cat ∅.
Proof.
  intros Hcat.
  assert (Hm : map_cat (replicate EXPLORE_CAT_COUNT hm_zero) cat = hm_zero).
  { unfold map_cat. rewrite nth_lookup, lookup_replicate_2 by exact Hcat. reflexivity. }
  constructor.
  - rewrite length_replicate. exact Hcat.
  - rewrite Hm. left. reflexivity.
  - rewrite Hm. apply hm_models_zero.
  - reflexivity.
  - apply lookup_empty.
  - intros h p Hp. rewrite lookup_empty in Hp. discriminate.
Qed.

(** A hit: the stored value is returned, nothing else is looked at. *)
Lemma explore_intern_hit (st : explore_state_t) (maps : list ex_hashmap32)
    (cat : nat) (g : gmap Z Z) (seg : list Z) (p : Z) :
  intern_inv st maps cat g -> g !! facet_hash seg = Some p ->
  explore_intern st maps cat seg = Ok (st, maps, p).
Proof.
  intros Hinv Hg. unfold explore_intern, ex_hashmap32_getptr.
  fold (facet_hash seg).
  rewrite (ex_hashmap32_getnum_spec _ g _ (ii_wf _ _ _ _ Hinv)
             (ii_models _ _ _ _ Hinv) (ii_key0 _ _ _ _ Hinv)).
  rewrite Hg. simpl. destruct (ii_vals _ _ _ _ Hinv _ _ Hg) as [Hp _].
  destruct (Z.eqb_spec p 0); [lia | reflexivity].
Qed.

(** A miss: a new value is allocated and registered under the hash. *)
Lemma explore_intern_miss (st : explore_state_t) (maps : list ex_hashmap32)
    (cat : nat) (g : gmap Z Z) (seg : list Z) :
  intern_inv st maps cat g -> g !! facet_hash seg = None ->
  hm_len (map_cat maps cat) < 2 ^ 30 ->
  exists st' maps',
    let p := Z.of_nat (length (es_arena st)) + 1 in
    explore_intern st maps cat seg = Ok (st', maps', p) /\
    intern_inv st' maps' cat (<[facet_hash seg := p]> g) /\
    hm_len (map_cat maps' cat) = hm_len (map_cat maps cat) + 1 /\
    es_arena st' = es_arena st ++ [mk_string 0 seg] /\
    es_by st' = <[cat := by_cat st cat ++ [p]]> (es_by st) /\
    es_entries st' = es_entries st /\
    es_has_unknown st' = es_has_unknown st.
Proof.
  intros Hinv Hg Hlen. unfold explore_intern, ex_hashmap32_getptr, ex_hashmap32_setptr.
  fold (facet_hash seg).
  rewrite (ex_hashmap32_getnum_spec _ g _ (ii_wf _ _ _ _ Hinv)
             (ii_models _ _ _ _ Hinv) (ii_key0 _ _ _ _ Hinv)).
  rewrite Hg. simpl.
  destruct (ex_hashmap32_setnum_spec (map_cat maps cat) g (facet_hash seg)
              (Z.of_nat (length (es_arena st)) + 1)
              (ii_wf _ _ _ _ Hinv) (ii_models _ _ _ _ Hinv) (ii_zero _ _ _ _ Hinv)
              Hlen (facet_hash_nonzero seg))
    as (m' & Hset & Hinv' & Hmod' & Hlen').
  rewrite Hset. simpl. eexists _, _. split; [reflexivity|].
  rewrite Hg in Hlen'.
  pose proof (ii_cat _ _ _ _ Hinv) as Hcat.
  split; [|split; [|repeat split]].
  - constructor.
    + rewrite length_insert. exact Hcat.
    + rewrite map_cat_insert by exact Hcat. right. exact Hinv'.
    + rewrite map_cat_insert by exact Hcat. exact Hmod'.
    + rewrite map_cat_insert by exact Hcat. intros ->. exfalso.
      destruct Hinv' as [[Hc _ _ _] _ _]. apply pow2cap_range in Hc. simpl in Hc. lia.
    + rewrite lookup_insert_ne; [exact (ii_key0 _ _ _ _ Hinv)|].
      apply facet_hash_nonzero.
    + intros h p. unfold facet_str. simpl. rewrite length_app. simpl.
      destruct (Z.eq_dec (facet_hash seg) h) as [<-|Hne].
      * rewrite lookup_insert_eq. intros [= <-]. split; [lia|].
        unfold arena_get.
        replace (Z.to_nat (Z.of_nat (length (es_arena st)) + 1 - 1))
          with (length (es_arena st)) by lia.
        rewrite nth_middle. reflexivity.
      * rewrite lookup_insert_ne by exact Hne. intros Hp.
        destruct (ii_vals _ _ _ _ Hinv _ _ Hp) as [Hr Hh]. split; [lia|].
        unfold arena_get. rewrite app_nth1 by lia. exact Hh.
  - rewrite map_cat_insert by exact Hcat. exact Hlen'.
Qed.

(** One call of the intern step, hit or miss. *)
Lemma explore_intern_step (st : explore_state_t) (maps : list ex_hashmap32)
    (cat : nat) (g : gmap Z Z) (seg : list Z) :
  intern_inv st maps cat g -> hm_len (map_cat maps cat) < 2 ^ 30 ->
  exists st' maps' p g',
    explore_intern st maps cat seg = Ok (st', maps', p) /\
    intern_inv st' maps' cat g' /\
    g' !! facet_hash seg = Some p /\
    hm_len (map_cat maps' cat) <= hm_len (map_cat maps cat) + 1 /\
    (forall q, g !! facet_hash seg = Some q ->
               st' = st /\ maps' = maps /\ p = q /\ g' = g) /\
    (g !! facet_hash seg = None ->
     p = Z.of_nat (length (es_arena st)) + 1 /\ g' = <[facet_hash seg := p]> g).
Proof.
  intros Hinv Hlen. destruct (g !! facet_hash seg) as [q|] eqn:Hg.
  - exists st, maps, q, g. split; [eapply explore_intern_hit; eassumption|].
    split; [exact Hinv|]. split; [exact Hg|]. split; [lia|].
    split; [intros q' [= <-]; auto | discriminate].
  - destruct (explore_intern_miss st maps cat g seg Hinv Hg Hlen)
      as (st' & maps' & Hi & Hinv' & Hlen' & _).
    exists st', maps', (Z.of_nat (length (es_arena st)) + 1), (<[facet_hash seg := Z.of_nat (length (es_arena st)) + 1]> g).
    split; [exact Hi|]. split; [exact Hinv'|].
    split; [apply lookup_insert_eq|]. split; [lia|].
    split; [discriminate | auto].
Qed.

(** "Mega Man" and "MEGAMAN!" differ in case, in a space and in a
    punctuation mark, all of which the hash leaves out. *)
Example facet_hash_ignores_case_and_punctuation :
  facet_hash (bytes_of_string "Mega Man") = facet_hash (bytes_of_string "MEGAMAN!").
Proof. reflexivity. Qed.

(** * Sorting *)

Lemma strcasecmp_antisym (a b : list Z) : strcasecmp b a = - strcasecmp a b.
Proof.
  revert b. induction a as [|x a IH]; intros [|y b]; simpl; try lia.
  rewrite (Z.eqb_sym (tolower y)).
  destruct (Z.eqb_spec (tolower x) (tolower y)); [apply IH | lia].
Qed.

Lemma explore_qsort_func_antisym (a b : list Z) :
  explore_qsort_func b a = - explore_qsort_func a b.
Proof.
  unfold explore_qsort_func. rewrite (Z.eqb_sym (nth 0 b 0)).
  destruct (Z.eqb_spec (nth 0 a 0) (nth 0 b 0)); simpl;
    [apply strcasecmp_antisym | lia].
Qed.

Lemma explore_qsort_func_code_order (a b : list Z) :
  explore_qsort_func a b <= 0 <-> code_order a b.
Proof.
  unfold explore_qsort_func, code_order.
  destruct (Z.eqb_spec (nth 0 a 0) (nth 0 b 0)); simpl; lia.
Qed.

Lemma qsort_sorted {A : Type} (compar : A -> A -> Z) (l : list A) :
  (forall a b, compar b a = - compar a b) ->
  Sorted (fun a b => compar a b <= 0) (qsort compar l).
Proof.
  intros Hanti. unfold qsort. apply Sorted_merge_sort.
  intros a b. rewrite (Hanti a b). lia.
Qed.

Lemma qsort_perm {A : Type} (compar : A -> A -> Z) (l : list A) :
  qsort compar l ≡ₚ l.
Proof. unfold qsort. apply merge_sort_Permutation. Qed.

Lemma Sorted_adjacent {A : Type} (R : A -> A -> Prop) (l : list A) :
  Sorted R l ->
  forall (i : nat) (a b : A), l !! i = Some a -> l !! S i = Some b -> R a b.
Proof.
  induction 1 as [|x l Hs IH Hhd]; intros i a b Ha Hb; [discriminate|].
  destruct i as [|i].
  - simpl in Ha, Hb. injection Ha as <-.
    destruct Hhd as [|y l' Hxy]; [discriminate|].
    simpl in Hb. injection Hb as <-. exact Hxy.
  - exact (IH i a b Ha Hb).
Qed.

Lemma Sorted_weaken {A : Type} (R R' : A -> A -> Prop) (l : list A) :
  (forall a b, R a b -> R' a b) -> Sorted R l -> Sorted R' l.
Proof.
  intros Himp. induction 1 as [|x l Hs IH Hhd]; constructor; [exact IH|].
  destruct Hhd; constructor; auto.
Qed.

(** Assigning the indices changes no string. *)
Lemma alter_idx_strs (arena : list explore_string_t) (n : nat) (idx : Z) :
  map s_str (alter (fun s => mk_string idx (s_str s)) n arena) = map s_str arena.
Proof.
  revert n. induction arena as [|s arena IH]; intros [|n]; simpl; try reflexivity.
  f_equal. apply IH.
Qed.

Lemma assign_idx_strs (facets : list Z) :
  forall (arena : list explore_string_t) (idx : Z),
    map s_str (assign_idx arena facets idx) = map s_str arena.
Proof.
  induction facets as [|p facets IH]; intros arena idx; [reflexivity|].
  simpl. rewrite IH. apply alter_idx_strs.
Qed.

Lemma arena_get_str (arena : list explore_string_t) (p : Z) :
  s_str (arena_get arena p) = nth (Z.to_nat (p - 1)) (map s_str arena) [].
Proof.
  unfold arena_get. symmetry.
  apply (map_nth s_str arena (mk_string 0 [])).
Qed.

Lemma explore_qsort_func_strings_ext (arena arena' : list explore_string_t) (a b : Z) :
  map s_str arena' = map s_str arena ->
  explore_qsort_func_strings arena' a b = explore_qsort_func_strings arena a b.
Proof.
  intros H. unfold explore_qsort_func_strings. rewrite !arena_get_str, H. reflexivity.
Qed.

Lemma explore_sort_categories_spec (by_ : list (list Z)) :
  forall (arena arena' : list explore_string_t) (by' : list (list Z)),
    explore_sort_categories arena by_ = (arena', by') ->
    map s_str arena' = map s_str arena /\
    Forall2 (fun facets sorted =>
               Sorted (fun a b => explore_qsort_func_strings arena a b <= 0) sorted /\
               sorted ≡ₚ facets) by_ by'.
Proof.
  induction by_ as [|facets by_ IH]; intros arena arena' by'; simpl.
  - intros [= <- <-]. split; [reflexivity | constructor].
  - destruct (explore_sort_categories _ by_) as [arena2 rest] eqn:E.
    intros [= <- <-]. apply IH in E as [Hstr Hall].
    unfold explore_sort_category in *. simpl in *.
    rewrite assign_idx_strs in Hstr. split; [exact Hstr|].
    constructor.
    + split.
      * apply qsort_sorted. intros a b. unfold explore_qsort_func_strings.
        apply explore_qsort_func_antisym.
      * apply qsort_perm.
    + eapply Forall2_impl; [exact Hall|].
      intros l1 l2 [Hs Hp]. split; [|exact Hp].
      eapply Sorted_weaken; [|exact Hs]. intros a b Hab. simpl in Hab.
      rewrite (explore_qsort_func_strings_ext arena) in Hab
        by apply assign_idx_strs.
      exact Hab.
Qed.

(** What the last phase of [explore_build_list] leaves. *)
Lemma explore_build_list_sorted (env : explore_env) (st : explore_state_t) :
  explore_build_list env = Ok st ->
  exists st0 : explore_state_t,
    map s_str (es_arena st) = map s_str (es_arena st0) /\
    Forall2 (fun facets sorted =>
               Sorted (fun a b => explore_qsort_func_strings (es_arena st) a b <= 0)
                      sorted /\
               sorted ≡ₚ facets) (es_by st0) (es_by st) /\
    es_entries st ≡ₚ es_entries st0 /\
    es_has_unknown st = es_has_unknown st0.
Proof.
  unfold explore_build_list.
  destruct (explore_index_playlists _ _ _) as [[ix playlists]|]; simpl; [|discriminate].
  destruct (match env_cores env with Some _ => _ | None => _ end) as [map_cores|];
    simpl; [|discriminate].
  destruct (explore_build_rdbs _ _ _ _ _) as [bd|]; simpl; [|discriminate].
  destruct (explore_sort_categories _ _) as [arena by_] eqn:E.
  intros [= <-]. simpl. exists (b_state bd).
  apply explore_sort_categories_spec in E as [Hstr Hall].
  split; [exact Hstr|]. split; [|split; [|reflexivity]].
  - eapply Forall2_impl; [exact Hall|].
    intros l1 l2 [Hs Hp]. split; [|exact Hp].
    eapply Sorted_weaken; [|exact Hs]. intros a b Hab. simpl in Hab.
    rewrite (explore_qsort_func_strings_ext (es_arena (b_state bd))) by exact Hstr.
    exact Hab.
  - apply qsort_perm.
Qed.

(** C1 (as stated, refuted).  One record with the genre ["apple/Zebra"]:
    after the build the Genre array is "Zebra", "apple", because the
    comparator looks at the raw first byte first and 'Z' is less than 'a';
    case-insensitively "Zebra" is greater than "apple". *)
Lemma facet_order_is_first_byte_first :
  exists st a b,
    explore_build_list env_sort = Ok st /\
    by_cat st 4 = [a; b] /\
    facet_str st a = bytes_of_string "Zebra" /\
    facet_str st b = bytes_of_string "apple" /\
    ~ spec_order (facet_str st a) (facet_str st b).
Proof.
  eexists _, _, _. split; [vm_compute; reflexivity|].
  split; [reflexivity|]. split; [reflexivity|]. split; [reflexivity|].
  unfold spec_order. vm_compute. intros [H|[H _]]; discriminate H.
Qed.

(** C1 (amended).  After a build completes, for every category the facet
    value array is sorted ascending with the raw first byte as the primary
    key and the case-insensitive comparison as the tiebreak: for every
    adjacent pair of values, either the first byte of the earlier one is
    strictly less, or the first bytes are equal and the case-insensitive
    comparison is not greater. *)
Theorem facet_arrays_sorted (env : explore_env) (st : explore_state_t)
    (cat i : nat) (a b : Z) :
  explore_build_list env = Ok st ->
  by_cat st cat !! i = Some a ->
  by_cat st cat !! S i = Some b ->
  code_order (facet_str st a) (facet_str st b).
Proof.
  intros Hbuild Ha Hb.
  destruct (explore_build_list_sorted env st Hbuild) as (st0 & _ & Hall & _).
  unfold by_cat in Ha, Hb.
  destruct (es_by st !! cat) as [sorted|] eqn:E.
  - rewrite (nth_lookup_Some _ _ _ _ E) in Ha, Hb.
    destruct (Forall2_lookup_r _ _ _ _ _ Hall E) as (facets & _ & Hs & _).
    apply explore_qsort_func_code_order.
    exact (Sorted_adjacent _ _ Hs i a b Ha Hb).
  - rewrite nth_lookup, E in Ha. discriminate.
Qed.

Lemma facet_arrays_sorted_witness :
  code_order (facet_str st_sort 2) (facet_str st_sort 1).
Proof.
  apply (facet_arrays_sorted env_sort st_sort 4 0 2 1); vm_compute; reflexivity.
Defined.

(** * The distinct-value view *)

Lemma existsb_eqb_In (p : Z) (l : list Z) : existsb (Z.eqb p) l = true <-> In p l.
Proof.
  rewrite existsb_exists. split.
  - intros (q & Hq & E). apply Z.eqb_eq in E. subst q. exact Hq.
  - intros H. exists p. split; [exact H | apply Z.eqb_refl].
Qed.

Section View.

Variable M : Z.
Variable st : explore_state_t.
Variable cat : nat.
Hypothesis Hinv : index_inv st cat.

Lemma by_cat_idx_range (p : Z) :
  In p (by_cat st cat) -> 0 <= facet_idx st p < 2 ^ 30.
Proof.
  intros Hp. apply list_elem_of_In, list_elem_of_lookup in Hp as [i Hi].
  rewrite (ix_idx _ _ Hinv i p Hi). pose proof (lookup_lt_Some _ _ _ Hi).
  pose proof (ix_len _ _ Hinv). lia.
Qed.

Lemma by_cat_idx_inj (p q : Z) :
  In p (by_cat st cat) -> In q (by_cat st cat) ->
  facet_idx st p = facet_idx st q -> p = q.
Proof.
  intros Hp Hq E.
  apply list_elem_of_In, list_elem_of_lookup in Hp as [i Hi].
  apply list_elem_of_In, list_elem_of_lookup in Hq as [j Hj].
  rewrite (ix_idx _ _ Hinv i p Hi), (ix_idx _ _ Hinv j q Hj) in E.
  assert (i = j) by lia. subst j. congruence.
Qed.

Lemma by_cat_NoDup : NoDup (by_cat st cat).
Proof.
  apply NoDup_alt. intros i j p Hi Hj.
  pose proof (ix_idx _ _ Hinv i p Hi). pose proof (ix_idx _ _ Hinv j p Hj). lia.
Qed.

(** The comparator on two values of the array follows their positions. *)
Lemma by_cat_order (p q : Z) :
  In p (by_cat st cat) -> In q (by_cat st cat) ->
  explore_qsort_func (facet_str st p) (facet_str st q) <= 0 ->
  facet_idx st p <= facet_idx st q.
Proof.
  intros Hp Hq Hle.
  apply list_elem_of_In, list_elem_of_lookup in Hp as [i Hi].
  apply list_elem_of_In, list_elem_of_lookup in Hq as [j Hj].
  rewrite (ix_idx _ _ Hinv i p Hi), (ix_idx _ _ Hinv j q Hj).
  destruct (Nat.lt_ge_cases j i) as [Hlt|Hge]; [|lia].
  pose proof (ix_sorted _ _ Hinv j i q p Hlt Hj Hi) as Hs.
  rewrite explore_qsort_func_antisym in Hs. lia.
Qed.

Lemma view_inv_length (acc : filter_acc) (seen : list Z) (g : gmap Z Z) (p : Z) :
  view_inv M st cat acc seen g -> In p (by_cat st cat) -> ~ In p seen ->
  Z.of_nat (length seen) < 2 ^ 30.
Proof.
  intros Hv Hp Hnp. pose proof (ix_len _ _ Hinv).
  assert (Hsub : (seen ++ [p]) ⊆+ by_cat st cat).
  { apply NoDup_submseteq.
    - apply NoDup_app. split; [exact (vi_nodup _ _ _ _ _ _ Hv)|]. split.
      + intros x Hx Hx'. apply list_elem_of_In in Hx.
        apply list_elem_of_singleton in Hx'. subst x. contradiction.
      + apply NoDup_singleton.
    - intros x Hx. apply list_elem_of_In. apply list_elem_of_In in Hx.
      apply in_app_or in Hx as [Hx|[<-|[]]]; [exact (vi_incl _ _ _ _ _ _ Hv x Hx) | exact Hp]. }
  apply submseteq_length in Hsub. rewrite length_app in Hsub. simpl in Hsub. lia.
Qed.

Lemma explore_collect_value_spec (acc : filter_acc) (seen : list Z) (g : gmap Z Z)
    (e : explore_entry_t) :
  view_inv M st cat acc seen g ->
  entry_by e cat = 0 \/ In (entry_by e cat) (by_cat st cat) ->
  exists acc' g',
    explore_collect_value M st cat acc e = Ok acc' /\
    view_inv M st cat acc' (collect cat seen [e]) g' /\
    fa_have_unknown acc' = fa_have_unknown acc || (entry_by e cat =? 0).
Proof.
  intros Hv Hby. unfold explore_collect_value. simpl collect.
  destruct (Z.eqb_spec (entry_by e cat) 0) as [E0|E0].
  - exists (mk_acc (fa_list acc) (fa_map acc) true), g. split; [reflexivity|].
    split; [destruct Hv; constructor; assumption|]. simpl. rewrite orb_true_r. reflexivity.
  - destruct Hby as [?|Hin]; [contradiction|].
    pose proof (by_cat_idx_range _ Hin) as Hr.
    fold (facet_idx st (entry_by e cat)).
    assert (Hu : u32 (facet_idx st (entry_by e cat) + 1) = facet_idx st (entry_by e cat) + 1).
    { unfold u32. apply Z.mod_small. lia. }
    rewrite Hu.
    rewrite (ex_hashmap32_getnum_spec _ g _ (vi_wf _ _ _ _ _ _ Hv) (vi_models _ _ _ _ _ _ Hv)
               (vi_key0 _ _ _ _ _ _ Hv)).
    rewrite (vi_seen _ _ _ _ _ _ Hv _ Hin). simpl.
    destruct (existsb (Z.eqb (entry_by e cat)) seen) eqn:Es; simpl.
    + exists acc, g. split; [reflexivity|]. split; [exact Hv|].
      rewrite orb_false_r. reflexivity.
    + assert (Hnin : ~ In (entry_by e cat) seen).
      { intros Hc. apply existsb_eqb_In in Hc. congruence. }
      pose proof (view_inv_length _ _ _ _ Hv Hin Hnin) as Hlen.
      destruct (ex_hashmap32_setnum_spec (fa_map acc) g
                  (facet_idx st (entry_by e cat) + 1) 1
                  (vi_wf _ _ _ _ _ _ Hv) (vi_models _ _ _ _ _ _ Hv) (vi_zero _ _ _ _ _ _ Hv))
        as (m' & Hset & Hinv' & Hmod' & Hlen').
      { pose proof (vi_len _ _ _ _ _ _ Hv). lia. }
      { lia. }
      rewrite Hset. simpl. eexists _, _. split; [reflexivity|].
      split; [|simpl; rewrite orb_false_r; reflexivity].
      constructor; simpl.
      * rewrite (vi_list _ _ _ _ _ _ Hv), List.map_app. reflexivity.
      * apply NoDup_app. split; [exact (vi_nodup _ _ _ _ _ _ Hv)|]. split.
        -- intros x Hx Hx'. apply list_elem_of_In in Hx.
           apply list_elem_of_singleton in Hx'. subst x. contradiction.
        -- apply NoDup_singleton.
      * intros p Hp. apply in_app_or in Hp as [Hp|[<-|[]]];
          [exact (vi_incl _ _ _ _ _ _ Hv p Hp) | exact Hin].
      * right. exact Hinv'.
      * exact Hmod'.
      * intros ->. exfalso. destruct Hinv' as [[Hc _ _ _] _ _].
        apply pow2cap_range in Hc. simpl in Hc. lia.
      * rewrite lookup_insert_ne by lia. exact (vi_key0 _ _ _ _ _ _ Hv).
      * intros p Hp. rewrite existsb_app. simpl. rewrite orb_false_r.
        destruct (Z.eq_dec (entry_by e cat) p) as [<-|Hne].
        -- rewrite lookup_insert_eq, Z.eqb_refl, orb_true_r. reflexivity.
        -- rewrite lookup_insert_ne.
           ++ rewrite (vi_seen _ _ _ _ _ _ Hv p Hp).
              destruct (Z.eqb_spec p (entry_by e cat)); [congruence|].
              rewrite orb_false_r. reflexivity.
           ++ intros Hc. apply Hne. apply by_cat_idx_inj; [exact Hin | exact Hp | lia].
      * rewrite length_app. simpl.
        rewrite (vi_seen _ _ _ _ _ _ Hv _ Hin), Es in Hlen'.
        pose proof (vi_len _ _ _ _ _ _ Hv). lia.
Qed.

Lemma collect_cons (seen : list Z) (e : explore_entry_t) (es : list explore_entry_t) :
  collect cat seen (e :: es) = collect cat (collect cat seen [e]) es.
Proof.
  simpl. destruct ((entry_by e cat =? 0) || existsb (Z.eqb (entry_by e cat)) seen);
    reflexivity.
Qed.

Lemma collect_In (es : list explore_entry_t) :
  forall (seen : list Z) (p : Z),
    In p (collect cat seen es) <-> In p seen \/ (p <> 0 /\ held cat es p = true).
Proof.
  induction es as [|e es IH]; intros seen p.
  - simpl. split; [auto | intros [?|[_ ?]]; [assumption | discriminate]].
  - assert (Hheld : held cat (e :: es) p = (entry_by e cat =? p) || held cat es p)
      by reflexivity.
    rewrite Hheld. clear Hheld. cbn [collect].
    destruct (Z.eqb_spec (entry_by e cat) p) as [Ep|Ep]; cbn [orb].
    + (* the entry holds [p] *)
      destruct (Z.eqb_spec (entry_by e cat) 0) as [E0|E0]; cbn [orb].
      * rewrite IH. split; [|intros [Hs|[Hp _]]; [auto | congruence]].
        intros [Hs|[Hp Hh]]; [auto | congruence].
      * destruct (existsb (Z.eqb (entry_by e cat)) seen) eqn:Es; rewrite IH.
        -- apply existsb_eqb_In in Es. rewrite Ep in Es.
           split; [intros [Hs|[Hp Hh]]; auto | intros _; auto].
        -- rewrite in_app_iff. simpl. split.
           ++ intros [[Hs|[Hs|[]]]|[Hp Hh]]; [auto | | right; split; [exact Hp | reflexivity]].
              right. split; [congruence | reflexivity].
           ++ intros _. left. right. left. exact Ep.
    + (* the entry holds another value *)
      destruct ((entry_by e cat =? 0) || existsb (Z.eqb (entry_by e cat)) seen);
        rewrite IH; [reflexivity|].
      rewrite in_app_iff. simpl. split.
      * intros [[Hs|[Hs|[]]]|Hr]; [auto | contradiction | auto].
      * intros [Hs|Hr]; auto.
Qed.

Variable levels : list level.
Variable find_string : list Z.

Lemma explore_entry_levels_total (e : explore_entry_t) :
  split_ok e = true -> exists b, explore_entry_levels levels e = Ok b.
Proof.
  intros Hok. induction levels as [|lv lvs (b & IH)]; [exists true; reflexivity|].
  simpl. destruct (lv_filter lv =? entry_by e (lv_cat lv)); [exists b; exact IH|].
  destruct (lv_use_split lv); [|exists false; reflexivity].
  destruct (e_split e) as [split|] eqn:E; [|exists false; reflexivity].
  destruct (split_ok_inv e split Hok E) as (-> & Hne & Hnz).
  destruct (split_scan_spec (secondary e) (lv_filter lv) Hne Hnz) as (found & -> & _).
  simpl. destruct found; [exists b; exact IH | exists false; reflexivity].
Qed.

Lemma explore_entry_passes_total (e : explore_entry_t) :
  split_ok e = true ->
  explore_entry_passes levels find_string e = Ok (passes levels find_string e).
Proof.
  intros Hok. unfold passes, explore_entry_passes.
  destruct (explore_entry_levels_total e Hok) as [b ->]. simpl.
  destruct (negb b); reflexivity.
Qed.

Lemma explore_filter_loop_category (es : list explore_entry_t) :
  forall (acc : filter_acc) (seen : list Z) (g : gmap Z Z) (i : Z),
    view_inv M st cat acc seen g ->
    (forall e, In e es ->
       split_ok e = true /\
       (entry_by e cat = 0 \/ In (entry_by e cat) (by_cat st cat))) ->
    exists acc' g',
      explore_filter_loop M st levels find_string (Some cat) acc i es = Ok acc' /\
      view_inv M st cat acc' (collect cat seen (List.filter (passes levels find_string) es)) g' /\
      fa_have_unknown acc' =
        fa_have_unknown acc || held cat (List.filter (passes levels find_string) es) 0.
Proof.
  induction es as [|e es IH]; intros acc seen g i Hv Hes.
  - exists acc, g. split; [reflexivity|]. split; [exact Hv|].
    simpl. rewrite orb_false_r. reflexivity.
  - destruct (Hes e (or_introl eq_refl)) as [Hok Hby].
    cbn [explore_filter_loop List.filter].
    rewrite (explore_entry_passes_total e Hok). simpl bind.
    destruct (passes levels find_string e); cbn [negb].
    + destruct (explore_collect_value_spec acc seen g e Hv Hby)
        as (acc1 & g1 & Hc & Hv1 & Hu1).
      rewrite Hc. simpl bind.
      destruct (IH acc1 _ g1 (i + 1) Hv1) as (acc' & g' & Hloop & Hv' & Hu').
      { intros e' He'. apply Hes. right. exact He'. }
      exists acc', g'. split; [exact Hloop|]. split.
      * rewrite collect_cons. exact Hv'.
      * rewrite Hu', Hu1. simpl. rewrite orb_assoc. reflexivity.
    + simpl bind. apply (IH acc seen g (i + 1) Hv).
      intros e' He'. apply Hes. right. exact He'.
Qed.

End View.

(** ** Sorting the collected items *)

Lemma Sorted_map_on {A B : Type} (R : A -> A -> Prop) (R2 : B -> B -> Prop)
    (f : A -> B) (l : list A) :
  Sorted R l ->
  (forall x y, In x l -> In y l -> R x y -> R2 (f x) (f y)) ->
  Sorted R2 (map f l).
Proof.
  induction 1 as [|x l Hs IH Hhd]; intros Himp; simpl; constructor.
  - apply IH. intros a b Ha Hb. apply Himp; right; assumption.
  - destruct Hhd as [|y l' Hxy]; simpl; constructor.
    apply Himp; [left; reflexivity | right; left; reflexivity | exact Hxy].
Qed.

Lemma Sorted_map_inv {A B : Type} (R : B -> B -> Prop) (f : A -> B) (l : list A) :
  Sorted R (map f l) -> Sorted (fun x y => R (f x) (f y)) l.
Proof.
  induction l as [|x l IH]; simpl; intros H; [constructor|].
  apply Sorted_inv in H as [Hs Hhd]. constructor; [apply IH, Hs|].
  destruct l; simpl in *; constructor. apply HdRel_inv in Hhd. exact Hhd.
Qed.

Lemma StronglySorted_lookup {A : Type} (R : A -> A -> Prop) (l : list A) :
  (forall (i j : nat) x y, (i < j)%nat -> l !! i = Some x -> l !! j = Some y -> R x y) ->
  StronglySorted R l.
Proof.
  induction l as [|a l IH]; intros H; constructor.
  - apply IH. intros i j x y Hij Hx Hy. apply (H (S i) (S j)); [lia | exact Hx | exact Hy].
  - apply List.Forall_forall. intros y Hy.
    apply list_elem_of_In, list_elem_of_lookup in Hy as [j Hj].
    apply (H 0%nat (S j)); [lia | reflexivity | exact Hj].
Qed.

Lemma StronglySorted_list_filter {A : Type} (R : A -> A -> Prop) (h : A -> bool)
    (l : list A) :
  StronglySorted R l -> StronglySorted R (List.filter h l).
Proof.
  induction 1 as [|a l Hs IH Hall]; simpl; [constructor|].
  destruct (h a); [|exact IH]. constructor; [exact IH|].
  rewrite List.Forall_forall in *. intros x Hx. apply List.filter_In in Hx as [Hx _].
  apply Hall, Hx.
Qed.

Lemma NoDup_list_filter {A : Type} (h : A -> bool) (l : list A) :
  NoDup l -> NoDup (List.filter h l).
Proof.
  induction 1 as [|a l Hn Hnd IH]; simpl; [constructor|].
  destruct (h a); [|exact IH]. constructor; [|exact IH].
  intros Hin. apply Hn. apply list_elem_of_In in Hin.
  apply List.filter_In in Hin as [Hin _]. apply list_elem_of_In. exact Hin.
Qed.

Lemma map_inj_on {A B : Type} (f : A -> B) (l1 l2 : list A) :
  (forall x y, In x l1 -> In y l2 -> f x = f y -> x = y) ->
  map f l1 = map f l2 -> l1 = l2.
Proof.
  revert l2. induction l1 as [|x l1 IH]; intros [|y l2] Hinj Hmap;
    try discriminate; [reflexivity|].
  simpl in Hmap. injection Hmap as Hxy Hmap. f_equal.
  - apply Hinj; [left; reflexivity | left; reflexivity | exact Hxy].
  - apply IH; [|exact Hmap]. intros a b Ha Hb. apply Hinj; right; assumption.
Qed.

Lemma explore_view_sorted (M : Z) (st : explore_state_t) (cat : nat)
    (seen : list Z) (h : Z -> bool) :
  index_inv st cat ->
  NoDup seen ->
  (forall p, In p seen <-> In p (by_cat st cat) /\ h p = true) ->
  qsort explore_qsort_func_menulist (map (item_of M st) seen)
  = map (item_of M st) (List.filter h (by_cat st cat)).
Proof.
  intros Hinv Hnd Hseen.
  set (l1 := qsort explore_qsort_func_menulist (map (item_of M st) seen)).
  assert (Hs1 : Sorted (fun a b => explore_qsort_func_menulist a b <= 0) l1).
  { apply qsort_sorted. intros a b. apply explore_qsort_func_antisym. }
  assert (Hp1 : l1 ≡ₚ map (item_of M st) seen) by apply qsort_perm.
  apply Permutation_map_inv in Hp1 as (s1 & Hl1 & Hps1).
  rewrite Hl1 in *. clear l1 Hl1. f_equal.
  set (s2 := List.filter h (by_cat st cat)).
  assert (Hin1 : forall p, In p s1 -> In p (by_cat st cat)).
  { intros p Hp. apply (Permutation_in _ (Permutation_sym Hps1)) in Hp.
    apply Hseen in Hp. tauto. }
  assert (Hin2 : forall p, In p s2 -> In p (by_cat st cat)).
  { intros p Hp. apply List.filter_In in Hp. tauto. }
  apply (map_inj_on (facet_idx st)).
  { intros p q Hp Hq. apply (by_cat_idx_inj st cat Hinv); auto. }
  apply (Sorted_unique Z.le).
  - apply Sorted_map_inv in Hs1.
    apply (Sorted_map_on _ Z.le (facet_idx st) s1 Hs1).
    intros p q Hp Hq Hle. apply (by_cat_order st cat Hinv); auto.
  - apply (Sorted_map_on (fun p q => facet_idx st p <= facet_idx st q) Z.le).
    + apply StronglySorted_Sorted, StronglySorted_list_filter, StronglySorted_lookup.
      intros i j p q Hij Hp Hq.
      rewrite (ix_idx _ _ Hinv i p Hp), (ix_idx _ _ Hinv j q Hq). lia.
    + auto.
  - apply Permutation_map. rewrite <- Hps1.
    apply NoDup_Permutation; [exact Hnd | |].
    + apply NoDup_list_filter, by_cat_NoDup, Hinv.
    + intros p. rewrite !list_elem_of_In. unfold s2. rewrite List.filter_In.
      apply Hseen.
Qed.

(** The view of a category on an index that satisfies the invariant: the
    items of the values of the facet array that a passing entry holds, in
    the order of the array, then "Unknown" if a passing entry has none. *)
Lemma explore_list_filtered_view (M : Z) (st : explore_state_t) (levels : list level)
    (find_string : list Z) (cat : nat) :
  index_inv st cat ->
  let passing := List.filter (passes levels find_string) (es_entries st) in
  explore_list_filtered M st levels find_string (Some cat) [] =
    Ok (map (item_of M st) (List.filter (held cat passing) (by_cat st cat)) ++
        (if held cat passing 0
         then [(bytes_of_string "Unknown", EXPLORE_TYPE_FILTERNULL M)]
         else [])).
Proof.
  intros Hinv passing.
  assert (Hv0 : view_inv M st cat (mk_acc [] hm_zero false) [] ∅).
  { constructor.
    - reflexivity.
    - constructor.
    - intros p [].
    - left. reflexivity.
    - apply hm_models_zero.
    - reflexivity.
    - apply lookup_empty.
    - intros p _. apply lookup_empty.
    - simpl. lia. }
  destruct (explore_filter_loop_category M st cat Hinv levels find_string
              (es_entries st) _ _ _ 0 Hv0) as (acc & g & Hloop & Hv & Hu).
  { intros e He. split; [exact (ix_split _ _ Hinv e He) | exact (ix_by _ _ Hinv e He)]. }
  unfold explore_list_filtered. rewrite Hloop. simpl bind.
  fold passing in Hv, Hu. simpl in Hu. rewrite Hu, (vi_list _ _ _ _ _ _ Hv).
  rewrite (explore_view_sorted M st cat _ (held cat passing) Hinv (vi_nodup _ _ _ _ _ _ Hv)).
  - destruct (held cat passing 0); [reflexivity|]. rewrite app_nil_r. reflexivity.
  - intros p. rewrite (collect_In st cat Hinv). split.
    + intros [[]|[Hp Hh]]. split; [|exact Hh].
      apply (vi_incl _ _ _ _ _ _ Hv).
      apply (proj2 (collect_In st cat Hinv passing [] p)). right. auto.
    + intros [Hp Hh]. right. split; [exact (ix_nonnull _ _ Hinv p Hp) | exact Hh].
Qed.

(** * Strings without NUL *)

Lemma cstr_nz (buf : list Z) : nz (cstr buf).
Proof.
  induction buf as [|c buf IH]; simpl; [constructor|].
  destruct (Z.eqb_spec c 0); constructor; assumption.
Qed.

Lemma cstr_sub_nz (s : list Z) (p q : Z) (seg : list Z) :
  nz s -> cstr_sub s p q = Ok seg -> nz seg.
Proof.
  unfold cstr_sub, nz. intros Hs. destruct (_ && _); [|discriminate].
  intros [= <-]. apply Forall_take, Forall_drop, Hs.
Qed.

Lemma tolower_nz (c : Z) : c <> 0 -> tolower c <> 0.
Proof. unfold tolower. destruct (_ && _) eqn:E; lia. Qed.

Lemma strcasecmp_trans (a : list Z) :
  forall b c, nz a -> nz b -> nz c ->
    strcasecmp a b <= 0 -> strcasecmp b c <= 0 -> strcasecmp a c <= 0.
Proof.
  induction a as [|x a IH]; intros [|y b] [|z c] Ha Hb Hc; simpl; try lia.
  - destruct (Z.eqb_spec (tolower y) (tolower z)); lia.
  - apply Forall_cons in Ha as [Hx _]. apply tolower_nz in Hx.
    destruct (Z.eqb_spec (tolower x) (tolower z)); lia.
  - destruct (Z.eqb_spec (tolower x) (tolower y)); lia.
  - apply Forall_cons in Ha as [_ Ha]. apply Forall_cons in Hb as [_ Hb].
    apply Forall_cons in Hc as [_ Hc].
    destruct (Z.eqb_spec (tolower x) (tolower y)) as [Exy|Exy];
      destruct (Z.eqb_spec (tolower y) (tolower z)) as [Eyz|Eyz];
      destruct (Z.eqb_spec (tolower x) (tolower z)) as [Exz|Exz];
      try lia.
    apply IH; assumption.
Qed.

Lemma strcasecmp_0 (a : list Z) :
  forall b, nz a -> nz b -> strcasecmp a b = 0 -> map tolower a = map tolower b.
Proof.
  induction a as [|x a IH]; intros [|y b] Ha Hb; simpl; try reflexivity.
  - apply Forall_cons in Hb as [Hy _]. apply tolower_nz in Hy. lia.
  - apply Forall_cons in Ha as [Hx _]. apply tolower_nz in Hx. lia.
  - apply Forall_cons in Ha as [_ Ha]. apply Forall_cons in Hb as [_ Hb].
    destruct (Z.eqb_spec (tolower x) (tolower y)) as [E|E]; [|lia].
    intros H. rewrite E. f_equal. apply IH; assumption.
Qed.

Lemma explore_qsort_func_trans (a b c : list Z) :
  nz a -> nz b -> nz c ->
  explore_qsort_func a b <= 0 -> explore_qsort_func b c <= 0 ->
  explore_qsort_func a c <= 0.
Proof.
  intros Ha Hb Hc. unfold explore_qsort_func.
  destruct (Z.eqb_spec (nth 0 a 0) (nth 0 b 0));
    destruct (Z.eqb_spec (nth 0 b 0) (nth 0 c 0));
    destruct (Z.eqb_spec (nth 0 a 0) (nth 0 c 0)); simpl; try lia.
  apply strcasecmp_trans; assumption.
Qed.

(** ** The hash sees a segment through [tolower] only *)

Lemma lor_0x20 (c : Z) : 65 <= c <= 90 -> Z.lor c 0x20 = c + 32.
Proof.
  intros Hc.
  assert (Hn : exists n, c = 65 + Z.of_nat n /\ (n < 26)%nat).
  { exists (Z.to_nat (c - 65)). lia. }
  destruct Hn as (n & -> & Hn).
  do 26 (destruct n as [|n]; [reflexivity|]). lia.
Qed.

Lemma hash_step_tolower (h c : Z) :
  hash_step 48 255 h c = hash_step_folded h (tolower c).
Proof.
  unfold hash_step, hash_step_folded, tolower.
  destruct ((65 <=? c) && (c <=? 90)) eqn:E.
  - apply andb_prop in E as [E1 E2]. apply Z.leb_le in E1, E2.
    rewrite lor_0x20 by lia.
    destruct (Z.leb_spec 48 c); destruct (Z.leb_spec c 255);
      destruct (Z.leb_spec 48 (c + 32)); destruct (Z.leb_spec (c + 32) 255);
      simpl; try lia; reflexivity.
  - reflexivity.
Qed.

Lemma fold_hash_tolower (s : list Z) :
  forall h, fold_left (hash_step 48 255) s h =
            fold_left hash_step_folded (map tolower s) h.
Proof.
  induction s as [|c s IH]; intros h; simpl; [reflexivity|].
  rewrite hash_step_tolower. apply IH.
Qed.

Lemma facet_hash_tolower (a b : list Z) :
  map tolower a = map tolower b -> facet_hash a = facet_hash b.
Proof.
  intros H. unfold facet_hash, ex_hash32_nocase_filtered.
  rewrite !fold_hash_tolower, H. reflexivity.
Qed.

(** Two strings that the comparator cannot tell apart have one hash. *)
Lemma explore_qsort_func_0_hash (a b : list Z) :
  nz a -> nz b -> explore_qsort_func a b = 0 -> facet_hash a = facet_hash b.
Proof.
  intros Ha Hb. unfold explore_qsort_func.
  destruct (Z.eqb_spec (nth 0 a 0) (nth 0 b 0)); simpl; [|lia].
  intros H. apply facet_hash_tolower, strcasecmp_0; assumption.
Qed.

(** * The invariant of the build *)

Lemma bind_Ok {A B : Type} (r : result A) (k : A -> result B) (b : B) :
  bind r k = Ok b -> exists a, r = Ok a /\ k a = Ok b.
Proof. destruct r as [a|f]; simpl; [eauto | discriminate]. Qed.

Lemma nth_insert_eq {A : Type} (l : list A) (i : nat) (x d : A) :
  (i < length l)%nat -> nth i (<[i := x]> l) d = x.
Proof. intros H. rewrite nth_lookup, list_lookup_insert_eq by exact H. reflexivity. Qed.

Lemma nth_insert_ne {A : Type} (l : list A) (i j : nat) (x d : A) :
  i <> j -> nth j (<[i := x]> l) d = nth j l d.
Proof. intros H. rewrite !nth_lookup, list_lookup_insert_ne by exact H. reflexivity. Qed.

Lemma hm_wf_len (m : ex_hashmap32) : hm_wf m -> hm_len m <= 2 ^ 30.
Proof.
  intros [->|[[Hc _ _ _] _ Hload]]; [simpl; lia|].
  apply pow2cap_range in Hc. lia.
Qed.

Lemma explore_intern_overflow (st : explore_state_t) (maps : list ex_hashmap32)
    (cat : nat) (g : gmap Z Z) (seg : list Z) :
  intern_inv st maps cat g -> g !! facet_hash seg = None ->
  hm_len (map_cat maps cat) = 2 ^ 30 ->
  explore_intern st maps cat seg = Err NoTermination.
Proof.
  intros Hinv Hg Hlen. unfold explore_intern, ex_hashmap32_getptr, ex_hashmap32_setptr.
  fold (facet_hash seg).
  rewrite (ex_hashmap32_getnum_spec _ g _ (ii_wf _ _ _ _ Hinv)
             (ii_models _ _ _ _ Hinv) (ii_key0 _ _ _ _ Hinv)).
  rewrite Hg. simpl.
  rewrite ex_hashmap32_setnum_overflow; [reflexivity | | exact Hlen | apply facet_hash_nonzero].
  destruct (ii_wf _ _ _ _ Hinv) as [E|Hi]; [|exact Hi].
  rewrite E in Hlen. simpl in Hlen. lia.
Qed.

(** The intern step touches the map of its category only. *)
Lemma explore_intern_frame (st : explore_state_t) (maps : list ex_hashmap32)
    (cat : nat) (seg : list Z) (st' : explore_state_t) (maps' : list ex_hashmap32)
    (p : Z) :
  explore_intern st maps cat seg = Ok (st', maps', p) ->
  length maps' = length maps /\
  forall c, c <> cat -> map_cat maps' c = map_cat maps c.
Proof.
  unfold explore_intern. intros H.
  apply bind_Ok in H as (entry & _ & H).
  destruct (entry =? 0).
  - apply bind_Ok in H as (m' & _ & H). injection H as <- <- <-.
    split; [apply length_insert|].
    intros c Hc. unfold map_cat. apply nth_insert_ne. auto.
  - injection H as <- <- <-. auto.
Qed.

Lemma intern_inv_frame (st st' : explore_state_t) (maps maps' : list ex_hashmap32)
    (cat : nat) (g : gmap Z Z) (ext : list explore_string_t) :
  intern_inv st maps cat g ->
  length maps' = length maps -> map_cat maps' cat = map_cat maps cat ->
  es_arena st' = es_arena st ++ ext ->
  intern_inv st' maps' cat g.
Proof.
  intros [Hcat Hwf Hmod Hzero Hk0 Hvals] Hlen Hmap Harena. constructor.
  - rewrite Hlen. exact Hcat.
  - rewrite Hmap. exact Hwf.
  - rewrite Hmap. exact Hmod.
  - rewrite Hmap. exact Hzero.
  - exact Hk0.
  - intros h p Hp. destruct (Hvals h p Hp) as [Hr Hh]. rewrite Harena, length_app.
    split; [lia|]. unfold facet_str, arena_get in *. rewrite Harena, app_nth1 by lia.
    exact Hh.
Qed.

Lemma cat_inv_frame (st st' : explore_state_t) (maps maps' : list ex_hashmap32)
    (cat : nat) (g : gmap Z Z) (ext : list explore_string_t) :
  cat_inv st maps cat g ->
  length maps' = length maps -> map_cat maps' cat = map_cat maps cat ->
  es_arena st' = es_arena st ++ ext -> by_cat st' cat = by_cat st cat ->
  cat_inv st' maps' cat g.
Proof.
  intros [Hi Hby Hnd Hlen] Hl Hmap Harena Hbc. constructor.
  - eapply intern_inv_frame; eassumption.
  - rewrite Hbc. exact Hby.
  - rewrite Hbc. exact Hnd.
  - rewrite Hbc, Hmap. exact Hlen.
Qed.

Lemma by_ok_mono (st st' : explore_state_t) (e : explore_entry_t) :
  (forall c q, In q (by_cat st c) -> In q (by_cat st' c)) ->
  by_ok st e -> by_ok st' e.
Proof. intros Hm He cat Hcat. destruct (He cat Hcat); auto. Qed.

(** A state that differs in its flags or entries only. *)
Lemma build_inv_frame (st st' : explore_state_t) (maps : list ex_hashmap32) :
  es_arena st' = es_arena st -> es_by st' = es_by st ->
  (forall e, In e (es_entries st') -> split_ok e = true /\ by_ok st e) ->
  build_inv st maps -> build_inv st' maps.
Proof.
  intros Ha Hb He [Hby Hcats Hnz Hdisj Hes].
  assert (Hbc : forall c, by_cat st' c = by_cat st c).
  { intros c. unfold by_cat. rewrite Hb. reflexivity. }
  constructor.
  - rewrite Hb. exact Hby.
  - intros cat Hcat. destruct (Hcats cat Hcat) as [g Hg]. exists g.
    apply (cat_inv_frame st st' maps maps cat g []); auto.
    rewrite app_nil_r. exact Ha.
  - rewrite Ha. exact Hnz.
  - intros c1 c2 p. rewrite !Hbc. apply Hdisj.
  - intros e Hin. destruct (He e Hin) as [Hs Hok]. split; [exact Hs|].
    intros c Hc. rewrite Hbc. apply Hok, Hc.
Qed.

(** The intern step keeps the invariant and returns a value of the
    category's facet array. *)
Lemma explore_intern_build (st : explore_state_t) (maps : list ex_hashmap32)
    (cat : nat) (seg : list Z) (st' : explore_state_t) (maps' : list ex_hashmap32)
    (p : Z) :
  build_inv st maps -> (cat < EXPLORE_CAT_COUNT)%nat -> nz seg ->
  explore_intern st maps cat seg = Ok (st', maps', p) ->
  build_inv st' maps' /\ In p (by_cat st' cat) /\ p <> 0 /\
  (forall c q, In q (by_cat st c) -> In q (by_cat st' c)) /\
  es_entries st' = es_entries st.
Proof.
  intros Hb Hcat Hseg Hi.
  destruct (bi_cats _ _ Hb cat Hcat) as [g Hg].
  pose proof (cv_intern _ _ _ _ Hg) as Hinv.
  destruct (g !! facet_hash seg) as [q|] eqn:Hh.
  - rewrite (explore_intern_hit st maps cat g seg q Hinv Hh) in Hi.
    injection Hi as <- <- <-.
    split; [exact Hb|]. split; [apply (cv_by _ _ _ _ Hg); eauto|].
    split; [|auto].
    destruct (ii_vals _ _ _ _ Hinv _ _ Hh). lia.
  - pose proof (hm_wf_len _ (ii_wf _ _ _ _ Hinv)) as Hle.
    destruct (Z.eq_dec (hm_len (map_cat maps cat)) (2 ^ 30)) as [Hfull|Hnf].
    { rewrite (explore_intern_overflow st maps cat g seg Hinv Hh Hfull) in Hi.
      discriminate. }
    destruct (explore_intern_frame _ _ _ _ _ _ _ Hi) as [Hlm Hmaps].
    destruct (explore_intern_miss st maps cat g seg Hinv Hh)
      as (st1 & maps1 & Hi1 & Hinv' & Hlen' & Harena & Hby & Hes & _); [lia|].
    cbv zeta in Hi1, Hinv'. rewrite Hi in Hi1. injection Hi1 as <- <- ->.
    set (p := Z.of_nat (length (es_arena st)) + 1) in *.
    pose proof (bi_by _ _ Hb) as Hbylen.
    assert (Hbc : by_cat st' cat = by_cat st cat ++ [p]).
    { unfold by_cat at 1. rewrite Hby. apply nth_insert_eq. rewrite Hbylen. exact Hcat. }
    assert (Hbo : forall c, c <> cat -> by_cat st' c = by_cat st c).
    { intros c Hc. unfold by_cat at 1. rewrite Hby. apply nth_insert_ne. auto. }
    assert (Hold : forall c q, In q (by_cat st c) -> 1 <= q <= Z.of_nat (length (es_arena st))).
    { intros c q Hq.
      destruct (Nat.lt_ge_cases c EXPLORE_CAT_COUNT) as [Hc|Hc].
      - destruct (bi_cats _ _ Hb c Hc) as [gc Hgc].
        apply (cv_by _ _ _ _ Hgc) in Hq as [h Hq].
        apply (ii_vals _ _ _ _ (cv_intern _ _ _ _ Hgc) _ _ Hq).
      - unfold by_cat in Hq. rewrite nth_overflow in Hq by (rewrite Hbylen; exact Hc).
        destruct Hq. }
    assert (Hmono : forall c q, In q (by_cat st c) -> In q (by_cat st' c)).
    { intros c q Hq. destruct (Nat.eq_dec c cat) as [->|Hc].
      - rewrite Hbc. apply in_or_app. auto.
      - rewrite Hbo by exact Hc. exact Hq. }
    split; [|split; [rewrite Hbc; apply in_or_app; right; left; reflexivity|]].
    2: { split; [unfold p; lia|]. split; [exact Hmono | exact Hes]. }
    constructor.
    + rewrite Hby, length_insert. exact Hbylen.
    + intros c Hc. destruct (Nat.eq_dec c cat) as [->|Hne].
      * exists (<[facet_hash seg := p]> g). constructor.
        -- exact Hinv'.
        -- intros q. rewrite Hbc, in_app_iff, (cv_by _ _ _ _ Hg). simpl. split.
           ++ intros [[h Hq]|[<-|[]]].
              ** exists h. rewrite lookup_insert_ne; [exact Hq|]. congruence.
              ** exists (facet_hash seg). apply lookup_insert_eq.
           ++ intros [h Hq]. destruct (Z.eq_dec (facet_hash seg) h) as [<-|Hn].
              ** rewrite lookup_insert_eq in Hq. injection Hq as <-. auto.
              ** rewrite lookup_insert_ne in Hq by exact Hn. eauto.
        -- rewrite Hbc. apply NoDup_app. split; [exact (cv_nodup _ _ _ _ Hg)|]. split.
           ++ intros x Hx Hx'. apply list_elem_of_singleton in Hx'. subst x.
              apply list_elem_of_In, Hold in Hx. unfold p in Hx. lia.
           ++ apply NoDup_singleton.
        -- rewrite Hlen', (cv_len _ _ _ _ Hg), Hbc, length_app. simpl. lia.
      * destruct (bi_cats _ _ Hb c Hc) as [gc Hgc]. exists gc.
        apply (cat_inv_frame st st' maps maps' c gc [mk_string 0 seg]); auto.
    + intros s Hs. rewrite Harena in Hs. apply in_app_or in Hs as [Hs|[<-|[]]].
      * exact (bi_nz _ _ Hb s Hs).
      * exact Hseg.
    + intros c1 c2 q H1 H2.
      destruct (Nat.eq_dec c1 cat) as [->|N1]; destruct (Nat.eq_dec c2 cat) as [->|N2];
        [reflexivity | | |].
      * rewrite Hbo in H2 by exact N2. rewrite Hbc in H1.
        apply in_app_or in H1 as [H1|[<-|[]]].
        -- exact (bi_disj _ _ Hb _ _ _ H1 H2).
        -- apply Hold in H2. unfold p in H2. lia.
      * rewrite Hbo in H1 by exact N1. rewrite Hbc in H2.
        apply in_app_or in H2 as [H2|[<-|[]]].
        -- exact (bi_disj _ _ Hb _ _ _ H1 H2).
        -- apply Hold in H1. unfold p in H1. lia.
      * rewrite Hbo in H1 by exact N1. rewrite Hbo in H2 by exact N2.
        exact (bi_disj _ _ Hb _ _ _ H1 H2).
    + intros e He. rewrite Hes in He. destruct (bi_entries _ _ Hb e He) as [Hs Hok].
      split; [exact Hs|]. eapply by_ok_mono; eassumption.
Qed.

Lemma explore_attach_build (st : explore_state_t) (e : explore_entry_t) (cat : nat)
    (p : Z) (has_split : bool) (buf : list Z) (e' : explore_entry_t) (buf' : list Z) :
  by_ok st e -> In p (by_cat st cat) -> p <> 0 ->
  Forall (fun q => q <> 0) buf ->
  explore_attach e cat p has_split buf = Ok (e', buf') ->
  by_ok st e' /\ e_split e' = e_split e /\ Forall (fun q => q <> 0) buf'.
Proof.
  intros He Hp Hp0 Hbuf. unfold explore_attach.
  destruct (entry_by e cat =? 0).
  - intros [= <- <-]. split; [|auto].
    intros c Hc. unfold entry_by. simpl.
    destruct (Nat.eq_dec c cat) as [->|Hne].
    + destruct (Nat.lt_ge_cases cat (length (e_by e))) as [Hl|Hl].
      * rewrite nth_insert_eq by exact Hl. auto.
      * rewrite list_insert_ge by exact Hl. apply He, Hc.
    + rewrite nth_insert_ne by auto. apply He, Hc.
  - destruct has_split; [|discriminate].
    intros [= <- <-]. split; [exact He|]. split; [reflexivity|].
    apply Forall_app. split; [exact Hbuf|]. constructor; [exact Hp0 | constructor].
Qed.

(** The splitter loop keeps the invariant. *)
Lemma add_unique_loop_build (fuel : nat) :
  forall (s : list Z) (cat : nat) (has_split : bool) (cx : add_ctx) (str p : Z)
         (cx' : add_ctx),
    nz s -> (cat < EXPLORE_CAT_COUNT)%nat -> ctx_inv cx ->
    add_unique_loop fuel s cat has_split cx str p = Ok cx' -> ctx_inv cx'.
Proof.
  induction fuel as [|fuel IH]; intros s cat has_split cx str p cx' Hs Hcat Hcx H;
    cbn [add_unique_loop] in H; [discriminate|].
  apply bind_Ok in H as (c & _ & H).
  destruct (negb (is_delim c) && negb (c =? 0)); [eapply IH; eassumption|].
  destruct (negb has_split && negb (c =? 0)); [eapply IH; eassumption|].
  apply bind_Ok in H as (str' & _ & H).
  apply bind_Ok in H as (p' & _ & H).
  destruct (p' =? str').
  - apply bind_Ok in H as (c' & _ & H).
    destruct (c' =? 0); [injection H as <-; exact Hcx | eapply IH; eassumption].
  - apply bind_Ok in H as (p'' & _ & H).
    apply bind_Ok in H as (seg & Hseg & H).
    apply bind_Ok in H as ([[st1 maps1] entry] & Hint & H).
    apply bind_Ok in H as ([e1 buf1] & Hatt & H).
    apply bind_Ok in H as (next & _ & H).
    destruct Hcx as [Hb Hby Hsplit Hbuf].
    apply cstr_sub_nz in Hseg; [|exact Hs].
    destruct (explore_intern_build _ _ _ _ _ _ _ Hb Hcat Hseg Hint)
      as (Hb1 & Hin & Hn0 & Hmono & _).
    destruct (explore_attach_build st1 _ _ _ _ _ _ _
                (by_ok_mono _ _ _ Hmono Hby) Hin Hn0 Hbuf Hatt)
      as (Hby1 & Hsp1 & Hbuf1).
    assert (Hcx1 : ctx_inv (mk_ctx st1 maps1 e1 buf1)).
    { constructor; simpl; [exact Hb1 | exact Hby1 | congruence | exact Hbuf1]. }
    destruct next as [q|]; [|injection H as <-; exact Hcx1].
    eapply IH; [exact Hs | exact Hcat | exact Hcx1 | exact H].
Qed.

Lemma explore_add_unique_string_build (cx : add_ctx) (cat : nat)
    (str : option (list Z)) (split_buf : bool) (cx' : add_ctx) :
  (cat < EXPLORE_CAT_COUNT)%nat -> ctx_inv cx ->
  explore_add_unique_string cx cat str split_buf = Ok cx' -> ctx_inv cx'.
Proof.
  intros Hcat Hcx. unfold explore_add_unique_string.
  assert (Hunk : ctx_inv (mk_ctx (set_has_unknown (cx_state cx) cat) (cx_maps cx)
                                 (cx_e cx) (cx_split_buf cx))).
  { destruct Hcx as [Hb Hby Hsplit Hbuf]. constructor; simpl; auto.
    apply (build_inv_frame (cx_state cx)); auto.
    intros e He. exact (bi_entries _ _ Hb e He). }
  destruct (option_map cstr str) as [[|c s]|] eqn:E.
  - intros [= <-]. exact Hunk.
  - apply add_unique_loop_build; auto.
    destruct str as [buf|]; [|discriminate]. simpl in E. injection E as E.
    rewrite <- E. apply cstr_nz.
  - intros [= <-]. exact Hunk.
Qed.

Lemma explore_add_fields_build (fields : list (option (list Z))) :
  forall (cx : add_ctx) (cat : nat) (cx' : add_ctx),
    (cat + length fields <= EXPLORE_CAT_COUNT)%nat -> ctx_inv cx ->
    explore_add_fields cx cat fields = Ok cx' -> ctx_inv cx'.
Proof.
  induction fields as [|f fields IH]; intros cx cat cx' Hlen Hcx H; simpl in H.
  - injection H as <-. exact Hcx.
  - apply bind_Ok in H as (cx1 & H1 & H). simpl in Hlen.
    apply (IH cx1 (S cat) cx'); [lia | | exact H].
    eapply explore_add_unique_string_build; [|exact Hcx | exact H1]. lia.
Qed.

Lemma explore_read_pair_length (acc : record_fields)
    (kv : rmsgpack_dom_value * rmsgpack_dom_value) (acc' : record_fields) :
  explore_read_pair acc kv = Ok acc' ->
  length (rf_fields acc') = length (rf_fields acc).
Proof.
  destruct kv as [key val]. unfold explore_read_pair.
  destruct key; try (intros [= <-]; reflexivity).
  destruct (bool_decide _).
  { intros H. apply bind_Ok in H as (b1 & _ & H). apply bind_Ok in H as (c1 & _ & H).
    injection H as <-. reflexivity. }
  destruct (bool_decide _).
  { intros H. apply bind_Ok in H as (b1 & _ & H). injection H as <-. reflexivity. }
  destruct (find_rdbkey _) as [cat|]; [|intros [= <-]; reflexivity].
  destruct (info_is_numeric _).
  - intros H. apply bind_Ok in H as (i & _ & H).
    destruct (i =? 0); injection H as <-; simpl; rewrite ?length_insert; reflexivity.
  - destruct val; intros [= <-]; simpl; rewrite ?length_insert; reflexivity.
Qed.

Lemma explore_read_pairs_length
    (items : list (rmsgpack_dom_value * rmsgpack_dom_value)) :
  forall (acc acc' : record_fields),
    explore_read_pairs acc items = Ok acc' ->
    length (rf_fields acc') = length (rf_fields acc).
Proof.
  induction items as [|kv items IH]; intros acc acc' H; simpl in H.
  - injection H as <-. reflexivity.
  - apply bind_Ok in H as (acc1 & H1 & H).
    rewrite (IH _ _ H). eapply explore_read_pair_length, H1.
Qed.

Lemma explore_finish_entry_build (st : explore_state_t) (e : explore_entry_t)
    (original_title : option (list Z)) (buf : list Z) (e' : explore_entry_t)
    (buf' : list Z) :
  by_ok st e -> e_split e = None -> Forall (fun q => q <> 0) buf ->
  explore_finish_entry e original_title buf = (e', buf') ->
  split_ok e' = true /\ by_ok st e' /\ buf' = [].
Proof.
  intros Hby Hsplit Hbuf. unfold explore_finish_entry.
  set (e1 := if nonempty original_title then _ else e).
  assert (H1 : e_by e1 = e_by e /\ e_split e1 = None).
  { unfold e1. destruct (nonempty original_title); simpl; auto. }
  destruct H1 as [Hb1 Hs1].
  assert (Hby1 : forall e2, e_by e2 = e_by e1 -> by_ok st e2).
  { intros e2 E c Hc. unfold entry_by. rewrite E, Hb1. apply Hby, Hc. }
  destruct buf as [|q buf].
  - intros [= <- <-]. split; [|split; [apply Hby1; reflexivity | reflexivity]].
    unfold split_ok. rewrite Hs1. reflexivity.
  - intros [= <- <-]. split; [|split; [apply Hby1; reflexivity | reflexivity]].
    unfold split_ok. cbn [e_split].
    change (q :: buf ++ [0]) with ((q :: buf) ++ [0]).
    rewrite removelast_last, last_snoc.
    rewrite bool_decide_false by discriminate.
    rewrite bool_decide_true by reflexivity.
    rewrite andb_true_r. cbn [negb andb].
    apply forallb_forall. intros x Hx.
    rewrite Forall_forall in Hbuf. apply list_elem_of_In, Hbuf in Hx.
    apply negb_true_iff, Z.eqb_neq, Hx.
Qed.

Lemma build_inv_push (st : explore_state_t) (maps : list ex_hashmap32)
    (e : explore_entry_t) :
  build_inv st maps -> split_ok e = true -> by_ok st e ->
  build_inv (push_entry st e) maps.
Proof.
  intros Hb Hs Hok. apply (build_inv_frame st); auto.
  intros e' He'. simpl in He'. apply in_app_or in He' as [He'|[<-|[]]].
  - exact (bi_entries _ _ Hb e' He').
  - auto.
Qed.

Lemma by_ok_init (st : explore_state_t) (pe : playlist_entry) :
  by_ok st (mk_entry pe (replicate EXPLORE_CAT_COUNT 0) None None).
Proof.
  intros cat Hcat. left. unfold entry_by. cbn [e_by].
  rewrite nth_lookup, lookup_replicate_2 by exact Hcat. reflexivity.
Qed.

Lemma explore_build_record_build (heap : list playlist_entry)
    (cores : list core_info_t) (map_cores playlist_entries : ex_hashmap32)
    (b : builder) (item : rmsgpack_dom_value) (b' : builder) :
  builder_inv b ->
  explore_build_record heap cores map_cores playlist_entries b item = Ok b' ->
  builder_inv b'.
Proof.
  intros Hb. unfold explore_build_record.
  destruct item; try (intros [= <-]; exact Hb).
  intros H. apply bind_Ok in H as (rf & Hrf & H).
  destruct (rf_crc32 rf) as [crc32|]; [|injection H as <-; exact Hb].
  apply bind_Ok in H as (handle & _ & H).
  destruct (handle =? 0); [injection H as <-; exact Hb|].
  destruct (heap !! Z.to_nat (handle - 1)) as [entry|]; [|discriminate].
  apply bind_Ok in H as (cx & Hcx & H).
  apply bind_Ok in H as (core_info & _ & H).
  apply bind_Ok in H as (cx2 & Hcx2 & H).
  destruct (explore_finish_entry _ _ _) as [e buf] eqn:Ef.
  injection H as <-.
  apply explore_read_pairs_length in Hrf. cbn [rf_fields] in Hrf.
  rewrite length_replicate in Hrf.
  destruct Hb as [Hb Hbuf].
  apply explore_add_fields_build in Hcx.
  - apply explore_add_unique_string_build in Hcx2;
      [|unfold EXPLORE_BY_SYSTEM, EXPLORE_CAT_COUNT; lia | exact Hcx].
    destruct Hcx2 as [Hb2 Hby2 Hsp2 Hbuf2].
    destruct (explore_finish_entry_build _ _ _ _ _ _ Hby2 Hsp2 Hbuf2 Ef)
      as (Hs & Hok & ->).
    split; [|reflexivity]. simpl. apply build_inv_push; assumption.
  - rewrite Hrf. lia.
  - constructor; simpl; [exact Hb | apply by_ok_init | reflexivity |].
    rewrite Hbuf. constructor.
Qed.

Lemma explore_build_records_build (heap : list playlist_entry)
    (cores : list core_info_t) (map_cores playlist_entries : ex_hashmap32)
    (items : list rmsgpack_dom_value) :
  forall (b b' : builder),
    builder_inv b ->
    explore_build_records heap cores map_cores playlist_entries b items = Ok b' ->
    builder_inv b'.
Proof.
  induction items as [|item items IH]; intros b b' Hb H; simpl in H.
  - injection H as <-. exact Hb.
  - apply bind_Ok in H as (b1 & H1 & H). apply (IH b1 b'); [|exact H].
    eapply explore_build_record_build; eassumption.
Qed.

Lemma explore_build_rdbs_build (heap : list playlist_entry)
    (cores : list core_info_t) (map_cores : ex_hashmap32) (rdbs : list explore_rdb) :
  forall (b b' : builder),
    builder_inv b ->
    explore_build_rdbs heap cores map_cores b rdbs = Ok b' ->
    builder_inv b'.
Proof.
  induction rdbs as [|rdb rdbs IH]; intros b b' Hb H; simpl in H.
  - injection H as <-. exact Hb.
  - apply bind_Ok in H as (b1 & H1 & H). apply (IH b1 b'); [|exact H].
    eapply explore_build_records_build; eassumption.
Qed.

Lemma builder_inv_init :
  builder_inv (mk_builder explore_state_zero (replicate EXPLORE_CAT_COUNT hm_zero) []).
Proof.
  assert (Hnil : forall c, by_cat explore_state_zero c = []).
  { intros c. unfold by_cat. cbn [es_by explore_state_zero].
    destruct (Nat.lt_ge_cases c EXPLORE_CAT_COUNT) as [Hc|Hc].
    - rewrite nth_lookup, lookup_replicate_2 by exact Hc. reflexivity.
    - apply nth_overflow. rewrite length_replicate. exact Hc. }
  split; [|reflexivity]. cbn [b_state b_cat_maps]. constructor.
  - reflexivity.
  - intros cat Hcat. exists ∅. constructor.
    + apply intern_inv_first, Hcat.
    + intros p. rewrite Hnil. split; [intros [] | intros [h Hh]].
      rewrite lookup_empty in Hh. discriminate.
    + rewrite Hnil. constructor.
    + rewrite Hnil. unfold map_cat.
      rewrite nth_lookup, lookup_replicate_2 by exact Hcat. reflexivity.
  - intros s [].
  - intros c1 c2 p H1. rewrite Hnil in H1. destruct H1.
  - intros e [].
Qed.

(** ** The last phase: sorting and numbering *)

Lemma build_inv_valid (st : explore_state_t) (maps : list ex_hashmap32) (c : nat)
    (q : Z) :
  build_inv st maps -> In q (by_cat st c) ->
  (c < EXPLORE_CAT_COUNT)%nat /\ 1 <= q <= Z.of_nat (length (es_arena st)).
Proof.
  intros Hb Hq. destruct (Nat.lt_ge_cases c EXPLORE_CAT_COUNT) as [Hc|Hc].
  - split; [exact Hc|]. destruct (bi_cats _ _ Hb c Hc) as [gc Hgc].
    apply (cv_by _ _ _ _ Hgc) in Hq as [h Hq].
    apply (ii_vals _ _ _ _ (cv_intern _ _ _ _ Hgc) _ _ Hq).
  - unfold by_cat in Hq. rewrite nth_overflow in Hq by (rewrite (bi_by _ _ Hb); exact Hc).
    destruct Hq.
Qed.

Lemma assign_idx_length (facets : list Z) :
  forall (arena : list explore_string_t) (idx : Z),
    length (assign_idx arena facets idx) = length arena.
Proof.
  induction facets as [|p facets IH]; intros arena idx; simpl; [reflexivity|].
  rewrite IH. apply length_alter.
Qed.

Lemma assign_idx_other (facets : list Z) :
  forall (arena : list explore_string_t) (idx q : Z),
    1 <= q -> (forall p, In p facets -> 1 <= p) -> ~ In q facets ->
    arena_get (assign_idx arena facets idx) q = arena_get arena q.
Proof.
  induction facets as [|p facets IH]; intros arena idx q Hq Hp Hnin; simpl;
    [reflexivity|].
  rewrite IH; [|exact Hq | intros p' Hp'; apply Hp; right; exact Hp' |
                intros Hc; apply Hnin; right; exact Hc].
  unfold arena_get. rewrite !nth_lookup, list_lookup_alter_ne; [reflexivity|].
  assert (1 <= p) by (apply Hp; left; reflexivity).
  assert (p <> q) by (intros ->; apply Hnin; left; reflexivity). lia.
Qed.

Lemma assign_idx_get (facets : list Z) :
  forall (arena : list explore_string_t) (idx : Z) (i : nat) (p : Z),
    NoDup facets ->
    (forall p, In p facets -> 1 <= p <= Z.of_nat (length arena)) ->
    0 <= idx -> idx + Z.of_nat (length facets) < 2 ^ 32 ->
    facets !! i = Some p ->
    s_idx (arena_get (assign_idx arena facets idx) p) = idx + Z.of_nat i.
Proof.
  induction facets as [|p0 facets IH]; intros arena idx i p Hnd Hv Hidx Hlen Hi;
    [discriminate|].
  apply NoDup_cons in Hnd as [Hnin Hnd]. simpl in Hlen. cbn [assign_idx].
  assert (Hp0 : 1 <= p0 <= Z.of_nat (length arena)) by (apply Hv; left; reflexivity).
  assert (Hu : u32 (idx + 1) = idx + 1) by (unfold u32; apply Z.mod_small; lia).
  rewrite Hu. destruct i as [|i].
  - injection Hi as <-. rewrite assign_idx_other.
    + unfold arena_get. rewrite nth_lookup, list_lookup_alter.
      destruct (lookup_lt_is_Some_2 arena (Z.to_nat (p0 - 1))) as [s Hs]; [lia|].
      rewrite Hs. simpl. destruct (decide _); [|congruence]. simpl. lia.
    + lia.
    + intros q Hq. apply Hv. right. exact Hq.
    + intros Hc. apply Hnin, list_elem_of_In, Hc.
  - simpl in Hi. rewrite (IH _ (idx + 1) i p); [lia | exact Hnd | | lia | lia | exact Hi].
    intros q Hq. rewrite length_alter. apply Hv. right. exact Hq.
Qed.

(** After the last phase every value carries its position in the sorted
    array of its category, provided the arrays are disjoint and
    duplicate-free. *)
Lemma explore_sort_categories_idx (by_ : list (list Z)) :
  forall (arena arena' : list explore_string_t) (by' : list (list Z)),
    explore_sort_categories arena by_ = (arena', by') ->
    (forall (c : nat) l, by_ !! c = Some l ->
       NoDup l /\ (forall p, In p l -> 1 <= p <= Z.of_nat (length arena)) /\
       Z.of_nat (length l) < 2 ^ 32) ->
    (forall (c1 c2 : nat) l1 l2 p, by_ !! c1 = Some l1 -> by_ !! c2 = Some l2 ->
       In p l1 -> In p l2 -> c1 = c2) ->
    length arena' = length arena /\
    (forall q, 1 <= q -> (forall (c : nat) l, by_ !! c = Some l -> ~ In q l) ->
       arena_get arena' q = arena_get arena q) /\
    (forall (c i : nat) l p, by' !! c = Some l -> l !! i = Some p ->
       s_idx (arena_get arena' p) = Z.of_nat i).
Proof.
  induction by_ as [|facets by_ IH]; intros arena arena' by' H Hok Hdisj; simpl in H.
  - injection H as <- <-. split; [reflexivity|]. split; [reflexivity|].
    intros c i l p Hc. discriminate.
  - destruct (explore_sort_categories _ by_) as [arena2 rest] eqn:E.
    injection H as <- <-.
    set (sorted := qsort (explore_qsort_func_strings arena) facets) in *.
    assert (Hperm : sorted ≡ₚ facets) by apply qsort_perm.
    destruct (Hok 0%nat facets eq_refl) as (Hnd & Hv & Hlen).
    assert (Hin : forall p, In p sorted <-> In p facets).
    { intros p. rewrite <- !list_elem_of_In. rewrite Hperm. reflexivity. }
    apply IH in E as (Hl2 & Hother & Hidx).
    + rewrite assign_idx_length in Hl2. split; [exact Hl2|]. split.
      * intros q Hq Hnin. rewrite Hother.
        -- apply assign_idx_other; [exact Hq | |].
           ++ intros p Hp. apply Hin, Hv in Hp. lia.
           ++ intros Hc. apply Hin in Hc. exact (Hnin 0%nat facets eq_refl Hc).
        -- exact Hq.
        -- intros c l Hc. exact (Hnin (S c) l Hc).
      * intros c i l p Hc Hi. destruct c as [|c].
        -- injection Hc as <-.
           assert (Hp : In p facets).
           { apply Hin, list_elem_of_In, list_elem_of_lookup. eauto. }
           rewrite Hother.
           ++ rewrite (assign_idx_get sorted arena 0 i p); [lia | | | lia | | exact Hi].
              ** rewrite Hperm. exact Hnd.
              ** intros q Hq. apply Hv, Hin, Hq.
              ** rewrite Hperm. lia.
           ++ apply Hv in Hp. lia.
           ++ intros c l Hc Hpl.
              pose proof (Hdisj 0%nat (S c) facets l p eq_refl Hc Hp Hpl). discriminate.
        -- exact (Hidx c i l p Hc Hi).
    + intros c l Hc. rewrite assign_idx_length. exact (Hok (S c) l Hc).
    + intros c1 c2 l1 l2 p H1 H2 Hp1 Hp2.
      pose proof (Hdisj (S c1) (S c2) l1 l2 p H1 H2 Hp1 Hp2). lia.
Qed.

Lemma StronglySorted_pairs {A : Type} (R : A -> A -> Prop) (l : list A) :
  StronglySorted R l ->
  forall (i j : nat) x y, (i < j)%nat -> l !! i = Some x -> l !! j = Some y -> R x y.
Proof.
  induction 1 as [|a l Hs IH Hall]; intros i j x y Hij Hx Hy; [discriminate|].
  destruct j as [|j]; [lia|]. simpl in Hy. destruct i as [|i].
  - injection Hx as <-. rewrite List.Forall_forall in Hall. apply Hall.
    apply list_elem_of_In, list_elem_of_lookup. eauto.
  - simpl in Hx. apply (IH i j); [lia | exact Hx | exact Hy].
Qed.

Lemma arena_get_nz (arena : list explore_string_t) (p : Z) :
  (forall s, In s arena -> nz (s_str s)) -> nz (s_str (arena_get arena p)).
Proof.
  intros H. unfold arena_get.
  destruct (nth_in_or_default (Z.to_nat (p - 1)) arena (mk_string 0 [])) as [Hin | ->].
  - apply H, Hin.
  - constructor.
Qed.

Lemma explore_build_list_builder (env : explore_env) (st : explore_state_t) :
  explore_build_list env = Ok st ->
  exists (st0 : explore_state_t) (maps : list ex_hashmap32),
    build_inv st0 maps /\
    explore_sort_categories (es_arena st0) (es_by st0) = (es_arena st, es_by st) /\
    es_entries st = qsort explore_qsort_func_entries (es_entries st0).
Proof.
  unfold explore_build_list. intros H.
  apply bind_Ok in H as ([ix playlists] & _ & H).
  apply bind_Ok in H as (map_cores & _ & H).
  apply bind_Ok in H as (bd & Hbd & H).
  apply explore_build_rdbs_build in Hbd; [|apply builder_inv_init].
  destruct (explore_sort_categories _ _) as [arena by_] eqn:E.
  injection H as <-. exists (b_state bd), (b_cat_maps bd).
  split; [exact (proj1 Hbd)|]. split; [exact E | reflexivity].
Qed.

(** Every index that [explore_build_list] returns satisfies the invariant
    of the view, in each of the ten categories. *)
Lemma explore_build_list_index_inv (env : explore_env) (st : explore_state_t)
    (cat : nat) :
  explore_build_list env = Ok st -> (cat < EXPLORE_CAT_COUNT)%nat ->
  index_inv st cat.
Proof.
  intros Hbuild Hcat.
  destruct (explore_build_list_builder env st Hbuild) as (st0 & maps & Hb & Hsort & Hes).
  destruct (explore_sort_categories_spec _ _ _ _ Hsort) as [Hstr Hall].
  destruct (bi_cats _ _ Hb cat Hcat) as [g Hg].
  pose proof (bi_by _ _ Hb) as Hbylen.
  assert (Hl0 : es_by st0 !! cat = Some (by_cat st0 cat)).
  { unfold by_cat. rewrite nth_lookup.
    destruct (lookup_lt_is_Some_2 (es_by st0) cat) as [l Hl]; [rewrite Hbylen; exact Hcat|].
    rewrite Hl. reflexivity. }
  destruct (Forall2_lookup_l _ _ _ _ _ Hall Hl0) as (sorted & Hl1 & Hsorted & Hperm).
  assert (Hbc : by_cat st cat = sorted).
  { unfold by_cat. rewrite nth_lookup, Hl1. reflexivity. }
  assert (Hin : forall p, In p sorted <-> In p (by_cat st0 cat)).
  { intros p. rewrite <- !list_elem_of_In. rewrite Hperm. reflexivity. }
  assert (Hstr' : forall p, facet_str st p = facet_str st0 p).
  { intros p. unfold facet_str. rewrite !arena_get_str, Hstr. reflexivity. }
  assert (Hperm_e : forall e, In e (es_entries st) -> In e (es_entries st0)).
  { intros e. rewrite Hes, <- !list_elem_of_In. rewrite qsort_perm. auto. }
  assert (Hnd : NoDup sorted) by (rewrite Hperm; exact (cv_nodup _ _ _ _ Hg)).
  constructor.
  - intros e He. apply (bi_entries _ _ Hb), Hperm_e, He.
  - intros e He. rewrite Hbc.
    destruct (proj2 (bi_entries _ _ Hb e (Hperm_e e He)) cat Hcat) as [H0|Hp];
      [left; exact H0 | right; apply Hin, Hp].
  - intros p. rewrite Hbc. intros Hp. apply Hin in Hp.
    destruct (build_inv_valid _ _ _ _ Hb Hp). lia.
  - intros i p. rewrite Hbc. intros Hi. unfold facet_idx.
    destruct (explore_sort_categories_idx _ _ _ _ Hsort) as (_ & _ & Hidx).
    + intros c l Hc.
      assert (Hcl : (c < EXPLORE_CAT_COUNT)%nat).
      { rewrite <- Hbylen. eapply lookup_lt_Some, Hc. }
      assert (El : l = by_cat st0 c).
      { unfold by_cat. rewrite nth_lookup, Hc. reflexivity. }
      subst l. destruct (bi_cats _ _ Hb c Hcl) as [gc Hgc].
      split; [exact (cv_nodup _ _ _ _ Hgc)|]. split.
      * intros q Hq. apply (build_inv_valid _ _ _ _ Hb Hq).
      * rewrite <- (cv_len _ _ _ _ Hgc).
        pose proof (hm_wf_len _ (ii_wf _ _ _ _ (cv_intern _ _ _ _ Hgc))). lia.
    + intros c1 c2 l1 l2 q H1 H2 Hq1 Hq2.
      apply (bi_disj _ _ Hb c1 c2 q); unfold by_cat; rewrite nth_lookup.
      * rewrite H1. exact Hq1.
      * rewrite H2. exact Hq2.
    + exact (Hidx cat i sorted p Hl1 Hi).
  - intros i j p q Hij. rewrite Hbc. intros Hi Hj. rewrite !Hstr'.
    assert (Htrans : Transitive
              (fun a b => explore_qsort_func_strings (es_arena st0) a b <= 0)).
    { intros a b c. unfold explore_qsort_func_strings.
      apply explore_qsort_func_trans; apply arena_get_nz, (bi_nz _ _ Hb). }
    assert (Hss : StronglySorted
              (fun a b => explore_qsort_func_strings (es_arena st0) a b <= 0) sorted).
    { apply Sorted_StronglySorted; [exact Htrans | exact Hsorted]. }
    pose proof (StronglySorted_pairs _ _ Hss i j p q Hij Hi Hj) as Hle.
    unfold explore_qsort_func_strings in Hle. fold (facet_str st0 p) in Hle.
    fold (facet_str st0 q) in Hle.
    destruct (Z.eq_dec (explore_qsort_func (facet_str st0 p) (facet_str st0 q)) 0)
      as [E0|]; [|lia].
    exfalso. apply explore_qsort_func_0_hash in E0;
      [|apply arena_get_nz, (bi_nz _ _ Hb) | apply arena_get_nz, (bi_nz _ _ Hb)].
    assert (Hp : In p (by_cat st0 cat)).
    { apply Hin, list_elem_of_In, list_elem_of_lookup. eauto. }
    assert (Hq : In q (by_cat st0 cat)).
    { apply Hin, list_elem_of_In, list_elem_of_lookup. eauto. }
    apply (cv_by _ _ _ _ Hg) in Hp as [hp Hp]. apply (cv_by _ _ _ _ Hg) in Hq as [hq Hq].
    destruct (ii_vals _ _ _ _ (cv_intern _ _ _ _ Hg) _ _ Hp) as [_ Ehp].
    destruct (ii_vals _ _ _ _ (cv_intern _ _ _ _ Hg) _ _ Hq) as [_ Ehq].
    assert (p = q) by congruence. subst q.
    pose proof (proj1 (NoDup_alt sorted) Hnd i j p Hi Hj). lia.
  - rewrite Hbc, Hperm, <- (cv_len _ _ _ _ Hg).
    exact (hm_wf_len _ (ii_wf _ _ _ _ (cv_intern _ _ _ _ Hg))).
Qed.

(** * The filter on a built index *)

(** C3.  For every entry of an index that [explore_build_list] returned and
    every constraint list, the constraint loop returns, and it accepts the
    entry if and only if every constraint is satisfied: the primary facet of
    the category is the selected value, or the category allows multiple
    values and the selected value is among the secondary values.  A
    constraint of "unknown" is satisfied exactly when the primary facet of
    its category is NULL. *)
Theorem explore_entry_levels_spec (env : explore_env) (st : explore_state_t)
    (cs : list (nat * Z)) (e : explore_entry_t) :
  explore_build_list env = Ok st -> In e (es_entries st) ->
  (exists b, explore_entry_levels (map level_of cs) e = Ok b /\
             (b = true <-> Forall (satisfies e) cs)) /\
  (forall cat, satisfies e (cat, 0) <-> entry_by e cat = 0).
Proof.
  intros Hbuild He. apply explore_entry_levels_split_ok.
  assert (Hinv : index_inv st 0).
  { apply (explore_build_list_index_inv env); [exact Hbuild|].
    unfold EXPLORE_CAT_COUNT. lia. }
  exact (ix_split _ _ Hinv e He).
Qed.

(** "Sonic" of the example index against genre "Adventure", which it has
    as a secondary value, and developer "Sega". *)
Lemma explore_entry_levels_spec_witness :
  (exists b,
     explore_entry_levels (map level_of [(4%nat, 3); (0%nat, 1)]) entry_sonic = Ok b /\
     (b = true <-> Forall (satisfies entry_sonic) [(4%nat, 3); (0%nat, 1)])) /\
  (forall cat, satisfies entry_sonic (cat, 0) <-> entry_by entry_sonic cat = 0).
Proof.
  apply (explore_entry_levels_spec env_view st_view [(4%nat, 3); (0%nat, 1)] entry_sonic).
  - vm_compute. reflexivity.
  - vm_compute. right. left. reflexivity.
Defined.

(** C6.  On every index that [explore_build_list] returned, the
    distinct-value view of a category returns the menu items of exactly
    those values of the category's facet array that are the primary facet
    of at least one entry passing the constraints and the search, each once
    and in the order of the (pre-sorted, duplicate-free) facet array, each
    with its stable index as item type; an "Unknown" item follows them if
    and only if a passing entry has a NULL primary facet in the category. *)
Theorem distinct_value_view (M : Z) (env : explore_env) (st : explore_state_t)
    (levels : list level) (find_string : list Z) (cat : nat) :
  explore_build_list env = Ok st -> (cat < EXPLORE_CAT_COUNT)%nat ->
  let passing := List.filter (passes levels find_string) (es_entries st) in
  explore_list_filtered M st levels find_string (Some cat) [] =
    Ok (map (item_of M st) (List.filter (held cat passing) (by_cat st cat)) ++
        (if held cat passing 0
         then [(bytes_of_string "Unknown", EXPLORE_TYPE_FILTERNULL M)]
         else [])) /\
  NoDup (by_cat st cat) /\
  (forall (i : nat) p, by_cat st cat !! i = Some p -> facet_idx st p = Z.of_nat i).
Proof.
  intros Hbuild Hcat passing.
  pose proof (explore_build_list_index_inv env st cat Hbuild Hcat) as Hinv.
  split; [apply explore_list_filtered_view, Hinv|].
  split; [apply (by_cat_NoDup st cat Hinv) | exact (ix_idx _ _ Hinv)].
Qed.

(** The developers of the entries of genre "Action" in the example index. *)
Lemma distinct_value_view_witness :
  explore_list_filtered 4096 st_view [level_of (4%nat, 2)] [] (Some 0%nat) [] =
    Ok (map (item_of 4096 st_view)
            (List.filter
               (held 0 (List.filter (passes [level_of (4%nat, 2)] []) (es_entries st_view)))
               (by_cat st_view 0)) ++
        (if held 0 (List.filter (passes [level_of (4%nat, 2)] []) (es_entries st_view)) 0
         then [(bytes_of_string "Unknown", EXPLORE_TYPE_FILTERNULL 4096)]
         else [])) /\
  NoDup (by_cat st_view 0) /\
  (forall (i : nat) p, by_cat st_view 0 !! i = Some p ->
                       facet_idx st_view p = Z.of_nat i).
Proof.
  apply (distinct_value_view 4096 env_view st_view [level_of (4%nat, 2)] [] 0).
  - vm_compute. reflexivity.
  - unfold EXPLORE_CAT_COUNT. lia.
Defined.

(** * Interning a run of segments *)

Lemma by_cat_zero (cat : nat) : by_cat explore_state_zero cat = [].
Proof.
  unfold by_cat. cbn [es_by explore_state_zero].
  destruct (Nat.lt_ge_cases cat EXPLORE_CAT_COUNT) as [Hc|Hc].
  - rewrite nth_lookup, lookup_replicate_2 by exact Hc. reflexivity.
  - apply nth_overflow. rewrite length_replicate. exact Hc.
Qed.

(** During a build the values of the facet arrays are objects of the
    arena. *)
Lemma build_inv_range (st : explore_state_t) (maps : list ex_hashmap32)
    (cat : nat) (q : Z) :
  build_inv st maps -> In q (by_cat st cat) ->
  1 <= q <= Z.of_nat (length (es_arena st)).
Proof.
  intros Hb Hq. destruct (Nat.lt_ge_cases cat EXPLORE_CAT_COUNT) as [Hc|Hc].
  - destruct (bi_cats _ _ Hb cat Hc) as [g Hg].
    apply (cv_by _ _ _ _ Hg) in Hq as [h Hq].
    apply (ii_vals _ _ _ _ (cv_intern _ _ _ _ Hg) _ _ Hq).
  - unfold by_cat in Hq. rewrite nth_overflow in Hq by (rewrite (bi_by _ _ Hb); exact Hc).
    destruct Hq.
Qed.

(** During a build two values of a category have strings of different
    hashes. *)
Lemma build_inv_hash_inj (st : explore_state_t) (maps : list ex_hashmap32)
    (cat : nat) (q1 q2 : Z) :
  build_inv st maps -> (cat < EXPLORE_CAT_COUNT)%nat ->
  In q1 (by_cat st cat) -> In q2 (by_cat st cat) ->
  facet_hash (facet_str st q1) = facet_hash (facet_str st q2) -> q1 = q2.
Proof.
  intros Hb Hc H1 H2 E. destruct (bi_cats _ _ Hb cat Hc) as [g Hg].
  apply (cv_by _ _ _ _ Hg) in H1 as [h1 H1]. apply (cv_by _ _ _ _ Hg) in H2 as [h2 H2].
  destruct (ii_vals _ _ _ _ (cv_intern _ _ _ _ Hg) _ _ H1) as [_ E1].
  destruct (ii_vals _ _ _ _ (cv_intern _ _ _ _ Hg) _ _ H2) as [_ E2].
  congruence.
Qed.

Lemma facet_str_app (st st' : explore_state_t) (ext : list explore_string_t) (q : Z) :
  es_arena st' = es_arena st ++ ext -> 1 <= q <= Z.of_nat (length (es_arena st)) ->
  facet_str st' q = facet_str st q.
Proof.
  intros Ha Hq. unfold facet_str, arena_get. rewrite Ha, app_nth1 by lia. reflexivity.
Qed.

(** One call during a build: a value of the category with the hash of the
    segment is returned as it is; without one the segment is stored as a
    new value at the end of the arena and of the facet array. *)
Lemma explore_intern_value (st : explore_state_t) (maps : list ex_hashmap32)
    (cat : nat) (seg : list Z) :
  build_inv st maps -> (cat < EXPLORE_CAT_COUNT)%nat -> nz seg ->
  Z.of_nat (length (by_cat st cat)) < 2 ^ 30 ->
  exists st' maps' p,
    explore_intern st maps cat seg = Ok (st', maps', p) /\
    build_inv st' maps' /\
    ((In p (by_cat st cat) /\ facet_hash (facet_str st p) = facet_hash seg /\
      st' = st /\ maps' = maps) \/
     ((forall q, In q (by_cat st cat) ->
                 facet_hash (facet_str st q) <> facet_hash seg) /\
      p = Z.of_nat (length (es_arena st)) + 1 /\
      es_arena st' = es_arena st ++ [mk_string 0 seg] /\
      es_by st' = <[cat := by_cat st cat ++ [p]]> (es_by st))).
Proof.
  intros Hb Hcat Hseg Hlen.
  destruct (bi_cats _ _ Hb cat Hcat) as [g Hg].
  pose proof (cv_intern _ _ _ _ Hg) as Hinv.
  destruct (g !! facet_hash seg) as [q|] eqn:Hh.
  - exists st, maps, q. split; [exact (explore_intern_hit st maps cat g seg q Hinv Hh)|].
    split; [exact Hb|]. left.
    split; [apply (cv_by _ _ _ _ Hg); eauto|].
    split; [apply (ii_vals _ _ _ _ Hinv _ _ Hh) | auto].
  - destruct (explore_intern_miss st maps cat g seg Hinv Hh)
      as (st1 & maps1 & Hi1 & _ & _ & Harena & Hby & _).
    { rewrite (cv_len _ _ _ _ Hg). exact Hlen. }
    cbv zeta in Hi1.
    exists st1, maps1, (Z.of_nat (length (es_arena st)) + 1).
    split; [exact Hi1|].
    split; [exact (proj1 (explore_intern_build _ _ _ _ _ _ _ Hb Hcat Hseg Hi1))|].
    right. split; [|auto].
    intros q Hq E. apply (cv_by _ _ _ _ Hg) in Hq as [h Hq].
    destruct (ii_vals _ _ _ _ Hinv _ _ Hq) as [_ Eh]. congruence.
Qed.

(** The same call, by what it leaves: the arena and the facet arrays keep
    what they had, the value returned is in the facet array of the
    category and its string has the hash of the segment, and it is the
    segment itself if no value of the category had that hash. *)
Lemma explore_intern_stored (st : explore_state_t) (maps : list ex_hashmap32)
    (cat : nat) (seg : list Z) :
  build_inv st maps -> (cat < EXPLORE_CAT_COUNT)%nat -> nz seg ->
  Z.of_nat (length (by_cat st cat)) < 2 ^ 30 ->
  exists st' maps' p ext,
    explore_intern st maps cat seg = Ok (st', maps', p) /\
    build_inv st' maps' /\
    es_arena st' = es_arena st ++ ext /\
    (forall c q, In q (by_cat st c) -> In q (by_cat st' c)) /\
    (forall c q, In q (by_cat st' c) -> In q (by_cat st c) \/ (c = cat /\ q = p)) /\
    (forall c, (length (by_cat st' c) <= S (length (by_cat st c)))%nat) /\
    In p (by_cat st' cat) /\
    facet_hash (facet_str st' p) = facet_hash seg /\
    ((forall q, In q (by_cat st cat) ->
                facet_hash (facet_str st q) <> facet_hash seg) ->
     facet_str st' p = seg /\ ~ In p (by_cat st cat)).
Proof.
  intros Hb Hcat Hseg Hlen.
  destruct (explore_intern_value st maps cat seg Hb Hcat Hseg Hlen)
    as (st' & maps' & p & Hi & Hb' & [(Hp & Hh & -> & ->)|(Hno & Hp & Ha & Hby)]).
  - exists st, maps, p, []. rewrite app_nil_r.
    split; [exact Hi|]. split; [exact Hb|]. split; [reflexivity|].
    split; [auto|]. split; [auto|]. split; [auto|].
    split; [exact Hp|]. split; [exact Hh|].
    intros Hno. exfalso. exact (Hno p Hp Hh).
  - exists st', maps', p, [mk_string 0 seg].
    pose proof (bi_by _ _ Hb) as Hbylen.
    assert (Hbc : by_cat st' cat = by_cat st cat ++ [p]).
    { unfold by_cat at 1. rewrite Hby. apply nth_insert_eq. rewrite Hbylen. exact Hcat. }
    assert (Hbo : forall c, c <> cat -> by_cat st' c = by_cat st c).
    { intros c Hc. unfold by_cat at 1. rewrite Hby. apply nth_insert_ne. auto. }
    assert (Hstr : facet_str st' p = seg).
    { unfold facet_str, arena_get. rewrite Ha, Hp.
      replace (Z.to_nat (Z.of_nat (length (es_arena st)) + 1 - 1))
        with (length (es_arena st)) by lia.
      rewrite nth_middle. reflexivity. }
    split; [exact Hi|]. split; [exact Hb'|]. split; [exact Ha|].
    split.
    { intros c q Hq. destruct (Nat.eq_dec c cat) as [->|Hc].
      - rewrite Hbc. apply in_or_app. auto.
      - rewrite Hbo by exact Hc. exact Hq. }
    split.
    { intros c q Hq. destruct (Nat.eq_dec c cat) as [->|Hc].
      - rewrite Hbc in Hq. apply in_app_or in Hq as [Hq|[<-|[]]]; auto.
      - rewrite Hbo in Hq by exact Hc. auto. }
    split.
    { intros c. destruct (Nat.eq_dec c cat) as [->|Hc].
      - rewrite Hbc, length_app. simpl. lia.
      - rewrite Hbo by exact Hc. lia. }
    split; [rewrite Hbc; apply in_or_app; right; left; reflexivity|].
    split; [rewrite Hstr; reflexivity|].
    intros _. split; [exact Hstr|].
    intros Hin. apply (build_inv_range st maps cat p Hb) in Hin. lia.
Qed.

(** A run of calls during a build. *)
Lemma explore_intern_all_stored (ops : list (nat * list Z)) :
  forall (st : explore_state_t) (maps : list ex_hashmap32),
  build_inv st maps ->
  Forall (fun o => (fst o < EXPLORE_CAT_COUNT)%nat /\ nz (snd o)) ops ->
  (forall cat, Z.of_nat (length (by_cat st cat) + length ops) <= 2 ^ 30) ->
  exists st' maps' ps ext,
    explore_intern_all st maps ops = Ok (st', maps', ps) /\
    build_inv st' maps' /\
    length ps = length ops /\
    es_arena st' = es_arena st ++ ext /\
    (forall cat q, In q (by_cat st cat) -> In q (by_cat st' cat)) /\
    (forall cat q, In q (by_cat st' cat) ->
       In q (by_cat st cat) \/
       exists (i : nat) seg, ops !! i = Some (cat, seg) /\ ps !! i = Some q) /\
    (forall (i : nat) cat seg p, ops !! i = Some (cat, seg) -> ps !! i = Some p ->
       In p (by_cat st' cat) /\ facet_hash (facet_str st' p) = facet_hash seg) /\
    (forall (i : nat) cat seg p, ops !! i = Some (cat, seg) -> ps !! i = Some p ->
       (forall q, In q (by_cat st cat) ->
                  facet_hash (facet_str st q) <> facet_hash seg) ->
       (forall (j : nat) seg', (j < i)%nat -> ops !! j = Some (cat, seg') ->
                               facet_hash seg' <> facet_hash seg) ->
       facet_str st' p = seg /\ ~ In p (by_cat st cat)).
Proof.
  induction ops as [|[cat0 seg0] ops IH]; intros st maps Hb Hops Hcap.
  - exists st, maps, [], []. rewrite app_nil_r. cbn [explore_intern_all].
    split; [reflexivity|]. split; [exact Hb|]. split; [reflexivity|].
    split; [reflexivity|]. split; [auto|]. split; [auto|].
    split; intros i cat seg p Hi; rewrite lookup_nil in Hi; discriminate.
  - apply Forall_cons in Hops as [[Hcat0 Hseg0] Hops]. cbn [fst snd] in Hcat0, Hseg0.
    destruct (explore_intern_stored st maps cat0 seg0 Hb Hcat0 Hseg0)
      as (st1 & maps1 & p0 & ext1 & Hi & Hb1 & Ha1 & Hmono1 & Hby1 & Hlen1 & Hp0 & Hh0 & Hnew0).
    { specialize (Hcap cat0). cbn [length] in Hcap. lia. }
    destruct (IH st1 maps1 Hb1 Hops)
      as (st' & maps' & ps & ext & Hrun & Hb' & Hlen & Ha & Hmono & Hby & Hval & Hnew).
    { intros cat. specialize (Hcap cat). specialize (Hlen1 cat). cbn [length] in Hcap. lia. }
    assert (Hkeep1 : forall c q, In q (by_cat st c) -> facet_str st1 q = facet_str st q).
    { intros c q Hq. apply (facet_str_app st st1 ext1 q Ha1).
      exact (build_inv_range st maps c q Hb Hq). }
    assert (Hkeep : forall c q, In q (by_cat st1 c) -> facet_str st' q = facet_str st1 q).
    { intros c q Hq. apply (facet_str_app st1 st' ext q Ha).
      exact (build_inv_range st1 maps1 c q Hb1 Hq). }
    exists st', maps', (p0 :: ps), (ext1 ++ ext).
    split; [cbn [explore_intern_all]; rewrite Hi; cbn [bind]; rewrite Hrun; reflexivity|].
    split; [exact Hb'|]. split; [cbn [length]; rewrite Hlen; reflexivity|].
    split; [rewrite Ha, Ha1, app_assoc; reflexivity|].
    split; [intros cat q Hq; apply Hmono, Hmono1, Hq|].
    split.
    { intros cat q Hq. destruct (Hby cat q Hq) as [Hq1|(i & seg & Ho & Hp)].
      - destruct (Hby1 cat q Hq1) as [Hq0|[-> ->]]; [left; exact Hq0|].
        right. exists 0%nat, seg0. split; reflexivity.
      - right. exists (S i), seg. split; assumption. }
    split.
    { intros [|i] cat seg p Ho Hp; cbn in Ho, Hp.
      - injection Ho as <- <-. injection Hp as <-.
        split; [apply Hmono, Hp0|]. rewrite (Hkeep cat0 p0 Hp0). exact Hh0.
      - exact (Hval i cat seg p Ho Hp). }
    intros [|i] cat seg p Ho Hp Hold Hbefore; cbn in Ho, Hp.
    + injection Ho as <- <-. injection Hp as <-.
      destruct (Hnew0 Hold) as [Hs Hnot]. split; [|exact Hnot].
      rewrite (Hkeep cat0 p0 Hp0). exact Hs.
    + destruct (Hnew i cat seg p Ho Hp) as [Hs Hnot].
      * intros q Hq. destruct (Hby1 cat q Hq) as [Hq0|[-> ->]].
        -- rewrite (Hkeep1 cat q Hq0). apply Hold, Hq0.
        -- rewrite Hh0. apply (Hbefore 0%nat seg0); [lia | reflexivity].
      * intros j seg' Hj Ho'. apply (Hbefore (S j) seg'); [lia | exact Ho'].
      * split; [exact Hs|]. intros Hin. apply Hnot, Hmono1, Hin.
Qed.

(** C8.  Within one category, whether two segments get the same FacetValue
    is decided by their hashes alone.  A run of the intern step on any
    accepted segments, from any state of a build with room in the maps,
    returns one value for each segment, and:
    - the value is stored: it is in the facet array of the category, it is
      an object of the arena, and its string has the hash of the segment;
    - any two segments of the run in the same category, wherever they are
      in it, get the same value exactly when their hashes are equal,
      whatever their bytes are, and segments of two categories get
      different values;
    - a segment whose hash is that of the string of a value that the
      category already had gets that value, whatever the two strings are;
    - a segment whose hash no value of the category and no earlier segment
      of the category has, is stored itself, as a value that the category
      did not have;
    - the values that the facet arrays had stay in them with their
      strings, and nothing is added but the values returned. *)
Theorem explore_intern_by_hash (st : explore_state_t) (maps : list ex_hashmap32)
    (ops : list (nat * list Z)) :
  build_inv st maps ->
  Forall (fun o => (fst o < EXPLORE_CAT_COUNT)%nat /\ nz (snd o)) ops ->
  (forall cat, Z.of_nat (length (by_cat st cat) + length ops) <= 2 ^ 30) ->
  exists st' maps' ps,
    explore_intern_all st maps ops = Ok (st', maps', ps) /\
    length ps = length ops /\
    (forall (i : nat) cat seg p, ops !! i = Some (cat, seg) -> ps !! i = Some p ->
       In p (by_cat st' cat) /\
       1 <= p <= Z.of_nat (length (es_arena st')) /\
       facet_hash (facet_str st' p) = facet_hash seg) /\
    (forall (i j : nat) cat seg1 seg2 p1 p2,
       ops !! i = Some (cat, seg1) -> ops !! j = Some (cat, seg2) ->
       ps !! i = Some p1 -> ps !! j = Some p2 ->
       (p1 = p2 <-> facet_hash seg1 = facet_hash seg2)) /\
    (forall (i j : nat) cat1 cat2 seg1 seg2 p1 p2,
       ops !! i = Some (cat1, seg1) -> ops !! j = Some (cat2, seg2) ->
       ps !! i = Some p1 -> ps !! j = Some p2 ->
       cat1 <> cat2 -> p1 <> p2) /\
    (forall (i : nat) cat seg p q, ops !! i = Some (cat, seg) -> ps !! i = Some p ->
       In q (by_cat st cat) -> facet_hash (facet_str st q) = facet_hash seg ->
       p = q) /\
    (forall (i : nat) cat seg p, ops !! i = Some (cat, seg) -> ps !! i = Some p ->
       (forall q, In q (by_cat st cat) ->
                  facet_hash (facet_str st q) <> facet_hash seg) ->
       (forall (j : nat) seg', (j < i)%nat -> ops !! j = Some (cat, seg') ->
                               facet_hash seg' <> facet_hash seg) ->
       facet_str st' p = seg /\ ~ In p (by_cat st cat)) /\
    (forall cat q, In q (by_cat st cat) ->
       In q (by_cat st' cat) /\ facet_str st' q = facet_str st q) /\
    (forall cat q, In q (by_cat st' cat) ->
       In q (by_cat st cat) \/
       exists (i : nat) seg, ops !! i = Some (cat, seg) /\ ps !! i = Some q).
Proof.
  intros Hb Hops Hcap.
  destruct (explore_intern_all_stored ops st maps Hb Hops Hcap)
    as (st' & maps' & ps & ext & Hrun & Hb' & Hlen & Ha & Hmono & Hby & Hval & Hnew).
  assert (Hcat : forall (i : nat) cat seg, ops !! i = Some (cat, seg) ->
                   (cat < EXPLORE_CAT_COUNT)%nat).
  { intros i cat seg Ho. rewrite Forall_forall in Hops.
    apply list_elem_of_lookup_2, Hops in Ho. exact (proj1 Ho). }
  assert (Hkeep : forall cat q, In q (by_cat st cat) -> facet_str st' q = facet_str st q).
  { intros cat q Hq. apply (facet_str_app st st' ext q Ha).
    exact (build_inv_range st maps cat q Hb Hq). }
  exists st', maps', ps.
  split; [exact Hrun|]. split; [exact Hlen|].
  split.
  { intros i cat seg p Ho Hp. destruct (Hval i cat seg p Ho Hp) as [Hin Hh].
    split; [exact Hin|]. split; [exact (build_inv_range st' maps' cat p Hb' Hin) | exact Hh]. }
  split.
  { intros i j cat seg1 seg2 p1 p2 Ho1 Ho2 Hp1 Hp2.
    destruct (Hval i cat seg1 p1 Ho1 Hp1) as [Hin1 Hh1].
    destruct (Hval j cat seg2 p2 Ho2 Hp2) as [Hin2 Hh2]. split.
    - intros <-. congruence.
    - intros E. apply (build_inv_hash_inj st' maps' cat p1 p2 Hb' (Hcat i cat seg1 Ho1) Hin1 Hin2).
      congruence. }
  split.
  { intros i j cat1 cat2 seg1 seg2 p1 p2 Ho1 Ho2 Hp1 Hp2 Hne E. subst p2.
    destruct (Hval i cat1 seg1 p1 Ho1 Hp1) as [Hin1 _].
    destruct (Hval j cat2 seg2 p1 Ho2 Hp2) as [Hin2 _].
    exact (Hne (bi_disj _ _ Hb' _ _ _ Hin1 Hin2)). }
  split.
  { intros i cat seg p q Ho Hp Hq E.
    destruct (Hval i cat seg p Ho Hp) as [Hin Hh].
    apply (build_inv_hash_inj st' maps' cat p q Hb' (Hcat i cat seg Ho) Hin (Hmono cat q Hq)).
    rewrite (Hkeep cat q Hq). congruence. }
  split; [exact Hnew|].
  split; [|exact Hby].
  intros cat q Hq. split; [apply Hmono, Hq | apply (Hkeep cat q Hq)].
Qed.

(** "Mega Man" and "MEGAMAN!" differ in case, in a space and in a
    punctuation mark, all of which the hash leaves out. *)
Lemma explore_intern_by_hash_witness :
  exists st' maps' ps,
    explore_intern_all explore_state_zero (replicate EXPLORE_CAT_COUNT hm_zero)
      segments_first = Ok (st', maps', ps) /\
    length ps = length segments_first /\
    (forall (i : nat) cat seg p,
       segments_first !! i = Some (cat, seg) -> ps !! i = Some p ->
       In p (by_cat st' cat) /\
       1 <= p <= Z.of_nat (length (es_arena st')) /\
       facet_hash (facet_str st' p) = facet_hash seg) /\
    (forall (i j : nat) cat seg1 seg2 p1 p2,
       segments_first !! i = Some (cat, seg1) -> segments_first !! j = Some (cat, seg2) ->
       ps !! i = Some p1 -> ps !! j = Some p2 ->
       (p1 = p2 <-> facet_hash seg1 = facet_hash seg2)) /\
    (forall (i j : nat) cat1 cat2 seg1 seg2 p1 p2,
       segments_first !! i = Some (cat1, seg1) -> segments_first !! j = Some (cat2, seg2) ->
       ps !! i = Some p1 -> ps !! j = Some p2 ->
       cat1 <> cat2 -> p1 <> p2) /\
    (forall (i : nat) cat seg p q,
       segments_first !! i = Some (cat, seg) -> ps !! i = Some p ->
       In q (by_cat explore_state_zero cat) ->
       facet_hash (facet_str explore_state_zero q) = facet_hash seg ->
       p = q) /\
    (forall (i : nat) cat seg p,
       segments_first !! i = Some (cat, seg) -> ps !! i = Some p ->
       (forall q, In q (by_cat explore_state_zero cat) ->
                  facet_hash (facet_str explore_state_zero q) <> facet_hash seg) ->
       (forall (j : nat) seg', (j < i)%nat -> segments_first !! j = Some (cat, seg') ->
                               facet_hash seg' <> facet_hash seg) ->
       facet_str st' p = seg /\ ~ In p (by_cat explore_state_zero cat)) /\
    (forall cat q, In q (by_cat explore_state_zero cat) ->
       In q (by_cat st' cat) /\ facet_str st' q = facet_str explore_state_zero q) /\
    (forall cat q, In q (by_cat st' cat) ->
       In q (by_cat explore_state_zero cat) \/
       exists (i : nat) seg, segments_first !! i = Some (cat, seg) /\ ps !! i = Some q).
Proof.
  apply (explore_intern_by_hash explore_state_zero
           (replicate EXPLORE_CAT_COUNT hm_zero) segments_first).
  - exact (proj1 builder_inv_init).
  - unfold segments_first.
    repeat (apply Forall_cons; split;
            [split; [unfold EXPLORE_CAT_COUNT; cbn [fst]; lia
                    | unfold nz; cbn;
                      repeat (apply Forall_cons; split; [lia|]); apply Forall_nil_2]|]).
    apply Forall_nil_2.
  - intros cat. rewrite by_cat_zero. simpl. lia.
Defined.

(** The run on the four segments: "MEGAMAN!" gets the value of "Mega Man",
    whose string stays "Mega Man", and three values are stored. *)
Example explore_intern_all_first :
  exists st' maps',
    explore_intern_all explore_state_zero (replicate EXPLORE_CAT_COUNT hm_zero)
      segments_first = Ok (st', maps', [1; 2; 1; 3]) /\
    map s_str (es_arena st') =
      [bytes_of_string "Mega Man"; bytes_of_string "Sega"; bytes_of_string "Zelda"] /\
    by_cat st' 4 = [1; 3] /\ by_cat st' 0 = [2].
Proof. vm_compute. eexists _, _. repeat split. Qed.

(** * The hash functions *)

Lemma lxor_range (a b : Z) :
  0 <= a < 2 ^ 32 -> 0 <= b < 2 ^ 32 -> 0 <= Z.lxor a b < 2 ^ 32.
Proof.
  intros Ha Hb. split; [apply Z.lxor_nonneg; lia|].
  destruct (Z.eq_dec (Z.lxor a b) 0) as [->|Hne]; [lia|].
  assert (0 < Z.lxor a b) by (pose proof (proj2 (Z.lxor_nonneg a b)); lia).
  apply Z.log2_lt_pow2; [lia|].
  pose proof (Z.log2_lxor a b ltac:(lia) ltac:(lia)) as Hl.
  assert (Hla : Z.log2 a < 32).
  { destruct (Z.eq_dec a 0) as [->|]; [simpl; lia|]. apply Z.log2_lt_pow2; lia. }
  assert (Hlb : Z.log2 b < 32).
  { destruct (Z.eq_dec b 0) as [->|]; [simpl; lia|]. apply Z.log2_lt_pow2; lia. }
  lia.
Qed.

Lemma fold_hash32_range (s : list Z) :
  forall h, is_bytes s -> 0 <= h < 2 ^ 32 ->
    0 <= fold_left (fun hash c => Z.lxor (u32 (hash * FNV_PRIME)) c) s h < 2 ^ 32.
Proof.
  induction s as [|c s IH]; intros h Hs Hh; simpl; [exact Hh|].
  apply Forall_cons in Hs as [Hc Hs]. apply IH; [exact Hs|].
  apply lxor_range; [apply Z.mod_pos_bound; lia | lia].
Qed.

Lemma fold_hash_filtered (s : list Z) (f l : Z) :
  forall h,
    fold_left (hash_step f l) s h =
    fold_left (fun hash c => Z.lxor (u32 (hash * FNV_PRIME)) c)
              (map tolower (List.filter (in_range f l) s)) h.
Proof.
  induction s as [|c s IH]; intros h; simpl; [reflexivity|].
  rewrite IH. unfold hash_step, in_range.
  destruct ((f <=? c) && (c <=? l)); [|reflexivity].
  simpl. unfold tolower. destruct ((65 <=? c) && (c <=? 90)) eqn:E; [|reflexivity].
  apply andb_prop in E as [E1 E2]. apply Z.leb_le in E1, E2.
  rewrite lor_0x20 by lia. reflexivity.
Qed.

Lemma is_bytes_normal (s : list Z) (f l : Z) :
  is_bytes s -> is_bytes (map tolower (List.filter (in_range f l) s)).
Proof.
  unfold is_bytes. rewrite !Forall_forall. intros Hs c Hc.
  apply list_elem_of_In, in_map_iff in Hc as (c0 & <- & Hc0).
  apply List.filter_In in Hc0 as [Hc0 _]. apply list_elem_of_In, Hs in Hc0.
  unfold tolower. destruct ((65 <=? c0) && (c0 <=? 90)) eqn:E; [|lia].
  apply andb_prop in E as [E1 E2]. apply Z.leb_le in E1, E2. lia.
Qed.

(** X1.  With a filter that starts above 0, as the ['0'] of the splitter,
    the filtered hash is the plain hash of the normalised string: the bytes
    outside [f_first, f_last] dropped and the upper-case letters folded to
    lower case; the normalised string has no NUL.  Two strings with the same
    normal form have the same filtered hash, whatever their case and their
    filtered bytes. *)
Theorem ex_hash32_nocase_filtered_normal (s : list Z) (f_first f_last : Z) :
  0 < f_first ->
  nz (map tolower (List.filter (in_range f_first f_last) s)) /\
  ex_hash32_nocase_filtered s f_first f_last =
  ex_hash32 (map tolower (List.filter (in_range f_first f_last) s)).
Proof.
  intros Hf. split.
  - unfold nz. rewrite Forall_forall. intros c Hc.
    apply list_elem_of_In, in_map_iff in Hc as (c0 & <- & Hc0).
    apply List.filter_In in Hc0 as [_ Hr]. unfold in_range in Hr.
    apply andb_prop in Hr as [Hr _]. apply Z.leb_le in Hr.
    apply tolower_nz. lia.
  - unfold ex_hash32_nocase_filtered, ex_hash32.
    rewrite fold_hash_filtered. reflexivity.
Qed.

Lemma ex_hash32_nocase_filtered_normal_witness :
  nz (map tolower (List.filter (in_range 48 255) (bytes_of_string "Mega Man!"))) /\
  ex_hash32_nocase_filtered (bytes_of_string "Mega Man!") 48 255 =
  ex_hash32 (map tolower (List.filter (in_range 48 255) (bytes_of_string "Mega Man!"))).
Proof.
  apply (ex_hash32_nocase_filtered_normal (bytes_of_string "Mega Man!") 48 255). lia.
Defined.

(** X2.  On byte strings both hashes are 32-bit values and never 0, the
    value that the map reserves for an empty slot. *)
Theorem ex_hash32_range (s : list Z) (f_first f_last : Z) :
  is_bytes s ->
  0 < ex_hash32 s < 2 ^ 32 /\
  0 < ex_hash32_nocase_filtered s f_first f_last < 2 ^ 32.
Proof.
  intros Hs.
  assert (H : forall t, is_bytes t -> 0 < ex_hash32 t < 2 ^ 32).
  { intros t Ht. unfold ex_hash32.
    assert (Hoff : 0 <= FNV_OFFSET < 2 ^ 32) by (unfold FNV_OFFSET; lia).
    pose proof (fold_hash32_range t FNV_OFFSET Ht Hoff) as Hr.
    destruct (Z.eqb_spec
                (fold_left (fun hash c => Z.lxor (u32 (hash * FNV_PRIME)) c) t FNV_OFFSET)
                0); lia. }
  split; [apply H, Hs|].
  unfold ex_hash32_nocase_filtered. rewrite fold_hash_filtered.
  apply (H _ (is_bytes_normal s f_first f_last Hs)).
Qed.

Lemma ex_hash32_range_witness :
  0 < ex_hash32 (bytes_of_string "Sega") < 2 ^ 32 /\
  0 < ex_hash32_nocase_filtered (bytes_of_string "Sega") 48 255 < 2 ^ 32.
Proof.
  apply (ex_hash32_range (bytes_of_string "Sega") 48 255).
  unfold is_bytes. repeat constructor; lia.
Defined.

(** * More on the open-addressing map *)

Lemma gm_set_all_cons (k v : Z) (ops : list (Z * Z)) (g : gmap Z Z) :
  gm_set_all ((k, v) :: ops) g = gm_set_all ops (<[k := v]> g).
Proof. reflexivity. Qed.

Lemma dom_gm_set_all (ops : list (Z * Z)) :
  forall g : gmap Z Z,
    dom (gm_set_all ops g) = (list_to_set (map fst ops) : gset Z) ∪ dom g.
Proof.
  induction ops as [|[k v] ops IH]; intros g.
  - simpl. set_solver.
  - rewrite gm_set_all_cons, IH, dom_insert_L. simpl. set_solver.
Qed.

(** What every map that insertions have built satisfies, with the finite
    map it stands for. *)
Lemma hm_set_all_built (ops : list (Z * Z)) :
  forall (m m' : ex_hashmap32) (g : gmap Z Z),
    hm_wf m -> hm_models m g -> (m = hm_zero -> g = ∅) -> g !! 0 = None ->
    hm_len m = Z.of_nat (size g) ->
    Forall (fun kv => u32_key (fst kv)) ops ->
    hm_set_all ops m = Ok m' ->
    hm_wf m' /\ hm_models m' (gm_set_all ops g) /\
    (m' = hm_zero -> gm_set_all ops g = ∅) /\
    gm_set_all ops g !! 0 = None /\
    hm_len m' = Z.of_nat (size (gm_set_all ops g)) /\
    (ops <> [] -> hm_inv m').
Proof.
  induction ops as [|[k v] ops IH]; intros m m' g Hwf Hmod Hz Hk0 Hlen Hkeys H.
  - simpl in H. injection H as <-. simpl.
    split; [exact Hwf|]. split; [exact Hmod|]. split; [exact Hz|].
    split; [exact Hk0|]. split; [exact Hlen|]. intros Hc. contradiction.
  - apply Forall_cons in Hkeys as [Hk Hkeys]. unfold u32_key in Hk. simpl in Hk.
    simpl in H. apply bind_Ok in H as (m1 & Hset & H).
    pose proof (hm_wf_len _ Hwf) as Hle.
    destruct (Z.eq_dec (hm_len m) (2 ^ 30)) as [Hfull|Hnf].
    { rewrite ex_hashmap32_setnum_overflow in Hset; [discriminate | | exact Hfull | lia].
      destruct Hwf as [->|Hi]; [simpl in Hfull; lia | exact Hi]. }
    destruct (ex_hashmap32_setnum_spec m g k v Hwf Hmod Hz ltac:(lia) ltac:(lia))
      as (m1' & Hset' & Hinv1 & Hmod1 & Hlen1).
    rewrite Hset in Hset'. injection Hset' as <-.
    assert (Hnz1 : m1 <> hm_zero).
    { intros ->. destruct Hinv1 as [[Hc _ _ _] _ _].
      apply pow2cap_range in Hc. simpl in Hc. lia. }
    assert (Hk01 : (<[k := v]> g) !! 0 = None).
    { rewrite lookup_insert_ne by lia. exact Hk0. }
    assert (Hsz1 : hm_len m1 = Z.of_nat (size (<[k := v]> g))).
    { rewrite Hlen1. destruct (g !! k) as [v0|] eqn:Eg.
      - rewrite map_size_insert_Some by eauto. exact Hlen.
      - rewrite map_size_insert_None by exact Eg. lia. }
    destruct (IH m1 m' (<[k := v]> g) (or_intror Hinv1) Hmod1
                 (fun E => False_ind _ (Hnz1 E)) Hk01 Hsz1 Hkeys H)
      as (Hwf' & Hmod' & Hz' & Hk0' & Hlen' & Hinv').
    rewrite gm_set_all_cons.
    split; [exact Hwf'|]. split; [exact Hmod'|]. split; [exact Hz'|].
    split; [exact Hk0'|]. split; [exact Hlen'|].
    intros _. destruct ops as [|op ops'].
    + simpl in H. injection H as <-. exact Hinv1.
    + apply Hinv'. discriminate.
Qed.

Lemma hm_set_all_zero_built (ops : list (Z * Z)) (m : ex_hashmap32) :
  Forall (fun kv => u32_key (fst kv)) ops ->
  hm_set_all ops hm_zero = Ok m ->
  hm_wf m /\ hm_models m (gm_set_all ops ∅) /\
  (m = hm_zero -> gm_set_all ops ∅ = ∅) /\
  gm_set_all ops ∅ !! 0 = None /\
  hm_len m = Z.of_nat (size (gm_set_all ops (∅ : gmap Z Z))) /\
  (ops <> [] -> hm_inv m).
Proof.
  intros Hkeys H.
  apply (hm_set_all_built ops hm_zero m ∅); try assumption.
  - left. reflexivity.
  - apply hm_models_zero.
  - reflexivity.
  - apply lookup_empty.
  - rewrite map_size_empty. reflexivity.
Qed.

(** X3.  After any run of insertions into a zeroed map that returned, the
    [len] field is the number of distinct keys inserted; the map is still
    zeroed if there was no insertion, and else its capacity is a power of
    two from 16 to 2^31, both arrays have that many slots and the table is
    at most half full. *)
Theorem ex_hashmap32_len_counts_keys (ops : list (Z * Z)) (m : ex_hashmap32) :
  Forall (fun kv => u32_key (fst kv)) ops ->
  hm_set_all ops hm_zero = Ok m ->
  hm_len m = Z.of_nat (size (list_to_set (map fst ops) : gset Z)) /\
  (ops = [] -> m = hm_zero) /\
  (ops <> [] ->
   pow2cap (hm_cap m) /\ 2 * hm_len m <= hm_cap m /\
   Z.of_nat (length (hm_keys m)) = hm_cap m /\
   Z.of_nat (length (hm_vals m)) = hm_cap m /\
   count_nz (hm_keys m) = hm_len m).
Proof.
  intros Hkeys H.
  destruct (hm_set_all_zero_built ops m Hkeys H) as (_ & _ & _ & _ & Hlen & Hinv).
  split; [|split].
  - rewrite Hlen, <- size_dom, dom_gm_set_all, dom_empty_L, union_empty_r_L.
    reflexivity.
  - intros ->. simpl in H. congruence.
  - intros Hne. destruct (Hinv Hne) as [[Hc Hk Hv _] Hcnt Hload]. auto.
Qed.

Lemma ex_hashmap32_len_counts_keys_witness :
  hm_len (hm_of ops_small) = Z.of_nat (size (list_to_set (map fst ops_small) : gset Z)) /\
  (ops_small = [] -> hm_of ops_small = hm_zero) /\
  (ops_small <> [] ->
   pow2cap (hm_cap (hm_of ops_small)) /\
   2 * hm_len (hm_of ops_small) <= hm_cap (hm_of ops_small) /\
   Z.of_nat (length (hm_keys (hm_of ops_small))) = hm_cap (hm_of ops_small) /\
   Z.of_nat (length (hm_vals (hm_of ops_small))) = hm_cap (hm_of ops_small) /\
   count_nz (hm_keys (hm_of ops_small)) = hm_len (hm_of ops_small)).
Proof.
  apply (ex_hashmap32_len_counts_keys ops_small (hm_of ops_small)).
  - unfold ops_small, u32_key. repeat constructor; simpl; lia.
  - vm_compute. reflexivity.
Defined.

(** X4.  Doubling keeps the bindings: on a map that insertions have built
    and whose capacity is below 2^31, [ex_hashmap32__grow] to twice the
    capacity returns, the new capacity is twice the old one (16 for a
    zeroed map), [len] is unchanged and every lookup returns what it
    returned before. *)
Theorem ex_hashmap32__grow_keeps_bindings (ops : list (Z * Z)) (m : ex_hashmap32) :
  Forall (fun kv => u32_key (fst kv)) ops ->
  hm_set_all ops hm_zero = Ok m ->
  hm_cap m < 2 ^ 31 ->
  exists m',
    ex_hashmap32__grow m (u32 (2 * hm_cap m)) = Ok m' /\
    hm_cap m' = Z.max 16 (2 * hm_cap m) /\
    hm_len m' = hm_len m /\
    forall key, ex_hashmap32_getnum m' key = ex_hashmap32_getnum m key.
Proof.
  intros Hkeys H Hcap.
  destruct (hm_set_all_zero_built ops m Hkeys H) as (Hwf & Hmod & Hz & Hk0 & _ & _).
  destruct Hwf as [->|Hinv].
  - destruct ex_hashmap32__grow_zero as (m' & Hg & Hinv' & Hmod' & Hlen' & Hcap').
    exists m'. split; [exact Hg|]. split; [simpl; lia|]. split; [exact Hlen'|].
    intros key.
    rewrite (ex_hashmap32_getnum_spec m' ∅ key (or_intror Hinv') Hmod' (lookup_empty _)).
    reflexivity.
  - destruct (ex_hashmap32__grow_spec m _ Hinv Hmod Hcap)
      as (m' & Hg & Hinv' & Hmod' & Hlen' & Hcap').
    exists m'. split; [exact Hg|]. split.
    { destruct Hinv as [[Hc _ _ _] _ _]. apply pow2cap_range in Hc. lia. }
    split; [exact Hlen'|]. intros key.
    rewrite (ex_hashmap32_getnum_spec m' _ key (or_intror Hinv') Hmod' Hk0).
    rewrite (ex_hashmap32_getnum_spec m _ key (or_intror Hinv) Hmod Hk0).
    reflexivity.
Qed.

Lemma ex_hashmap32__grow_keeps_bindings_witness :
  exists m',
    ex_hashmap32__grow (hm_of ops_small) (u32 (2 * hm_cap (hm_of ops_small))) = Ok m' /\
    hm_cap m' = Z.max 16 (2 * hm_cap (hm_of ops_small)) /\
    hm_len m' = hm_len (hm_of ops_small) /\
    forall key, ex_hashmap32_getnum m' key = ex_hashmap32_getnum (hm_of ops_small) key.
Proof.
  apply (ex_hashmap32__grow_keeps_bindings ops_small (hm_of ops_small)).
  - unfold ops_small, u32_key. repeat constructor; simpl; lia.
  - vm_compute. reflexivity.
  - vm_compute. reflexivity.
Defined.

(** X5.  The string variants key the map by the 32-bit hash alone: after
    [ex_hashmap32_strsetnum] for [str], a lookup by any string with the
    same hash returns the new value, whether the strings are equal or not,
    and a lookup by a string with another hash returns what it returned
    before. *)
Theorem ex_hashmap32_str_keyed_by_hash (ops : list (Z * Z)) (m : ex_hashmap32)
    (str : list Z) (num : Z) :
  Forall (fun kv => u32_key (fst kv)) ops ->
  hm_set_all ops hm_zero = Ok m ->
  hm_len m < 2 ^ 30 ->
  exists m',
    ex_hashmap32_strsetnum m str num = Ok m' /\
    forall str',
      ex_hashmap32_strgetnum m' str' =
        if ex_hash32 str' =? ex_hash32 str then Ok num
        else ex_hashmap32_strgetnum m str'.
Proof.
  intros Hkeys H Hlen.
  destruct (hm_set_all_zero_built ops m Hkeys H) as (Hwf & Hmod & Hz & Hk0 & _ & _).
  assert (Hh : ex_hash32 str <> 0).
  { unfold ex_hash32.
    destruct (fold_left (fun hash c => Z.lxor (u32 (hash * FNV_PRIME)) c) str FNV_OFFSET =? 0)
      eqn:E; [lia|]. apply Z.eqb_neq in E. exact E. }
  destruct (ex_hashmap32_setnum_spec m _ (ex_hash32 str) num Hwf Hmod Hz Hlen Hh)
    as (m' & Hset & Hinv' & Hmod' & _).
  exists m'. split; [exact Hset|]. intros str'.
  unfold ex_hashmap32_strgetnum.
  rewrite (ex_hashmap32_getnum_spec m' _ _ (or_intror Hinv') Hmod').
  2: { rewrite lookup_insert_ne by auto. exact Hk0. }
  rewrite (ex_hashmap32_getnum_spec m _ _ Hwf Hmod Hk0).
  destruct (Z.eqb_spec (ex_hash32 str') (ex_hash32 str)) as [->|Hne].
  - rewrite lookup_insert_eq. reflexivity.
  - rewrite lookup_insert_ne by auto. reflexivity.
Qed.

Lemma ex_hashmap32_str_keyed_by_hash_witness :
  exists m',
    ex_hashmap32_strsetnum (hm_of ops_small) (bytes_of_string "db") 1 = Ok m' /\
    forall str',
      ex_hashmap32_strgetnum m' str' =
        if ex_hash32 str' =? ex_hash32 (bytes_of_string "db") then Ok 1
        else ex_hashmap32_strgetnum (hm_of ops_small) str'.
Proof.
  apply (ex_hashmap32_str_keyed_by_hash ops_small (hm_of ops_small)
           (bytes_of_string "db") 1).
  - unfold ops_small, u32_key. repeat constructor; simpl; lia.
  - vm_compute. reflexivity.
  - vm_compute. reflexivity.
Defined.

(** * The comparators and the sorted index *)

Lemma strcasecmp_map (a : list Z) :
  forall b, map tolower a = map tolower b -> strcasecmp a b = 0.
Proof.
  induction a as [|x a IH]; intros [|y b] H; simpl in *; try discriminate;
    [reflexivity|].
  injection H as Hxy Hab. rewrite Hxy, Z.eqb_refl. apply IH, Hab.
Qed.

(** X6.  On strings without NUL the comparator of the three [qsort] calls
    is a total preorder: it is reflexive, swapping the arguments negates the
    result, and it is transitive.  Two strings compare equal exactly when
    their first bytes are the same byte and they are equal up to the case
    of the letters: ["SEGA"] and ["Sega"] are equal, ["Sega"] and ["sega"]
    are not. *)
Theorem explore_qsort_func_preorder (a b c : list Z) :
  nz a -> nz b -> nz c ->
  explore_qsort_func a a = 0 /\
  explore_qsort_func b a = - explore_qsort_func a b /\
  (explore_qsort_func a b <= 0 -> explore_qsort_func b c <= 0 ->
   explore_qsort_func a c <= 0) /\
  (explore_qsort_func a b = 0 <->
   nth 0 a 0 = nth 0 b 0 /\ map tolower a = map tolower b).
Proof.
  intros Ha Hb Hc. split; [|split; [|split]].
  - unfold explore_qsort_func. rewrite Z.eqb_refl. simpl.
    apply strcasecmp_map. reflexivity.
  - apply explore_qsort_func_antisym.
  - apply explore_qsort_func_trans; assumption.
  - unfold explore_qsort_func.
    destruct (Z.eqb_spec (nth 0 a 0) (nth 0 b 0)) as [E|E]; simpl.
    + split.
      * intros H. split; [exact E | apply strcasecmp_0; assumption].
      * intros [_ H]. apply strcasecmp_map, H.
    + split; [lia | intros [H _]; contradiction].
Qed.

Lemma explore_qsort_func_preorder_witness :
  explore_qsort_func (bytes_of_string "SEGA") (bytes_of_string "SEGA") = 0 /\
  explore_qsort_func (bytes_of_string "Sega") (bytes_of_string "SEGA") =
    - explore_qsort_func (bytes_of_string "SEGA") (bytes_of_string "Sega") /\
  (explore_qsort_func (bytes_of_string "SEGA") (bytes_of_string "Sega") <= 0 ->
   explore_qsort_func (bytes_of_string "Sega") (bytes_of_string "sega") <= 0 ->
   explore_qsort_func (bytes_of_string "SEGA") (bytes_of_string "sega") <= 0) /\
  (explore_qsort_func (bytes_of_string "SEGA") (bytes_of_string "Sega") = 0 <->
   nth 0 (bytes_of_string "SEGA") 0 = nth 0 (bytes_of_string "Sega") 0 /\
   map tolower (bytes_of_string "SEGA") = map tolower (bytes_of_string "Sega")).
Proof.
  apply (explore_qsort_func_preorder (bytes_of_string "SEGA") (bytes_of_string "Sega")
           (bytes_of_string "sega"));
    unfold nz; repeat constructor; simpl; lia.
Defined.

(** The two phases of [explore_build_list]: the state that the record loop
    leaves, with its invariant, and what the sorting changes. *)
Lemma explore_build_list_phases (env : explore_env) (st : explore_state_t) :
  explore_build_list env = Ok st ->
  exists (st0 : explore_state_t) (maps : list ex_hashmap32),
    build_inv st0 maps /\
    (forall c, by_cat st c ≡ₚ by_cat st0 c) /\
    (forall p, facet_str st p = facet_str st0 p) /\
    length (es_arena st) = length (es_arena st0) /\
    es_entries st = qsort explore_qsort_func_entries (es_entries st0).
Proof.
  intros Hbuild.
  destruct (explore_build_list_builder env st Hbuild) as (st0 & maps & Hb & Hsort & Hes).
  destruct (explore_sort_categories_spec _ _ _ _ Hsort) as [Hstr Hall].
  exists st0, maps. split; [exact Hb|]. split; [|split; [|split; [|exact Hes]]].
  - intros c. unfold by_cat. rewrite !nth_lookup.
    destruct (es_by st0 !! c) as [l|] eqn:E0.
    + destruct (Forall2_lookup_l _ _ _ _ _ Hall E0) as (l' & -> & _ & Hp). exact Hp.
    + apply lookup_ge_None in E0. apply Forall2_length in Hall.
      rewrite (proj2 (lookup_ge_None (es_by st) c)) by lia. reflexivity.
  - intros p. unfold facet_str. rewrite !arena_get_str, Hstr. reflexivity.
  - rewrite <- (length_map s_str (es_arena st)), Hstr. apply length_map.
Qed.

(** X7.  The entries of a built index ascend by the comparator of the
    labels, any two of them and not only neighbours: the raw first byte
    decides, then the case-insensitive comparison. *)
Theorem explore_build_list_entries_sorted (env : explore_env) (st : explore_state_t)
    (i j : nat) (a b : explore_entry_t) :
  explore_build_list env = Ok st ->
  (i < j)%nat -> es_entries st !! i = Some a -> es_entries st !! j = Some b ->
  explore_qsort_func_entries a b <= 0 /\
  code_order (label_str (e_playlist_entry a)) (label_str (e_playlist_entry b)).
Proof.
  intros Hbuild Hij Hi Hj.
  destruct (explore_build_list_phases env st Hbuild) as (st0 & maps & _ & _ & _ & _ & Hes).
  assert (Hle : explore_qsort_func_entries a b <= 0).
  { assert (Htrans : Transitive (fun x y => explore_qsort_func_entries x y <= 0)).
    { intros x y z. unfold explore_qsort_func_entries, label_str.
      apply explore_qsort_func_trans; apply cstr_nz. }
    assert (Hss : StronglySorted (fun x y => explore_qsort_func_entries x y <= 0)
                    (es_entries st)).
    { apply Sorted_StronglySorted; [exact Htrans|]. rewrite Hes.
      apply qsort_sorted. intros x y. apply explore_qsort_func_antisym. }
    exact (StronglySorted_pairs _ _ Hss i j a b Hij Hi Hj). }
  split; [exact Hle|]. apply explore_qsort_func_code_order. exact Hle.
Qed.

Lemma explore_build_list_entries_sorted_witness :
  explore_qsort_func_entries
    (mk_entry (playlist_entry_of "00000002" "db" "Mario")
              [4; 0; 0; 0; 2; 0; 0; 0; 0; 0] None None) entry_sonic <= 0 /\
  code_order
    (label_str (e_playlist_entry
                  (mk_entry (playlist_entry_of "00000002" "db" "Mario")
                            [4; 0; 0; 0; 2; 0; 0; 0; 0; 0] None None)))
    (label_str (e_playlist_entry entry_sonic)).
Proof.
  apply (explore_build_list_entries_sorted env_view st_view 0 1); vm_compute;
    [reflexivity | lia | reflexivity | reflexivity].
Defined.

(** X8.  In a built index two different values of one category differ in
    their case-folded, filtered hash: no category holds two spellings of a
    name that differ only in case, spaces or punctuation. *)
Theorem explore_build_list_values_distinct (env : explore_env) (st : explore_state_t)
    (cat : nat) (p q : Z) :
  explore_build_list env = Ok st -> (cat < EXPLORE_CAT_COUNT)%nat ->
  In p (by_cat st cat) -> In q (by_cat st cat) -> p <> q ->
  facet_hash (facet_str st p) <> facet_hash (facet_str st q).
Proof.
  intros Hbuild Hcat Hp Hq Hne Hh. apply Hne.
  destruct (explore_build_list_phases env st Hbuild)
    as (st0 & maps & Hb & Hperm & Hstr & _ & _).
  destruct (bi_cats _ _ Hb cat Hcat) as [g Hg].
  rewrite !Hstr in Hh.
  apply list_elem_of_In in Hp, Hq. rewrite Hperm in Hp, Hq.
  apply list_elem_of_In, (cv_by _ _ _ _ Hg) in Hp as [hp Hp].
  apply list_elem_of_In, (cv_by _ _ _ _ Hg) in Hq as [hq Hq].
  destruct (ii_vals _ _ _ _ (cv_intern _ _ _ _ Hg) _ _ Hp) as [_ Ehp].
  destruct (ii_vals _ _ _ _ (cv_intern _ _ _ _ Hg) _ _ Hq) as [_ Ehq].
  congruence.
Qed.

Lemma explore_build_list_values_distinct_witness :
  facet_hash (facet_str st_view 1) <> facet_hash (facet_str st_view 4).
Proof.
  apply (explore_build_list_values_distinct env_view st_view 0 1 4).
  - vm_compute. reflexivity.
  - unfold EXPLORE_CAT_COUNT. lia.
  - vm_compute. left. reflexivity.
  - vm_compute. right. left. reflexivity.
  - lia.
Defined.

(** X9.  The facet array of each category of a built index ascends
    strictly: of any two values the earlier one compares below the later
    one, so no two values of a category compare equal. *)
Theorem explore_build_list_values_strict (env : explore_env) (st : explore_state_t)
    (cat i j : nat) (p q : Z) :
  explore_build_list env = Ok st -> (cat < EXPLORE_CAT_COUNT)%nat ->
  (i < j)%nat -> by_cat st cat !! i = Some p -> by_cat st cat !! j = Some q ->
  explore_qsort_func (facet_str st p) (facet_str st q) < 0.
Proof.
  intros Hbuild Hcat Hij Hi Hj.
  exact (ix_sorted _ _ (explore_build_list_index_inv env st cat Hbuild Hcat)
           i j p q Hij Hi Hj).
Qed.

Lemma explore_build_list_values_strict_witness :
  explore_qsort_func (facet_str st_view 2) (facet_str st_view 3) < 0.
Proof.
  apply (explore_build_list_values_strict env_view st_view 4 0 1 2 3); vm_compute;
    [reflexivity | lia | lia | reflexivity | reflexivity].
Defined.

(** * The splitter on a whole field *)

Lemma cstr_at_Ok (s : list Z) (i c : Z) :
  cstr_at s i = Ok c <->
  0 <= i <= Z.of_nat (length s) /\ c = nth (Z.to_nat i) s 0.
Proof.
  unfold cstr_at.
  destruct (Z.leb_spec 0 i); destruct (Z.leb_spec i (Z.of_nat (length s))); simpl;
    split; try (intros [= <-]; split; [lia | reflexivity]);
    try discriminate; try (intros [? ?]; lia).
  intros [_ ->]. reflexivity.
Qed.

Lemma cstr_at_in (s : list Z) (i : Z) :
  0 <= i <= Z.of_nat (length s) -> cstr_at s i = Ok (nth (Z.to_nat i) s 0).
Proof. intros H. apply cstr_at_Ok. auto. Qed.

Lemma skip_spaces_run (s : list Z) :
  forall (n fuel : nat) (p : Z),
    (n < fuel)%nat -> 0 <= p -> p + Z.of_nat n <= Z.of_nat (length s) ->
    (forall i, 0 <= i < Z.of_nat n -> nth (Z.to_nat (p + i)) s 0 = 32) ->
    nth (Z.to_nat (p + Z.of_nat n)) s 0 <> 32 ->
    skip_spaces fuel s p = Ok (p + Z.of_nat n).
Proof.
  induction n as [|n IH]; intros fuel p Hf Hp Hlen Hsp Hend;
    (destruct fuel as [|fuel]; [lia|]); cbn [skip_spaces];
    rewrite cstr_at_in by lia; cbn [bind].
  - replace (p + Z.of_nat 0) with p in * by lia.
    destruct (Z.eqb_spec (nth (Z.to_nat p) s 0) 32); [contradiction | reflexivity].
  - pose proof (Hsp 0 ltac:(lia)) as H0. replace (p + 0) with p in H0 by lia.
    rewrite H0. cbn. rewrite (IH fuel (p + 1)); try lia.
    + f_equal. lia.
    + intros i Hi. replace (p + 1 + i) with (p + (1 + i)) by lia. apply Hsp. lia.
    + replace (p + 1 + Z.of_nat n) with (p + Z.of_nat (S n)) by lia. exact Hend.
Qed.

Lemma back_spaces_run (s : list Z) :
  forall (n fuel : nat) (p : Z),
    (n < fuel)%nat -> 1 <= p - Z.of_nat n -> p <= Z.of_nat (length s) + 1 ->
    (forall i, 0 <= i < Z.of_nat n -> nth (Z.to_nat (p - 1 - i)) s 0 = 32) ->
    nth (Z.to_nat (p - Z.of_nat n - 1)) s 0 <> 32 ->
    back_spaces fuel s p = Ok (p - Z.of_nat n).
Proof.
  induction n as [|n IH]; intros fuel p Hf Hp Hlen Hsp Hend;
    (destruct fuel as [|fuel]; [lia|]); cbn [back_spaces];
    rewrite cstr_at_in by lia; cbn [bind].
  - replace (p - Z.of_nat 0 - 1) with (p - 1) in * by lia.
    destruct (Z.eqb_spec (nth (Z.to_nat (p - 1)) s 0) 32); [contradiction|].
    f_equal. lia.
  - pose proof (Hsp 0 ltac:(lia)) as H0. replace (p - 1 - 0) with (p - 1) in H0 by lia.
    rewrite H0. cbn. rewrite (IH fuel (p - 1)); try lia.
    + f_equal. lia.
    + intros i Hi. replace (p - 1 - 1 - i) with (p - 1 - (1 + i)) by lia. apply Hsp. lia.
    + replace (p - 1 - Z.of_nat n - 1) with (p - Z.of_nat (S n) - 1) by lia. exact Hend.
Qed.

(** Without a scratch buffer the loop passes every byte before the NUL. *)
Lemma add_unique_loop_scan (s : list Z) (cat : nat) (cx : add_ctx) (str : Z) :
  nz s ->
  forall (n fuel : nat) (p : Z),
    0 <= p -> p + Z.of_nat n = Z.of_nat (length s) ->
    add_unique_loop (n + fuel) s cat false cx str p =
    add_unique_loop fuel s cat false cx str (Z.of_nat (length s)).
Proof.
  intros Hs. induction n as [|n IH]; intros fuel p Hp Hn.
  - simpl. f_equal. lia.
  - cbn [Nat.add add_unique_loop]. rewrite cstr_at_in by lia. cbn [bind].
    assert (Hc : nth (Z.to_nat p) s 0 <> 0).
    { unfold nz in Hs. rewrite Forall_forall in Hs. apply Hs.
      apply list_elem_of_In, nth_In. lia. }
    destruct (Z.eqb_spec (nth (Z.to_nat p) s 0) 0) as [E|_]; [contradiction|].
    cbn [negb andb]. rewrite andb_true_r.
    destruct (negb (is_delim (nth (Z.to_nat p) s 0))); apply IH; lia.
Qed.

Lemma length_padded (a b : nat) (body : list Z) :
  length (padded a b body) = (a + length body + b)%nat.
Proof. unfold padded. rewrite !length_app, !length_replicate. lia. Qed.

Lemma nth_padded_before (a b : nat) (body : list Z) (i : nat) :
  (i < a)%nat -> nth i (padded a b body) 0 = 32.
Proof.
  intros Hi. unfold padded. rewrite app_nth1 by (rewrite length_replicate; lia).
  rewrite nth_lookup, lookup_replicate_2 by lia. reflexivity.
Qed.

Lemma nth_padded_body (a b : nat) (body : list Z) (i : nat) :
  (i < length body)%nat -> nth (a + i) (padded a b body) 0 = nth i body 0.
Proof.
  intros Hi. unfold padded. rewrite app_nth2 by (rewrite length_replicate; lia).
  rewrite length_replicate. replace (a + i - a)%nat with i by lia.
  apply app_nth1. exact Hi.
Qed.

Lemma nth_padded_after (a b : nat) (body : list Z) (i : nat) :
  (i < b)%nat -> nth (a + length body + i) (padded a b body) 0 = 32.
Proof.
  intros Hi. unfold padded. rewrite app_nth2 by (rewrite length_replicate; lia).
  rewrite length_replicate. rewrite app_nth2 by lia.
  replace (a + length body + i - a - length body)%nat with i by lia.
  rewrite nth_lookup, lookup_replicate_2 by lia. reflexivity.
Qed.

Lemma nz_padded (a b : nat) (body : list Z) : nz body -> nz (padded a b body).
Proof.
  intros Hb. unfold nz, padded. rewrite !Forall_app. split; [|split; [exact Hb|]];
    apply Forall_replicate; lia.
Qed.

Lemma cstr_sub_padded (a b : nat) (body : list Z) :
  cstr_sub (padded a b body) (Z.of_nat a) (Z.of_nat a + Z.of_nat (length body)) = Ok body.
Proof.
  unfold cstr_sub. rewrite length_padded.
  destruct (Z.leb_spec 0 (Z.of_nat a)); [|lia].
  destruct (Z.leb_spec (Z.of_nat a) (Z.of_nat a + Z.of_nat (length body))); [|lia].
  destruct (Z.leb_spec (Z.of_nat a + Z.of_nat (length body))
                       (Z.of_nat (a + length body + b))); [|lia].
  simpl. f_equal. unfold padded.
  rewrite Nat2Z.id, drop_app_length' by (symmetry; apply length_replicate).
  replace (Z.to_nat (Z.of_nat a + Z.of_nat (length body) - Z.of_nat a))
    with (length body) by lia.
  apply take_app_length.
Qed.

Lemma no_split_no_company (cat : nat) :
  info_use_split (by_info cat) = false -> info_is_company (by_info cat) = false.
Proof.
  do 10 (destruct cat as [|cat]; [simpl; congruence|]).
  intros _. unfold by_info. simpl. destruct cat; reflexivity.
Qed.

(** Where the splitter has no scratch buffer and the category is not one
    of companies, the field padded with spaces is one value: the body. *)
Lemma explore_add_unique_string_whole (cx : add_ctx) (cat : nat) (buf : list Z)
    (a b : nat) (body : list Z) (split_buf : bool) :
  cstr buf = padded a b body -> trimmed body ->
  split_buf && info_use_split (by_info cat) = false ->
  info_is_company (by_info cat) = false ->
  explore_add_unique_string cx cat (Some buf) split_buf =
    do '(st, maps, entry) <- explore_intern (cx_state cx) (cx_maps cx) cat body;
    do '(e, sb) <- explore_attach (cx_e cx) cat entry false (cx_split_buf cx);
    Ok (mk_ctx st maps e sb).
Proof.
  intros Hbuf (Hne & Hnz & Hfirst & Hlast) Hsplit Hco.
  assert (Hlb : (0 < length body)%nat) by (destruct body; [contradiction | simpl; lia]).
  unfold explore_add_unique_string. simpl option_map. rewrite Hbuf.
  set (s := padded a b body).
  assert (Hlen : length s = (a + length body + b)%nat) by apply length_padded.
  assert (Hs : nz s) by (apply nz_padded, Hnz).
  destruct s as [|c0 s'] eqn:Es; [simpl in Hlen; lia|]. rewrite <- Es in *.
  rewrite Hsplit.
  replace (S (length s)) with ((length s - 1) + 2)%nat by lia.
  rewrite (add_unique_loop_scan s cat cx 0 Hs (length s - 1) 2 1) by lia.
  cbn [add_unique_loop]. rewrite cstr_at_in by lia.
  rewrite Nat2Z.id, nth_overflow by lia. cbn [bind].
  change (negb (is_delim 0) && negb (0 =? 0)) with false.
  change (negb false && negb (0 =? 0)) with false. cbv iota.
  (* the spaces before and after the body *)
  assert (Hskip : skip_spaces (sfuel s) s 0 = Ok (Z.of_nat a)).
  { rewrite (skip_spaces_run s a (sfuel s) 0); unfold sfuel; try lia.
    - reflexivity.
    - intros i Hi. replace (Z.to_nat (0 + i)) with (Z.to_nat i) by lia.
      apply nth_padded_before. lia.
    - replace (Z.to_nat (0 + Z.of_nat a)) with (a + 0)%nat by lia.
      unfold s. rewrite nth_padded_body by lia. exact Hfirst. }
  assert (Hback : back_spaces (sfuel s) s (Z.of_nat (length s)) =
                  Ok (Z.of_nat a + Z.of_nat (length body))).
  { rewrite (back_spaces_run s b (sfuel s) (Z.of_nat (length s))); unfold sfuel; try lia.
    - f_equal. lia.
    - intros i Hi.
      replace (Z.to_nat (Z.of_nat (length s) - 1 - i))
        with (a + length body + (b - 1 - Z.to_nat i))%nat by lia.
      apply nth_padded_after. lia.
    - replace (Z.to_nat (Z.of_nat (length s) - Z.of_nat b - 1))
        with (a + (length body - 1))%nat by lia.
      unfold s. rewrite nth_padded_body by lia. exact Hlast. }
  rewrite Hskip, Hback. cbn [bind].
  destruct (Z.eqb_spec (Z.of_nat a + Z.of_nat (length body)) (Z.of_nat a)); [lia|].
  rewrite Hco. cbn [andb bind]. unfold s at 1. rewrite cstr_sub_padded. cbn [bind].
  destruct (explore_intern _ _ _ _) as [[[st maps] entry]|f]; cbn [bind]; [|reflexivity].
  destruct (explore_attach _ _ _ _ _) as [[e sb]|f]; cbn [bind]; [|reflexivity].
  unfold after_value. rewrite cstr_at_in by lia.
  rewrite Nat2Z.id, nth_overflow by lia. reflexivity.
Qed.

(** X10.  In a category without multiple values the whole field is one
    value, whatever delimiters it contains, with the spaces around it
    dropped: on an entry that has no value in the category yet the splitter
    interns the body and makes it the primary facet, and the scratch buffer
    of secondary values is left as it was. *)
Theorem explore_add_unique_string_single_value (cx : add_ctx) (cat : nat)
    (buf : list Z) (a b : nat) (body : list Z) :
  info_use_split (by_info cat) = false ->
  cstr buf = padded a b body -> trimmed body ->
  entry_by (cx_e cx) cat = 0 ->
  explore_add_unique_string cx cat (Some buf) true =
    do '(st, maps, entry) <- explore_intern (cx_state cx) (cx_maps cx) cat body;
    Ok (mk_ctx st maps (set_by (cx_e cx) cat entry) (cx_split_buf cx)).
Proof.
  intros Hsplit Hbuf Hbody Hby.
  rewrite (explore_add_unique_string_whole cx cat buf a b body true Hbuf Hbody).
  - destruct (explore_intern _ _ _ _) as [[[st maps] entry]|f]; cbn [bind]; [|reflexivity].
    unfold explore_attach. rewrite Hby. reflexivity.
  - rewrite Hsplit. reflexivity.
  - apply no_split_no_company, Hsplit.
Qed.

Lemma explore_add_unique_string_single_value_witness :
  explore_add_unique_string cx_first 7
    (Some (bytes_of_string " Mario, Luigi/Peach  ")) true =
    do '(st, maps, entry) <-
       explore_intern (cx_state cx_first) (cx_maps cx_first) 7
                      (bytes_of_string "Mario, Luigi/Peach");
    Ok (mk_ctx st maps (set_by (cx_e cx_first) 7 entry) (cx_split_buf cx_first)).
Proof.
  apply (explore_add_unique_string_single_value cx_first 7
           (bytes_of_string " Mario, Luigi/Peach  ") 1 2
           (bytes_of_string "Mario, Luigi/Peach")).
  - reflexivity.
  - reflexivity.
  - unfold trimmed, nz. split; [discriminate|]. split; [|split; simpl; lia].
    repeat constructor; simpl; lia.
  - reflexivity.
Defined.

(** X11.  The second call of the record loop for the System category passes
    no scratch buffer.  On an entry whose System facet is already set, as a
    [system] field of the record sets it, the call never returns: once the
    name of the core's system is interned, the value is pushed through the
    NULL buffer pointer. *)
Theorem explore_add_unique_string_system_twice (cx : add_ctx) (buf : list Z)
    (a b : nat) (body : list Z) :
  cstr buf = padded a b body -> trimmed body ->
  entry_by (cx_e cx) EXPLORE_BY_SYSTEM <> 0 ->
  explore_add_unique_string cx EXPLORE_BY_SYSTEM (Some buf) false =
    do _ <- explore_intern (cx_state cx) (cx_maps cx) EXPLORE_BY_SYSTEM body;
    Err NullDeref.
Proof.
  intros Hbuf Hbody Hby.
  rewrite (explore_add_unique_string_whole cx _ buf a b body false Hbuf Hbody);
    [|reflexivity | reflexivity].
  destruct (explore_intern _ _ _ _) as [[[st maps] entry]|f]; cbn [bind]; [|reflexivity].
  unfold explore_attach.
  destruct (Z.eqb_spec (entry_by (cx_e cx) EXPLORE_BY_SYSTEM) 0); [contradiction|].
  reflexivity.
Qed.

Lemma explore_add_unique_string_system_twice_witness :
  explore_add_unique_string cx_system EXPLORE_BY_SYSTEM
    (Some (bytes_of_string "Sega Genesis")) false =
    do _ <- explore_intern (cx_state cx_system) (cx_maps cx_system) EXPLORE_BY_SYSTEM
                           (bytes_of_string "Sega Genesis");
    Err NullDeref.
Proof.
  apply (explore_add_unique_string_system_twice cx_system
           (bytes_of_string "Sega Genesis") 0 0 (bytes_of_string "Sega Genesis")).
  - reflexivity.
  - unfold trimmed, nz. split; [discriminate|]. split; [|split; simpl; lia].
    repeat constructor; simpl; lia.
  - vm_compute. lia.
Defined.

(** * The values of a built index *)

Lemma skip_spaces_Ok (s : list Z) :
  forall (fuel : nat) (p r : Z),
    skip_spaces fuel s p = Ok r ->
    0 <= p <= r /\ r <= Z.of_nat (length s) /\ nth (Z.to_nat r) s 0 <> 32.
Proof.
  induction fuel as [|fuel IH]; intros p r H; cbn [skip_spaces] in H; [discriminate|].
  apply bind_Ok in H as (c & Hc & H). apply cstr_at_Ok in Hc as [Hp ->].
  destruct (Z.eqb_spec (nth (Z.to_nat p) s 0) 32) as [E|E].
  - apply IH in H. lia.
  - injection H as <-. split; [lia|]. split; [lia | exact E].
Qed.

Lemma back_spaces_Ok (s : list Z) :
  forall (fuel : nat) (p r : Z),
    back_spaces fuel s p = Ok r ->
    1 <= r <= p /\ r <= Z.of_nat (length s) + 1 /\
    nth (Z.to_nat (r - 1)) s 0 <> 32 /\
    forall i, r <= i < p -> nth (Z.to_nat i) s 0 = 32.
Proof.
  induction fuel as [|fuel IH]; intros p r H; cbn [back_spaces] in H; [discriminate|].
  apply bind_Ok in H as (c & Hc & H). apply cstr_at_Ok in Hc as [Hp ->].
  destruct (Z.eqb_spec (nth (Z.to_nat (p - 1)) s 0) 32) as [E|E].
  - apply IH in H as (Hr & Hl & Hn & Hsp). split; [lia|]. split; [lia|].
    split; [exact Hn|]. intros i Hi.
    destruct (Z.eq_dec i (p - 1)) as [->|]; [exact E | apply Hsp; lia].
  - injection H as <-. split; [lia|]. split; [lia|]. split; [exact E|]. intros i Hi. lia.
Qed.

Lemma suffix_len_Ok (s : list Z) (p n : Z) : suffix_len s p = Ok n -> n = 3 \/ n = 4.
Proof.
  unfold suffix_len. intros H. apply bind_Ok in H as (c & _ & H).
  injection H as <-. destruct (c =? 46); auto.
Qed.

Lemma explore_check_company_suffix_Ok (s : list Z) (p : Z) (rev : bool) (n : Z) :
  explore_check_company_suffix s p rev = Ok n -> n = 0 \/ n = 3 \/ n = 4.
Proof.
  unfold explore_check_company_suffix. intros H.
  apply bind_Ok in H as (start & _ & H).
  destruct start as [q|]; [|injection H as <-; auto].
  apply bind_Ok in H as (inc & _ & H).
  destruct inc; [apply suffix_len_Ok in H; tauto|].
  apply bind_Ok in H as (ltd & _ & H).
  destruct ltd; [apply suffix_len_Ok in H; tauto|].
  apply bind_Ok in H as (the & _ & H).
  destruct the; [apply suffix_len_Ok in H; tauto|].
  injection H as <-. auto.
Qed.

Lemma cstr_sub_Ok (s : list Z) (p q : Z) (seg : list Z) :
  cstr_sub s p q = Ok seg ->
  0 <= p <= q /\ q <= Z.of_nat (length s) /\
  length seg = Z.to_nat (q - p) /\
  forall k : nat, (k < length seg)%nat -> nth k seg 0 = nth (Z.to_nat p + k) s 0.
Proof.
  unfold cstr_sub.
  destruct (Z.leb_spec 0 p); destruct (Z.leb_spec p q);
    destruct (Z.leb_spec q (Z.of_nat (length s))); simpl; try discriminate.
  intros [= <-]. split; [lia|]. split; [lia|].
  assert (Hl : length (take (Z.to_nat (q - p)) (drop (Z.to_nat p) s)) = Z.to_nat (q - p)).
  { rewrite length_take, length_drop. lia. }
  split; [exact Hl|]. intros k Hk. rewrite Hl in Hk.
  rewrite !nth_lookup, lookup_take_lt, lookup_drop by lia. reflexivity.
Qed.

(** The segment that the loop interns is a trimmed value. *)
Lemma segment_trimmed (s : list Z) (is_company : bool) (str p str' p' p'' : Z)
    (seg : list Z) :
  nz s ->
  skip_spaces (sfuel s) s str = Ok str' ->
  back_spaces (sfuel s) s p = Ok p' ->
  p' <> str' ->
  (if is_company && (p' - str' >? 5)
   then do n <- explore_check_company_suffix s p' true;
        back_spaces (sfuel s) s (p' - n)
   else Ok p') = Ok p'' ->
  cstr_sub s str' p'' = Ok seg ->
  trimmed seg.
Proof.
  intros Hs Hstr Hp Hne Hp'' Hseg.
  apply skip_spaces_Ok in Hstr as (Hs1 & Hs2 & Hs3).
  apply back_spaces_Ok in Hp as (Hb1 & Hb2 & Hb3 & _).
  pose proof (cstr_sub_nz _ _ _ _ Hs Hseg) as Hnz.
  apply cstr_sub_Ok in Hseg as (Hc1 & Hc2 & Hlen & Hnth).
  assert (Hend : nth (Z.to_nat (p'' - 1)) s 0 <> 32 /\ str' < p'').
  { destruct (is_company && (p' - str' >? 5)) eqn:Eco.
    - apply andb_prop in Eco as [_ Egt]. apply Z.gtb_lt in Egt.
      apply bind_Ok in Hp'' as (n & Hn & Hp'').
      apply explore_check_company_suffix_Ok in Hn.
      apply back_spaces_Ok in Hp'' as (Hq1 & _ & Hq3 & Hq4).
      split; [exact Hq3|].
      destruct (Z.eq_dec p'' str') as [->|]; [|lia].
      exfalso. apply Hs3, Hq4. lia.
    - injection Hp'' as <-. split; [exact Hb3 | lia]. }
  destruct Hend as [Hlast Hlt].
  assert (Hl : (0 < length seg)%nat) by lia.
  split; [destruct seg; [simpl in Hl; lia | discriminate]|].
  split; [exact Hnz|]. split.
  - rewrite Hnth by lia. replace (Z.to_nat str' + 0)%nat with (Z.to_nat str') by lia.
    exact Hs3.
  - rewrite Hnth by lia.
    replace (Z.to_nat str' + (length seg - 1))%nat with (Z.to_nat (p'' - 1)) by lia.
    exact Hlast.
Qed.

Lemma explore_intern_arena (st : explore_state_t) (maps : list ex_hashmap32)
    (cat : nat) (seg : list Z) (st' : explore_state_t) (maps' : list ex_hashmap32)
    (p : Z) :
  explore_intern st maps cat seg = Ok (st', maps', p) ->
  es_arena st' = es_arena st \/
  (es_arena st' = es_arena st ++ [mk_string 0 seg] /\
   p = Z.of_nat (length (es_arena st)) + 1).
Proof.
  unfold explore_intern. intros H. apply bind_Ok in H as (entry & _ & H).
  destruct (entry =? 0).
  - apply bind_Ok in H as (m' & _ & H). injection H as <- <- <-. right. auto.
  - injection H as <- <- <-. left. reflexivity.
Qed.

Lemma explore_intern_arena_inv (st : explore_state_t) (maps : list ex_hashmap32)
    (cat : nat) (seg : list Z) (st' : explore_state_t) (maps' : list ex_hashmap32)
    (p : Z) :
  build_inv st maps -> (cat < EXPLORE_CAT_COUNT)%nat -> trimmed seg ->
  arena_inv st ->
  explore_intern st maps cat seg = Ok (st', maps', p) ->
  arena_inv st'.
Proof.
  intros Hb Hcat Hseg [Htr Hcov] Hi.
  destruct (explore_intern_build _ _ _ _ _ _ _ Hb Hcat (proj1 (proj2 Hseg)) Hi)
    as (_ & Hin & _ & Hmono & _).
  destruct (explore_intern_arena _ _ _ _ _ _ _ Hi) as [Ha|[Ha Hp]].
  - constructor.
    + rewrite Ha. exact Htr.
    + rewrite Ha. intros q Hq. destruct (Hcov q Hq) as (c & Hc & Hqc).
      exists c. split; [exact Hc | apply Hmono, Hqc].
  - constructor.
    + rewrite Ha. intros x Hx. apply in_app_or in Hx as [Hx|[<-|[]]];
        [apply Htr, Hx | exact Hseg].
    + rewrite Ha, length_app. simpl. intros q Hq.
      destruct (Z.eq_dec q p) as [->|Hne].
      * exists cat. split; [exact Hcat | exact Hin].
      * destruct (Hcov q ltac:(lia)) as (c & Hc & Hqc).
        exists c. split; [exact Hc | apply Hmono, Hqc].
Qed.

Lemma arena_inv_frame (st st' : explore_state_t) :
  es_arena st' = es_arena st -> es_by st' = es_by st ->
  arena_inv st -> arena_inv st'.
Proof.
  intros Ha Hb [Htr Hcov]. constructor.
  - rewrite Ha. exact Htr.
  - rewrite Ha. intros p Hp. destruct (Hcov p Hp) as (c & Hc & Hpc).
    exists c. split; [exact Hc|]. unfold by_cat in *. rewrite Hb. exact Hpc.
Qed.

Lemma add_unique_loop_arena (fuel : nat) :
  forall (s : list Z) (cat : nat) (has_split : bool) (cx : add_ctx) (str p : Z)
         (cx' : add_ctx),
    nz s -> (cat < EXPLORE_CAT_COUNT)%nat -> ctx_inv cx -> arena_inv (cx_state cx) ->
    add_unique_loop fuel s cat has_split cx str p = Ok cx' ->
    arena_inv (cx_state cx').
Proof.
  induction fuel as [|fuel IH]; intros s cat has_split cx str p cx' Hs Hcat Hcx Ha H;
    cbn [add_unique_loop] in H; [discriminate|].
  apply bind_Ok in H as (c & _ & H).
  destruct (negb (is_delim c) && negb (c =? 0)); [eapply IH; eassumption|].
  destruct (negb has_split && negb (c =? 0)); [eapply IH; eassumption|].
  apply bind_Ok in H as (str' & Hstr & H).
  apply bind_Ok in H as (p' & Hp & H).
  destruct (Z.eqb_spec p' str') as [E|E].
  - apply bind_Ok in H as (c' & _ & H).
    destruct (c' =? 0); [injection H as <-; exact Ha | eapply IH; eassumption].
  - apply bind_Ok in H as (p'' & Hp'' & H).
    apply bind_Ok in H as (seg & Hseg & H).
    apply bind_Ok in H as ([[st1 maps1] entry] & Hint & H).
    apply bind_Ok in H as ([e1 buf1] & Hatt & H).
    apply bind_Ok in H as (next & _ & H).
    pose proof (segment_trimmed _ _ _ _ _ _ _ _ Hs Hstr Hp E Hp'' Hseg) as Htr.
    destruct Hcx as [Hb Hby Hsplit Hbuf].
    destruct (explore_intern_build _ _ _ _ _ _ _ Hb Hcat (proj1 (proj2 Htr)) Hint)
      as (Hb1 & Hin & Hn0 & Hmono & _).
    destruct (explore_attach_build st1 _ _ _ _ _ _ _
                (by_ok_mono _ _ _ Hmono Hby) Hin Hn0 Hbuf Hatt)
      as (Hby1 & Hsp1 & Hbuf1).
    assert (Hcx1 : ctx_inv (mk_ctx st1 maps1 e1 buf1)).
    { constructor; simpl; [exact Hb1 | exact Hby1 | congruence | exact Hbuf1]. }
    assert (Ha1 : arena_inv st1).
    { exact (explore_intern_arena_inv _ _ _ _ _ _ _ Hb Hcat Htr Ha Hint). }
    destruct next as [q|]; [|injection H as <-; exact Ha1].
    eapply (IH s cat has_split (mk_ctx st1 maps1 e1 buf1));
      [exact Hs | exact Hcat | exact Hcx1 | exact Ha1 | exact H].
Qed.

Lemma explore_add_unique_string_arena (cx : add_ctx) (cat : nat)
    (str : option (list Z)) (split_buf : bool) (cx' : add_ctx) :
  (cat < EXPLORE_CAT_COUNT)%nat -> ctx_inv cx -> arena_inv (cx_state cx) ->
  explore_add_unique_string cx cat str split_buf = Ok cx' ->
  arena_inv (cx_state cx').
Proof.
  intros Hcat Hcx Ha. unfold explore_add_unique_string.
  assert (Hunk : arena_inv (set_has_unknown (cx_state cx) cat)).
  { apply (arena_inv_frame (cx_state cx)); auto. }
  destruct (option_map cstr str) as [[|c s]|] eqn:E.
  - intros [= <-]. exact Hunk.
  - apply add_unique_loop_arena; auto.
    destruct str as [buf|]; [|discriminate]. simpl in E. injection E as E.
    rewrite <- E. apply cstr_nz.
  - intros [= <-]. exact Hunk.
Qed.

Lemma explore_add_fields_arena (fields : list (option (list Z))) :
  forall (cx : add_ctx) (cat : nat) (cx' : add_ctx),
    (cat + length fields <= EXPLORE_CAT_COUNT)%nat -> ctx_inv cx ->
    arena_inv (cx_state cx) ->
    explore_add_fields cx cat fields = Ok cx' -> arena_inv (cx_state cx').
Proof.
  induction fields as [|f fields IH]; intros cx cat cx' Hlen Hcx Ha H; simpl in H.
  - injection H as <-. exact Ha.
  - apply bind_Ok in H as (cx1 & H1 & H). simpl in Hlen.
    apply (IH cx1 (S cat) cx'); [lia | | | exact H].
    + eapply explore_add_unique_string_build; [|exact Hcx | exact H1]. lia.
    + eapply explore_add_unique_string_arena; [|exact Hcx | exact Ha | exact H1]. lia.
Qed.

Lemma explore_build_record_arena (heap : list playlist_entry)
    (cores : list core_info_t) (map_cores playlist_entries : ex_hashmap32)
    (b : builder) (item : rmsgpack_dom_value) (b' : builder) :
  builder_inv b -> arena_inv (b_state b) ->
  explore_build_record heap cores map_cores playlist_entries b item = Ok b' ->
  arena_inv (b_state b').
Proof.
  intros Hb Ha. unfold explore_build_record.
  destruct item; try (intros [= <-]; exact Ha).
  intros H. apply bind_Ok in H as (rf & Hrf & H).
  destruct (rf_crc32 rf) as [crc32|]; [|injection H as <-; exact Ha].
  apply bind_Ok in H as (handle & _ & H).
  destruct (handle =? 0); [injection H as <-; exact Ha|].
  destruct (heap !! Z.to_nat (handle - 1)) as [entry|]; [|discriminate].
  apply bind_Ok in H as (cx & Hcx & H).
  apply bind_Ok in H as (core_info & _ & H).
  apply bind_Ok in H as (cx2 & Hcx2 & H).
  destruct (explore_finish_entry _ _ _) as [e buf] eqn:Ef.
  injection H as <-.
  apply explore_read_pairs_length in Hrf. cbn [rf_fields] in Hrf.
  rewrite length_replicate in Hrf.
  destruct Hb as [Hb Hbuf].
  assert (Hcx0 : ctx_inv (mk_ctx (b_state b) (b_cat_maps b)
                    (mk_entry entry (replicate EXPLORE_CAT_COUNT 0) None None)
                    (b_split_buf b))).
  { constructor; simpl; [exact Hb | apply by_ok_init | reflexivity |].
    rewrite Hbuf. constructor. }
  assert (Hfl : (0 + length (rf_fields rf) <= EXPLORE_CAT_COUNT)%nat) by (rewrite Hrf; lia).
  pose proof (explore_add_fields_build _ _ _ _ Hfl Hcx0 Hcx) as Hc1.
  pose proof (explore_add_fields_arena _ _ _ _ Hfl Hcx0 Ha Hcx) as Ha1.
  assert (Hsys : (EXPLORE_BY_SYSTEM < EXPLORE_CAT_COUNT)%nat)
    by (unfold EXPLORE_BY_SYSTEM, EXPLORE_CAT_COUNT; lia).
  pose proof (explore_add_unique_string_arena _ _ _ _ _ Hsys Hc1 Ha1 Hcx2) as Ha2.
  simpl. apply (arena_inv_frame (cx_state cx2)); auto.
Qed.

Lemma explore_build_records_arena (heap : list playlist_entry)
    (cores : list core_info_t) (map_cores playlist_entries : ex_hashmap32)
    (items : list rmsgpack_dom_value) :
  forall (b b' : builder),
    builder_inv b -> arena_inv (b_state b) ->
    explore_build_records heap cores map_cores playlist_entries b items = Ok b' ->
    builder_inv b' /\ arena_inv (b_state b').
Proof.
  induction items as [|item items IH]; intros b b' Hb Ha H; simpl in H.
  - injection H as <-. auto.
  - apply bind_Ok in H as (b1 & H1 & H). apply (IH b1 b'); [| |exact H].
    + eapply explore_build_record_build; eassumption.
    + eapply explore_build_record_arena; eassumption.
Qed.

Lemma explore_build_rdbs_arena (heap : list playlist_entry)
    (cores : list core_info_t) (map_cores : ex_hashmap32) (rdbs : list explore_rdb) :
  forall (b b' : builder),
    builder_inv b -> arena_inv (b_state b) ->
    explore_build_rdbs heap cores map_cores b rdbs = Ok b' ->
    builder_inv b' /\ arena_inv (b_state b').
Proof.
  induction rdbs as [|rdb rdbs IH]; intros b b' Hb Ha H; simpl in H.
  - injection H as <-. auto.
  - apply bind_Ok in H as (b1 & H1 & H).
    destruct (explore_build_records_arena _ _ _ _ _ _ _ Hb Ha H1) as [Hb1 Ha1].
    apply (IH b1 b'); assumption.
Qed.

(** The arena of a built index. *)
Lemma explore_build_list_arena (env : explore_env) (st : explore_state_t) :
  explore_build_list env = Ok st ->
  (forall p, 1 <= p <= Z.of_nat (length (es_arena st)) -> trimmed (facet_str st p)) /\
  (forall p, 1 <= p <= Z.of_nat (length (es_arena st)) ->
     exists cat, (cat < EXPLORE_CAT_COUNT)%nat /\ In p (by_cat st cat)) /\
  (forall cat p, In p (by_cat st cat) ->
     (cat < EXPLORE_CAT_COUNT)%nat /\ 1 <= p <= Z.of_nat (length (es_arena st))) /\
  (forall c1 c2 p, In p (by_cat st c1) -> In p (by_cat st c2) -> c1 = c2).
Proof.
  intros Hbuild.
  assert (Hst0 : exists st0 maps,
             build_inv st0 maps /\ arena_inv st0 /\
             explore_sort_categories (es_arena st0) (es_by st0) = (es_arena st, es_by st)).
  { unfold explore_build_list in Hbuild.
    apply bind_Ok in Hbuild as ([ix playlists] & _ & H).
    apply bind_Ok in H as (map_cores & _ & H).
    apply bind_Ok in H as (bd & Hbd & H).
    apply explore_build_rdbs_arena in Hbd as [Hb Ha]; [|apply builder_inv_init|].
    - destruct (explore_sort_categories _ _) as [arena by_] eqn:E.
      injection H as <-. exists (b_state bd), (b_cat_maps bd).
      split; [exact (proj1 Hb)|]. split; [exact Ha | exact E].
    - constructor; simpl; [intros x [] | intros p Hp; lia]. }
  destruct Hst0 as (st0 & maps & Hb & [Htr Hcov] & Hsort).
  destruct (explore_sort_categories_spec _ _ _ _ Hsort) as [Hstr Hall].
  assert (Hlen : length (es_arena st) = length (es_arena st0)).
  { rewrite <- (length_map s_str (es_arena st)), Hstr. apply length_map. }
  assert (Hperm : forall c, by_cat st c ≡ₚ by_cat st0 c).
  { intros c. unfold by_cat. rewrite !nth_lookup.
    destruct (es_by st0 !! c) as [l|] eqn:E0.
    - destruct (Forall2_lookup_l _ _ _ _ _ Hall E0) as (l' & -> & _ & Hp). exact Hp.
    - apply lookup_ge_None in E0. apply Forall2_length in Hall.
      rewrite (proj2 (lookup_ge_None (es_by st) c)) by lia. reflexivity. }
  assert (Hin : forall c p, In p (by_cat st c) <-> In p (by_cat st0 c)).
  { intros c p. rewrite <- !list_elem_of_In. rewrite (Hperm c). reflexivity. }
  split; [|split; [|split]].
  - intros p Hp. unfold facet_str. rewrite arena_get_str, Hstr, <- arena_get_str.
    apply Htr. unfold arena_get. apply nth_In. lia.
  - intros p Hp. rewrite Hlen in Hp. destruct (Hcov p Hp) as (c & Hc & Hpc).
    exists c. split; [exact Hc | apply Hin, Hpc].
  - intros c p Hp. rewrite Hlen. apply Hin in Hp.
    exact (build_inv_valid _ _ _ _ Hb Hp).
  - intros c1 c2 p H1 H2. apply Hin in H1, H2. exact (bi_disj _ _ Hb _ _ _ H1 H2).
Qed.

(** X12.  Every value of a built index is a trimmed string: it is not
    empty, holds no NUL, and neither starts nor ends with a space. *)
Theorem explore_build_list_values_trimmed (env : explore_env) (st : explore_state_t)
    (cat : nat) (p : Z) :
  explore_build_list env = Ok st -> In p (by_cat st cat) ->
  facet_str st p <> [] /\ nz (facet_str st p) /\
  nth 0 (facet_str st p) 0 <> 32 /\
  nth (length (facet_str st p) - 1) (facet_str st p) 0 <> 32.
Proof.
  intros Hbuild Hp.
  destruct (explore_build_list_arena env st Hbuild) as (Htr & _ & Hval & _).
  apply Htr. apply (Hval cat p Hp).
Qed.

Lemma explore_build_list_values_trimmed_witness :
  facet_str st_view 3 <> [] /\ nz (facet_str st_view 3) /\
  nth 0 (facet_str st_view 3) 0 <> 32 /\
  nth (length (facet_str st_view 3) - 1) (facet_str st_view 3) 0 <> 32.
Proof.
  apply (explore_build_list_values_trimmed env_view st_view 4 3).
  - vm_compute. reflexivity.
  - vm_compute. right. left. reflexivity.
Defined.

(** X13.  The facet arrays of a built index partition the arena: every
    string that was allocated is a value of one category and of no other,
    and the arrays hold nothing but handles of allocated strings. *)
Theorem explore_build_list_partition (env : explore_env) (st : explore_state_t)
    (p : Z) :
  explore_build_list env = Ok st ->
  (1 <= p <= Z.of_nat (length (es_arena st)) <->
   exists cat, (cat < EXPLORE_CAT_COUNT)%nat /\ In p (by_cat st cat)) /\
  (forall c1 c2, In p (by_cat st c1) -> In p (by_cat st c2) -> c1 = c2).
Proof.
  intros Hbuild.
  destruct (explore_build_list_arena env st Hbuild) as (_ & Hcov & Hval & Hdisj).
  split; [split|].
  - apply Hcov.
  - intros (c & _ & Hp). apply (Hval c p Hp).
  - intros c1 c2. apply Hdisj.
Qed.

Lemma explore_build_list_partition_witness :
  (1 <= 3 <= Z.of_nat (length (es_arena st_view)) <->
   exists cat, (cat < EXPLORE_CAT_COUNT)%nat /\ In 3 (by_cat st_view cat)) /\
  (forall c1 c2, In 3 (by_cat st_view c1) -> In 3 (by_cat st_view c2) -> c1 = c2).
Proof.
  apply (explore_build_list_partition env_view st_view 3).
  vm_compute. reflexivity.
Defined.

(** * The entries of a built index *)

Lemma explore_intern_entries (st : explore_state_t) (maps : list ex_hashmap32)
    (cat : nat) (seg : list Z) (st' : explore_state_t) (maps' : list ex_hashmap32)
    (p : Z) :
  explore_intern st maps cat seg = Ok (st', maps', p) ->
  es_entries st' = es_entries st.
Proof.
  unfold explore_intern. intros H. apply bind_Ok in H as (entry & _ & H).
  destruct (entry =? 0).
  - apply bind_Ok in H as (m' & _ & H). injection H as <- <- <-. reflexivity.
  - injection H as <- <- <-. reflexivity.
Qed.

Lemma explore_attach_entry (e : explore_entry_t) (cat : nat) (p : Z)
    (has_split : bool) (buf : list Z) (e' : explore_entry_t) (buf' : list Z) :
  explore_attach e cat p has_split buf = Ok (e', buf') ->
  e_playlist_entry e' = e_playlist_entry e.
Proof.
  unfold explore_attach. destruct (entry_by e cat =? 0); [intros [= <- <-]; reflexivity|].
  destruct has_split; [intros [= <- <-]; reflexivity | discriminate].
Qed.

(** The splitter touches neither the entries of the state nor the playlist
    entry of the entry it fills. *)
Lemma add_unique_loop_entries (fuel : nat) :
  forall (s : list Z) (cat : nat) (has_split : bool) (cx : add_ctx) (str p : Z)
         (cx' : add_ctx),
    add_unique_loop fuel s cat has_split cx str p = Ok cx' ->
    es_entries (cx_state cx') = es_entries (cx_state cx) /\
    e_playlist_entry (cx_e cx') = e_playlist_entry (cx_e cx).
Proof.
  induction fuel as [|fuel IH]; intros s cat has_split cx str p cx' H;
    cbn [add_unique_loop] in H; [discriminate|].
  apply bind_Ok in H as (c & _ & H).
  destruct (negb (is_delim c) && negb (c =? 0)); [eapply IH; eassumption|].
  destruct (negb has_split && negb (c =? 0)); [eapply IH; eassumption|].
  apply bind_Ok in H as (str' & _ & H).
  apply bind_Ok in H as (p' & _ & H).
  destruct (p' =? str').
  - apply bind_Ok in H as (c' & _ & H).
    destruct (c' =? 0); [injection H as <-; auto | eapply IH; eassumption].
  - apply bind_Ok in H as (p'' & _ & H).
    apply bind_Ok in H as (seg & _ & H).
    apply bind_Ok in H as ([[st1 maps1] entry] & Hint & H).
    apply bind_Ok in H as ([e1 buf1] & Hatt & H).
    apply bind_Ok in H as (next & _ & H).
    apply explore_intern_entries in Hint. apply explore_attach_entry in Hatt.
    destruct next as [q|].
    + apply IH in H as [H1 H2]. simpl in H1, H2. split; congruence.
    + injection H as <-. simpl. auto.
Qed.

Lemma explore_add_unique_string_entries (cx : add_ctx) (cat : nat)
    (str : option (list Z)) (split_buf : bool) (cx' : add_ctx) :
  explore_add_unique_string cx cat str split_buf = Ok cx' ->
  es_entries (cx_state cx') = es_entries (cx_state cx) /\
  e_playlist_entry (cx_e cx') = e_playlist_entry (cx_e cx).
Proof.
  unfold explore_add_unique_string.
  destruct (option_map cstr str) as [[|c s]|].
  - intros [= <-]. auto.
  - apply add_unique_loop_entries.
  - intros [= <-]. auto.
Qed.

Lemma explore_add_fields_entries (fields : list (option (list Z))) :
  forall (cx : add_ctx) (cat : nat) (cx' : add_ctx),
    explore_add_fields cx cat fields = Ok cx' ->
    es_entries (cx_state cx') = es_entries (cx_state cx) /\
    e_playlist_entry (cx_e cx') = e_playlist_entry (cx_e cx).
Proof.
  induction fields as [|f fields IH]; intros cx cat cx' H; simpl in H.
  - injection H as <-. auto.
  - apply bind_Ok in H as (cx1 & H1 & H).
    apply explore_add_unique_string_entries in H1 as [H1 H2].
    apply IH in H as [H3 H4]. split; congruence.
Qed.

Lemma explore_finish_entry_entry (e : explore_entry_t) (t : option (list Z))
    (buf : list Z) :
  e_playlist_entry (fst (explore_finish_entry e t buf)) = e_playlist_entry e.
Proof.
  unfold explore_finish_entry. destruct (nonempty t); destruct buf; reflexivity.
Qed.

(** One record adds at most one entry, and its playlist entry is the one
    that the checksum map gave a handle of. *)
Lemma explore_build_record_entries (heap : list playlist_entry)
    (cores : list core_info_t) (map_cores playlist_entries : ex_hashmap32)
    (b : builder) (item : rmsgpack_dom_value) (b' : builder) :
  explore_build_record heap cores map_cores playlist_entries b item = Ok b' ->
  es_entries (b_state b') = es_entries (b_state b) \/
  exists e crc32 handle,
    es_entries (b_state b') = es_entries (b_state b) ++ [e] /\
    ex_hashmap32_getptr playlist_entries crc32 = Ok handle /\ handle <> 0 /\
    heap !! Z.to_nat (handle - 1) = Some (e_playlist_entry e).
Proof.
  unfold explore_build_record.
  destruct item; try (intros [= <-]; left; reflexivity).
  intros H. apply bind_Ok in H as (rf & _ & H).
  destruct (rf_crc32 rf) as [crc32|]; [|injection H as <-; left; reflexivity].
  apply bind_Ok in H as (handle & Hget & H).
  destruct (Z.eqb_spec handle 0) as [|Hh]; [injection H as <-; left; reflexivity|].
  destruct (heap !! Z.to_nat (handle - 1)) as [entry|] eqn:Eh; [|discriminate].
  apply bind_Ok in H as (cx & Hcx & H).
  apply bind_Ok in H as (core_info & _ & H).
  apply bind_Ok in H as (cx2 & Hcx2 & H).
  pose proof (explore_finish_entry_entry (cx_e cx2) (rf_original_title rf)
                (cx_split_buf cx2)) as Hfin.
  destruct (explore_finish_entry _ _ _) as [e buf].
  injection H as <-.
  apply explore_add_fields_entries in Hcx as [H1 H2].
  apply explore_add_unique_string_entries in Hcx2 as [H3 H4].
  simpl in *. right. exists e, crc32, handle.
  split; [congruence|]. split; [exact Hget|]. split; [exact Hh|].
  rewrite Eh. f_equal. congruence.
Qed.

(** ** The playlist index *)

Section Handles.

Variable Q : playlist_entry -> Prop.
Variable heap : list playlist_entry.

Lemma rdb_ok_set (rdb : explore_rdb) (key handle : Z) (m : ex_hashmap32) :
  rdb_ok Q heap rdb -> handle_ok Q heap handle ->
  ex_hashmap32_setptr (rdb_playlist_entries rdb) key handle = Ok m ->
  rdb_ok Q heap (mk_rdb (rdb_handle rdb) m).
Proof.
  intros (g & Hwf & Hmod & Hz & Hk0 & Hval) Hh Hset.
  unfold ex_hashmap32_setptr in Hset.
  destruct (Z.eq_dec key 0) as [->|Hk].
  { rewrite ex_hashmap32_setnum_key0 in Hset. injection Hset as <-.
    exists g. simpl. auto. }
  pose proof (hm_wf_len _ Hwf) as Hle.
  destruct (Z.eq_dec (hm_len (rdb_playlist_entries rdb)) (2 ^ 30)) as [Hfull|Hnf].
  { rewrite ex_hashmap32_setnum_overflow in Hset; [discriminate | | exact Hfull | exact Hk].
    destruct Hwf as [E|Hi]; [rewrite E in Hfull; simpl in Hfull; lia | exact Hi]. }
  destruct (ex_hashmap32_setnum_spec _ g key handle Hwf Hmod Hz ltac:(lia) Hk)
    as (m' & Hset' & Hinv' & Hmod' & _).
  rewrite Hset in Hset'. injection Hset' as <-.
  exists (<[key := handle]> g). simpl. split; [right; exact Hinv'|].
  split; [exact Hmod'|]. split.
  { intros ->. exfalso. destruct Hinv' as [[Hc _ _ _] _ _].
    apply pow2cap_range in Hc. simpl in Hc. lia. }
  split; [rewrite lookup_insert_ne by auto; exact Hk0|].
  intros k h. destruct (Z.eq_dec key k) as [<-|Hne].
  - rewrite lookup_insert_eq. intros [= <-]. exact Hh.
  - rewrite lookup_insert_ne by exact Hne. apply Hval.
Qed.

Lemma rdb_ok_new (items : list rmsgpack_dom_value) :
  rdb_ok Q heap (mk_rdb items hm_zero).
Proof.
  exists ∅. simpl. split; [left; reflexivity|]. split; [apply hm_models_zero|].
  split; [reflexivity|]. split; [apply lookup_empty|].
  intros k h Hk. rewrite lookup_empty in Hk. discriminate.
Qed.

(** An entry is registered only when it is usable, and then the call
    returns [true]. *)
Lemma explore_index_entry_ok (env : explore_env) (ix ix' : index_state)
    (handle : Z) (entry : playlist_entry) (u : bool) :
  Forall (rdb_ok Q heap) (ix_rdbs ix) ->
  (u = true -> usable entry = true -> handle_ok Q heap handle) ->
  explore_index_entry env ix handle entry = Ok (ix', u) ->
  Forall (rdb_ok Q heap) (ix_rdbs ix') /\ ix_heap ix' = ix_heap ix.
Proof.
  intros Hall Hh. unfold explore_index_entry. fold (usable entry).
  destruct (usable entry) eqn:Eu; cbn [negb]; [|intros [= <- <-]; auto].
  intros H.
  apply bind_Ok in H as (rdb_num & _ & H).
  apply bind_Ok in H as ([ix1 rdb_num1] & H1 & H).
  assert (Hix1 : Forall (rdb_ok Q heap) (ix_rdbs ix1) /\ ix_heap ix1 = ix_heap ix).
  { destruct (rdb_num =? 0); [|injection H1 as <- <-; auto].
    destruct (env_database env _) as [items|].
    - apply bind_Ok in H1 as (idx & _ & H1). injection H1 as <- <-. simpl.
      split; [|reflexivity]. apply Forall_app. split; [exact Hall|].
      constructor; [apply rdb_ok_new | constructor].
    - apply bind_Ok in H1 as (idx & _ & H1). injection H1 as <- <-. simpl. auto. }
  destruct Hix1 as [Hall1 Hheap1]. cbv beta iota in H.
  destruct (rdb_num1 =? UINTPTR_MAX); [injection H as <- <-; auto|].
  destruct (ix_rdbs ix1 !! Z.to_nat (rdb_num1 - 1)) as [rdb|] eqn:Er; [|discriminate].
  apply bind_Ok in H as (m & Hset & H). injection H as <- <-. simpl.
  split; [|exact Hheap1].
  apply Forall_insert; [exact Hall1|].
  eapply rdb_ok_set; [|exact (Hh eq_refl eq_refl) | exact Hset].
  rewrite Forall_forall in Hall1. apply Hall1.
  apply list_elem_of_lookup. eauto.
Qed.

(** [used_entries] only counts up. *)
Lemma explore_index_entries_used (env : explore_env) (entries : list playlist_entry) :
  forall (ix ix' : index_state) (handle : Z) (used u : bool),
    explore_index_entries env ix handle entries used = Ok (ix', u) ->
    used = true -> u = true.
Proof.
  induction entries as [|entry entries IH]; intros ix ix' handle used u H Hu; simpl in H.
  - injection H as <- <-. exact Hu.
  - apply bind_Ok in H as ([ix1 u1] & H1 & H). cbv beta iota in H.
    apply (IH _ _ _ _ _ H). rewrite Hu. reflexivity.
Qed.

Lemma explore_index_entries_ok (env : explore_env) (entries : list playlist_entry) :
  forall (ix ix' : index_state) (handle : Z) (used u : bool),
    Forall (rdb_ok Q heap) (ix_rdbs ix) ->
    (u = true ->
     forall (j : nat) pe, entries !! j = Some pe -> usable pe = true ->
                          handle_ok Q heap (handle + Z.of_nat j)) ->
    explore_index_entries env ix handle entries used = Ok (ix', u) ->
    Forall (rdb_ok Q heap) (ix_rdbs ix') /\ ix_heap ix' = ix_heap ix.
Proof.
  induction entries as [|entry entries IH]; intros ix ix' handle used u Hall Hh H;
    simpl in H.
  - injection H as <- <-. auto.
  - apply bind_Ok in H as ([ix1 u1] & H1 & H). cbv beta iota in H.
    destruct (explore_index_entry_ok env ix ix1 handle entry u1 Hall) as [Hall1 Hheap1];
      [|exact H1|].
    { intros Hu1 Hu.
      assert (Hfin : u = true).
      { apply (explore_index_entries_used _ _ _ _ _ _ _ H). rewrite Hu1.
        apply orb_true_r. }
      specialize (Hh Hfin 0%nat entry eq_refl Hu).
      replace (handle + Z.of_nat 0) with handle in Hh by lia. exact Hh. }
    destruct (IH ix1 ix' (handle + 1) (used || u1) u Hall1) as [Hall' Hheap']; [|exact H|].
    { intros Hfin j pe Hj Hu. specialize (Hh Hfin (S j) pe Hj Hu).
      replace (handle + 1 + Z.of_nat j) with (handle + Z.of_nat (S j)) by lia. exact Hh. }
    split; [exact Hall' | congruence].
Qed.

End Handles.

Lemma explore_index_entry_heap (env : explore_env) (ix ix' : index_state)
    (handle : Z) (entry : playlist_entry) (u : bool) :
  explore_index_entry env ix handle entry = Ok (ix', u) -> ix_heap ix' = ix_heap ix.
Proof.
  unfold explore_index_entry.
  destruct (negb _); [intros [= <- <-]; reflexivity|]. intros H.
  apply bind_Ok in H as (rdb_num & _ & H).
  apply bind_Ok in H as ([ix1 rdb_num1] & H1 & H).
  assert (Hix1 : ix_heap ix1 = ix_heap ix).
  { destruct (rdb_num =? 0); [|injection H1 as <- <-; reflexivity].
    destruct (env_database env _) as [items|];
      apply bind_Ok in H1 as (idx & _ & H1); injection H1 as <- <-; reflexivity. }
  cbv beta iota in H.
  destruct (rdb_num1 =? UINTPTR_MAX); [injection H as <- <-; exact Hix1|].
  destruct (ix_rdbs ix1 !! Z.to_nat (rdb_num1 - 1)) as [rdb|]; [|discriminate].
  apply bind_Ok in H as (m & _ & H). injection H as <- <-. exact Hix1.
Qed.

Lemma explore_index_entries_heap (env : explore_env) (entries : list playlist_entry) :
  forall (ix ix' : index_state) (handle : Z) (used u : bool),
    explore_index_entries env ix handle entries used = Ok (ix', u) ->
    ix_heap ix' = ix_heap ix.
Proof.
  induction entries as [|entry entries IH]; intros ix ix' handle used u H; simpl in H.
  - injection H as <- <-. reflexivity.
  - apply bind_Ok in H as ([ix1 u1] & H1 & H). cbv beta iota in H.
    apply explore_index_entry_heap in H1. apply IH in H. congruence.
Qed.

(** One file of the playlist directory: skipped, or its entries are
    appended to the heap after they were indexed. *)
Lemma explore_index_playlist_step (env : explore_env) (ix ix1 : index_state)
    (pls pls1 : list (list playlist_entry)) (fname : list Z)
    (entries : list playlist_entry) :
  explore_index_playlist env (ix, pls) (fname, entries) = Ok (ix1, pls1) ->
  (is_lpl fname = false /\ ix1 = ix /\ pls1 = pls) \/
  (is_lpl fname = true /\ ix_heap ix1 = ix_heap ix ++ entries /\
   exists ix0 used,
     explore_index_entries env ix (Z.of_nat (length (ix_heap ix)) + 1) entries false
       = Ok (ix0, used) /\
     ix_rdbs ix1 = ix_rdbs ix0 /\
     pls1 = if used then pls ++ [entries] else pls).
Proof.
  unfold explore_index_playlist, is_lpl.
  destruct (strrchr (cstr fname) 46) as [fext|]; [|intros [= <- <-]; auto].
  destruct (strcasecmp fext (bytes_of_string ".lpl") =? 0); cbn [negb];
    [|intros [= <- <-]; auto].
  intros H. apply bind_Ok in H as ([ix0 used] & H0 & H). injection H as <- <-.
  right. split; [reflexivity|]. simpl.
  rewrite (explore_index_entries_heap _ _ _ _ _ _ _ H0).
  split; [reflexivity|]. exists ix0, used. auto.
Qed.

(** The heap and the playlists only grow, by the playlists of [.lpl]
    files. *)
Lemma explore_index_playlists_heap (env : explore_env)
    (files : list (list Z * list playlist_entry)) :
  forall (ix ix' : index_state) (pls pls' : list (list playlist_entry)),
    explore_index_playlists env (ix, pls) files = Ok (ix', pls') ->
    ix_heap ix `prefix_of` ix_heap ix' /\
    pls `prefix_of` pls' /\
    (forall pl, In pl pls' ->
       In pl pls \/ exists fname, In (fname, pl) files /\ is_lpl fname = true).
Proof.
  induction files as [|[fname entries] files IH]; intros ix ix' pls pls' H; simpl in H.
  - injection H as <- <-. split; [reflexivity|]. split; [reflexivity | auto].
  - apply bind_Ok in H as ([ix1 pls1] & H1 & H).
    apply IH in H as (Hpre & Hppre & Hpls).
    apply explore_index_playlist_step in H1
      as [(Hl & -> & ->)|(Hl & Hheap & ix0 & used & _ & _ & Hp1)].
    + split; [exact Hpre|]. split; [exact Hppre|].
      intros pl Hpl. destruct (Hpls pl Hpl) as [?|(f & Hin & ?)]; [auto|].
      right. exists f. split; [right; exact Hin | auto].
    + split; [|split].
      * etransitivity; [|exact Hpre]. rewrite Hheap. apply prefix_app_r. reflexivity.
      * etransitivity; [|exact Hppre]. rewrite Hp1.
        destruct used; [apply prefix_app_r|]; reflexivity.
      * intros pl Hpl. destruct (Hpls pl Hpl) as [Hpl1|(f & Hin & ?)].
        -- rewrite Hp1 in Hpl1. destruct used; [|auto].
           apply in_app_or in Hpl1 as [?|[<-|[]]]; [auto|].
           right. exists fname. split; [left; reflexivity | exact Hl].
        -- right. exists f. split; [right; exact Hin | auto].
Qed.

(** The checksum maps bind handles of entries with the property [Q], when
    the usable entries of the playlists that are kept have it. *)
Lemma explore_index_playlists_ok (Q : playlist_entry -> Prop) (env : explore_env)
    (heap : list playlist_entry) (files : list (list Z * list playlist_entry)) :
  forall (ix ix' : index_state) (pls pls' : list (list playlist_entry)),
    explore_index_playlists env (ix, pls) files = Ok (ix', pls') ->
    ix_heap ix' `prefix_of` heap ->
    (forall fname entries pe,
       In (fname, entries) files -> is_lpl fname = true -> In entries pls' ->
       In pe entries -> usable pe = true -> Q pe) ->
    Forall (rdb_ok Q heap) (ix_rdbs ix) ->
    Forall (rdb_ok Q heap) (ix_rdbs ix').
Proof.
  induction files as [|[fname entries] files IH]; intros ix ix' pls pls' H Hpre HQ Hall;
    simpl in H.
  - injection H as <- <-. exact Hall.
  - apply bind_Ok in H as ([ix1 pls1] & H1 & H).
    pose proof (explore_index_playlists_heap _ _ _ _ _ _ H) as (Hpre1 & Hppre1 & _).
    apply (IH ix1 ix' pls1 pls' H Hpre).
    { intros f es pe Hin. apply HQ. right. exact Hin. }
    apply explore_index_playlist_step in H1
      as [(Hl & -> & ->)|(Hl & Hheap & ix0 & used & H0 & Hr & Hp1)]; [exact Hall|].
    rewrite Hr.
    apply (explore_index_entries_ok Q heap env entries _ _ _ _ _ Hall) in H0 as [H0 _];
      [exact H0|].
    intros Hused j pe Hj Hu. split; [lia|]. exists pe. split.
    + assert (Hp : (ix_heap ix ++ entries) `prefix_of` heap).
      { rewrite <- Hheap. etransitivity; [exact Hpre1 | exact Hpre]. }
      destruct Hp as [rest ->].
      replace (Z.to_nat (Z.of_nat (length (ix_heap ix)) + 1 + Z.of_nat j - 1))
        with (length (ix_heap ix) + j)%nat by lia.
      rewrite <- app_assoc, lookup_app_r by lia.
      replace (length (ix_heap ix) + j - length (ix_heap ix))%nat with j by lia.
      rewrite lookup_app_l by (eapply lookup_lt_Some, Hj). exact Hj.
    + apply (HQ fname entries pe); [left; reflexivity | exact Hl | | | exact Hu].
      * rewrite Hused in Hp1. destruct Hppre1 as [rest ->]. rewrite Hp1.
        apply in_or_app. left. apply in_or_app. right. left. reflexivity.
      * apply list_elem_of_In, list_elem_of_lookup. eauto.
Qed.

(** ** The record loop *)

Lemma explore_build_records_usable (Q : playlist_entry -> Prop)
    (heap : list playlist_entry)
    (cores : list core_info_t) (map_cores : ex_hashmap32) (rdb : explore_rdb)
    (items : list rmsgpack_dom_value) :
  rdb_ok Q heap rdb ->
  forall (b b' : builder),
    explore_build_records heap cores map_cores (rdb_playlist_entries rdb) b items
      = Ok b' ->
    Forall (fun e => Q (e_playlist_entry e)) (es_entries (b_state b)) ->
    Forall (fun e => Q (e_playlist_entry e)) (es_entries (b_state b')).
Proof.
  intros (g & Hwf & Hmod & Hz & Hk0 & Hval).
  induction items as [|item items IH]; intros b b' H Hall; simpl in H.
  - injection H as <-. exact Hall.
  - apply bind_Ok in H as (b1 & H1 & H). apply (IH b1 b' H).
    apply explore_build_record_entries in H1
      as [->|(e & crc32 & handle & -> & Hget & Hh & Hheap)]; [exact Hall|].
    apply Forall_app. split; [exact Hall|]. constructor; [|constructor].
    unfold ex_hashmap32_getptr in Hget.
    rewrite (ex_hashmap32_getnum_spec _ g crc32 Hwf Hmod Hk0) in Hget.
    injection Hget as Hget.
    destruct (g !! crc32) as [h|] eqn:Eg; simpl in Hget; [|congruence]. subst h.
    destruct (Hval _ _ Eg) as (_ & pe & Hpe & Hu).
    rewrite Hheap in Hpe. injection Hpe as <-. exact Hu.
Qed.

Lemma explore_build_rdbs_usable (Q : playlist_entry -> Prop)
    (heap : list playlist_entry)
    (cores : list core_info_t) (map_cores : ex_hashmap32) (rdbs : list explore_rdb) :
  Forall (rdb_ok Q heap) rdbs ->
  forall (b b' : builder),
    explore_build_rdbs heap cores map_cores b rdbs = Ok b' ->
    Forall (fun e => Q (e_playlist_entry e)) (es_entries (b_state b)) ->
    Forall (fun e => Q (e_playlist_entry e)) (es_entries (b_state b')).
Proof.
  induction rdbs as [|rdb rdbs IH]; intros Hok b b' H Hall; simpl in H.
  - injection H as <-. exact Hall.
  - apply Forall_cons in Hok as [Hrdb Hok].
    apply bind_Ok in H as (b1 & H1 & H). apply (IH Hok b1 b' H).
    exact (explore_build_records_usable Q heap cores map_cores rdb _ Hrdb b b1 H1 Hall).
Qed.

(** The entries of a built index are kept entries, and the playlists are
    those of [.lpl] files. *)
Lemma explore_build_list_usable (env : explore_env) (st : explore_state_t) :
  explore_build_list env = Ok st ->
  (forall e, In e (es_entries st) ->
     kept (env_playlists env) (es_playlists st) (e_playlist_entry e)) /\
  (forall pl, In pl (es_playlists st) ->
     exists fname, In (fname, pl) (env_playlists env) /\ is_lpl fname = true).
Proof.
  intros Hbuild. unfold explore_build_list in Hbuild.
  apply bind_Ok in Hbuild as ([ix playlists] & Hix & H).
  apply bind_Ok in H as (map_cores & _ & H).
  apply bind_Ok in H as (bd & Hbd & H).
  destruct (explore_sort_categories _ _) as [arena by_] eqn:E.
  injection H as <-. cbn [es_entries es_playlists].
  pose proof (explore_index_playlists_heap _ _ _ _ _ _ Hix) as (_ & _ & Hpls).
  assert (Hok : Forall (rdb_ok (kept (env_playlists env) playlists) (ix_heap ix))
                       (ix_rdbs ix)).
  { apply (explore_index_playlists_ok _ env (ix_heap ix) _ _ _ _ _ Hix);
      [reflexivity | | constructor].
    intros fname entries pe Hin Hl Hk Hpe Hu. split; [exact Hu|].
    exists fname, entries. auto. }
  pose proof (explore_build_rdbs_usable _ _ _ _ _ Hok _ _ Hbd (Forall_nil_2 _)) as Hall.
  split.
  - intros e He. apply list_elem_of_In in He. rewrite qsort_perm in He.
    rewrite Forall_forall in Hall. exact (Hall e He).
  - intros pl Hpl. destruct (Hpls pl Hpl) as [[]|Hf]. exact Hf.
Qed.

(** X14.  Every entry of a built index refers to a playlist entry that has
    a checksum, a database name and a label, none of them NULL or empty,
    so that the comparator of the entries and the search never see a NULL
    label; the playlist entry is one of a [.lpl] file of the playlist
    directory, and the index keeps the playlist of that file.  The
    playlists that the index keeps are playlists of [.lpl] files. *)
Theorem explore_build_list_entries_usable (env : explore_env) (st : explore_state_t) :
  explore_build_list env = Ok st ->
  (forall e, In e (es_entries st) ->
     nonempty (pe_crc32 (e_playlist_entry e)) = true /\
     nonempty (pe_db_name (e_playlist_entry e)) = true /\
     nonempty (pe_label (e_playlist_entry e)) = true /\
     exists fname entries,
       In (fname, entries) (env_playlists env) /\ is_lpl fname = true /\
       In (e_playlist_entry e) entries /\ In entries (es_playlists st)) /\
  (forall pl, In pl (es_playlists st) ->
     exists fname, In (fname, pl) (env_playlists env) /\ is_lpl fname = true).
Proof.
  intros Hbuild.
  destruct (explore_build_list_usable env st Hbuild) as [Hes Hpls].
  split; [|exact Hpls].
  intros e He. destruct (Hes e He) as [Hu Hf].
  unfold usable in Hu. apply andb_prop in Hu as [Hu Hl]. apply andb_prop in Hu as [Hc Hd].
  auto.
Qed.

Lemma explore_build_list_entries_usable_witness :
  (forall e, In e (es_entries st_view) ->
     nonempty (pe_crc32 (e_playlist_entry e)) = true /\
     nonempty (pe_db_name (e_playlist_entry e)) = true /\
     nonempty (pe_label (e_playlist_entry e)) = true /\
     exists fname entries,
       In (fname, entries) (env_playlists env_view) /\ is_lpl fname = true /\
       In (e_playlist_entry e) entries /\ In entries (es_playlists st_view)) /\
  (forall pl, In pl (es_playlists st_view) ->
     exists fname, In (fname, pl) (env_playlists env_view) /\ is_lpl fname = true).
Proof.
  apply (explore_build_list_entries_usable env_view st_view).
  vm_compute. reflexivity.
Defined.

(** * Item types and the branches of the menu *)

Lemma u32_sub_l (a b : Z) : u32 (u32 a - b) = u32 (a - b).
Proof. unfold u32. apply Zminus_mod_idemp_l. Qed.

Lemma u32_small (x : Z) : 0 <= x < 2 ^ 32 -> u32 x = x.
Proof. unfold u32. apply Z.mod_small. Qed.

(** Adding a non-zero offset below 2^32 changes a 32-bit value. *)
Lemma u32_add_ne (m d : Z) : 0 < d < 2 ^ 32 -> u32 (m + d) <> m.
Proof.
  unfold u32. intros Hd E.
  pose proof (Z.div_mod (m + d) (2 ^ 32) ltac:(lia)) as Hdm.
  pose proof (Z.mod_pos_bound (m + d) (2 ^ 32) ltac:(lia)) as Hb.
  rewrite E in Hdm. lia.
Qed.

Lemma u32_add_ne_add (m d d' : Z) :
  0 <= d' < d -> d < 2 ^ 32 -> u32 (m + d) <> m + d'.
Proof.
  intros Hd' Hd E. apply (u32_add_ne (m + d') (d - d')); [lia|].
  rewrite <- E. f_equal. lia.
Qed.

Lemma imap_lookup_ext {A B : Type} (l : list A) :
  forall (f : nat -> A -> B) (g : A -> B),
    (forall i x, l !! i = Some x -> f i x = g x) -> imap f l = map g l.
Proof.
  induction l as [|x l IH]; intros f g H; [reflexivity|].
  simpl. f_equal; [apply (H 0%nat); reflexivity|].
  apply IH. intros i y Hy. apply (H (S i)). exact Hy.
Qed.

(** The stack position of a category followed by the item type of one of
    its values decodes to that value. *)
Lemma explore_levels_decode (M : Z) (st : explore_state_t) (cat i : nat) (p t0 : Z) :
  (cat < EXPLORE_CAT_COUNT)%nat ->
  by_cat st cat !! i = Some p -> Z.of_nat i < 2 ^ 30 ->
  explore_levels M st
    [t0; u32 (Z.of_nat cat + EXPLORE_TYPE_FIRSTCATEGORY M);
     u32 (EXPLORE_TYPE_FIRSTITEM M + Z.of_nat i)] [1%nat]
  = Ok [level_of (cat, p)].
Proof.
  intros Hcat Hi Hlt. unfold EXPLORE_CAT_COUNT in Hcat.
  unfold explore_levels. cbn [explore_levels_loop nth Nat.leb].
  rewrite u32_sub_l.
  replace (Z.of_nat cat + EXPLORE_TYPE_FIRSTCATEGORY M - EXPLORE_TYPE_FIRSTCATEGORY M)
    with (Z.of_nat cat) by lia.
  rewrite (u32_small (Z.of_nat cat)) by lia.
  destruct (Z.geb_spec (Z.of_nat cat) (Z.of_nat EXPLORE_CAT_COUNT)) as [Hge|_];
    [unfold EXPLORE_CAT_COUNT in Hge; lia|].
  rewrite Nat2Z.id.
  destruct (Z.eqb_spec (u32 (EXPLORE_TYPE_FIRSTITEM M + Z.of_nat i))
                       (EXPLORE_TYPE_FILTERNULL M)) as [E|_].
  { exfalso. unfold EXPLORE_TYPE_FIRSTITEM, EXPLORE_TYPE_FIRSTCATEGORY,
      EXPLORE_TYPE_FILTERNULL, EXPLORE_CAT_COUNT in E.
    apply (u32_add_ne M (13 + Z.of_nat i)); [lia|]. rewrite <- E at 2. f_equal. lia. }
  rewrite u32_sub_l.
  replace (EXPLORE_TYPE_FIRSTITEM M + Z.of_nat i - EXPLORE_TYPE_FIRSTITEM M)
    with (Z.of_nat i) by lia.
  rewrite (u32_small (Z.of_nat i)) by lia. rewrite Nat2Z.id, Hi. reflexivity.
Qed.

(** The listing of a category of a built index that has values. *)
Lemma explore_list_category_built (M : Z) (env : explore_env) (st : explore_state_t)
    (cat : nat) :
  explore_build_list env = Ok st -> (cat < EXPLORE_CAT_COUNT)%nat ->
  by_cat st cat <> [] ->
  explore_list_category M st (Z.of_nat cat) =
    Ok (map (item_of M st) (by_cat st cat) ++
        (if nth cat (es_has_unknown st) false
         then [(bytes_of_string "Unknown", EXPLORE_TYPE_FILTERNULL M)]
         else [])).
Proof.
  intros Hbuild Hcat Hne.
  pose proof (explore_build_list_index_inv env st cat Hbuild Hcat) as Hinv.
  pose proof (ix_len _ _ Hinv) as Hlen.
  assert (Hpos : (0 < length (by_cat st cat))%nat).
  { destruct (by_cat st cat); [contradiction | simpl; lia]. }
  unfold explore_list_category.
  destruct (Z.leb_spec (Z.of_nat EXPLORE_CAT_COUNT) (Z.of_nat cat)); [lia|].
  rewrite Nat2Z.id, u32_small by lia.
  destruct (Z.eqb_spec (Z.of_nat (length (by_cat st cat)) - 1) (2 ^ 32 - 1)); [lia|].
  rewrite take_ge by lia. f_equal. f_equal.
  apply imap_lookup_ext. intros i p Hi. unfold item_of, facet_str.
  rewrite (ix_idx _ _ Hinv i p Hi). reflexivity.
Qed.

(** X15.  On a built index the listing of a category that has values
    returns one item per value, in the order of the facet array, typed with
    the position of the value, then "Unknown" if a record lacked the field.
    The types are those of the distinct-value view, and each decodes back:
    the category's stack position followed by the type of an item selects
    the value of that item as the constraint, and the type of "Unknown"
    selects NULL. *)
Theorem explore_list_category_roundtrip (M : Z) (env : explore_env)
    (st : explore_state_t) (cat : nat) :
  explore_build_list env = Ok st -> (cat < EXPLORE_CAT_COUNT)%nat ->
  by_cat st cat <> [] ->
  explore_list_category M st (Z.of_nat cat) =
    Ok (map (item_of M st) (by_cat st cat) ++
        (if nth cat (es_has_unknown st) false
         then [(bytes_of_string "Unknown", EXPLORE_TYPE_FILTERNULL M)]
         else [])) /\
  (forall p t0, In p (by_cat st cat) ->
     explore_levels M st
       [t0; u32 (Z.of_nat cat + EXPLORE_TYPE_FIRSTCATEGORY M); snd (item_of M st p)]
       [1%nat]
     = Ok [level_of (cat, p)]) /\
  (forall t0,
     explore_levels M st
       [t0; u32 (Z.of_nat cat + EXPLORE_TYPE_FIRSTCATEGORY M); EXPLORE_TYPE_FILTERNULL M]
       [1%nat]
     = Ok [level_of (cat, 0)]).
Proof.
  intros Hbuild Hcat Hne.
  pose proof (explore_build_list_index_inv env st cat Hbuild Hcat) as Hinv.
  pose proof (ix_len _ _ Hinv) as Hlen.
  assert (Hpos : (0 < length (by_cat st cat))%nat).
  { destruct (by_cat st cat); [contradiction | simpl; lia]. }
  split; [exact (explore_list_category_built M env st cat Hbuild Hcat Hne)|split].
  - intros p t0 Hp. apply list_elem_of_In, list_elem_of_lookup in Hp as [i Hi].
    unfold item_of. cbn [snd]. rewrite (ix_idx _ _ Hinv i p Hi).
    apply explore_levels_decode; [exact Hcat | exact Hi|].
    apply lookup_lt_Some in Hi. lia.
  - intros t0. unfold EXPLORE_CAT_COUNT in Hcat. unfold explore_levels. cbn [explore_levels_loop nth Nat.leb].
    rewrite u32_sub_l.
    replace (Z.of_nat cat + EXPLORE_TYPE_FIRSTCATEGORY M - EXPLORE_TYPE_FIRSTCATEGORY M)
      with (Z.of_nat cat) by lia.
    rewrite (u32_small (Z.of_nat cat)) by lia.
    destruct (Z.geb_spec (Z.of_nat cat) (Z.of_nat EXPLORE_CAT_COUNT)) as [Hge|_];
      [unfold EXPLORE_CAT_COUNT in Hge; lia|].
    rewrite Nat2Z.id, Z.eqb_refl. reflexivity.
Qed.

Lemma explore_list_category_roundtrip_witness :
  explore_list_category 4096 st_view (Z.of_nat 4) =
    Ok (map (item_of 4096 st_view) (by_cat st_view 4) ++
        (if nth 4 (es_has_unknown st_view) false
         then [(bytes_of_string "Unknown", EXPLORE_TYPE_FILTERNULL 4096)]
         else [])) /\
  (forall p t0, In p (by_cat st_view 4) ->
     explore_levels 4096 st_view
       [t0; u32 (Z.of_nat 4 + EXPLORE_TYPE_FIRSTCATEGORY 4096);
        snd (item_of 4096 st_view p)] [1%nat]
     = Ok [level_of (4%nat, p)]) /\
  (forall t0,
     explore_levels 4096 st_view
       [t0; u32 (Z.of_nat 4 + EXPLORE_TYPE_FIRSTCATEGORY 4096);
        EXPLORE_TYPE_FILTERNULL 4096] [1%nat]
     = Ok [level_of (4%nat, 0)]).
Proof.
  apply (explore_list_category_roundtrip 4096 env_view st_view 4).
  - vm_compute. reflexivity.
  - unfold EXPLORE_CAT_COUNT. lia.
  - vm_compute. discriminate.
Defined.

Lemma filter_map_S (P : nat -> bool) (l : list nat) :
  List.filter P (map S l) = map S (List.filter (fun k => P (S k)) l).
Proof.
  induction l as [|x l IH]; [reflexivity|]. simpl.
  destruct (P (S x)); simpl; rewrite IH; reflexivity.
Qed.

(** The entry-listing loop appends the items of the passing entries, in
    order, each typed with its index. *)
Lemma explore_filter_loop_entries (M : Z) (st : explore_state_t) (levels : list level)
    (find_string : list Z) (d : explore_entry_t) (es : list explore_entry_t) :
  forall (acc : filter_acc) (i : nat),
    Forall (fun e => split_ok e = true) es ->
    explore_filter_loop M st levels find_string None acc (Z.of_nat i) es =
      Ok (mk_acc
            (fa_list acc ++
             map (fun k => (entry_title (nth k es d),
                            u32 (EXPLORE_TYPE_FIRSTITEM M + Z.of_nat (i + k))))
                 (List.filter (fun k => passes levels find_string (nth k es d))
                              (seq 0 (length es))))
            (fa_map acc) (fa_have_unknown acc)).
Proof.
  induction es as [|e es IH]; intros acc i Hok.
  - simpl. rewrite app_nil_r. destruct acc; reflexivity.
  - apply Forall_cons in Hok as [He Hok].
    assert (Hseq :
      List.filter (fun k => passes levels find_string (nth k (e :: es) d))
                  (seq 0 (length (e :: es))) =
      (if passes levels find_string e then [0%nat] else []) ++
      map S (List.filter (fun k => passes levels find_string (nth k es d))
                         (seq 0 (length es)))).
    { cbn [length]. rewrite <- cons_seq, <- fmap_S_seq.
      change (S <$> seq 0 (length es)) with (map S (seq 0 (length es))).
      cbn [List.filter nth]. rewrite filter_map_S. cbn [nth].
      destruct (passes levels find_string e); reflexivity. }
    rewrite Hseq, List.map_app, List.map_map.
    cbn [explore_filter_loop]. rewrite (explore_entry_passes_total levels find_string e He).
    cbn [bind]. replace (Z.of_nat i + 1) with (Z.of_nat (S i)) by lia.
    assert (Hrest : forall l : list nat,
      map (fun k => (entry_title (nth (S k) (e :: es) d),
                     u32 (EXPLORE_TYPE_FIRSTITEM M + Z.of_nat (i + S k)))) l =
      map (fun k => (entry_title (nth k es d),
                     u32 (EXPLORE_TYPE_FIRSTITEM M + Z.of_nat (S i + k)))) l).
    { intros l. apply map_ext. intros k. cbn [nth]. f_equal. f_equal. f_equal. lia. }
    rewrite Hrest.
    destruct (passes levels find_string e); cbn [negb bind].
    + rewrite (IH _ (S i) Hok). unfold explore_list_entry.
      cbn [fa_list fa_map fa_have_unknown map nth].
      rewrite <- app_assoc. fold (entry_title e).
      replace (i + 0)%nat with i by lia. reflexivity.
    + rewrite (IH _ (S i) Hok). reflexivity.
Qed.

Lemma explore_list_filtered_entries (M : Z) (st : explore_state_t)
    (levels : list level) (find_string : list Z) (list0 : list item) :
  Forall (fun e => split_ok e = true) (es_entries st) ->
  explore_list_filtered M st levels find_string None list0 =
    Ok (list0 ++ map (entry_item M st) (passing_indices levels find_string st)).
Proof.
  intros Hok. unfold explore_list_filtered.
  rewrite (explore_filter_loop_entries M st levels find_string
             (entry_init playlist_entry_null) (es_entries st) _ 0 Hok).
  reflexivity.
Qed.

Lemma explore_build_list_split_ok (env : explore_env) (st : explore_state_t) :
  explore_build_list env = Ok st ->
  Forall (fun e => split_ok e = true) (es_entries st).
Proof.
  intros Hbuild. rewrite Forall_forall. intros e He.
  assert (Hinv : index_inv st 0).
  { apply (explore_build_list_index_inv env); [exact Hbuild|].
    unfold EXPLORE_CAT_COUNT. lia. }
  apply (ix_split _ _ Hinv), list_elem_of_In, He.
Qed.

(** X16.  On a built index the entry-listing view appends to the list one
    item for each entry that passes the constraints and the search, in the
    order of the entries, with the alternate title or else the label as its
    text and the index of the entry as its type.  With at most 2^32 entries
    the types decode back: the content page of an item's type is the page
    of the entry that the item was listed for, titled by its label. *)
Theorem explore_list_entries_roundtrip (M : Z) (env : explore_env)
    (st : explore_state_t) (levels : list level) (find_string : list Z)
    (list0 : list item) :
  explore_build_list env = Ok st ->
  Z.of_nat (length (es_entries st)) <= 2 ^ 32 ->
  explore_list_filtered M st levels find_string None list0 =
    Ok (list0 ++ map (entry_item M st) (passing_indices levels find_string st)) /\
  (forall (k : nat) e, es_entries st !! k = Some e ->
     entry_item M st k = (entry_title e, u32 (EXPLORE_TYPE_FIRSTITEM M + Z.of_nat k)) /\
     explore_content_entry M st (snd (entry_item M st k)) = Ok e /\
     explore_content_title M st (snd (entry_item M st k)) =
       Ok (take 1023 (label_str (e_playlist_entry e)))).
Proof.
  intros Hbuild Hlen.
  split; [apply explore_list_filtered_entries, (explore_build_list_split_ok env), Hbuild|].
  intros k e Hk.
  assert (Hnth : nth k (es_entries st) (entry_init playlist_entry_null) = e).
  { rewrite nth_lookup, Hk. reflexivity. }
  assert (Hc : explore_content_entry M st (snd (entry_item M st k)) = Ok e).
  { unfold explore_content_entry, entry_item. cbn [snd]. rewrite u32_sub_l.
    replace (EXPLORE_TYPE_FIRSTITEM M + Z.of_nat k - EXPLORE_TYPE_FIRSTITEM M)
      with (Z.of_nat k) by lia.
    apply lookup_lt_Some in Hk as Hlt.
    rewrite u32_small by lia. rewrite Nat2Z.id, Hk. reflexivity. }
  split; [unfold entry_item; rewrite Hnth; reflexivity|]. split; [exact Hc|].
  unfold explore_content_title. rewrite Hc. cbn [bind].
  destruct (explore_build_list_usable env st Hbuild) as [Hu _].
  destruct (Hu e) as [Hl _].
  { apply list_elem_of_In, list_elem_of_lookup. eauto. }
  unfold usable in Hl. apply andb_prop in Hl as [_ Hl].
  unfold label_str. destruct (pe_label (e_playlist_entry e)) as [label|];
    [reflexivity | discriminate].
Qed.

Lemma explore_list_entries_roundtrip_witness :
  explore_list_filtered 4096 st_view [] [] None [] =
    Ok ([] ++ map (entry_item 4096 st_view) (passing_indices [] [] st_view)) /\
  (forall (k : nat) e, es_entries st_view !! k = Some e ->
     entry_item 4096 st_view k =
       (entry_title e, u32 (EXPLORE_TYPE_FIRSTITEM 4096 + Z.of_nat k)) /\
     explore_content_entry 4096 st_view (snd (entry_item 4096 st_view k)) = Ok e /\
     explore_content_title 4096 st_view (snd (entry_item 4096 st_view k)) =
       Ok (take 1023 (label_str (e_playlist_entry e)))).
Proof.
  apply (explore_list_entries_roundtrip 4096 env_view st_view [] [] []).
  - vm_compute. reflexivity.
  - vm_compute. discriminate.
Defined.

(** X18.  The top of the explore menu offers a category exactly when the
    category has values, and each category it offers opens: provided the
    tab and the database type are enumerators below the item types, the
    stack of the tab followed by the type of an offered category takes the
    second branch, and the listing of that branch returns its items.  The
    second branch, which cannot list an empty category, is never entered for
    one from the top. *)
Theorem explore_list_menu_top (M F TAB : Z) (env : explore_env) (st : explore_state_t)
    (cat : nat) :
  explore_build_list env = Ok st ->
  0 <= TAB < M -> 0 <= F < M -> M + 13 <= 2 ^ 32 ->
  (cat < EXPLORE_CAT_COUNT)%nat ->
  explore_dispatch M F TAB [TAB] = BranchMenu true /\
  ((exists label,
      In (label, EXPLORE_TYPE_FIRSTCATEGORY M + Z.of_nat cat)
         (explore_list_menu M TAB st [TAB]))
   <-> by_cat st cat <> []) /\
  (by_cat st cat <> [] ->
   explore_dispatch M F TAB [TAB; EXPLORE_TYPE_FIRSTCATEGORY M + Z.of_nat cat]
     = BranchCategory /\
   explore_list_category M st
     (u32 (EXPLORE_TYPE_FIRSTCATEGORY M + Z.of_nat cat - EXPLORE_TYPE_FIRSTCATEGORY M))
     = Ok (map (item_of M st) (by_cat st cat) ++
           (if nth cat (es_has_unknown st) false
            then [(bytes_of_string "Unknown", EXPLORE_TYPE_FILTERNULL M)]
            else []))).
Proof.
  intros Hbuild HT HF HM Hcat. unfold EXPLORE_CAT_COUNT in Hcat.
  split; [|split].
  - unfold explore_dispatch, explore_current_type, explore_depth. cbn [length Nat.sub nth].
    rewrite Z.eqb_refl. reflexivity.
  - unfold explore_list_menu, explore_current_type, explore_depth, explore_on_path.
    cbn [length Nat.sub nth seq existsb]. rewrite Z.eqb_refl. cbn [orb].
    split.
    + intros (label & Hin).
      apply in_app_or in Hin as [[Hin|[]]|Hin].
      { injection Hin as _ E. unfold EXPLORE_TYPE_SEARCH, EXPLORE_TYPE_FIRSTCATEGORY in E. lia. }
      apply in_app_or in Hin as [Hin|[Hin|[]]].
      2: { injection Hin as _ E.
           unfold EXPLORE_TYPE_SHOWALL, EXPLORE_TYPE_FIRSTCATEGORY in E. lia. }
      apply in_flat_map in Hin as (c & Hc & Hin). apply in_seq in Hc.
      unfold EXPLORE_CAT_COUNT in Hc.
      rewrite orb_false_r in Hin.
      destruct (bool_decide (by_cat st c = [])) eqn:Eb; [destruct Hin|].
      destruct Hin as [Hin|[]]. injection Hin as _ E.
      rewrite u32_small in E by (unfold EXPLORE_TYPE_FIRSTCATEGORY; lia).
      assert (c = cat) by lia. subst c. apply bool_decide_eq_false in Eb. exact Eb.
    + intros Hne. exists (explore_menu_label st true cat).
      apply in_or_app. right. apply in_or_app. left.
      apply in_flat_map. exists cat. split; [apply in_seq; unfold EXPLORE_CAT_COUNT; lia|].
      rewrite orb_false_r, bool_decide_false by exact Hne.
      left. f_equal. rewrite u32_small by (unfold EXPLORE_TYPE_FIRSTCATEGORY; lia). lia.
  - intros Hne. split.
    + unfold explore_dispatch, explore_current_type, explore_depth.
      cbn [length Nat.sub nth].
      unfold EXPLORE_TYPE_ADDITIONALFILTER, EXPLORE_TYPE_SEARCH, EXPLORE_TYPE_SHOWALL,
        EXPLORE_TYPE_FIRSTCATEGORY.
      destruct (Z.eqb_spec (M + 3 + Z.of_nat cat) TAB); [lia|].
      destruct (Z.eqb_spec (M + 3 + Z.of_nat cat) F); [lia|].
      destruct (Z.eqb_spec (M + 3 + Z.of_nat cat) (M + 1)); [lia|].
      destruct (Z.eqb_spec (M + 3 + Z.of_nat cat) (M + 2)); [lia|].
      reflexivity.
    + replace (EXPLORE_TYPE_FIRSTCATEGORY M + Z.of_nat cat - EXPLORE_TYPE_FIRSTCATEGORY M)
        with (Z.of_nat cat) by lia.
      rewrite u32_small by lia.
      apply (explore_list_category_built M env st cat Hbuild); [|exact Hne].
      unfold EXPLORE_CAT_COUNT. lia.
Qed.

Lemma explore_list_menu_top_witness :
  explore_dispatch 4096 7 100 [100] = BranchMenu true /\
  ((exists label,
      In (label, EXPLORE_TYPE_FIRSTCATEGORY 4096 + Z.of_nat 4)
         (explore_list_menu 4096 100 st_view [100]))
   <-> by_cat st_view 4 <> []) /\
  (by_cat st_view 4 <> [] ->
   explore_dispatch 4096 7 100 [100; EXPLORE_TYPE_FIRSTCATEGORY 4096 + Z.of_nat 4]
     = BranchCategory /\
   explore_list_category 4096 st_view
     (u32 (EXPLORE_TYPE_FIRSTCATEGORY 4096 + Z.of_nat 4 - EXPLORE_TYPE_FIRSTCATEGORY 4096))
     = Ok (map (item_of 4096 st_view) (by_cat st_view 4) ++
           (if nth 4 (es_has_unknown st_view) false
            then [(bytes_of_string "Unknown", EXPLORE_TYPE_FILTERNULL 4096)]
            else []))).
Proof.
  apply (explore_list_menu_top 4096 7 100 env_view st_view 4).
  - vm_compute. reflexivity.
  - lia.
  - lia.
  - lia.
  - unfold EXPLORE_CAT_COUNT. lia.
Defined.

(** * Stretchy buffers and the arena *)

Lemma usize_small (x : Z) : 0 <= x < 2 ^ 64 -> usize x = x.
Proof. unfold usize. apply Z.mod_small. Qed.

Section Buffer.

Context {A : Type}.
Variable elem_size : Z.
Hypothesis Helem : 0 < elem_size <= 2 ^ 16.

Lemma EX_BUF_PUSH_filled (n : Z) (h : ex_buf A) (k : Z) (val : A) :
  0 <= n < 2 ^ 32 -> buf_filled elem_size n h k ->
  exists h' k',
    EX_BUF_PUSH elem_size (Some h) val = Ok (Some h') /\
    buf_filled elem_size (n + 1) h' k' /\ eb_data h' = eb_data h ++ [val].
Proof.
  intros Hn (Hlen & Hdata & Hk & Hcap & Hle & Hhalf & Hsize).
  assert (Hpow : 1 <= 2 ^ k) by (pose proof (Z.pow_pos_nonneg 2 k ltac:(lia) Hk); lia).
  assert (Hcapb : 16 <= eb_cap h <= 2 ^ 33) by (destruct Hhalf as [->|]; simpl in *; lia).
  unfold EX_BUF_PUSH, EX_BUF_FIT. cbn [EX_BUF_LEN EX_BUF_CAP].
  rewrite Hlen, usize_small by lia.
  assert (Htake : take (Z.to_nat n) (eb_data h) = eb_data h) by (apply take_ge; lia).
  destruct (Z.leb_spec (1 + n) (eb_cap h)) as [Hfit|Hfull].
  - rewrite Hlen, Hsize, Htake.
    destruct (Z.leb_spec (EX_BUF_HDR_SIZE + (n + 1) * elem_size)
                         (EX_BUF_HDR_SIZE + eb_cap h * elem_size)); [|nia].
    rewrite usize_small by lia.
    eexists _, k. split; [reflexivity|]. split; [|reflexivity].
    unfold buf_filled. cbn [eb_len eb_cap eb_size eb_data].
    rewrite length_app. simpl.
    split; [reflexivity|]. split; [lia|]. split; [exact Hk|]. split; [exact Hcap|].
    split; [lia|]. split; [destruct Hhalf; [auto | right; lia] | reflexivity].
  - assert (Hncap : n = eb_cap h) by lia.
    unfold ex_buf__grow. cbn [EX_BUF_LEN EX_BUF_CAP eb_len eb_cap eb_size eb_data].
    rewrite (usize_small (2 * eb_cap h)) by lia.
    replace (Z.max (2 * eb_cap h) (Z.max (1 + n) 16)) with (2 * eb_cap h) by lia.
    rewrite (usize_small (2 * eb_cap h * elem_size)) by nia.
    rewrite (usize_small (EX_BUF_HDR_SIZE + _)) by (unfold EX_BUF_HDR_SIZE; nia).
    rewrite Hlen, Htake.
    destruct (Z.leb_spec (EX_BUF_HDR_SIZE + (n + 1) * elem_size)
                         (EX_BUF_HDR_SIZE + 2 * eb_cap h * elem_size)); [|nia].
    rewrite usize_small by lia.
    eexists _, (k + 1). split; [reflexivity|]. split; [|reflexivity].
    unfold buf_filled. cbn [eb_len eb_cap eb_size eb_data].
    rewrite length_app. simpl.
    split; [reflexivity|]. split; [lia|]. split; [lia|].
    split; [rewrite Z.pow_add_r by lia; lia|].
    split; [lia|]. split; [right; lia | reflexivity].
Qed.

Lemma EX_BUF_PUSH_first (val : A) :
  exists h,
    EX_BUF_PUSH elem_size None val = Ok (Some h) /\
    buf_filled elem_size 1 h 0 /\ eb_data h = [val].
Proof.
  unfold EX_BUF_PUSH, EX_BUF_FIT, ex_buf__grow. cbn [EX_BUF_LEN EX_BUF_CAP].
  rewrite (usize_small (1 + 0)) by lia.
  change (1 + 0 <=? 0) with false. change (usize (2 * 0)) with 0.
  change (Z.max 0 (Z.max (1 + 0) 16)) with 16. cbv iota.
  rewrite (usize_small (16 * elem_size)) by lia.
  rewrite (usize_small (EX_BUF_HDR_SIZE + _)) by (unfold EX_BUF_HDR_SIZE; lia).
  cbn [eb_len eb_cap eb_size eb_data].
  destruct (Z.leb_spec (EX_BUF_HDR_SIZE + (0 + 1) * elem_size)
                       (EX_BUF_HDR_SIZE + 16 * elem_size)); [|lia].
  eexists. split; [reflexivity|]. split; [|reflexivity].
  unfold buf_filled. cbn [eb_len eb_cap eb_size eb_data]. simpl.
  repeat split; try lia.
Qed.

Lemma ex_buf_push_all_filled (vals : list A) :
  forall (n : Z) (h : ex_buf A) (k : Z),
    0 <= n -> n + Z.of_nat (length vals) <= 2 ^ 32 -> buf_filled elem_size n h k ->
    exists h' k',
      ex_buf_push_all elem_size (Some h) vals = Ok (Some h') /\
      buf_filled elem_size (n + Z.of_nat (length vals)) h' k' /\
      eb_data h' = eb_data h ++ vals.
Proof.
  induction vals as [|val vals IH]; intros n h k Hn Hlen Hf.
  - exists h, k. simpl. rewrite app_nil_r, Z.add_0_r. auto.
  - cbn [length] in Hlen.
    destruct (EX_BUF_PUSH_filled n h k val ltac:(lia) Hf) as (h1 & k1 & Hp & Hf1 & Hd1).
    destruct (IH (n + 1) h1 k1 ltac:(lia) ltac:(lia) Hf1) as (h' & k' & Hall & Hf' & Hd').
    exists h', k'. cbn [ex_buf_push_all]. rewrite Hp. cbn [bind].
    split; [exact Hall|]. split.
    + replace (n + Z.of_nat (length (val :: vals)))
        with (n + 1 + Z.of_nat (length vals)) by (cbn [length]; lia). exact Hf'.
    + rewrite Hd', Hd1, <- app_assoc. reflexivity.
Qed.

End Buffer.

(** X19.  Pushing up to 2^32 values of at most 2^16 bytes each onto a NULL
    buffer never stores outside the allocation and leaves the values in
    the order they were pushed, [len] their number.  The capacity is 16
    doubled some number of times, holds the values and, once it has grown
    beyond 16, is less than twice their number; the allocation is the
    header and [cap] elements. *)
Theorem ex_buf_push_all_spec {A : Type} (elem_size : Z) (vals : list A) :
  0 < elem_size <= 2 ^ 16 ->
  (0 < length vals)%nat -> Z.of_nat (length vals) <= 2 ^ 32 ->
  exists h k,
    ex_buf_push_all elem_size None vals = Ok (Some h) /\
    eb_data h = vals /\ eb_len h = Z.of_nat (length vals) /\
    0 <= k /\ eb_cap h = 16 * 2 ^ k /\
    Z.of_nat (length vals) <= eb_cap h /\
    (k = 0 \/ eb_cap h < 2 * Z.of_nat (length vals)) /\
    eb_size h = EX_BUF_HDR_SIZE + eb_cap h * elem_size.
Proof.
  intros Helem Hpos Hlen. destruct vals as [|val vals]; [simpl in Hpos; lia|].
  cbn [length] in Hlen.
  destruct (EX_BUF_PUSH_first elem_size Helem val) as (h1 & Hp & Hf1 & Hd1).
  destruct (ex_buf_push_all_filled elem_size Helem vals 1 h1 0 ltac:(lia) ltac:(lia) Hf1)
    as (h & k & Hall & Hf & Hd).
  exists h, k. cbn [ex_buf_push_all]. rewrite Hp. cbn [bind].
  split; [exact Hall|]. rewrite Hd, Hd1.
  destruct Hf as (Hl & _ & Hk & Hcap & Hle & Hhalf & Hsize).
  replace (Z.of_nat (length (val :: vals))) with (1 + Z.of_nat (length vals))
    by (cbn [length]; lia).
  auto 10.
Qed.

Lemma ex_buf_push_all_spec_witness :
  exists h k,
    ex_buf_push_all 8 None [1; 2; 3] = Ok (Some h) /\
    eb_data h = [1; 2; 3] /\ eb_len h = Z.of_nat (length [1; 2; 3]) /\
    0 <= k /\ eb_cap h = 16 * 2 ^ k /\
    Z.of_nat (length [1; 2; 3]) <= eb_cap h /\
    (k = 0 \/ eb_cap h < 2 * Z.of_nat (length [1; 2; 3])) /\
    eb_size h = EX_BUF_HDR_SIZE + eb_cap h * 8.
Proof.
  apply (ex_buf_push_all_spec 8 [1; 2; 3]); simpl; lia.
Defined.

(** ** The arena *)

Lemma EX_ARENA_ALIGN_UP_8 (n : Z) :
  0 <= n -> n + 7 < 2 ^ 64 ->
  EX_ARENA_ALIGN_UP n EX_ARENA_ALIGNMENT = 8 * ((n + 7) / 8).
Proof.
  intros Hn Hlt. unfold EX_ARENA_ALIGN_UP, EX_ARENA_ALIGNMENT.
  replace (n + 8 - 1) with (n + 7) by lia. rewrite usize_small by lia.
  change (usize (Z.lnot (8 - 1))) with (Z.land (Z.lnot 7) (Z.ones 64)).
  rewrite (Z.land_comm (Z.lnot 7)), Z.land_assoc, (Z.land_ones (n + 7) 64) by lia.
  rewrite Z.mod_small by lia.
  rewrite <- Z.ldiff_land. change 7 with (Z.ones 3) at 2.
  rewrite Z.ldiff_ones_r by lia.
  rewrite Z.shiftr_div_pow2, Z.shiftl_mul_pow2 by lia.
  change (2 ^ 3) with 8. lia.
Qed.

Lemma align8_bounds (n : Z) :
  n <= 8 * ((n + 7) / 8) <= n + 7 /\ (8 * ((n + 7) / 8)) mod 8 = 0.
Proof.
  pose proof (Z.div_mod (n + 7) 8 ltac:(lia)) as Hdm.
  pose proof (Z.mod_pos_bound (n + 7) 8 ltac:(lia)) as Hb.
  split; [lia|]. rewrite Z.mul_comm. apply Z.mod_mul. lia.
Qed.

Lemma align8_le (n e : Z) : n <= e -> e mod 8 = 0 -> 8 * ((n + 7) / 8) <= e.
Proof.
  intros Hn He.
  pose proof (Z.div_mod e 8 ltac:(lia)) as Hde. rewrite He in Hde.
  pose proof (Z.div_mod (n + 7) 8 ltac:(lia)) as Hdm.
  pose proof (Z.mod_pos_bound (n + 7) 8 ltac:(lia)) as Hb.
  assert ((n + 7) / 8 < e / 8 + 1); [|lia].
  apply Z.div_lt_upper_bound; lia.
Qed.

Lemma last_snoc_Z (l : list Z) (x : Z) : List.last (l ++ [x]) 0 = x.
Proof. apply List.last_last. Qed.

Lemma last_lookup_Z (l : list Z) :
  l <> [] -> l !! (length l - 1)%nat = Some (List.last l 0).
Proof.
  intros Hne. destruct (exists_last Hne) as (l' & x & ->).
  rewrite List.last_last, length_app. simpl.
  replace (length l' + 1 - 1)%nat with (length l') by lia.
  apply list_lookup_middle. reflexivity.
Qed.

(** One allocation: the region is in the last block of the arena that the
    call leaves, below its [ar_ptr], and at or above the [ar_ptr] before
    the call when no block was added. *)
Lemma ex_arena_alloc_ok (a : ex_arena) (size : Z) :
  arena_ok a -> 0 < size <= 2 ^ 62 ->
  exists blk off,
    fst (ex_arena_alloc a size) = Some (blk, off) /\
    S blk = length (ar_blocks (snd (ex_arena_alloc a size))) /\
    ar_blocks (snd (ex_arena_alloc a size)) !! blk
      = Some (ar_end (snd (ex_arena_alloc a size))) /\
    0 <= off /\ off mod 8 = 0 /\
    off + size <= ar_ptr (snd (ex_arena_alloc a size)) /\
    arena_ok (snd (ex_arena_alloc a size)) /\
    (ar_blocks (snd (ex_arena_alloc a size)) = ar_blocks a /\ ar_ptr a <= off \/
     exists bsize, ar_blocks (snd (ex_arena_alloc a size)) = ar_blocks a ++ [bsize]).
Proof.
  intros (Hp & Hp8 & He8 & He & Hlast) Hsize. unfold ex_arena_alloc.
  rewrite (usize_small (ar_end a - ar_ptr a)) by lia.
  destruct (Z.gtb_spec size (ar_end a - ar_ptr a)) as [Hgrow|Hfit].
  - (* a new block *)
    unfold ex_arena_grow. cbn [ar_ptr ar_end ar_blocks fst snd].
    set (m := Z.max size EX_ARENA_BLOCK_SIZE).
    assert (Hm : size <= m /\ 65536 <= m <= 2 ^ 62)
      by (unfold m, EX_ARENA_BLOCK_SIZE; lia).
    rewrite (EX_ARENA_ALIGN_UP_8 m) by lia.
    destruct (align8_bounds m) as [Hb Hb8].
    set (bs := 8 * ((m + 7) / 8)) in *.
    rewrite (usize_small (0 + size)) by lia.
    rewrite (EX_ARENA_ALIGN_UP_8 (0 + size)) by lia.
    destruct (align8_bounds (0 + size)) as [Hs Hs8].
    pose proof (align8_le (0 + size) bs ltac:(lia) Hb8) as Hle.
    destruct (ar_blocks a ++ [bs]) as [|b0 l0] eqn:El.
    { apply app_eq_nil in El as [_ El]. discriminate. }
    rewrite <- El, length_app. simpl length.
    exists (length (ar_blocks a)), 0.
    split; [f_equal; f_equal; lia|]. split; [lia|].
    split; [apply list_lookup_middle; reflexivity|].
    split; [lia|]. split; [reflexivity|]. split; [lia|]. split.
    + unfold arena_ok. cbn [ar_ptr ar_end ar_blocks].
      split; [lia|]. split; [exact Hs8|]. split; [exact Hb8|]. split; [lia|].
      rewrite El. rewrite <- El. apply last_snoc_Z.
    + right. exists bs. reflexivity.
  - (* the last block has room *)
    cbn [fst snd ar_ptr ar_end ar_blocks].
    rewrite (usize_small (ar_ptr a + size)) by lia.
    rewrite (EX_ARENA_ALIGN_UP_8 (ar_ptr a + size)) by lia.
    destruct (align8_bounds (ar_ptr a + size)) as [Hs Hs8].
    pose proof (align8_le (ar_ptr a + size) (ar_end a) ltac:(lia) He8) as Hle.
    destruct (ar_blocks a) as [|b0 l0] eqn:El; [lia|].
    rewrite <- El in *.
    assert (Hne : ar_blocks a <> []) by (rewrite El; discriminate).
    exists (length (ar_blocks a) - 1)%nat, (ar_ptr a).
    assert (Hl : (0 < length (ar_blocks a))%nat) by (rewrite El; simpl; lia).
    split; [reflexivity|]. split; [lia|].
    split; [rewrite last_lookup_Z by exact Hne; f_equal; rewrite El in *; exact Hlast|].
    split; [lia|]. split; [exact Hp8|]. split; [lia|]. split.
    + unfold arena_ok. cbn [ar_ptr ar_end ar_blocks].
      split; [lia|]. split; [exact Hs8|]. split; [exact He8|]. split; [exact He|].
      rewrite El in *. exact Hlast.
    + left. split; [reflexivity | lia].
Qed.

Lemma ex_arena_alloc_all_ok (sizes : list Z) :
  forall a : ex_arena,
    arena_ok a -> Forall (fun size => 0 < size <= 2 ^ 62) sizes ->
    arena_ok (snd (ex_arena_alloc_all a sizes)) /\
    ar_blocks a `prefix_of` ar_blocks (snd (ex_arena_alloc_all a sizes)) /\
    (forall (i : nat) ptr size,
       fst (ex_arena_alloc_all a sizes) !! i = Some (ptr, size) ->
       exists blk off bsize,
         ptr = Some (blk, off) /\
         ar_blocks (snd (ex_arena_alloc_all a sizes)) !! blk = Some bsize /\
         0 <= off /\ off mod 8 = 0 /\ off + size <= bsize /\
         (length (ar_blocks a) <= S blk)%nat /\
         (S blk = length (ar_blocks a) -> ar_ptr a <= off)) /\
    (forall (i j : nat) blk off1 size1 off2 size2,
       (i < j)%nat ->
       fst (ex_arena_alloc_all a sizes) !! i = Some (Some (blk, off1), size1) ->
       fst (ex_arena_alloc_all a sizes) !! j = Some (Some (blk, off2), size2) ->
       off1 + size1 <= off2).
Proof.
  induction sizes as [|size sizes IH]; intros a Ha Hs.
  - simpl. split; [exact Ha|]. split; [reflexivity|].
    split; [intros i ptr size Hi; discriminate|].
    intros i j blk off1 size1 off2 size2 _ Hi. discriminate.
  - apply Forall_cons in Hs as [Hsize Hs].
    destruct (ex_arena_alloc_ok a size Ha Hsize)
      as (blk0 & off0 & Hptr & Hblk & Hlook & Hoff & Hoff8 & Hend & Ha1 & Hcase).
    cbn [ex_arena_alloc_all].
    destruct (ex_arena_alloc a size) as [ptr a1]. cbn [fst snd] in *. subst ptr.
    destruct (IH a1 Ha1 Hs) as (Ha2 & Hpre & Hreg & Hdis).
    destruct (ex_arena_alloc_all a1 sizes) as [ptrs a2]. cbn [fst snd] in *.
    assert (Hlen : (length (ar_blocks a) <= length (ar_blocks a1))%nat).
    { destruct Hcase as [[-> _]|[bs ->]]; [lia|]. rewrite length_app. simpl. lia. }
    assert (Hpa : ar_blocks a `prefix_of` ar_blocks a1).
    { destruct Hcase as [[-> _]|[bs ->]]; [reflexivity|]. apply prefix_app_r. reflexivity. }
    assert (Hfits : ar_ptr a1 <= ar_end a1) by (destruct Ha1 as ((_ & H) & _); exact H).
    split; [exact Ha2|]. split; [etransitivity; eassumption|]. split.
    + intros i ptr sz Hi. destruct i as [|i].
      * injection Hi as <- <-. exists blk0, off0, (ar_end a1).
        split; [reflexivity|].
        split; [exact (prefix_lookup_Some _ _ _ _ Hlook Hpre)|].
        split; [exact Hoff|]. split; [exact Hoff8|]. split; [lia|]. split; [lia|].
        intros E. destruct Hcase as [[_ Hle]|[bs Hbs]]; [exact Hle|].
        rewrite Hbs, length_app in Hblk. simpl in Hblk. lia.
      * destruct (Hreg i ptr sz Hi) as (blk & off & bsize & -> & Hl & H0 & H8 & Hle & Hb & Hp).
        exists blk, off, bsize. split; [reflexivity|]. split; [exact Hl|].
        split; [exact H0|]. split; [exact H8|]. split; [exact Hle|]. split; [lia|].
        intros E. assert (Heq : S blk = length (ar_blocks a1)) by lia.
        specialize (Hp Heq).
        destruct Hcase as [[_ Hle0]|[bs Hbs]]; [lia|].
        rewrite Hbs, length_app in Heq. simpl in Heq. lia.
    + intros i j blk off1 size1 off2 size2 Hij Hi Hj.
      destruct j as [|j]; [lia|]. destruct i as [|i].
      * injection Hi as <- <- <-.
        destruct (Hreg j _ _ Hj) as (blk & off & bsize & Hptr' & _ & _ & _ & _ & _ & Hp).
        injection Hptr' as <- <-. specialize (Hp Hblk). lia.
      * apply (Hdis i j blk off1 size1 off2 size2); [lia | exact Hi | exact Hj].
Qed.

(** X20.  Any run of allocations of 1 to 2^62 bytes from a fresh arena
    returns regions that do not overlap: each lies inside one block of the
    arena, starts at a multiple of 8 of the block, and of two regions in
    one block the earlier one ends before the later one starts. *)
Theorem ex_arena_alloc_all_disjoint (sizes : list Z) :
  Forall (fun size => 0 < size <= 2 ^ 62) sizes ->
  (forall (i : nat) ptr size,
     fst (ex_arena_alloc_all ex_arena_zero sizes) !! i = Some (ptr, size) ->
     exists blk off bsize,
       ptr = Some (blk, off) /\
       ar_blocks (snd (ex_arena_alloc_all ex_arena_zero sizes)) !! blk = Some bsize /\
       0 <= off /\ off mod 8 = 0 /\ off + size <= bsize) /\
  (forall (i j : nat) blk off1 size1 off2 size2,
     (i < j)%nat ->
     fst (ex_arena_alloc_all ex_arena_zero sizes) !! i = Some (Some (blk, off1), size1) ->
     fst (ex_arena_alloc_all ex_arena_zero sizes) !! j = Some (Some (blk, off2), size2) ->
     off1 + size1 <= off2).
Proof.
  intros Hs.
  assert (H0 : arena_ok ex_arena_zero).
  { unfold arena_ok, ex_arena_zero. simpl. repeat split; lia. }
  destruct (ex_arena_alloc_all_ok sizes ex_arena_zero H0 Hs) as (_ & _ & Hreg & Hdis).
  split; [|exact Hdis].
  intros i ptr size Hi.
  destruct (Hreg i ptr size Hi) as (blk & off & bsize & Hp & Hl & Ho & H8 & Hle & _).
  exists blk, off, bsize. auto.
Qed.

Lemma ex_arena_alloc_all_disjoint_witness :
  (forall (i : nat) ptr size,
     fst (ex_arena_alloc_all ex_arena_zero [13; 70000; 5]) !! i = Some (ptr, size) ->
     exists blk off bsize,
       ptr = Some (blk, off) /\
       ar_blocks (snd (ex_arena_alloc_all ex_arena_zero [13; 70000; 5])) !! blk
         = Some bsize /\
       0 <= off /\ off mod 8 = 0 /\ off + size <= bsize) /\
  (forall (i j : nat) blk off1 size1 off2 size2,
     (i < j)%nat ->
     fst (ex_arena_alloc_all ex_arena_zero [13; 70000; 5]) !! i
       = Some (Some (blk, off1), size1) ->
     fst (ex_arena_alloc_all ex_arena_zero [13; 70000; 5]) !! j
       = Some (Some (blk, off2), size2) ->
     off1 + size1 <= off2).
Proof.
  apply (ex_arena_alloc_all_disjoint [13; 70000; 5]).
  repeat constructor; lia.
Defined.

(** * Every value has a game *)

(** What [explore_intern] adds to the facet arrays: nothing, or the value
    it returns to the array of its category. *)
Lemma explore_intern_by (st : explore_state_t) (maps : list ex_hashmap32)
    (cat : nat) (seg : list Z) (st' : explore_state_t) (maps' : list ex_hashmap32)
    (p : Z) :
  explore_intern st maps cat seg = Ok (st', maps', p) ->
  forall c q, In q (by_cat st' c) -> In q (by_cat st c) \/ (c = cat /\ q = p).
Proof.
  unfold explore_intern. intros H. apply bind_Ok in H as (entry & _ & H).
  destruct (entry =? 0).
  - apply bind_Ok in H as (m' & _ & H). injection H as <- <- <-.
    intros c q. unfold by_cat at 1. cbn [es_by].
    destruct (Nat.eq_dec c cat) as [->|Hne].
    + destruct (Nat.lt_ge_cases cat (length (es_by st))) as [Hl|Hl].
      * rewrite nth_insert_eq by exact Hl. intros Hq.
        apply in_app_or in Hq as [Hq|[<-|[]]]; auto.
      * rewrite list_insert_ge by exact Hl. auto.
    + rewrite nth_insert_ne by auto. auto.
  - injection H as <- <- <-. auto.
Qed.

(** [explore_attach] makes the entry hold the value, and the entry keeps
    the values it held. *)
Lemma explore_attach_value (e : explore_entry_t) (cat : nat) (p : Z)
    (has_split : bool) (buf : list Z) (e' : explore_entry_t) (buf' : list Z) :
  length (e_by e) = EXPLORE_CAT_COUNT -> (cat < EXPLORE_CAT_COUNT)%nat ->
  (has_split = true -> info_use_split (by_info cat) = true) ->
  explore_attach e cat p has_split buf = Ok (e', buf') ->
  length (e_by e') = EXPLORE_CAT_COUNT /\
  has_value e' buf' (cat, p) /\
  forall c, snd c <> 0 -> has_value e buf c -> has_value e' buf' c.
Proof.
  intros Hlen Hcat Hsplit. unfold explore_attach.
  destruct (Z.eqb_spec (entry_by e cat) 0) as [E0|E0].
  - intros [= <- <-]. cbn [e_by]. split; [rewrite length_insert; exact Hlen|]. split.
    + left. unfold entry_by. cbn [e_by fst snd]. apply nth_insert_eq. lia.
    + intros [c q] Hq [Hby|Hbuf]; [|right; exact Hbuf]. left.
      unfold entry_by in *. cbn [e_by fst snd] in *.
      destruct (Nat.eq_dec cat c) as [->|Hne]; [congruence|].
      rewrite nth_insert_ne by exact Hne. exact Hby.
  - destruct has_split; [|discriminate]. intros [= <- <-].
    split; [exact Hlen|]. split.
    + right. split; [apply Hsplit; reflexivity|]. apply in_or_app. right. left. reflexivity.
    + intros c _ [Hby|[Hs Hbuf]]; [left; exact Hby|].
      right. split; [exact Hs|]. apply in_or_app. left. exact Hbuf.
Qed.

Lemma held_inv_step (st st1 : explore_state_t) (maps maps1 : list ex_hashmap32)
    (e e1 : explore_entry_t) (buf buf1 : list Z) (cat : nat) (seg : list Z)
    (entry : Z) (has_split : bool) :
  build_inv st maps -> (cat < EXPLORE_CAT_COUNT)%nat -> nz seg ->
  (has_split = true -> info_use_split (by_info cat) = true) ->
  held_inv st e buf ->
  explore_intern st maps cat seg = Ok (st1, maps1, entry) ->
  explore_attach e cat entry has_split buf = Ok (e1, buf1) ->
  held_inv st1 e1 buf1.
Proof.
  intros Hb Hcat Hseg Hsplit [Hlen Hheld] Hint Hatt.
  destruct (explore_intern_build _ _ _ _ _ _ _ Hb Hcat Hseg Hint)
    as (_ & _ & _ & _ & Hes).
  pose proof (explore_intern_by _ _ _ _ _ _ _ Hint) as Hby.
  destruct (explore_attach_value _ _ _ _ _ _ _ Hlen Hcat Hsplit Hatt)
    as (Hlen1 & Hnew & Hold).
  constructor; [exact Hlen1|].
  intros c q Hq. destruct (Hby c q Hq) as [Hq0|[-> ->]]; [|right; exact Hnew].
  destruct (Hheld c q Hq0) as [(e' & He' & Hs)|Hv].
  - left. exists e'. split; [rewrite Hes; exact He' | exact Hs].
  - right. apply (Hold (c, q)); [|exact Hv].
    cbn [snd]. pose proof (build_inv_valid _ _ _ _ Hb Hq0). lia.
Qed.

Lemma add_unique_loop_held (fuel : nat) :
  forall (s : list Z) (cat : nat) (has_split : bool) (cx : add_ctx) (str p : Z)
         (cx' : add_ctx),
    nz s -> (cat < EXPLORE_CAT_COUNT)%nat -> ctx_inv cx ->
    (has_split = true -> info_use_split (by_info cat) = true) ->
    held_inv (cx_state cx) (cx_e cx) (cx_split_buf cx) ->
    add_unique_loop fuel s cat has_split cx str p = Ok cx' ->
    held_inv (cx_state cx') (cx_e cx') (cx_split_buf cx').
Proof.
  induction fuel as [|fuel IH]; intros s cat has_split cx str p cx' Hs Hcat Hcx Hsp Hh H;
    cbn [add_unique_loop] in H; [discriminate|].
  apply bind_Ok in H as (c & _ & H).
  destruct (negb (is_delim c) && negb (c =? 0)); [eapply IH; eassumption|].
  destruct (negb has_split && negb (c =? 0)); [eapply IH; eassumption|].
  apply bind_Ok in H as (str' & Hstr & H).
  apply bind_Ok in H as (p' & Hp & H).
  destruct (Z.eqb_spec p' str') as [E|E].
  - apply bind_Ok in H as (c' & _ & H).
    destruct (c' =? 0); [injection H as <-; exact Hh | eapply IH; eassumption].
  - apply bind_Ok in H as (p'' & Hp'' & H).
    apply bind_Ok in H as (seg & Hseg & H).
    apply bind_Ok in H as ([[st1 maps1] entry] & Hint & H).
    apply bind_Ok in H as ([e1 buf1] & Hatt & H).
    apply bind_Ok in H as (next & _ & H).
    pose proof (cstr_sub_nz _ _ _ _ Hs Hseg) as Hnz.
    destruct Hcx as [Hb Hby Hsplit Hbuf].
    destruct (explore_intern_build _ _ _ _ _ _ _ Hb Hcat Hnz Hint)
      as (Hb1 & Hin & Hn0 & Hmono & _).
    destruct (explore_attach_build st1 _ _ _ _ _ _ _
                (by_ok_mono _ _ _ Hmono Hby) Hin Hn0 Hbuf Hatt)
      as (Hby1 & Hsp1 & Hbuf1).
    assert (Hcx1 : ctx_inv (mk_ctx st1 maps1 e1 buf1)).
    { constructor; simpl; [exact Hb1 | exact Hby1 | congruence | exact Hbuf1]. }
    pose proof (held_inv_step _ _ _ _ _ _ _ _ _ _ _ _ Hb Hcat Hnz Hsp Hh Hint Hatt) as Hh1.
    destruct next as [q|]; [|injection H as <-; exact Hh1].
    eapply (IH s cat has_split (mk_ctx st1 maps1 e1 buf1));
      [exact Hs | exact Hcat | exact Hcx1 | exact Hsp | exact Hh1 | exact H].
Qed.

Lemma explore_add_unique_string_held (cx : add_ctx) (cat : nat)
    (str : option (list Z)) (split_buf : bool) (cx' : add_ctx) :
  (cat < EXPLORE_CAT_COUNT)%nat -> ctx_inv cx ->
  held_inv (cx_state cx) (cx_e cx) (cx_split_buf cx) ->
  explore_add_unique_string cx cat str split_buf = Ok cx' ->
  held_inv (cx_state cx') (cx_e cx') (cx_split_buf cx').
Proof.
  intros Hcat Hcx Hh. unfold explore_add_unique_string.
  assert (Hunk : held_inv (set_has_unknown (cx_state cx) cat) (cx_e cx) (cx_split_buf cx)).
  { destruct Hh as [Hlen Hheld]. constructor; [exact Hlen | exact Hheld]. }
  destruct (option_map cstr str) as [[|c s]|] eqn:E.
  - intros [= <-]. exact Hunk.
  - apply add_unique_loop_held; auto.
    + destruct str as [buf|]; [|discriminate]. simpl in E. injection E as E.
      rewrite <- E. apply cstr_nz.
    + intros Hs. apply andb_prop in Hs as [_ Hs]. exact Hs.
  - intros [= <-]. exact Hunk.
Qed.

Lemma explore_add_fields_held (fields : list (option (list Z))) :
  forall (cx : add_ctx) (cat : nat) (cx' : add_ctx),
    (cat + length fields <= EXPLORE_CAT_COUNT)%nat -> ctx_inv cx ->
    held_inv (cx_state cx) (cx_e cx) (cx_split_buf cx) ->
    explore_add_fields cx cat fields = Ok cx' ->
    held_inv (cx_state cx') (cx_e cx') (cx_split_buf cx').
Proof.
  induction fields as [|f fields IH]; intros cx cat cx' Hlen Hcx Hh H; simpl in H.
  - injection H as <-. exact Hh.
  - apply bind_Ok in H as (cx1 & H1 & H). simpl in Hlen.
    apply (IH cx1 (S cat) cx'); [lia | | | exact H].
    + eapply explore_add_unique_string_build; [|exact Hcx | exact H1]. lia.
    + eapply explore_add_unique_string_held; [|exact Hcx | exact Hh | exact H1]. lia.
Qed.

(** The entry that is pushed holds what the entry under construction and
    the scratch buffer held. *)
Lemma explore_finish_entry_value (e : explore_entry_t) (t : option (list Z))
    (buf : list Z) (c : nat * Z) :
  e_split e = None -> has_value e buf c ->
  satisfies (fst (explore_finish_entry e t buf)) c.
Proof.
  intros Hsplit Hv. unfold explore_finish_entry, satisfies, secondary.
  destruct Hv as [Hby|[Hs Hin]].
  - left. destruct (nonempty t); destruct buf; exact Hby.
  - right. split; [exact Hs|].
    destruct buf as [|q buf]; [destruct Hin|].
    destruct (nonempty t); cbn [fst e_split];
      change (q :: buf ++ [0]) with ((q :: buf) ++ [0]);
      rewrite removelast_last; exact Hin.
Qed.

Lemma explore_build_record_held (heap : list playlist_entry)
    (cores : list core_info_t) (map_cores playlist_entries : ex_hashmap32)
    (b : builder) (item : rmsgpack_dom_value) (b' : builder) :
  builder_inv b -> values_held (b_state b) ->
  explore_build_record heap cores map_cores playlist_entries b item = Ok b' ->
  values_held (b_state b').
Proof.
  intros Hb Ha. unfold explore_build_record.
  destruct item; try (intros [= <-]; exact Ha).
  intros H. apply bind_Ok in H as (rf & Hrf & H).
  destruct (rf_crc32 rf) as [crc32|]; [|injection H as <-; exact Ha].
  apply bind_Ok in H as (handle & _ & H).
  destruct (handle =? 0); [injection H as <-; exact Ha|].
  destruct (heap !! Z.to_nat (handle - 1)) as [entry|]; [|discriminate].
  apply bind_Ok in H as (cx & Hcx & H).
  apply bind_Ok in H as (core_info & _ & H).
  apply bind_Ok in H as (cx2 & Hcx2 & H).
  pose proof (explore_finish_entry_value (cx_e cx2) (rf_original_title rf)
                (cx_split_buf cx2)) as Hfin.
  destruct (explore_finish_entry _ _ _) as [e buf] eqn:Ef.
  injection H as <-.
  apply explore_read_pairs_length in Hrf. cbn [rf_fields] in Hrf.
  rewrite length_replicate in Hrf.
  destruct Hb as [Hb Hbuf].
  set (e0 := mk_entry entry (replicate EXPLORE_CAT_COUNT 0) None None) in *.
  assert (Hcx0 : ctx_inv (mk_ctx (b_state b) (b_cat_maps b) e0 (b_split_buf b))).
  { constructor; simpl; [exact Hb | apply by_ok_init | reflexivity |].
    rewrite Hbuf. constructor. }
  assert (Hh0 : held_inv (b_state b) e0 (b_split_buf b)).
  { constructor; [apply length_replicate|]. intros c q Hq. left. exact (Ha c q Hq). }
  assert (Hfl : (0 + length (rf_fields rf) <= EXPLORE_CAT_COUNT)%nat) by (rewrite Hrf; lia).
  pose proof (explore_add_fields_build _ _ _ _ Hfl Hcx0 Hcx) as Hc1.
  pose proof (explore_add_fields_held _ _ _ _ Hfl Hcx0 Hh0 Hcx) as Hh1.
  assert (Hsys : (EXPLORE_BY_SYSTEM < EXPLORE_CAT_COUNT)%nat)
    by (unfold EXPLORE_BY_SYSTEM, EXPLORE_CAT_COUNT; lia).
  pose proof (explore_add_unique_string_build _ _ _ _ _ Hsys Hc1 Hcx2) as Hc2.
  pose proof (explore_add_unique_string_held _ _ _ _ _ Hsys Hc1 Hh1 Hcx2) as [_ Hh2].
  cbn [b_state]. intros c q Hq.
  change (by_cat (push_entry (cx_state cx2) e) c) with (by_cat (cx_state cx2) c) in Hq.
  cbn [push_entry es_entries].
  destruct (Hh2 c q Hq) as [(e' & He' & Hs)|Hv].
  - exists e'. split; [apply in_or_app; left; exact He' | exact Hs].
  - exists e. split; [apply in_or_app; right; left; reflexivity|].
    apply (Hfin (c, q) (cxi_split _ Hc2) Hv).
Qed.

Lemma explore_build_records_held (heap : list playlist_entry)
    (cores : list core_info_t) (map_cores playlist_entries : ex_hashmap32)
    (items : list rmsgpack_dom_value) :
  forall (b b' : builder),
    builder_inv b -> values_held (b_state b) ->
    explore_build_records heap cores map_cores playlist_entries b items = Ok b' ->
    builder_inv b' /\ values_held (b_state b').
Proof.
  induction items as [|item items IH]; intros b b' Hb Ha H; simpl in H.
  - injection H as <-. auto.
  - apply bind_Ok in H as (b1 & H1 & H). apply (IH b1 b'); [| |exact H].
    + eapply explore_build_record_build; eassumption.
    + eapply explore_build_record_held; eassumption.
Qed.

Lemma explore_build_rdbs_held (heap : list playlist_entry)
    (cores : list core_info_t) (map_cores : ex_hashmap32) (rdbs : list explore_rdb) :
  forall (b b' : builder),
    builder_inv b -> values_held (b_state b) ->
    explore_build_rdbs heap cores map_cores b rdbs = Ok b' ->
    builder_inv b' /\ values_held (b_state b').
Proof.
  induction rdbs as [|rdb rdbs IH]; intros b b' Hb Ha H; simpl in H.
  - injection H as <-. auto.
  - apply bind_Ok in H as (b1 & H1 & H).
    destruct (explore_build_records_held _ _ _ _ _ _ _ Hb Ha H1) as [Hb1 Ha1].
    apply (IH b1 b'); assumption.
Qed.

(** An entry passes the constraints exactly when it satisfies each. *)
Lemma passes_satisfies (cs : list (nat * Z)) (e : explore_entry_t) :
  split_ok e = true ->
  passes (map level_of cs) [] e = true <-> Forall (satisfies e) cs.
Proof.
  intros Hok.
  destruct (explore_entry_levels_split_ok cs e Hok) as [(b & Hb & Hiff) _].
  unfold passes, explore_entry_passes. rewrite Hb. cbn [bind].
  rewrite bool_decide_true by reflexivity.
  destruct b; cbn [negb andb].
  - split; [intros _; apply Hiff; reflexivity | reflexivity].
  - split; [discriminate | intros Hs; apply Hiff, Hs].
Qed.

Lemma explore_build_list_held (env : explore_env) (st : explore_state_t) :
  explore_build_list env = Ok st -> values_held st.
Proof.
  intros Hbuild. unfold explore_build_list in Hbuild.
  apply bind_Ok in Hbuild as ([ix playlists] & _ & H).
  apply bind_Ok in H as (map_cores & _ & H).
  apply bind_Ok in H as (bd & Hbd & H).
  apply explore_build_rdbs_held in Hbd as [Hb Ha]; [|apply builder_inv_init|].
  2: { intros c q Hq. exfalso. unfold by_cat in Hq. cbn [b_state es_by explore_state_zero] in Hq.
       destruct (Nat.lt_ge_cases c EXPLORE_CAT_COUNT) as [Hc|Hc].
       - rewrite nth_lookup, lookup_replicate_2 in Hq by exact Hc. destruct Hq.
       - rewrite nth_overflow in Hq by (rewrite length_replicate; exact Hc). destruct Hq. }
  destruct (explore_sort_categories _ _) as [arena by_] eqn:E.
  injection H as <-.
  destruct (explore_sort_categories_spec _ _ _ _ E) as [_ Hall].
  intros c q Hq. unfold by_cat in Hq. cbn [es_by] in Hq. cbn [es_entries].
  assert (Hq0 : In q (by_cat (b_state bd) c)).
  { unfold by_cat. rewrite nth_lookup in *.
    destruct (es_by (b_state bd) !! c) as [l|] eqn:E0.
    - destruct (Forall2_lookup_l _ _ _ _ _ Hall E0) as (l' & El & _ & Hp).
      rewrite El in Hq. cbn [default] in *.
      apply list_elem_of_In. rewrite <- Hp. apply list_elem_of_In. exact Hq.
    - apply lookup_ge_None in E0. apply Forall2_length in Hall.
      rewrite (proj2 (lookup_ge_None by_ c)) in Hq by lia. destruct Hq. }
  destruct (Ha c q Hq0) as (e & He & Hs). exists e. split; [|exact Hs].
  apply list_elem_of_In. rewrite qsort_perm. apply list_elem_of_In. exact He.
Qed.

(** X23.  No value of a built index is without a game: every value of a
    category is the primary value of an entry or, in a category with
    multiple values, one of its secondary values, so that the list of games
    that selecting the value shows is never empty. *)
Theorem explore_build_list_values_held (env : explore_env) (st : explore_state_t)
    (cat : nat) (p : Z) :
  explore_build_list env = Ok st -> In p (by_cat st cat) ->
  (exists e, In e (es_entries st) /\ satisfies e (cat, p)) /\
  passing_indices [level_of (cat, p)] [] st <> [].
Proof.
  intros Hbuild Hp.
  pose proof (explore_build_list_held env st Hbuild cat p Hp) as Hheld.
  split; [exact Hheld|].
  destruct Hheld as (e & He & Hs).
  pose proof (explore_build_list_split_ok env st Hbuild) as Hok.
  rewrite Forall_forall in Hok.
  apply list_elem_of_In, list_elem_of_lookup in He as [k Hk].
  intros Hnil.
  assert (Hin : In k (passing_indices [level_of (cat, p)] [] st)).
  { unfold passing_indices. apply filter_In. split.
    - apply in_seq. apply lookup_lt_Some in Hk. lia.
    - rewrite nth_lookup, Hk. cbn [default].
      apply (passes_satisfies [(cat, p)] e).
      + apply Hok, list_elem_of_lookup. eauto.
      + constructor; [exact Hs | constructor]. }
  rewrite Hnil in Hin. destruct Hin.
Qed.

Lemma explore_build_list_values_held_witness :
  (exists e, In e (es_entries st_view) /\ satisfies e (4%nat, 3)) /\
  passing_indices [level_of (4%nat, 3)] [] st_view <> [].
Proof.
  apply (explore_build_list_values_held env_view st_view 4 3).
  - vm_compute. reflexivity.
  - vm_compute. right. left. reflexivity.
Defined.

(** * "Unknown" has a game *)

Lemma explore_intern_has_unknown (st : explore_state_t) (maps : list ex_hashmap32)
    (cat : nat) (seg : list Z) (st' : explore_state_t) (maps' : list ex_hashmap32)
    (p : Z) :
  explore_intern st maps cat seg = Ok (st', maps', p) ->
  es_has_unknown st' = es_has_unknown st.
Proof.
  unfold explore_intern. intros H. apply bind_Ok in H as (entry & _ & H).
  destruct (entry =? 0).
  - apply bind_Ok in H as (m' & _ & H). injection H as <- <- <-. reflexivity.
  - injection H as <- <- <-. reflexivity.
Qed.

Lemma explore_attach_other (e : explore_entry_t) (cat : nat) (p : Z)
    (has_split : bool) (buf : list Z) (e' : explore_entry_t) (buf' : list Z) :
  explore_attach e cat p has_split buf = Ok (e', buf') ->
  forall c, c <> cat -> entry_by e' c = entry_by e c.
Proof.
  unfold explore_attach. destruct (entry_by e cat =? 0).
  - intros [= <- <-] c Hc. unfold entry_by. cbn [e_by]. apply nth_insert_ne. auto.
  - destruct has_split; [intros [= <- <-]; reflexivity | discriminate].
Qed.

(** The splitter of a category touches neither the flags nor the primary
    values of the other categories. *)
Lemma add_unique_loop_other (fuel : nat) :
  forall (s : list Z) (cat : nat) (has_split : bool) (cx : add_ctx) (str p : Z)
         (cx' : add_ctx),
    add_unique_loop fuel s cat has_split cx str p = Ok cx' ->
    es_has_unknown (cx_state cx') = es_has_unknown (cx_state cx) /\
    forall c, c <> cat -> entry_by (cx_e cx') c = entry_by (cx_e cx) c.
Proof.
  induction fuel as [|fuel IH]; intros s cat has_split cx str p cx' H;
    cbn [add_unique_loop] in H; [discriminate|].
  apply bind_Ok in H as (c & _ & H).
  destruct (negb (is_delim c) && negb (c =? 0)); [eapply IH; eassumption|].
  destruct (negb has_split && negb (c =? 0)); [eapply IH; eassumption|].
  apply bind_Ok in H as (str' & _ & H).
  apply bind_Ok in H as (p' & _ & H).
  destruct (p' =? str').
  - apply bind_Ok in H as (c' & _ & H).
    destruct (c' =? 0); [injection H as <-; auto | eapply IH; eassumption].
  - apply bind_Ok in H as (p'' & _ & H).
    apply bind_Ok in H as (seg & _ & H).
    apply bind_Ok in H as ([[st1 maps1] entry] & Hint & H).
    apply bind_Ok in H as ([e1 buf1] & Hatt & H).
    apply bind_Ok in H as (next & _ & H).
    apply explore_intern_has_unknown in Hint.
    pose proof (explore_attach_other _ _ _ _ _ _ _ Hatt) as Hoth.
    destruct next as [q|].
    + apply IH in H as [H1 H2]. simpl in H1, H2. split; [congruence|].
      intros c0 Hc0. rewrite H2 by exact Hc0. apply Hoth, Hc0.
    + injection H as <-. simpl. auto.
Qed.

(** One call of the record loop: the flags of the state and the other
    primary values of the entry, or a new flag for the category. *)
Lemma explore_add_unique_string_other (cx : add_ctx) (cat : nat)
    (str : option (list Z)) (split_buf : bool) (cx' : add_ctx) :
  explore_add_unique_string cx cat str split_buf = Ok cx' ->
  es_entries (cx_state cx') = es_entries (cx_state cx) /\
  (forall c, c <> cat -> entry_by (cx_e cx') c = entry_by (cx_e cx) c) /\
  (forall c, c <> cat ->
     nth c (es_has_unknown (cx_state cx')) false
       = nth c (es_has_unknown (cx_state cx)) false) /\
  (nth cat (es_has_unknown (cx_state cx')) false
     = nth cat (es_has_unknown (cx_state cx)) false \/
   cx_e cx' = cx_e cx).
Proof.
  intros H. pose proof (explore_add_unique_string_entries _ _ _ _ _ H) as [Hes _].
  split; [exact Hes|]. revert H. unfold explore_add_unique_string.
  assert (Hunk : forall c, c <> cat ->
            nth c (es_has_unknown (set_has_unknown (cx_state cx) cat)) false
              = nth c (es_has_unknown (cx_state cx)) false).
  { intros c Hc. cbn [set_has_unknown es_has_unknown]. apply nth_insert_ne. auto. }
  destruct (option_map cstr str) as [[|c s]|].
  - intros [= <-]. cbn [cx_state cx_e]. auto.
  - intros H. apply add_unique_loop_other in H as [H1 H2].
    split; [exact H2|]. rewrite H1. auto.
  - intros [= <-]. cbn [cx_state cx_e]. auto.
Qed.

Lemma explore_add_unique_string_unknown (cx : add_ctx) (cat : nat)
    (str : option (list Z)) (split_buf : bool) (cx' : add_ctx) (k : nat) :
  (k <= cat)%nat ->
  unknown_inv (cx_state cx) (cx_e cx) k ->
  explore_add_unique_string cx cat str split_buf = Ok cx' ->
  unknown_inv (cx_state cx') (cx_e cx') (S cat).
Proof.
  intros Hk [Hrest Hflag] H.
  destruct (explore_add_unique_string_other _ _ _ _ _ H) as (Hes & Hby & Hunk & Hcat).
  constructor.
  - intros c Hc. rewrite Hby by lia. apply Hrest. lia.
  - intros c0 Hsys Hf. destruct (Nat.eq_dec c0 cat) as [->|Hne].
    + destruct Hcat as [Hc|He].
      * rewrite Hc in Hf. destruct (Hflag cat Hsys Hf) as [(e' & He' & H0)|[H0 Hlt]]; [|lia].
        left. exists e'. split; [rewrite Hes; exact He' | exact H0].
      * right. split; [|lia]. rewrite He. apply Hrest. exact Hk.
    + rewrite Hunk in Hf by exact Hne.
      destruct (Hflag c0 Hsys Hf) as [(e' & He' & H0)|[H0 Hlt]].
      * left. exists e'. split; [rewrite Hes; exact He' | exact H0].
      * right. split; [|lia]. rewrite Hby by exact Hne. exact H0.
Qed.

(** The second call for the System category keeps the flags and the
    primary values of the other categories. *)
Lemma explore_add_unique_string_system (cx : add_ctx) (str : option (list Z))
    (split_buf : bool) (cx' : add_ctx) (k : nat) :
  unknown_inv (cx_state cx) (cx_e cx) k ->
  explore_add_unique_string cx EXPLORE_BY_SYSTEM str split_buf = Ok cx' ->
  forall cat, cat <> EXPLORE_BY_SYSTEM ->
    nth cat (es_has_unknown (cx_state cx')) false = true ->
    (exists e', In e' (es_entries (cx_state cx')) /\ entry_by e' cat = 0) \/
    entry_by (cx_e cx') cat = 0.
Proof.
  intros [Hrest Hflag] H cat Hsys Hf.
  destruct (explore_add_unique_string_other _ _ _ _ _ H) as (Hes & Hby & Hunk & _).
  rewrite Hunk in Hf by exact Hsys. rewrite Hes, Hby by exact Hsys.
  destruct (Hflag cat Hsys Hf) as [Hold|[H0 _]]; auto.
Qed.

Lemma explore_add_fields_unknown (fields : list (option (list Z))) :
  forall (cx : add_ctx) (cat : nat) (cx' : add_ctx),
    unknown_inv (cx_state cx) (cx_e cx) cat ->
    explore_add_fields cx cat fields = Ok cx' ->
    unknown_inv (cx_state cx') (cx_e cx') (cat + length fields).
Proof.
  induction fields as [|f fields IH]; intros cx cat cx' Hu H; simpl in H.
  - injection H as <-. cbn [length]. rewrite Nat.add_0_r. exact Hu.
  - apply bind_Ok in H as (cx1 & H1 & H).
    cbn [length]. replace (cat + S (length fields))%nat with (S cat + length fields)%nat by lia.
    apply (IH cx1 (S cat) cx'); [|exact H].
    exact (explore_add_unique_string_unknown _ _ _ _ _ _ (Nat.le_refl cat) Hu H1).
Qed.

Lemma explore_finish_entry_by (e : explore_entry_t) (t : option (list Z))
    (buf : list Z) :
  e_by (fst (explore_finish_entry e t buf)) = e_by e.
Proof.
  unfold explore_finish_entry. destruct (nonempty t); destruct buf; reflexivity.
Qed.

Lemma explore_build_record_unknown (heap : list playlist_entry)
    (cores : list core_info_t) (map_cores playlist_entries : ex_hashmap32)
    (b : builder) (item : rmsgpack_dom_value) (b' : builder) :
  unknown_held (b_state b) ->
  explore_build_record heap cores map_cores playlist_entries b item = Ok b' ->
  unknown_held (b_state b').
Proof.
  intros Ha. unfold explore_build_record.
  destruct item; try (intros [= <-]; exact Ha).
  intros H. apply bind_Ok in H as (rf & Hrf & H).
  destruct (rf_crc32 rf) as [crc32|]; [|injection H as <-; exact Ha].
  apply bind_Ok in H as (handle & _ & H).
  destruct (handle =? 0); [injection H as <-; exact Ha|].
  destruct (heap !! Z.to_nat (handle - 1)) as [entry|]; [|discriminate].
  apply bind_Ok in H as (cx & Hcx & H).
  apply bind_Ok in H as (core_info & _ & H).
  apply bind_Ok in H as (cx2 & Hcx2 & H).
  pose proof (explore_finish_entry_by (cx_e cx2) (rf_original_title rf)
                (cx_split_buf cx2)) as Hfin.
  destruct (explore_finish_entry _ _ _) as [e buf] eqn:Ef.
  injection H as <-. cbn [fst] in Hfin.
  set (e0 := mk_entry entry (replicate EXPLORE_CAT_COUNT 0) None None) in *.
  assert (Hu0 : unknown_inv (b_state b) e0 0).
  { constructor.
    - intros c _. unfold entry_by, e0. cbn [e_by].
      destruct (Nat.lt_ge_cases c EXPLORE_CAT_COUNT) as [Hc|Hc].
      + rewrite nth_lookup, lookup_replicate_2 by exact Hc. reflexivity.
      + apply nth_overflow. rewrite length_replicate. exact Hc.
    - intros c Hsys Hf. left. exact (Ha c Hsys Hf). }
  pose proof (explore_add_fields_unknown (rf_fields rf)
                (mk_ctx (b_state b) (b_cat_maps b) e0 (b_split_buf b)) 0 cx Hu0 Hcx) as Hu1.
  pose proof (explore_add_unique_string_system _ _ _ _ _ Hu1 Hcx2) as Hu2.
  cbn [b_state]. intros c Hsys Hf.
  change (es_has_unknown (push_entry (cx_state cx2) e)) with (es_has_unknown (cx_state cx2))
    in Hf.
  cbn [push_entry es_entries].
  destruct (Hu2 c Hsys Hf) as [(e' & He' & H0)|H0].
  - exists e'. split; [apply in_or_app; left; exact He' | exact H0].
  - exists e. split; [apply in_or_app; right; left; reflexivity|].
    unfold entry_by in *. rewrite Hfin. exact H0.
Qed.

Lemma explore_build_records_unknown (heap : list playlist_entry)
    (cores : list core_info_t) (map_cores playlist_entries : ex_hashmap32)
    (items : list rmsgpack_dom_value) :
  forall (b b' : builder),
    unknown_held (b_state b) ->
    explore_build_records heap cores map_cores playlist_entries b items = Ok b' ->
    unknown_held (b_state b').
Proof.
  induction items as [|item items IH]; intros b b' Ha H; simpl in H.
  - injection H as <-. exact Ha.
  - apply bind_Ok in H as (b1 & H1 & H). apply (IH b1 b'); [|exact H].
    eapply explore_build_record_unknown; eassumption.
Qed.

Lemma explore_build_rdbs_unknown (heap : list playlist_entry)
    (cores : list core_info_t) (map_cores : ex_hashmap32) (rdbs : list explore_rdb) :
  forall (b b' : builder),
    unknown_held (b_state b) ->
    explore_build_rdbs heap cores map_cores b rdbs = Ok b' ->
    unknown_held (b_state b').
Proof.
  induction rdbs as [|rdb rdbs IH]; intros b b' Ha H; simpl in H.
  - injection H as <-. exact Ha.
  - apply bind_Ok in H as (b1 & H1 & H).
    apply (IH b1 b'); [|exact H].
    eapply explore_build_records_unknown; eassumption.
Qed.

Lemma explore_build_list_unknown (env : explore_env) (st : explore_state_t) :
  explore_build_list env = Ok st -> unknown_held st.
Proof.
  intros Hbuild. unfold explore_build_list in Hbuild.
  apply bind_Ok in Hbuild as ([ix playlists] & _ & H).
  apply bind_Ok in H as (map_cores & _ & H).
  apply bind_Ok in H as (bd & Hbd & H).
  apply explore_build_rdbs_unknown in Hbd.
  2: { intros c _ Hf. exfalso. cbn [b_state es_has_unknown explore_state_zero] in Hf.
       destruct (Nat.lt_ge_cases c EXPLORE_CAT_COUNT) as [Hc|Hc].
       - rewrite nth_lookup, lookup_replicate_2 in Hf by exact Hc. discriminate.
       - rewrite nth_overflow in Hf by (rewrite length_replicate; exact Hc). discriminate. }
  destruct (explore_sort_categories _ _) as [arena by_] eqn:E.
  injection H as <-.
  intros c Hsys Hf. cbn [es_has_unknown] in Hf. cbn [es_entries].
  destruct (Hbd c Hsys Hf) as (e & He & H0). exists e. split; [|exact H0].
  apply list_elem_of_In. rewrite qsort_perm. apply list_elem_of_In. exact He.
Qed.

(** X24.  In every category but System an "Unknown" flag of a built index
    stands for a game: an entry has no value in the category, so that the
    list of games that selecting "Unknown" shows is not empty.  System is
    excepted: there the second call of the record loop sets the flag as
    well. *)
Theorem explore_build_list_unknown_held (env : explore_env) (st : explore_state_t)
    (cat : nat) :
  explore_build_list env = Ok st -> cat <> EXPLORE_BY_SYSTEM ->
  nth cat (es_has_unknown st) false = true ->
  (exists e, In e (es_entries st) /\ entry_by e cat = 0) /\
  passing_indices [level_of (cat, 0)] [] st <> [].
Proof.
  intros Hbuild Hsys Hf.
  pose proof (explore_build_list_unknown env st Hbuild cat Hsys Hf) as Hheld.
  split; [exact Hheld|].
  destruct Hheld as (e & He & H0).
  pose proof (explore_build_list_split_ok env st Hbuild) as Hok.
  rewrite Forall_forall in Hok.
  apply list_elem_of_In, list_elem_of_lookup in He as [k Hk].
  intros Hnil.
  assert (Hin : In k (passing_indices [level_of (cat, 0)] [] st)).
  { unfold passing_indices. apply filter_In. split.
    - apply in_seq. apply lookup_lt_Some in Hk. lia.
    - rewrite nth_lookup, Hk. cbn [default].
      apply (passes_satisfies [(cat, 0)] e).
      + apply Hok, list_elem_of_lookup. eauto.
      + constructor; [left; exact H0 | constructor]. }
  rewrite Hnil in Hin. destruct Hin.
Qed.

Lemma explore_build_list_unknown_held_witness :
  (exists e, In e (es_entries st_view) /\ entry_by e 0 = 0) /\
  passing_indices [level_of (0%nat, 0)] [] st_view <> [].
Proof.
  apply (explore_build_list_unknown_held env_view st_view 0).
  - vm_compute. reflexivity.
  - unfold EXPLORE_BY_SYSTEM. lia.
  - vm_compute. reflexivity.
Defined.

(** * Chains of filters *)

Unset Default Proof Using.

Lemma explore_levels_shift (M : Z) (st : explore_state_t) (t : Z) (stack : list Z)
    (pos : list nat) :
  forall levels : nat,
    explore_levels_loop M st (t :: stack) (map S pos) levels
      = explore_levels_loop M st stack pos levels.
Proof.
  induction pos as [|i pos IH]; intros levels; [reflexivity|].
  cbn [map explore_levels_loop nth]. rewrite !IH. reflexivity.
Qed.

Lemma explore_levels_skip (M : Z) (st : explore_state_t) (stack : list Z) (i : nat)
    (pos : list nat) (levels : nat) :
  Z.of_nat EXPLORE_CAT_COUNT <= u32 (nth i stack 0 - EXPLORE_TYPE_FIRSTCATEGORY M) ->
  explore_levels_loop M st stack (i :: pos) levels
    = explore_levels_loop M st stack pos levels.
Proof.
  intros H. cbn [explore_levels_loop].
  destruct (Z.geb_spec (u32 (nth i stack 0 - EXPLORE_TYPE_FIRSTCATEGORY M))
                       (Z.of_nat EXPLORE_CAT_COUNT)); [reflexivity | lia].
Qed.

(** With the ten slots of lines 1007-1009 taken, the next constraint is
    stored outside them. *)
Lemma explore_levels_full (M : Z) (st : explore_state_t) (stack : list Z) (i : nat)
    (pos : list nat) (levels : nat) :
  u32 (nth i stack 0 - EXPLORE_TYPE_FIRSTCATEGORY M) < Z.of_nat EXPLORE_CAT_COUNT ->
  (10 <= levels)%nat ->
  explore_levels_loop M st stack (i :: pos) levels = Err OutOfBounds.
Proof.
  intros H Hl. cbn [explore_levels_loop].
  destruct (Z.geb_spec (u32 (nth i stack 0 - EXPLORE_TYPE_FIRSTCATEGORY M))
                       (Z.of_nat EXPLORE_CAT_COUNT)); [lia|].
  destruct (Nat.leb_spec 10 levels); [reflexivity | lia].
Qed.

Lemma length_explore_path (M F : Z) (st : explore_state_t) (cs : list (nat * Z)) :
  length (explore_path M F st cs) = (3 * length cs)%nat.
Proof.
  unfold explore_path. induction cs as [|c cs IH]; [reflexivity|].
  cbn [flat_map app length]. rewrite IH. lia.
Qed.

Lemma explore_path_nth (M F : Z) (st : explore_state_t) (cs : list (nat * Z)) :
  forall (j : nat) (c : nat * Z),
    cs !! j = Some c ->
    nth (3 * j) (explore_path M F st cs) 0
      = u32 (Z.of_nat (fst c) + EXPLORE_TYPE_FIRSTCATEGORY M).
Proof.
  unfold explore_path. induction cs as [|c0 cs IH]; intros j c Hj; [discriminate|].
  destruct j as [|j].
  - injection Hj as ->. reflexivity.
  - replace (3 * S j)%nat with (S (S (S (3 * j)))) by lia.
    cbn [flat_map app nth]. apply IH. exact Hj.
Qed.

Section Path.

Variables M F : Z.
Variable st : explore_state_t.
Hypothesis HF : 0 <= F < M.
Hypothesis HM : M + 13 + 2 ^ 30 <= 2 ^ 32.
Hypothesis Hinv : forall cat, (cat < EXPLORE_CAT_COUNT)%nat -> index_inv st cat.

Lemma explore_cat_type (cat : nat) :
  (cat < EXPLORE_CAT_COUNT)%nat ->
  u32 (Z.of_nat cat + EXPLORE_TYPE_FIRSTCATEGORY M) = M + 3 + Z.of_nat cat.
Proof.
  unfold EXPLORE_CAT_COUNT, EXPLORE_TYPE_FIRSTCATEGORY. intros Hcat.
  rewrite u32_small by lia. lia.
Qed.

(** The type of a selectable value: that of "Unknown", or the first item
    type plus the position of the value in its array. *)
Lemma explore_select_type_cases (c : nat * Z) :
  selectable st c ->
  (snd c = 0 /\ explore_select_type M st (snd c) = M) \/
  (exists i : nat,
     by_cat st (fst c) !! i = Some (snd c) /\ snd c <> 0 /\ Z.of_nat i < 2 ^ 30 /\
     explore_select_type M st (snd c) = M + 13 + Z.of_nat i).
Proof.
  intros [Hcat [H0|Hin]].
  - left. split; [exact H0|]. unfold explore_select_type. rewrite H0. reflexivity.
  - right. pose proof (Hinv _ Hcat) as Hi.
    pose proof (ix_nonnull _ _ Hi _ Hin) as Hne.
    apply list_elem_of_In, list_elem_of_lookup in Hin as [i Hl].
    pose proof (lookup_lt_Some _ _ _ Hl) as Hlt. pose proof (ix_len _ _ Hi) as Hlen.
    exists i. split; [exact Hl|]. split; [exact Hne|]. split; [lia|].
    unfold explore_select_type, item_of. cbn [snd].
    destruct (Z.eqb_spec (snd c) 0) as [E|_]; [contradiction|].
    rewrite (ix_idx _ _ Hi i _ Hl).
    unfold EXPLORE_TYPE_FIRSTITEM, EXPLORE_TYPE_FIRSTCATEGORY, EXPLORE_CAT_COUNT.
    rewrite u32_small by lia. lia.
Qed.

Lemma explore_levels_category (c : nat * Z) (stack : list Z) (i : nat)
    (pos : list nat) (levels : nat) :
  selectable st c -> (levels < 10)%nat ->
  nth i stack 0 = u32 (Z.of_nat (fst c) + EXPLORE_TYPE_FIRSTCATEGORY M) ->
  nth (S i) stack 0 = explore_select_type M st (snd c) ->
  explore_levels_loop M st stack (i :: pos) levels =
    do rest <- explore_levels_loop M st stack pos (S levels); Ok (level_of c :: rest).
Proof.
  intros Hc Hlv Hi HS. pose proof Hc as [Hcat _].
  cbn [explore_levels_loop]. rewrite Hi, HS, (explore_cat_type _ Hcat).
  destruct (Nat.leb_spec 10 levels) as [E|_]; [lia|].
  unfold EXPLORE_CAT_COUNT in Hcat.
  replace (M + 3 + Z.of_nat (fst c) - EXPLORE_TYPE_FIRSTCATEGORY M)
    with (Z.of_nat (fst c)) by (unfold EXPLORE_TYPE_FIRSTCATEGORY; lia).
  rewrite (u32_small (Z.of_nat (fst c))) by lia.
  destruct (Z.geb_spec (Z.of_nat (fst c)) (Z.of_nat EXPLORE_CAT_COUNT)) as [Hge|_];
    [unfold EXPLORE_CAT_COUNT in Hge; lia|].
  rewrite Nat2Z.id.
  destruct (explore_select_type_cases c Hc) as [[H0 ->]|(k & Hk & Hne & Hlt & ->)].
  - unfold EXPLORE_TYPE_FILTERNULL. rewrite Z.eqb_refl. cbn [bind].
    unfold level_of. rewrite H0. reflexivity.
  - unfold EXPLORE_TYPE_FILTERNULL.
    destruct (Z.eqb_spec (M + 13 + Z.of_nat k) M) as [E|_]; [lia|].
    replace (M + 13 + Z.of_nat k - EXPLORE_TYPE_FIRSTITEM M) with (Z.of_nat k)
      by (unfold EXPLORE_TYPE_FIRSTITEM, EXPLORE_TYPE_FIRSTCATEGORY, EXPLORE_CAT_COUNT; lia).
    rewrite (u32_small (Z.of_nat k)) by lia. rewrite Nat2Z.id, Hk. reflexivity.
Qed.

Lemma explore_select_type_skip (c : nat * Z) :
  selectable st c ->
  Z.of_nat EXPLORE_CAT_COUNT
    <= u32 (explore_select_type M st (snd c) - EXPLORE_TYPE_FIRSTCATEGORY M).
Proof.
  intros Hc. unfold EXPLORE_CAT_COUNT, EXPLORE_TYPE_FIRSTCATEGORY.
  destruct (explore_select_type_cases c Hc) as [[_ ->]|(k & _ & _ & Hlt & ->)].
  - replace (M - (M + 3)) with (-3) by lia. vm_compute. discriminate.
  - replace (M + 13 + Z.of_nat k - (M + 3)) with (10 + Z.of_nat k) by lia.
    rewrite u32_small by lia. lia.
Qed.

Lemma explore_additional_filter_skip :
  Z.of_nat EXPLORE_CAT_COUNT
    <= u32 (EXPLORE_TYPE_ADDITIONALFILTER F - EXPLORE_TYPE_FIRSTCATEGORY M).
Proof.
  unfold EXPLORE_CAT_COUNT, EXPLORE_TYPE_FIRSTCATEGORY, EXPLORE_TYPE_ADDITIONALFILTER, u32.
  replace (F - (M + 3)) with (2 ^ 32 + F - M - 3 + (-1) * 2 ^ 32) by lia.
  rewrite Z.mod_add by lia. rewrite Z.mod_small by lia. lia.
Qed.

(** The constraints that the third branch reads off a chain of filters. *)
Lemma explore_levels_path (cs : list (nat * Z)) :
  Forall (selectable st) cs ->
  forall (rest : list Z) (k n : nat),
    (n + length cs <= 10)%nat ->
    explore_levels_loop M st (explore_path M F st cs ++ rest)
      (seq 0 (3 * length cs + k)) n =
      do levels <- explore_levels_loop M st rest (seq 0 k) (n + length cs);
      Ok (map level_of cs ++ levels).
Proof.
  induction cs as [|c cs IH]; intros Hcs rest k n Hn.
  - cbn [explore_path flat_map app length Nat.mul Nat.add map]. rewrite Nat.add_0_r.
    destruct (explore_levels_loop M st rest (seq 0 k) n); reflexivity.
  - apply Forall_cons in Hcs as [Hc Hcs].
    replace (3 * length (c :: cs) + k)%nat with (S (S (S (3 * length cs + k))))
      by (cbn [length]; lia).
    cbn [explore_path flat_map app seq].
    cbn [length] in Hn.
    rewrite (explore_levels_category c _ 0%nat _ n Hc); [|lia|reflexivity|reflexivity].
    rewrite (explore_levels_skip M st _ 1) by (cbn [nth]; exact (explore_select_type_skip c Hc)).
    rewrite (explore_levels_skip M st _ 2) by (cbn [nth]; exact explore_additional_filter_skip).
    rewrite <- !seq_shift, !explore_levels_shift.
    fold (explore_path M F st cs). rewrite (IH Hcs) by lia.
    cbn [length]. replace (S n + length cs)%nat with (n + S (length cs))%nat by lia.
    destruct (explore_levels_loop M st rest (seq 0 k) (n + S (length cs))); reflexivity.
Qed.

Lemma explore_path_types (cs : list (nat * Z)) (t : Z) :
  Forall (selectable st) cs -> In t (explore_path M F st cs) ->
  t = F \/ M + 13 <= t < M + 13 + 2 ^ 30 \/ t = M \/
  exists c, In c cs /\ t = M + 3 + Z.of_nat (fst c).
Proof.
  intros Hcs Hin. apply in_flat_map in Hin as (c & Hc & Hin).
  rewrite Forall_forall in Hcs. pose proof (Hcs c ltac:(apply list_elem_of_In; exact Hc)) as Hs.
  destruct Hin as [<-|[<-|[<-|[]]]].
  - right. right. right. exists c. split; [exact Hc|]. apply explore_cat_type, Hs.
  - destruct (explore_select_type_cases c Hs) as [[_ ->]|(k & _ & _ & Hlt & ->)];
      [right; right; left; reflexivity | right; left; lia].
  - left. reflexivity.
Qed.

End Path.

(** ** The branches on a stack *)

Lemma nth_snoc (t0 b : Z) (Y : list Z) :
  nth (length (Y ++ [b])) (t0 :: Y ++ [b]) 0 = b.
Proof.
  rewrite length_app, Nat.add_1_r. cbn [length nth]. apply nth_middle.
Qed.

Lemma stack_positions (t0 : Z) (X : list Z) (i : nat) :
  (1 <= i <= length X)%nat -> In (nth i (t0 :: X) 0) X.
Proof.
  intros Hi. destruct i as [|i]; [lia|]. cbn [nth]. apply nth_In. lia.
Qed.

Section Stack.

Variables M F TAB : Z.
Variable st : explore_state_t.
Hypothesis HF : 0 <= F < M.
Hypothesis HM : M + 13 + 2 ^ 30 <= 2 ^ 32.
Hypothesis Hinv : forall cat, (cat < EXPLORE_CAT_COUNT)%nat -> index_inv st cat.
Hypothesis Hok : Forall (fun e => split_ok e = true) (es_entries st).

(** Without a search on the path the search text is dropped. *)
Lemma explore_find_string_path (t0 : Z) (X : list Z) :
  X <> [] -> Forall (fun t => t <> EXPLORE_TYPE_SEARCH M) X ->
  explore_find_string M st (t0 :: X) = [].
Proof.
  intros Hne HX. rewrite Forall_forall in HX.
  assert (Hlen : (0 < length X)%nat) by (destruct X; [contradiction | simpl; lia]).
  unfold explore_find_string.
  replace (length (t0 :: X) - 1)%nat with (length X) by (cbn [length]; lia).
  destruct (Z.eqb_spec (nth (length X) (t0 :: X) 0) (EXPLORE_TYPE_SEARCH M)) as [E|_].
  { exfalso. apply (HX (nth (length X) (t0 :: X) 0)); [|exact E].
    apply list_elem_of_In, stack_positions. lia. }
  destruct (existsb _ _) eqn:E; [|reflexivity].
  exfalso. apply existsb_exists in E as (i & Hi & E). apply in_seq in Hi.
  apply Z.eqb_eq in E. apply (HX (nth i (t0 :: X) 0)); [|exact E].
  apply list_elem_of_In, stack_positions. lia.
Qed.

(** The third branch on a stack that ends in the item of a value: the
    games that pass the constraints of the stack. *)
Lemma explore_filtered_entries_branch (t0 cur : Z) (X : list Z) (levels : list level) :
  nth (length X) (t0 :: X) 0 = cur -> (1 < length X)%nat ->
  Forall (fun t => t <> EXPLORE_TYPE_SEARCH M) X ->
  Z.of_nat EXPLORE_CAT_COUNT <= u32 (cur - EXPLORE_TYPE_FIRSTCATEGORY M) ->
  explore_levels M st (t0 :: X) (seq 1 (length X - 1)) = Ok levels ->
  menu_displaylist_explore_filtered M F st (t0 :: X) =
    Ok ((bytes_of_string "Add Additional Filter", EXPLORE_TYPE_ADDITIONALFILTER F) ::
        map (entry_item M st) (passing_indices levels [] st)).
Proof.
  intros Hcur Hlen HX Hskip Hlevels.
  assert (Hne : X <> []) by (destruct X; [simpl in Hlen; lia | discriminate]).
  unfold menu_displaylist_explore_filtered. cbv zeta.
  rewrite (explore_find_string_path t0 X Hne HX).
  replace (length (t0 :: X) - 1)%nat with (length X) by (cbn [length]; lia).
  rewrite Hcur, Hlevels. cbn [bind].
  rewrite bool_decide_true by reflexivity. cbn [negb].
  destruct (Nat.eqb_spec (length X) 1) as [E|_]; [lia|]. cbn [andb].
  destruct (Z.ltb_spec (u32 (cur - EXPLORE_TYPE_FIRSTCATEGORY M))
                       (Z.of_nat EXPLORE_CAT_COUNT)) as [E|_]; [lia|].
  rewrite (explore_list_filtered_entries M st _ _ _ Hok). reflexivity.
Qed.

(** The third branch on a stack that ends in the item of a category: the
    values of the category among the games that pass. *)
Lemma explore_filtered_values_branch (t0 : Z) (X : list Z) (cat : nat)
    (levels : list level) :
  nth (length X) (t0 :: X) 0 = M + 3 + Z.of_nat cat -> (cat < EXPLORE_CAT_COUNT)%nat ->
  X <> [] -> Forall (fun t => t <> EXPLORE_TYPE_SEARCH M) X ->
  explore_levels M st (t0 :: X) (seq 1 (length X - 1)) = Ok levels ->
  menu_displaylist_explore_filtered M F st (t0 :: X) =
    Ok (map (item_of M st)
            (List.filter (held cat (List.filter (passes levels []) (es_entries st)))
                         (by_cat st cat)) ++
        (if held cat (List.filter (passes levels []) (es_entries st)) 0
         then [(bytes_of_string "Unknown", EXPLORE_TYPE_FILTERNULL M)]
         else [])).
Proof.
  intros Hcur Hcat Hne HX Hlevels.
  unfold menu_displaylist_explore_filtered. cbv zeta.
  rewrite (explore_find_string_path t0 X Hne HX).
  replace (length (t0 :: X) - 1)%nat with (length X) by (cbn [length]; lia).
  rewrite Hcur, Hlevels. cbn [bind].
  replace (M + 3 + Z.of_nat cat - EXPLORE_TYPE_FIRSTCATEGORY M) with (Z.of_nat cat)
    by (unfold EXPLORE_TYPE_FIRSTCATEGORY; lia).
  unfold EXPLORE_CAT_COUNT in Hcat.
  rewrite (u32_small (Z.of_nat cat)) by lia.
  destruct (Z.ltb_spec (Z.of_nat cat) (Z.of_nat EXPLORE_CAT_COUNT)) as [_|E];
    [|unfold EXPLORE_CAT_COUNT in E; lia].
  rewrite Nat2Z.id.
  apply (explore_list_filtered_view M st levels [] cat).
  apply Hinv. unfold EXPLORE_CAT_COUNT. lia.
Qed.

Lemma explore_dispatch_filtered (t0 cur : Z) (X : list Z) :
  nth (length X) (t0 :: X) 0 = cur -> (1 < length X)%nat ->
  cur <> TAB -> cur <> F ->
  explore_previous_cat M (t0 :: X) < Z.of_nat EXPLORE_CAT_COUNT
  \/ cur < EXPLORE_TYPE_FIRSTITEM M ->
  explore_dispatch M F TAB (t0 :: X) = BranchFiltered.
Proof.
  intros Hcur Hlen HT' HF' Hor.
  unfold explore_dispatch, explore_current_type. cbv zeta.
  replace (explore_depth (t0 :: X)) with (length X)
    by (unfold explore_depth; cbn [length]; lia).
  rewrite Hcur. unfold EXPLORE_TYPE_ADDITIONALFILTER.
  destruct (Z.eqb_spec cur TAB) as [E|_]; [contradiction|].
  destruct (Z.eqb_spec cur F) as [E|_]; [contradiction|]. cbn [orb].
  destruct (Nat.eqb_spec (length X) 1) as [E|_]; [lia|]. cbn [andb].
  destruct Hor as [Hp|Hc].
  - destruct (Z.ltb_spec (explore_previous_cat M (t0 :: X)) (Z.of_nat EXPLORE_CAT_COUNT));
      [reflexivity | lia].
  - destruct (Z.ltb_spec cur (EXPLORE_TYPE_FIRSTITEM M)) as [_|E]; [|lia].
    rewrite orb_true_r. reflexivity.
Qed.

Lemma explore_path_no_search (cs : list (nat * Z)) :
  Forall (selectable st) cs ->
  Forall (fun t => t <> EXPLORE_TYPE_SEARCH M) (explore_path M F st cs).
Proof.
  intros Hcs. rewrite Forall_forall. intros t Ht. apply list_elem_of_In in Ht.
  unfold EXPLORE_TYPE_SEARCH.
  destruct (explore_path_types M F st HF HM Hinv cs t Hcs Ht) as [->|[H|[->|(c & Hc & ->)]]];
    lia.
Qed.

Lemma explore_path_snoc (cs : list (nat * Z)) (c : nat * Z) :
  explore_path M F st (cs ++ [c]) =
    (explore_path M F st cs ++
     [u32 (Z.of_nat (fst c) + EXPLORE_TYPE_FIRSTCATEGORY M);
      explore_select_type M st (snd c)]) ++ [EXPLORE_TYPE_ADDITIONALFILTER F].
Proof.
  unfold explore_path. rewrite flat_map_app. cbn [flat_map]. rewrite app_nil_r.
  rewrite <- app_assoc. reflexivity.
Qed.

(** The constraints of a chain of filters followed by the tail [rest]. *)
Lemma explore_levels_chain (t0 : Z) (cs : list (nat * Z)) (rest : list Z)
    (levels : list level) :
  Forall (selectable st) cs -> rest <> [] -> (length cs <= 10)%nat ->
  explore_levels_loop M st rest (seq 0 (length rest - 1)) (length cs) = Ok levels ->
  explore_levels M st (t0 :: explore_path M F st cs ++ rest)
    (seq 1 (length (explore_path M F st cs ++ rest) - 1)) =
    Ok (map level_of cs ++ levels).
Proof.
  intros Hcs Hne Hmax Hrest.
  assert (Hlen : (0 < length rest)%nat) by (destruct rest; [contradiction | simpl; lia]).
  unfold explore_levels. rewrite <- seq_shift, explore_levels_shift.
  rewrite length_app, length_explore_path.
  replace (3 * length cs + length rest - 1)%nat
    with (3 * length cs + (length rest - 1))%nat by lia.
  rewrite (explore_levels_path M F st HF HM Hinv cs Hcs) by (cbn [Nat.add]; exact Hmax).
  cbn [Nat.add]. rewrite Hrest. reflexivity.
Qed.

End Stack.

(** A category is on the path of a chain of filters exactly when one of
    the filters is on it. *)
Lemma explore_on_path_chain (M F : Z) (st : explore_state_t) (t0 : Z)
    (cs : list (nat * Z)) (cat : nat) :
  0 <= F < M -> M + 13 + 2 ^ 30 <= 2 ^ 32 ->
  (forall cat, (cat < EXPLORE_CAT_COUNT)%nat -> index_inv st cat) ->
  Forall (selectable st) cs -> (cat < EXPLORE_CAT_COUNT)%nat ->
  explore_on_path M (t0 :: explore_path M F st cs) cat = true <-> In cat (map fst cs).
Proof.
  intros HF HM Hinv Hcs Hcat. unfold explore_on_path.
  replace (explore_depth (t0 :: explore_path M F st cs))
    with (length (explore_path M F st cs)) by (unfold explore_depth; cbn [length]; lia).
  rewrite (explore_cat_type M F HF HM cat Hcat). unfold EXPLORE_CAT_COUNT in Hcat.
  rewrite length_explore_path. split.
  - intros E. apply existsb_exists in E as (i & Hi & E). apply in_seq in Hi.
    apply Z.eqb_eq in E.
    assert (Hin : In (nth i (t0 :: explore_path M F st cs) 0) (explore_path M F st cs)).
    { apply stack_positions. rewrite length_explore_path. lia. }
    rewrite E in Hin.
    destruct (explore_path_types M F st HF HM Hinv cs _ Hcs Hin)
      as [H|[H|[H|(c & Hc & H)]]]; [lia | lia | lia |].
    apply in_map_iff. exists c. split; [lia | exact Hc].
  - intros Hin. apply in_map_iff in Hin as (c & <- & Hc).
    apply list_elem_of_In, list_elem_of_lookup in Hc as [j Hj].
    pose proof (lookup_lt_Some _ _ _ Hj) as Hlt.
    apply existsb_exists. exists (S (3 * j)). split; [apply in_seq; lia|].
    cbn [nth]. rewrite (explore_path_nth M F st cs j c Hj).
    rewrite (explore_cat_type M F HF HM (fst c) ltac:(unfold EXPLORE_CAT_COUNT; lia)).
    apply Z.eqb_refl.
Qed.

(** The stack of a chain of filters that ends in the item of a value. *)
Lemma explore_games_stack (M F : Z) (st : explore_state_t) (cs : list (nat * Z))
    (c : nat * Z) (t0 : Z) :
  0 <= F < M -> M + 13 + 2 ^ 30 <= 2 ^ 32 ->
  (forall cat, (cat < EXPLORE_CAT_COUNT)%nat -> index_inv st cat) ->
  Forall (selectable st) cs -> selectable st c -> (length (cs ++ [c]) <= 10)%nat ->
  forall X,
    X = explore_path M F st cs ++
        [u32 (Z.of_nat (fst c) + EXPLORE_TYPE_FIRSTCATEGORY M);
         explore_select_type M st (snd c)] ->
    nth (length X) (t0 :: X) 0 = explore_select_type M st (snd c) /\
    (1 < length X)%nat /\
    Forall (fun t => t <> EXPLORE_TYPE_SEARCH M) X /\
    explore_levels M st (t0 :: X) (seq 1 (length X - 1)) = Ok (map level_of (cs ++ [c])).
Proof.
  intros HF HM Hinv Hcs Hc Hmax X EX. pose proof Hc as [Hcat _].
  rewrite length_app in Hmax. cbn [length] in Hmax.
  pose proof (explore_cat_type M F HF HM (fst c) Hcat) as Htc.
  set (tc := u32 (Z.of_nat (fst c) + EXPLORE_TYPE_FIRSTCATEGORY M)) in *.
  set (sel := explore_select_type M st (snd c)) in *.
  assert (Hsel : sel = M \/ M + 13 <= sel < M + 13 + 2 ^ 30).
  { unfold sel.
    destruct (explore_select_type_cases M F st HF HM Hinv c Hc)
      as [[_ ->]|(k & _ & _ & Hk & ->)]; [left; reflexivity | right; lia]. }
  split; [|split; [|split]].
  - rewrite EX. replace (explore_path M F st cs ++ [tc; sel])
      with ((explore_path M F st cs ++ [tc]) ++ [sel])
      by (rewrite <- app_assoc; reflexivity).
    apply nth_snoc.
  - rewrite EX, length_app. cbn [length]. lia.
  - rewrite EX. apply Forall_app. split.
    + exact (explore_path_no_search M F st HF HM Hinv cs Hcs).
    + unfold EXPLORE_TYPE_SEARCH.
      repeat (apply Forall_cons; split; [lia|]). constructor.
  - rewrite EX, map_app.
    apply (explore_levels_chain M F st HF HM Hinv t0 cs [tc; sel]);
      [exact Hcs | discriminate | lia|].
    cbn [length Nat.sub seq].
    rewrite (explore_levels_category M F st HF HM Hinv c _ 0%nat [] _ Hc);
      [reflexivity | lia | reflexivity | reflexivity].
Qed.

(** The stack of a chain of filters that ends in the item of a category. *)
Lemma explore_values_stack (M F : Z) (st : explore_state_t) (cs : list (nat * Z))
    (cat : nat) (t0 : Z) :
  0 <= F < M -> M + 13 + 2 ^ 30 <= 2 ^ 32 ->
  (forall cat, (cat < EXPLORE_CAT_COUNT)%nat -> index_inv st cat) ->
  cs <> [] -> Forall (selectable st) cs -> (length cs <= 10)%nat ->
  (cat < EXPLORE_CAT_COUNT)%nat ->
  forall X,
    X = explore_path M F st cs ++ [u32 (Z.of_nat cat + EXPLORE_TYPE_FIRSTCATEGORY M)] ->
    nth (length X) (t0 :: X) 0 = M + 3 + Z.of_nat cat /\
    (1 < length X)%nat /\
    Forall (fun t => t <> EXPLORE_TYPE_SEARCH M) X /\
    explore_levels M st (t0 :: X) (seq 1 (length X - 1)) = Ok (map level_of cs).
Proof.
  intros HF HM Hinv Hne Hcs Hmax Hcat X EX.
  pose proof (explore_cat_type M F HF HM cat Hcat) as Htc.
  set (tc := u32 (Z.of_nat cat + EXPLORE_TYPE_FIRSTCATEGORY M)) in *.
  split; [|split; [|split]].
  - rewrite EX, <- Htc. apply nth_snoc.
  - rewrite EX, length_app, length_explore_path. cbn [length].
    destruct cs; [contradiction | simpl; lia].
  - rewrite EX. apply Forall_app. split.
    + exact (explore_path_no_search M F st HF HM Hinv cs Hcs).
    + unfold EXPLORE_TYPE_SEARCH. unfold EXPLORE_CAT_COUNT in Hcat.
      repeat (apply Forall_cons; split; [lia|]). constructor.
  - rewrite EX. rewrite <- (app_nil_r (map level_of cs)).
    apply (explore_levels_chain M F st HF HM Hinv t0 cs [tc]);
      [exact Hcs | discriminate | exact Hmax | reflexivity].
Qed.

(** X17.  Filters compose.  On a built index, with the tab and the
    database type below the item types, the stack that a chain of at most
    10 filters leaves (10 is the size of [use_split], [cats] and [filter]
    of lines 1007-1009, which hold one slot per filter; for each filter the
    stack has the item of its category, then the item of one of its values
    or of "Unknown", with "Add Additional Filter" between two filters)
    takes the third branch, and the branch returns "Add Additional
    Filter" followed by the items of exactly the entries that satisfy every
    filter of the chain, in the order of the entries; a search text is
    dropped. *)
Theorem explore_filter_chain (M F TAB : Z) (env : explore_env) (st : explore_state_t)
    (cs : list (nat * Z)) (c : nat * Z) (t0 : Z) :
  explore_build_list env = Ok st ->
  0 <= F < M -> 0 <= TAB < M -> M + 13 + 2 ^ 30 <= 2 ^ 32 ->
  Forall (selectable st) (cs ++ [c]) -> (length (cs ++ [c]) <= 10)%nat ->
  explore_dispatch M F TAB
    (t0 :: explore_path M F st cs ++
           [u32 (Z.of_nat (fst c) + EXPLORE_TYPE_FIRSTCATEGORY M);
            explore_select_type M st (snd c)]) = BranchFiltered /\
  menu_displaylist_explore_filtered M F st
    (t0 :: explore_path M F st cs ++
           [u32 (Z.of_nat (fst c) + EXPLORE_TYPE_FIRSTCATEGORY M);
            explore_select_type M st (snd c)]) =
    Ok ((bytes_of_string "Add Additional Filter", EXPLORE_TYPE_ADDITIONALFILTER F) ::
        map (entry_item M st) (passing_indices (map level_of (cs ++ [c])) [] st)) /\
  (forall e, In e (es_entries st) ->
     passes (map level_of (cs ++ [c])) [] e = true <-> Forall (satisfies e) (cs ++ [c])).
Proof.
  intros Hbuild HF HT HM Hsel Hmax.
  pose proof (explore_build_list_index_inv env st) as Hinv.
  specialize (fun cat => Hinv cat Hbuild).
  pose proof (explore_build_list_split_ok env st Hbuild) as Hok.
  apply Forall_app in Hsel as Hboth. destruct Hboth as [Hcs Hc].
  apply Forall_cons in Hc as [Hc _]. pose proof Hc as [Hcat _].
  pose proof (explore_cat_type M F HF HM (fst c) Hcat) as Htc.
  set (tc := u32 (Z.of_nat (fst c) + EXPLORE_TYPE_FIRSTCATEGORY M)) in *.
  set (sel := explore_select_type M st (snd c)).
  set (X := explore_path M F st cs ++ [tc; sel]).
  destruct (explore_games_stack M F st cs c t0 HF HM Hinv Hcs Hc Hmax X eq_refl)
    as (Hcur & Hlen & HX & Hlevels).
  fold sel in Hcur.
  assert (Hsel' : sel = M \/ M + 13 <= sel < M + 13 + 2 ^ 30).
  { unfold sel.
    destruct (explore_select_type_cases M F st HF HM Hinv c Hc)
      as [[_ ->]|(k & _ & _ & Hk & ->)]; [left; reflexivity | right; lia]. }
  assert (Hprev : explore_previous_cat M (t0 :: X) = Z.of_nat (fst c)).
  { unfold explore_previous_cat.
    replace (explore_depth (t0 :: X)) with (S (S (length (explore_path M F st cs)))).
    2: { unfold explore_depth, X. cbn [length]. rewrite length_app. cbn [length]. lia. }
    cbn [nth]. unfold X. rewrite nth_middle, Htc.
    replace (M + 3 + Z.of_nat (fst c) - EXPLORE_TYPE_FIRSTCATEGORY M)
      with (Z.of_nat (fst c)) by (unfold EXPLORE_TYPE_FIRSTCATEGORY; lia).
    unfold EXPLORE_CAT_COUNT in Hcat. apply u32_small. lia. }
  split; [|split].
  - apply (explore_dispatch_filtered M F TAB t0 sel X Hcur Hlen); [lia | lia|].
    left. rewrite Hprev. lia.
  - apply (explore_filtered_entries_branch M F st Hok t0 sel X _ Hcur Hlen HX);
      [|exact Hlevels].
    exact (explore_select_type_skip M F st HF HM Hinv c Hc).
  - intros e He. apply passes_satisfies.
    rewrite Forall_forall in Hok. apply Hok, list_elem_of_In, He.
Qed.

Lemma explore_filter_chain_witness :
  explore_dispatch 4096 7 100
    (100 :: explore_path 4096 7 st_view [(4%nat, 2)] ++
            [u32 (Z.of_nat 0 + EXPLORE_TYPE_FIRSTCATEGORY 4096);
             explore_select_type 4096 st_view 1]) = BranchFiltered /\
  menu_displaylist_explore_filtered 4096 7 st_view
    (100 :: explore_path 4096 7 st_view [(4%nat, 2)] ++
            [u32 (Z.of_nat 0 + EXPLORE_TYPE_FIRSTCATEGORY 4096);
             explore_select_type 4096 st_view 1]) =
    Ok ((bytes_of_string "Add Additional Filter", EXPLORE_TYPE_ADDITIONALFILTER 7) ::
        map (entry_item 4096 st_view)
            (passing_indices (map level_of ([(4%nat, 2)] ++ [(0%nat, 1)])) [] st_view)) /\
  (forall e, In e (es_entries st_view) ->
     passes (map level_of ([(4%nat, 2)] ++ [(0%nat, 1)])) [] e = true
     <-> Forall (satisfies e) ([(4%nat, 2)] ++ [(0%nat, 1)])).
Proof.
  apply (explore_filter_chain 4096 7 100 env_view st_view [(4%nat, 2)] (0%nat, 1) 100).
  - vm_compute. reflexivity.
  - lia.
  - lia.
  - lia.
  - cbn [app].
    repeat (apply Forall_cons; split;
            [split; [unfold EXPLORE_CAT_COUNT; cbn [fst]; lia | right; vm_compute; auto]|]).
    apply Forall_nil_2.
  - cbn [app length]. lia.
Defined.

(** X21.  After "Add Additional Filter" the values of a category are those
    of the games already filtered.  On a built index the stack of a chain
    of at most 10 filters (the size of the arrays of lines 1007-1009)
    followed by the item of a category takes the third branch,
    and the branch returns the values of the category that are the primary
    value of an entry satisfying every filter of the chain, each once and
    in the order of the category's array, then "Unknown" if such an entry
    has no value in the category. *)
Theorem explore_additional_filter_values (M F TAB : Z) (env : explore_env)
    (st : explore_state_t) (cs : list (nat * Z)) (cat : nat) (t0 : Z) :
  explore_build_list env = Ok st ->
  0 <= F < M -> 0 <= TAB < M -> M + 13 + 2 ^ 30 <= 2 ^ 32 ->
  cs <> [] -> Forall (selectable st) cs -> (length cs <= 10)%nat ->
  (cat < EXPLORE_CAT_COUNT)%nat ->
  explore_dispatch M F TAB
    (t0 :: explore_path M F st cs ++
           [u32 (Z.of_nat cat + EXPLORE_TYPE_FIRSTCATEGORY M)]) = BranchFiltered /\
  menu_displaylist_explore_filtered M F st
    (t0 :: explore_path M F st cs ++
           [u32 (Z.of_nat cat + EXPLORE_TYPE_FIRSTCATEGORY M)]) =
    Ok (map (item_of M st)
            (List.filter
               (held cat (List.filter (passes (map level_of cs) []) (es_entries st)))
               (by_cat st cat)) ++
        (if held cat (List.filter (passes (map level_of cs) []) (es_entries st)) 0
         then [(bytes_of_string "Unknown", EXPLORE_TYPE_FILTERNULL M)]
         else [])) /\
  (forall p,
     held cat (List.filter (passes (map level_of cs) []) (es_entries st)) p = true <->
     exists e, In e (es_entries st) /\ Forall (satisfies e) cs /\ entry_by e cat = p).
Proof.
  intros Hbuild HF HT HM Hne Hcs Hmax Hcat.
  pose proof (explore_build_list_index_inv env st) as Hinv.
  specialize (fun cat => Hinv cat Hbuild).
  pose proof (explore_build_list_split_ok env st Hbuild) as Hok.
  set (tc := u32 (Z.of_nat cat + EXPLORE_TYPE_FIRSTCATEGORY M)) in *.
  set (X := explore_path M F st cs ++ [tc]).
  destruct (explore_values_stack M F st cs cat t0 HF HM Hinv Hne Hcs Hmax Hcat X eq_refl)
    as (Hcur & Hlen & HX & Hlevels).
  assert (HXne : X <> []) by (destruct X; [simpl in Hlen; lia | discriminate]).
  split; [|split].
  - unfold EXPLORE_CAT_COUNT in Hcat.
    apply (explore_dispatch_filtered M F TAB t0 _ X Hcur Hlen); [lia | lia|].
    right. unfold EXPLORE_TYPE_FIRSTITEM, EXPLORE_TYPE_FIRSTCATEGORY, EXPLORE_CAT_COUNT. lia.
  - exact (explore_filtered_values_branch M F st Hinv t0 X cat _ Hcur Hcat HXne HX Hlevels).
  - intros p. unfold held. rewrite existsb_exists. split.
    + intros (e & He & E). apply filter_In in He as [He Hp]. apply Z.eqb_eq in E.
      exists e. split; [exact He|]. split; [|exact E].
      apply passes_satisfies; [|exact Hp].
      rewrite Forall_forall in Hok. apply Hok, list_elem_of_In, He.
    + intros (e & He & Hs & E). exists e. split; [|apply Z.eqb_eq, E].
      apply filter_In. split; [exact He|]. apply passes_satisfies; [|exact Hs].
      rewrite Forall_forall in Hok. apply Hok, list_elem_of_In, He.
Qed.

Lemma explore_additional_filter_values_witness :
  explore_dispatch 4096 7 100
    (100 :: explore_path 4096 7 st_view [(4%nat, 2)] ++
            [u32 (Z.of_nat 0 + EXPLORE_TYPE_FIRSTCATEGORY 4096)]) = BranchFiltered /\
  menu_displaylist_explore_filtered 4096 7 st_view
    (100 :: explore_path 4096 7 st_view [(4%nat, 2)] ++
            [u32 (Z.of_nat 0 + EXPLORE_TYPE_FIRSTCATEGORY 4096)]) =
    Ok (map (item_of 4096 st_view)
            (List.filter
               (held 0 (List.filter (passes (map level_of [(4%nat, 2)]) [])
                                    (es_entries st_view)))
               (by_cat st_view 0)) ++
        (if held 0 (List.filter (passes (map level_of [(4%nat, 2)]) [])
                                (es_entries st_view)) 0
         then [(bytes_of_string "Unknown", EXPLORE_TYPE_FILTERNULL 4096)]
         else [])) /\
  (forall p,
     held 0 (List.filter (passes (map level_of [(4%nat, 2)]) []) (es_entries st_view)) p
       = true <->
     exists e, In e (es_entries st_view) /\ Forall (satisfies e) [(4%nat, 2)] /\
               entry_by e 0 = p).
Proof.
  apply (explore_additional_filter_values 4096 7 100 env_view st_view [(4%nat, 2)] 0 100).
  - vm_compute. reflexivity.
  - lia.
  - lia.
  - lia.
  - discriminate.
  - cbn [app].
    repeat (apply Forall_cons; split;
            [split; [unfold EXPLORE_CAT_COUNT; cbn [fst]; lia | right; vm_compute; auto]|]).
    apply Forall_nil_2.
  - cbn [length]. lia.
  - unfold EXPLORE_CAT_COUNT. lia.
Defined.

(** X22.  "Add Additional Filter" never offers a category twice.  On a
    built index, with a database type that is not the tab, the stack of a
    chain of filters with "Add Additional Filter" selected takes the first
    branch as an additional filter, and the menu lists the search item and
    an item for a category exactly when the category has values and no
    filter of the chain is on it. *)
Theorem explore_additional_filter_menu (M F TAB : Z) (env : explore_env)
    (st : explore_state_t) (cs : list (nat * Z)) (t0 : Z) :
  explore_build_list env = Ok st ->
  0 <= F < M -> 0 <= TAB < M -> F <> TAB -> M + 13 + 2 ^ 30 <= 2 ^ 32 ->
  cs <> [] -> Forall (selectable st) cs ->
  explore_dispatch M F TAB (t0 :: explore_path M F st cs) = BranchMenu false /\
  In (bytes_of_string "Search Name ...", EXPLORE_TYPE_SEARCH M)
     (explore_list_menu M TAB st (t0 :: explore_path M F st cs)) /\
  (forall cat, (cat < EXPLORE_CAT_COUNT)%nat ->
     (exists label,
        In (label, EXPLORE_TYPE_FIRSTCATEGORY M + Z.of_nat cat)
           (explore_list_menu M TAB st (t0 :: explore_path M F st cs)))
     <-> by_cat st cat <> [] /\ ~ In cat (map fst cs)).
Proof.
  intros Hbuild HF HT HFT HM Hne Hcs.
  pose proof (explore_build_list_index_inv env st) as Hinv.
  specialize (fun cat => Hinv cat Hbuild).
  pose proof (explore_build_list_split_ok env st Hbuild) as Hok.
  set (X := explore_path M F st cs).
  assert (Hcur : nth (length X) (t0 :: X) 0 = F).
  { unfold X. destruct (exists_last Hne) as (cs' & c' & ->).
    rewrite (explore_path_snoc M F st). apply nth_snoc. }
  assert (Hlen : (0 < length X)%nat).
  { unfold X. rewrite length_explore_path. destruct cs; [contradiction | simpl; lia]. }
  assert (HXne : X <> []) by (destruct X; [simpl in Hlen; lia | discriminate]).
  pose proof (explore_path_no_search M F st HF HM Hinv cs Hcs) as HX. fold X in HX.
  assert (Hd : explore_depth (t0 :: X) = length X)
    by (unfold explore_depth; cbn [length]; lia).
  assert (Hmenu : explore_list_menu M TAB st (t0 :: X) =
    [(bytes_of_string "Search Name ...", EXPLORE_TYPE_SEARCH M)] ++
    flat_map
      (fun cat =>
         if bool_decide (by_cat st cat = []) || explore_on_path M (t0 :: X) cat then []
         else [(explore_menu_label st false cat,
                u32 (Z.of_nat cat + EXPLORE_TYPE_FIRSTCATEGORY M))])
      (seq 0 EXPLORE_CAT_COUNT) ++ []).
  { unfold explore_list_menu, explore_current_type. cbv zeta. rewrite Hd, Hcur.
    destruct (Z.eqb_spec F TAB) as [E|_]; [contradiction|].
    destruct (length X) as [|n] eqn:En; [lia|].
    rewrite (explore_find_string_path M st t0 X HXne HX).
    rewrite bool_decide_true by reflexivity. reflexivity. }
  split; [|split].
  - unfold explore_dispatch, explore_current_type. cbv zeta. rewrite Hd, Hcur.
    unfold EXPLORE_TYPE_ADDITIONALFILTER. rewrite Z.eqb_refl, orb_true_r.
    destruct (Z.eqb_spec F TAB) as [E|_]; [contradiction | reflexivity].
  - rewrite Hmenu. left. reflexivity.
  - intros cat Hcat. rewrite Hmenu.
    pose proof (explore_on_path_chain M F st t0 cs cat HF HM Hinv Hcs Hcat) as Hon.
    fold X in Hon. split.
    + intros (label & Hin).
      apply in_app_or in Hin as [[Hin|[]]|Hin].
      { injection Hin as _ E. unfold EXPLORE_TYPE_SEARCH, EXPLORE_TYPE_FIRSTCATEGORY in E.
        lia. }
      rewrite app_nil_r in Hin.
      apply in_flat_map in Hin as (c & Hc & Hin). apply in_seq in Hc.
      destruct (bool_decide (by_cat st c = [])) eqn:Eb; [destruct Hin|].
      destruct (explore_on_path M (t0 :: X) c) eqn:Eo; [destruct Hin|].
      destruct Hin as [Hin|[]]. injection Hin as _ E.
      rewrite (explore_cat_type M F HF HM c ltac:(lia)) in E.
      unfold EXPLORE_TYPE_FIRSTCATEGORY in E.
      assert (c = cat) by lia. subst c. apply bool_decide_eq_false in Eb.
      split; [exact Eb|]. intros Hin. apply Hon in Hin. congruence.
    + intros [Hby Hnot]. exists (explore_menu_label st false cat).
      apply in_or_app. right. rewrite app_nil_r.
      apply in_flat_map. exists cat. split; [apply in_seq; lia|].
      rewrite bool_decide_false by exact Hby.
      destruct (explore_on_path M (t0 :: X) cat) eqn:Eo;
        [exfalso; apply Hnot, Hon; reflexivity|].
      left. f_equal. rewrite (explore_cat_type M F HF HM cat Hcat).
      unfold EXPLORE_TYPE_FIRSTCATEGORY. lia.
Qed.

Lemma explore_additional_filter_menu_witness :
  explore_dispatch 4096 7 100 (100 :: explore_path 4096 7 st_view [(4%nat, 2)])
    = BranchMenu false /\
  In (bytes_of_string "Search Name ...", EXPLORE_TYPE_SEARCH 4096)
     (explore_list_menu 4096 100 st_view (100 :: explore_path 4096 7 st_view [(4%nat, 2)])) /\
  (forall cat, (cat < EXPLORE_CAT_COUNT)%nat ->
     (exists label,
        In (label, EXPLORE_TYPE_FIRSTCATEGORY 4096 + Z.of_nat cat)
           (explore_list_menu 4096 100 st_view
              (100 :: explore_path 4096 7 st_view [(4%nat, 2)])))
     <-> by_cat st_view cat <> [] /\ ~ In cat (map fst [(4%nat, 2)])).
Proof.
  apply (explore_additional_filter_menu 4096 7 100 env_view st_view [(4%nat, 2)] 100).
  - vm_compute. reflexivity.
  - lia.
  - lia.
  - lia.
  - lia.
  - discriminate.
  - cbn [app].
    repeat (apply Forall_cons; split;
            [split; [unfold EXPLORE_CAT_COUNT; cbn [fst]; lia | right; vm_compute; auto]|]).
    apply Forall_nil_2.
Defined.

(** * The title of a chain of filters *)

(** Appending to a title that is a text cut to the buffer cuts the longer
    text to the buffer. *)
Lemma explore_append_title_take (a s : list Z) :
  explore_append_title (take 1023 a) s = take 1023 (a ++ s).
Proof.
  unfold explore_append_title. rewrite take_app, length_take. f_equal. f_equal. lia.
Qed.

Lemma u32_usize (x : Z) : u32 (usize x) = u32 x.
Proof.
  unfold u32, usize. apply Z.mod_mod_divide. exists (2 ^ 32). reflexivity.
Qed.

Lemma explore_title_levels_shift (M : Z) (st : explore_state_t) (t : Z)
    (stack : list Z) (pos : list nat) :
  forall (levels : nat) (title : list Z),
    explore_title_levels M st (t :: stack) (map S pos) levels title
      = explore_title_levels M st stack pos levels title.
Proof.
  induction pos as [|i pos IH]; intros levels title; [reflexivity|].
  cbn [map explore_title_levels nth].
  destruct (u32 (nth i stack 0 - EXPLORE_TYPE_FIRSTCATEGORY M) >=? _); [apply IH|].
  destruct (if nth (S i) stack 0 =? EXPLORE_TYPE_FILTERNULL M then _ else _)
    as [value|err]; cbn [bind]; [apply IH | reflexivity].
Qed.

Lemma explore_title_levels_skip (M : Z) (st : explore_state_t) (stack : list Z)
    (i : nat) (pos : list nat) (levels : nat) (title : list Z) :
  Z.of_nat EXPLORE_CAT_COUNT <= u32 (nth i stack 0 - EXPLORE_TYPE_FIRSTCATEGORY M) ->
  explore_title_levels M st stack (i :: pos) levels title
    = explore_title_levels M st stack pos levels title.
Proof.
  intros H. cbn [explore_title_levels].
  destruct (Z.geb_spec (u32 (nth i stack 0 - EXPLORE_TYPE_FIRSTCATEGORY M))
                       (Z.of_nat EXPLORE_CAT_COUNT)); [reflexivity | lia].
Qed.

Lemma explore_chain_text_snoc (st : explore_state_t) (cs : list (nat * Z))
    (c : nat * Z) :
  forall levels : nat,
    explore_chain_text st levels (cs ++ [c]) =
      explore_chain_text st levels cs ++
      (match (levels + length cs)%nat with O => [] | S _ => bytes_of_string " / " end) ++
      explore_filter_text st c.
Proof.
  induction cs as [|c0 cs IH]; intros levels.
  - cbn [app explore_chain_text length]. rewrite Nat.add_0_r, app_nil_r. reflexivity.
  - cbn [app explore_chain_text length]. rewrite IH.
    replace (S levels + length cs)%nat with (levels + S (length cs))%nat by lia.
    rewrite <- !app_assoc. reflexivity.
Qed.

Section Title.

Variables M F : Z.
Variable st : explore_state_t.
Hypothesis HF : 0 <= F < M.
Hypothesis HM : M + 13 + 2 ^ 30 <= 2 ^ 32.
Hypothesis Hinv : forall cat, (cat < EXPLORE_CAT_COUNT)%nat -> index_inv st cat.

Lemma explore_title_levels_category (c : nat * Z) (stack : list Z) (i : nat)
    (pos : list nat) (levels : nat) (title : list Z) :
  selectable st c ->
  nth i stack 0 = u32 (Z.of_nat (fst c) + EXPLORE_TYPE_FIRSTCATEGORY M) ->
  nth (S i) stack 0 = explore_select_type M st (snd c) ->
  explore_title_levels M st stack (i :: pos) levels title =
    explore_title_levels M st stack pos (S levels)
      (explore_append_title title
         ((match levels with O => [] | S _ => bytes_of_string " / " end) ++
          explore_filter_text st c)).
Proof.
  intros Hc Hi HS. pose proof Hc as [Hcat _].
  cbn [explore_title_levels]. rewrite Hi, HS, (explore_cat_type M F HF HM _ Hcat).
  unfold EXPLORE_CAT_COUNT in Hcat.
  replace (M + 3 + Z.of_nat (fst c) - EXPLORE_TYPE_FIRSTCATEGORY M)
    with (Z.of_nat (fst c)) by (unfold EXPLORE_TYPE_FIRSTCATEGORY; lia).
  rewrite (u32_small (Z.of_nat (fst c))) by lia.
  destruct (Z.geb_spec (Z.of_nat (fst c)) (Z.of_nat EXPLORE_CAT_COUNT)) as [Hge|_];
    [unfold EXPLORE_CAT_COUNT in Hge; lia|].
  rewrite Nat2Z.id. unfold explore_filter_text.
  destruct (explore_select_type_cases M F st HF HM Hinv c Hc)
    as [[H0 ->]|(k & Hk & Hne & Hlt & ->)].
  - unfold EXPLORE_TYPE_FILTERNULL. rewrite Z.eqb_refl. cbn [bind].
    rewrite H0. reflexivity.
  - unfold EXPLORE_TYPE_FILTERNULL.
    destruct (Z.eqb_spec (M + 13 + Z.of_nat k) M) as [E|_]; [lia|].
    replace (M + 13 + Z.of_nat k - EXPLORE_TYPE_FIRSTITEM M) with (Z.of_nat k)
      by (unfold EXPLORE_TYPE_FIRSTITEM, EXPLORE_TYPE_FIRSTCATEGORY, EXPLORE_CAT_COUNT; lia).
    rewrite (u32_small (Z.of_nat k)) by lia. rewrite Nat2Z.id, Hk. cbn [bind].
    destruct (Z.eqb_spec (snd c) 0) as [E|_]; [contradiction|]. reflexivity.
Qed.

(** The title that lines 887-906 read off a chain of filters. *)
Lemma explore_title_levels_path (cs : list (nat * Z)) :
  Forall (selectable st) cs ->
  forall (rest : list Z) (k levels : nat) (full : list Z),
    explore_title_levels M st (explore_path M F st cs ++ rest)
      (seq 0 (3 * length cs + k)) levels (take 1023 full) =
    explore_title_levels M st rest (seq 0 k) (levels + length cs)
      (take 1023 (full ++ explore_chain_text st levels cs)).
Proof.
  induction cs as [|c cs IH]; intros Hcs rest k levels full.
  - cbn [explore_path flat_map app length Nat.mul Nat.add explore_chain_text].
    rewrite Nat.add_0_r, app_nil_r. reflexivity.
  - apply Forall_cons in Hcs as [Hc Hcs].
    replace (3 * length (c :: cs) + k)%nat with (S (S (S (3 * length cs + k))))
      by (cbn [length]; lia).
    cbn [explore_path flat_map app seq].
    rewrite (explore_title_levels_category c _ 0%nat _ _ _ Hc); [|reflexivity|reflexivity].
    rewrite (explore_title_levels_skip M st _ 1)
      by (cbn [nth]; exact (explore_select_type_skip M F st HF HM Hinv c Hc)).
    rewrite (explore_title_levels_skip M st _ 2)
      by (cbn [nth]; exact (explore_additional_filter_skip M F HF HM)).
    rewrite <- !seq_shift, !explore_title_levels_shift.
    fold (explore_path M F st cs). rewrite explore_append_title_take.
    rewrite (IH Hcs). cbn [length explore_chain_text].
    replace (S levels + length cs)%nat with (levels + S (length cs))%nat by lia.
    rewrite <- !app_assoc. reflexivity.
Qed.

(** Lines 880-916 on a stack below the top that has no search on it. *)
Lemma explore_title_path_deep (t0 : Z) (X : list Z) (title : list Z) :
  X <> [] -> Forall (fun t => t <> EXPLORE_TYPE_SEARCH M) X ->
  explore_title_path M st (t0 :: X) title =
    do t <- explore_title_levels M st X (seq 0 (length X - 1)) 0 [];
    Ok (t, []).
Proof.
  intros Hne HX. unfold explore_title_path.
  rewrite (explore_find_string_path M st t0 X Hne HX).
  rewrite bool_decide_true by reflexivity.
  destruct X as [|x X]; [contradiction|].
  cbn [length Nat.sub]. rewrite Nat.sub_0_r.
  rewrite <- seq_shift, explore_title_levels_shift. reflexivity.
Qed.

End Title.

(** X25.  The title of the games of a chain of filters.  On a built index,
    with the database type below the item types, the third branch on the
    stack of a chain of at most 10 filters (the size of the arrays of lines
    1007-1009) returns its list, and the title it leaves
    is the text of the filters in the order they were chosen, each as
    "Category: Value" and " / " between two, then the number of games
    listed in parentheses, all cut to the 1023 bytes of the buffer. *)
Theorem explore_title_games (M F : Z) (env : explore_env) (st : explore_state_t)
    (cs : list (nat * Z)) (c : nat * Z) (t0 : Z) (title : list Z) :
  explore_build_list env = Ok st ->
  0 <= F < M -> M + 13 + 2 ^ 30 <= 2 ^ 32 ->
  Forall (selectable st) (cs ++ [c]) -> (length (cs ++ [c]) <= 10)%nat ->
  exists items,
    menu_displaylist_explore_filtered M F st
      (t0 :: explore_path M F st cs ++
             [u32 (Z.of_nat (fst c) + EXPLORE_TYPE_FIRSTCATEGORY M);
              explore_select_type M st (snd c)]) = Ok items /\
    explore_title_filtered M st
      (t0 :: explore_path M F st cs ++
             [u32 (Z.of_nat (fst c) + EXPLORE_TYPE_FIRSTCATEGORY M);
              explore_select_type M st (snd c)])
      title (Z.of_nat (length items)) =
      Ok (take 1023
            (explore_chain_text st 0 (cs ++ [c]) ++ bytes_of_string " (" ++
             snprintf_u
               (Z.of_nat (length (passing_indices (map level_of (cs ++ [c])) [] st))) ++
             bytes_of_string ")")).
Proof.
  intros Hbuild HF HM Hsel Hmax.
  pose proof (explore_build_list_index_inv env st) as Hinv.
  specialize (fun cat => Hinv cat Hbuild).
  pose proof (explore_build_list_split_ok env st Hbuild) as Hok.
  apply Forall_app in Hsel as Hboth. destruct Hboth as [Hcs Hc].
  apply Forall_cons in Hc as [Hc _].
  set (tc := u32 (Z.of_nat (fst c) + EXPLORE_TYPE_FIRSTCATEGORY M)).
  set (sel := explore_select_type M st (snd c)).
  set (X := explore_path M F st cs ++ [tc; sel]).
  destruct (explore_games_stack M F st cs c t0 HF HM Hinv Hcs Hc Hmax X eq_refl)
    as (Hcur & Hlen & HX & Hlevels).
  fold sel in Hcur.
  assert (HXne : X <> []) by (destruct X; [simpl in Hlen; lia | discriminate]).
  pose proof (explore_select_type_skip M F st HF HM Hinv c Hc) as Hskip. fold sel in Hskip.
  eexists. split.
  - exact (explore_filtered_entries_branch M F st Hok t0 sel X _ Hcur Hlen HX Hskip Hlevels).
  - unfold explore_title_filtered. cbv zeta.
    rewrite (explore_title_path_deep M st t0 X title HXne HX).
    replace (length X - 1)%nat with (3 * length cs + 1)%nat
      by (unfold X; rewrite length_app, length_explore_path; cbn [length]; lia).
    change (@nil Z) with (take 1023 (@nil Z)) at 1.
    unfold X at 1.
    rewrite (explore_title_levels_path M F st HF HM Hinv cs Hcs). cbn [seq].
    rewrite (explore_title_levels_category M F st HF HM Hinv c _ 0%nat [] _ _ Hc);
      [|reflexivity|reflexivity].
    cbn [explore_title_levels bind]. rewrite explore_append_title_take.
    replace (length (t0 :: X) - 1)%nat with (length X) by (cbn [length]; lia).
    rewrite Hcur.
    destruct (Z.ltb_spec (u32 (sel - EXPLORE_TYPE_FIRSTCATEGORY M))
                         (Z.of_nat EXPLORE_CAT_COUNT)) as [E|_]; [lia|].
    destruct (Nat.eqb_spec (length X) 1) as [E|_]; [lia|]. cbn [andb].
    rewrite explore_append_title_take. cbn [length].
    unfold snprintf_u. rewrite u32_usize, length_map.
    replace (Z.of_nat (S (length (passing_indices (map level_of (cs ++ [c])) [] st))) - 1)
      with (Z.of_nat (length (passing_indices (map level_of (cs ++ [c])) [] st))) by lia.
    rewrite explore_chain_text_snoc. cbn [app Nat.add]. rewrite <- !app_assoc.
    reflexivity.
Qed.

Lemma explore_title_games_witness :
  exists items,
    menu_displaylist_explore_filtered 4096 7 st_view
      (100 :: explore_path 4096 7 st_view [(4%nat, 2)] ++
              [u32 (Z.of_nat 0 + EXPLORE_TYPE_FIRSTCATEGORY 4096);
               explore_select_type 4096 st_view 1]) = Ok items /\
    explore_title_filtered 4096 st_view
      (100 :: explore_path 4096 7 st_view [(4%nat, 2)] ++
              [u32 (Z.of_nat 0 + EXPLORE_TYPE_FIRSTCATEGORY 4096);
               explore_select_type 4096 st_view 1])
      [] (Z.of_nat (length items)) =
      Ok (take 1023
            (explore_chain_text st_view 0 ([(4%nat, 2)] ++ [(0%nat, 1)]) ++
             bytes_of_string " (" ++
             snprintf_u
               (Z.of_nat (length (passing_indices
                                    (map level_of ([(4%nat, 2)] ++ [(0%nat, 1)])) []
                                    st_view))) ++
             bytes_of_string ")")).
Proof.
  apply (explore_title_games 4096 7 env_view st_view [(4%nat, 2)] (0%nat, 1) 100 []).
  - vm_compute. reflexivity.
  - lia.
  - lia.
  - cbn [app].
    repeat (apply Forall_cons; split;
            [split; [unfold EXPLORE_CAT_COUNT; cbn [fst]; lia | right; vm_compute; auto]|]).
    apply Forall_nil_2.
  - cbn [app length]. lia.
Defined.

(** X26.  The title of the values of a chain of filters.  On a built index
    the third branch on the stack of a chain of at most 10 filters (the
    size of the arrays of lines 1007-1009) followed by the item of a
    category returns its list, and the title it leaves is the
    text of the filters, then " - Select " and the name of the category,
    then in parentheses one less than the number of items listed, as an
    [unsigned] (4294967295 for an empty list), all cut to the 1023 bytes of
    the buffer. *)
Theorem explore_title_values (M F : Z) (env : explore_env) (st : explore_state_t)
    (cs : list (nat * Z)) (cat : nat) (t0 : Z) (title : list Z) :
  explore_build_list env = Ok st ->
  0 <= F < M -> M + 13 + 2 ^ 30 <= 2 ^ 32 ->
  cs <> [] -> Forall (selectable st) cs -> (length cs <= 10)%nat ->
  (cat < EXPLORE_CAT_COUNT)%nat ->
  exists items,
    menu_displaylist_explore_filtered M F st
      (t0 :: explore_path M F st cs ++
             [u32 (Z.of_nat cat + EXPLORE_TYPE_FIRSTCATEGORY M)]) = Ok items /\
    explore_title_filtered M st
      (t0 :: explore_path M F st cs ++
             [u32 (Z.of_nat cat + EXPLORE_TYPE_FIRSTCATEGORY M)])
      title (Z.of_nat (length items)) =
      Ok (take 1023
            (explore_chain_text st 0 cs ++ bytes_of_string " - Select " ++
             bytes_of_string (info_name (by_info cat)) ++ bytes_of_string " (" ++
             snprintf_u (Z.of_nat (length items) - 1) ++ bytes_of_string ")")).
Proof.
  intros Hbuild HF HM Hne Hcs Hmax Hcat.
  pose proof (explore_build_list_index_inv env st) as Hinv.
  specialize (fun cat => Hinv cat Hbuild).
  set (tc := u32 (Z.of_nat cat + EXPLORE_TYPE_FIRSTCATEGORY M)).
  set (X := explore_path M F st cs ++ [tc]).
  destruct (explore_values_stack M F st cs cat t0 HF HM Hinv Hne Hcs Hmax Hcat X eq_refl)
    as (Hcur & Hlen & HX & Hlevels).
  assert (HXne : X <> []) by (destruct X; [simpl in Hlen; lia | discriminate]).
  eexists. split.
  - exact (explore_filtered_values_branch M F st Hinv t0 X cat _ Hcur Hcat HXne HX Hlevels).
  - match goal with |- explore_title_filtered _ _ _ _ (Z.of_nat (length ?l)) = _ =>
      generalize l end.
    intros items.
    unfold explore_title_filtered. cbv zeta.
    rewrite (explore_title_path_deep M st t0 X title HXne HX).
    replace (length X - 1)%nat with (3 * length cs + 0)%nat
      by (unfold X; rewrite length_app, length_explore_path; cbn [length]; lia).
    change (@nil Z) with (take 1023 (@nil Z)) at 1.
    unfold X at 1.
    rewrite (explore_title_levels_path M F st HF HM Hinv cs Hcs).
    cbn [seq explore_title_levels bind app].
    replace (length (t0 :: X) - 1)%nat with (length X) by (cbn [length]; lia).
    rewrite Hcur.
    replace (M + 3 + Z.of_nat cat - EXPLORE_TYPE_FIRSTCATEGORY M) with (Z.of_nat cat)
      by (unfold EXPLORE_TYPE_FIRSTCATEGORY; lia).
    unfold EXPLORE_CAT_COUNT in Hcat.
    rewrite (u32_small (Z.of_nat cat)) by lia.
    destruct (Z.ltb_spec (Z.of_nat cat) (Z.of_nat EXPLORE_CAT_COUNT)) as [_|E];
      [|unfold EXPLORE_CAT_COUNT in E; lia].
    rewrite Nat2Z.id, !explore_append_title_take.
    unfold snprintf_u. rewrite u32_usize, <- !app_assoc. reflexivity.
Qed.

Lemma explore_title_values_witness :
  exists items,
    menu_displaylist_explore_filtered 4096 7 st_view
      (100 :: explore_path 4096 7 st_view [(4%nat, 2)] ++
              [u32 (Z.of_nat 0 + EXPLORE_TYPE_FIRSTCATEGORY 4096)]) = Ok items /\
    explore_title_filtered 4096 st_view
      (100 :: explore_path 4096 7 st_view [(4%nat, 2)] ++
              [u32 (Z.of_nat 0 + EXPLORE_TYPE_FIRSTCATEGORY 4096)])
      [] (Z.of_nat (length items)) =
      Ok (take 1023
            (explore_chain_text st_view 0 [(4%nat, 2)] ++ bytes_of_string " - Select " ++
             bytes_of_string (info_name (by_info 0)) ++ bytes_of_string " (" ++
             snprintf_u (Z.of_nat (length items) - 1) ++ bytes_of_string ")")).
Proof.
  apply (explore_title_values 4096 7 env_view st_view [(4%nat, 2)] 0 100 []).
  - vm_compute. reflexivity.
  - lia.
  - lia.
  - discriminate.
  - repeat (apply Forall_cons; split;
            [split; [unfold EXPLORE_CAT_COUNT; cbn [fst]; lia | right; vm_compute; auto]|]).
    apply Forall_nil_2.
  - cbn [length]. lia.
  - unfold EXPLORE_CAT_COUNT. lia.
Defined.

